(** * NVC core: a shallow embedding of selected C sources and their properties

    The development follows the C sources of the repository:
    - [src/type.c]            type objects, equality and convertibility;
    - the two revisions of [jit-layout.c]  ([layout_of]);
    - [src/hash.c]            the hash containers;
    - [src/util.c]            the diagnostic collector ([error_at], hints);
    - [src/rt/vcd.c]          the VCD waveform writer;
    - [src/vlog/vlog-simp.c]  the Verilog simplification pass.

    Pointers are addresses into an explicit store, NULL is [None] (or the
    address 0 where the code stores raw pointers in arrays), loops without a
    static bound carry a fuel argument and return [None] when it runs out;
    [None] also stands for a failed [assert] or a call to [fatal_trace]. *)

From Stdlib Require Import ZArith List Bool String Ascii Lia Sorted.
From stdpp Require Import base numbers strings option gmap list.

Set Default Proof Using "Type".

(* ===================================================================== *)
(** * Part I: the embedding                                               *)
(* ===================================================================== *)

(** Interned identifiers: two identifiers are equal iff they were interned
    from the same string, so an [ident_t] is modelled by its string. *)
Abbreviation ident_t := string.

(** Handles of syntax trees and of ranges (owned by tree.c, not modelled). *)
Abbreviation tree_t := positive.
Abbreviation range_t := positive.


(* --------------------------------------------------------------------- *)
(** ** Helpers of util.h                                                  *)
(* --------------------------------------------------------------------- *)

Module Common.

Local Open Scope Z_scope.

(** Modelled from the spec: [ALIGN_UP] is a macro of util.h, which is not
    among the sources.  The specification uses it as rounding up to a
    multiple ("the field's aligned offset", "ceil(bits/8) bytes"), so
    [ALIGN_UP p a] is the least multiple of [a] that is at least [p]. *)
Definition ALIGN_UP (p a : Z) : Z := (p + a - 1) / a * a.

(** Conversions between the C integer types that occur. *)
Definition to_unsigned (x : Z) : Z := x mod 2^32.
Definition to_int (x : Z) : Z := let y := x mod 2^32 in if y <? 2^31 then y else y - 2^32.
Definition to_uint64 (x : Z) : Z := x mod 2^64.
Definition to_int64 (x : Z) : Z := let y := x mod 2^64 in if y <? 2^63 then y else y - 2^64.

(** Arrays are lists; the index is a C integer. *)
Definition get_at {A} (l : list A) (i : Z) : option A :=
  if 0 <=? i then l !! Z.to_nat i else None.
Definition set_at {A} (l : list A) (i : Z) (x : A) : list A :=
  <[Z.to_nat i := x]> l.

(** [for (i = start; i < start + count; i++) body]; the body may fail. *)
Fixpoint for_loop {S} (count : nat) (i : Z) (body : Z -> S -> option S) (s : S)
    : option S :=
  match count with
  | O => Some s
  | Datatypes.S c => s' ← body i s; for_loop c (i + 1) body s'
  end.

End Common.
(* --------------------------------------------------------------------- *)
(** ** src/type.c                                                         *)
(* --------------------------------------------------------------------- *)

Module Type_.

(** [type_kind_t], in the order of [kind_text_map]. *)
Inductive type_kind_t :=
| T_SUBTYPE | T_INTEGER | T_REAL | T_ENUM | T_PHYSICAL | T_CARRAY | T_UARRAY
| T_RECORD | T_FILE | T_ACCESS | T_FUNC | T_INCOMPLETE | T_PROC | T_NONE
| T_PROTECTED.

#[global] Instance type_kind_eq_dec : EqDecision type_kind_t.
Proof. solve_decision. Defined.

(** The item bits used by [has_map]. *)
Inductive imask_t :=
| I_IDENT | I_BASE | I_RESOLUTION | I_CONSTR | I_DIMS | I_LITERALS | I_UNITS
| I_ELEM | I_INDEXCON | I_FIELDS | I_FILE | I_ACCESS | I_PTYPES | I_RESULT
| I_TEXT_BUF | I_DECLS | I_REF.

#[global] Instance imask_eq_dec : EqDecision imask_t.
Proof. solve_decision. Defined.

Definition has_map (k : type_kind_t) : list imask_t :=
  match k with
  | T_SUBTYPE    => [I_IDENT; I_BASE; I_RESOLUTION; I_CONSTR]
  | T_INTEGER    => [I_IDENT; I_DIMS]
  | T_REAL       => [I_IDENT; I_DIMS]
  | T_ENUM       => [I_IDENT; I_LITERALS; I_DIMS]
  | T_PHYSICAL   => [I_IDENT; I_UNITS; I_DIMS]
  | T_CARRAY     => [I_IDENT; I_ELEM; I_DIMS]
  | T_UARRAY     => [I_IDENT; I_INDEXCON; I_ELEM]
  | T_RECORD     => [I_IDENT; I_FIELDS]
  | T_FILE       => [I_IDENT; I_FILE]
  | T_ACCESS     => [I_IDENT; I_ACCESS]
  | T_FUNC       => [I_IDENT; I_PTYPES; I_RESULT; I_TEXT_BUF]
  | T_INCOMPLETE => [I_IDENT]
  | T_PROC       => [I_IDENT; I_PTYPES; I_TEXT_BUF]
  | T_NONE       => [I_IDENT]
  | T_PROTECTED  => [I_IDENT; I_DECLS; I_REF]
  end.

(** [has & I_X] *)
Definition has (k : type_kind_t) (i : imask_t) : bool :=
  bool_decide (i ∈ has_map k).

(** A [type_t] is the address of a type object. *)
Abbreviation type_t := positive.

(** The items of a type object.  Pointer items are [None] when NULL. *)
Record type_obj := TypeObj {
  kind       : type_kind_t;
  ident      : option ident_t;
  base       : option type_t;
  resolution : option tree_t;
  constr     : option tree_t;
  dims       : list range_t;
  elem       : option type_t;
  indexcon   : list type_t;
  fields     : list tree_t;
  access     : option type_t;
  file       : option type_t;
  ptypes     : list type_t;
  result     : option type_t
}.

(** The object arena holding the types. *)
Abbreviation heap := (gmap positive type_obj).

(** [lookup_item(&type_object, t, mask)]: fatal unless the kind of [t]
    has the item. *)
Definition lookup_item (H : heap) (t : type_t) (i : imask_t) : option type_obj :=
  o ← H !! t; if has (kind o) i then Some o else None.

Definition type_kind (H : heap) (t : type_t) : option type_kind_t :=
  kind <$> H !! t.

Definition type_has_ident (H : heap) (t : type_t) : option bool :=
  o ← lookup_item H t I_IDENT; Some (bool_decide (ident o ≠ None)).

Definition type_base (H : heap) (t : type_t) : option type_t :=
  o ← lookup_item H t I_BASE; base o.

Fixpoint type_ident (n : nat) (H : heap) (t : type_t) : option ident_t :=
  match n with
  | O => None
  | S n' =>
      o ← lookup_item H t I_IDENT;
      match ident o with
      | Some id => Some id
      | None =>
          match kind o with
          | T_SUBTYPE => b ← type_base H t; type_ident n' H b
          | T_NONE => Some "none"%string
          | _ => None
          end
      end
  end.

Definition type_dims (H : heap) (t : type_t) : option nat :=
  o ← lookup_item H t I_DIMS; Some (length (dims o)).

Definition type_dim (H : heap) (t : type_t) (n : nat) : option range_t :=
  o ← lookup_item H t I_DIMS; dims o !! n.

Fixpoint type_elem (n : nat) (H : heap) (t : type_t) : option type_t :=
  match n with
  | O => None
  | S n' =>
      o ← H !! t;
      match kind o with
      | T_SUBTYPE => b ← type_base H t; type_elem n' H b
      | T_NONE => Some t
      | _ => o' ← lookup_item H t I_ELEM; elem o'
      end
  end.

Definition type_params (H : heap) (t : type_t) : option nat :=
  o ← lookup_item H t I_PTYPES; Some (length (ptypes o)).

Definition type_param (H : heap) (t : type_t) (n : nat) : option type_t :=
  o ← lookup_item H t I_PTYPES; ptypes o !! n.

Fixpoint type_fields (n : nat) (H : heap) (t : type_t) : option nat :=
  match n with
  | O => None
  | S n' =>
      o ← H !! t;
      match kind o with
      | T_SUBTYPE => b ← type_base H t; type_fields n' H b
      | _ => o' ← lookup_item H t I_FIELDS; Some (length (fields o'))
      end
  end.

Fixpoint type_field (n : nat) (H : heap) (t : type_t) (i : nat) : option tree_t :=
  match n with
  | O => None
  | S n' =>
      o ← H !! t;
      match kind o with
      | T_SUBTYPE => b ← type_base H t; type_field n' H b i
      | _ => o' ← lookup_item H t I_FIELDS; fields o' !! i
      end
  end.

Definition type_result (H : heap) (t : type_t) : option type_t :=
  o ← lookup_item H t I_RESULT; result o.

Definition type_index_constrs (H : heap) (t : type_t) : option nat :=
  o ← lookup_item H t I_INDEXCON; Some (length (indexcon o)).

Definition type_has_constraint (H : heap) (t : type_t) : option bool :=
  o ← lookup_item H t I_CONSTR; Some (bool_decide (constr o ≠ None)).

Fixpoint type_access (n : nat) (H : heap) (t : type_t) : option type_t :=
  match n with
  | O => None
  | S n' =>
      o ← H !! t;
      match kind o with
      | T_SUBTYPE => b ← type_base H t; type_access n' H b
      | _ => o' ← lookup_item H t I_ACCESS; access o'
      end
  end.

(** The identifiers of the two universal types built by
    [type_universal_int] and [type_universal_real]. *)
Definition universal_integer : ident_t := "universal_integer"%string.
Definition universal_real : ident_t := "universal_real"%string.

Definition type_is_universal (H : heap) (t : type_t) : option bool :=
  o ← lookup_item H t I_IDENT;
  match kind o with
  | T_INTEGER => Some (bool_decide (ident o = Some universal_integer))
  | T_REAL => Some (bool_decide (ident o = Some universal_real))
  | _ => Some false
  end.

Fixpoint type_base_kind (n : nat) (H : heap) (t : type_t) : option type_kind_t :=
  match n with
  | O => None
  | S n' =>
      o ← H !! t;
      match kind o with
      | T_SUBTYPE => b ← type_base H t; type_base_kind n' H b
      | k => Some k
      end
  end.

Definition type_is_array n H t : option bool :=
  k ← type_base_kind n H t;
  Some (bool_decide (k = T_CARRAY) || bool_decide (k = T_UARRAY)).

Definition type_is_record n H t : option bool :=
  k ← type_base_kind n H t; Some (bool_decide (k = T_RECORD)).

Definition type_is_none n H t : option bool :=
  k ← type_base_kind n H t; Some (bool_decide (k = T_NONE)).

Definition type_is_enum n H t : option bool :=
  k ← type_base_kind n H t; Some (bool_decide (k = T_ENUM)).

Definition type_is_physical n H t : option bool :=
  k ← type_base_kind n H t; Some (bool_decide (k = T_PHYSICAL)).

Definition type_is_integer n H t : option bool :=
  k ← type_base_kind n H t; Some (bool_decide (k = T_INTEGER)).

Definition type_is_real n H t : option bool :=
  k ← type_base_kind n H t; Some (bool_decide (k = T_REAL)).

Fixpoint type_is_unconstrained (n : nat) (H : heap) (t : type_t) : option bool :=
  match n with
  | O => None
  | S n' =>
      o ← H !! t;
      match kind o with
      | T_SUBTYPE =>
          c ← type_has_constraint H t;
          if negb c then b ← type_base H t; type_is_unconstrained n' H b
          else Some false
      | k => Some (bool_decide (k = T_UARRAY))
      end
  end.

(** [while (t->object.kind == T_SUBTYPE) t = type_base(t);] *)
Fixpoint type_base_recur (n : nat) (H : heap) (t : type_t) : option type_t :=
  match n with
  | O => None
  | S n' =>
      o ← H !! t;
      match kind o with
      | T_SUBTYPE => b ← type_base H t; type_base_recur n' H b
      | _ => Some t
      end
  end.

(** The loop over the parameter types shared by [type_strict_eq] and
    [type_eq]: [for (i = 0; i < nparams; i++) if (!eq(...)) return false]. *)
Fixpoint params_all (cmp : type_t -> type_t -> option bool)
    (la lb : list type_t) : option bool :=
  match la, lb with
  | [], _ => Some true
  | x :: la', y :: lb' =>
      r ← cmp x y; if (r : bool) then params_all cmp la' lb' else Some false
  | _ :: _, [] => None
  end.

(** [type_eq] *)
Fixpoint type_eq (n : nat) (H : heap) (a b : type_t) {struct n} : option bool :=
  match n with
  | O => None
  | S n' =>
      if bool_decide (a = b) then Some true else
      a ← type_base_recur n' H a;
      b ← type_base_recur n' H b;
      oa ← H !! a; ob ← H !! b;
      let kind_a := kind oa in
      let kind_b := kind ob in
      let compare_c_u_arrays :=
        (bool_decide (kind_a = T_CARRAY) && bool_decide (kind_b = T_UARRAY))
        || (bool_decide (kind_a = T_UARRAY) && bool_decide (kind_b = T_CARRAY))
      in
      let incomplete :=
        bool_decide (kind_a = T_INCOMPLETE) || bool_decide (kind_b = T_INCOMPLETE)
      in
      if negb (bool_decide (kind_a = kind_b)) && negb compare_c_u_arrays
         && negb incomplete
      then Some false else
      ia ← type_has_ident H a; ib ← type_has_ident H b;
      if ia && ib && negb (bool_decide (ident oa = ident ob)) then Some false
      else
      if incomplete then Some true else
      if bool_decide (kind_a = T_ACCESS) then
        xa ← type_access n' H a; xb ← type_access n' H b; type_eq n' H xa xb
      else
      if compare_c_u_arrays then
        ea ← type_elem n' H a; eb ← type_elem n' H b; type_eq n' H ea eb
      else
      da ← (if has kind_a I_DIMS then
              x ← type_dims H a; y ← type_dims H b;
              Some (bool_decide (x = y))
            else Some true);
      if negb da then Some false else
      ra ← (if bool_decide (kind_a = T_FUNC) then
              x ← type_result H a; y ← type_result H b; type_eq n' H x y
            else Some true);
      if negb ra then Some false else
      if has kind_a I_PTYPES then
        x ← type_params H a; y ← type_params H b;
        if negb (bool_decide (x = y)) then Some false
        else params_all (type_eq n' H) (ptypes oa) (ptypes ob)
      else Some true
  end.

(** [type_strict_eq]; access types are compared with [type_eq]. *)
Fixpoint type_strict_eq (n : nat) (H : heap) (a b : type_t) {struct n}
    : option bool :=
  match n with
  | O => None
  | S n' =>
      if bool_decide (a = b) then Some true else
      oa ← H !! a; ob ← H !! b;
      let kind_a := kind oa in
      let kind_b := kind ob in
      if negb (bool_decide (kind_a = kind_b)) then Some false else
      ia ← type_has_ident H a; ib ← type_has_ident H b;
      if ia && ib && negb (bool_decide (ident oa = ident ob)) then Some false
      else
      if bool_decide (kind_a = T_ACCESS) then
        xa ← type_access n' H a; xb ← type_access n' H b; type_eq n' H xa xb
      else
      if has kind_a I_ELEM then
        ea ← type_elem n' H a; eb ← type_elem n' H b; type_strict_eq n' H ea eb
      else
      da ← (if has kind_a I_DIMS then
              x ← type_dims H a; y ← type_dims H b;
              Some (bool_decide (x = y))
            else Some true);
      if negb da then Some false else
      ra ← (if bool_decide (kind_a = T_FUNC) then
              x ← type_result H a; y ← type_result H b;
              type_strict_eq n' H x y
            else Some true);
      if negb ra then Some false else
      if has kind_a I_PTYPES then
        x ← type_params H a; y ← type_params H b;
        if negb (bool_decide (x = y)) then Some false
        else params_all (type_strict_eq n' H) (ptypes oa) (ptypes ob)
      else Some true
  end.

(** [type_is_convertible]: LRM 08 section 9.3.6. *)
Definition type_is_convertible (n : nat) (H : heap) (from to : type_t)
    : option bool :=
  fromk ← type_base_kind n H from;
  tok ← type_base_kind n H to;
  if bool_decide (fromk = T_NONE) then Some true
  else
    uf ← type_is_universal H from;
    if negb uf then Some false
    else
      ut ← type_is_universal H to;
      if (ut : bool) then Some false
      else if bool_decide (fromk = T_INTEGER) && bool_decide (tok = T_INTEGER)
      then Some true
      else if bool_decide (fromk = T_REAL) && bool_decide (tok = T_REAL)
      then Some true
      else Some false.

(** A blank object of a given kind, as returned by [type_new]. *)
Definition type_new (k : type_kind_t) : type_obj :=
  TypeObj k None None None None [] None [] [] None None [] None.

End Type_.

(* --------------------------------------------------------------------- *)
(** ** jit-layout.c (two revisions, both in src/unnamed/part_002)         *)
(* --------------------------------------------------------------------- *)

Module Layout.
Import Common Type_.

Local Open Scope Z_scope.

(** Functions of common.c and tree.c that [layout_of] calls and that are
    not among the sources.  They are parameters; [folded_bounds] and
    [folded_length] return [None] for the C result [false]. *)
Class Env := {
  bits_for_range : Z -> Z -> Z;
  folded_bounds  : range_t -> option (Z * Z);
  folded_length  : range_t -> option Z;
  dimension_of   : heap -> type_t -> Z;
  range_of       : heap -> type_t -> Z -> range_t;
  tree_type      : tree_t -> type_t
}.

(** [layout_class_t], in the order of the name table of [print_layout]:
    the zero value is [LC_DATA]. *)
Inductive layout_class_t := LC_DATA | LC_BOUNDS | LC_OFFSET | LC_EXTERNAL.

#[global] Instance layout_class_eq_dec : EqDecision layout_class_t.
Proof. solve_decision. Defined.

(** Modelled from the spec: jit-layout.h, which declares the two
    structures, is not among the sources.  [print_layout] writes the size
    and the alignment of a layout with [%d] and the four numbers of a
    part with [%u], and the loops compare [nparts] with an [int]: [size],
    [align] and [nparts] are [int]; [offset], [size], [repeat] and [align]
    of a part are [unsigned].  What is stored in a field is converted to
    the type of the field, with [to_int] or [to_unsigned]. *)
Record layout_part_t := Part {
  offset : Z;
  psize  : Z;
  repeat : Z;
  palign : Z;
  class  : layout_class_t
}.

Record jit_layout_t := JitLayout {
  size   : Z;
  align  : Z;
  nparts : Z;
  parts  : list layout_part_t
}.

(** LP64: [sizeof(void * )], [sizeof(int64_t)] and [sizeof(double)]. *)
Definition sizeof_ptr : Z := 8.
Definition sizeof_int64 : Z := 8.
Definition sizeof_double : Z := 8.

(** The static [cache] of [layout_of], keyed by the type. *)
Abbreviation cache_t := (gmap positive jit_layout_t).

(** Modelled from the spec: [type_elem_recur] belongs to a later type.c
    than the one among the sources; the element layout of an array is the
    "recursive" one, the element type followed through nested arrays. *)
Fixpoint type_elem_recur (n : nat) (H : heap) (t : type_t) : option type_t :=
  match n with
  | O => None
  | S n' =>
      elem ← type_elem n' H t;
      a ← type_is_array n' H elem;
      if (a : bool) then type_elem_recur n' H elem else Some elem
  end.

(** [count_sub_elements] (identical in both revisions).  [length] is an
    [int] and [dlen] an [int64_t]: the product is taken in 64 bits and
    cut to 32 when it is stored. *)
Fixpoint count_sub_elements `{Env} (n : nat) (H : heap) (type : type_t)
    : option Z :=
  match n with
  | O => None
  | S n' =>
      a ← type_is_array n' H type;
      if (a : bool) then
        u ← type_is_unconstrained n' H type;
        if (u : bool) then Some (-1)
        else
          let ndims := to_int (dimension_of H type) in
          elem ← type_elem n' H type;
          length ← count_sub_elements n' H elem;
          (fix loop (k : nat) (i : Z) (length : Z) : option Z :=
             match k with
             | O => Some length
             | S k' =>
                 match folded_length (range_of H type i) with
                 | None => Some (-1)
                 | Some dlen =>
                     loop k' (i + 1) (to_int (to_int64 (length * dlen)))
                 end
             end) (Z.to_nat ndims) 0 length
      else Some 1
  end.

(** The loop over the fields of a record: each field is laid out by [lay]
    at its aligned offset; the result is the final offset, the parts and
    the cache.  [offset] is an [int]: [ALIGN_UP] gives a value of the type
    of its first argument, and the sum wraps around.  The first revision
    sets the class of each part to [LC_DATA], the second leaves it zeroed,
    which is [LC_DATA] too. *)
Fixpoint record_loop `{Env}
    (lay : cache_t -> type_t -> option (jit_layout_t * cache_t))
    (field : Z -> option tree_t) (k : nat) (i : Z) (offset : Z)
    (c : cache_t) (ps : list layout_part_t)
    : option (Z * list layout_part_t * cache_t) :=
  match k with
  | O => Some (offset, ps, c)
  | S k' =>
      f ← field i;
      let ftype := tree_type f in
      r ← lay c ftype;
      let '(fl, c) := r in
      let offset := to_int (ALIGN_UP offset (align fl)) in
      let p := Part (to_unsigned offset) (to_unsigned (size fl)) 1
                 (to_unsigned (align fl)) LC_DATA in
      record_loop lay field k' (i + 1) (to_int (offset + size fl)) c
        (ps ++ [p])
  end.

(** The scalar layout: [bits_for_range] of the bounds of the base type.
    [bits] and [l->size] are [int]; the size of the part is the size
    converted to [unsigned], the alignment of the layout is that converted
    back, and the alignment of the part is that once more. *)
Definition scalar_layout `{Env} (n : nat) (H : heap) (type : type_t)
    : option jit_layout_t :=
  base ← type_base_recur n H type;
  r ← type_dim H base 0;
  match folded_bounds r with
  | None => None                      (* fatal_trace: unknown bounds *)
  | Some (low, high) =>
      let bits := to_int (bits_for_range low high) in
      let size := Z.quot (to_int (ALIGN_UP bits 8)) 8 in
      let psize := to_unsigned size in
      let align := to_int psize in
      Some (JitLayout size align 1
              [Part 0 psize 1 (to_unsigned align) LC_DATA])
  end.

(** The layout of a real. *)
Definition real_layout : jit_layout_t :=
  JitLayout sizeof_double sizeof_double 1
    [Part 0 sizeof_double 1 sizeof_double LC_DATA].

(** The layout of an array of [nelems] elements laid out as [el]:
    [nelems * el->size] is a product of two [int]. *)
Definition array_layout (nelems : Z) (el : jit_layout_t) : jit_layout_t :=
  JitLayout (to_int (nelems * size el)) (align el) 1
    [Part 0 (to_unsigned (size el)) (to_unsigned nelems)
       (to_unsigned (align el)) LC_DATA].

(** The layout of an array of unknown length, with the classes [c0] and
    [c1] of its two parts.  [ndims * 2] is a product of two [int]; the
    size is a sum in [size_t], stored in an [int]. *)
Definition pointer_layout (ndims : Z) (c0 c1 : layout_class_t)
    : jit_layout_t :=
  JitLayout (to_int (to_uint64 (sizeof_ptr
                                + to_uint64 (to_int (ndims * 2)) * sizeof_int64)))
    sizeof_ptr 2
    [Part 0 sizeof_ptr 1 sizeof_ptr c0;
     Part sizeof_ptr sizeof_int64 (to_unsigned (to_int (ndims * 2)))
       sizeof_int64 c1].

(** *** The first revision (2022-2024) *)
Module V1.

Fixpoint layout_of `{Env} (n : nat) (H : heap) (cache : cache_t) (type : type_t)
    {struct n} : option (jit_layout_t * cache_t) :=
  match n with
  | O => None
  | S n' =>
      match cache !! type with
      | Some l => Some (l, cache)
      | None =>
          is_int ← type_is_integer n' H type;
          is_phys ← type_is_physical n' H type;
          is_enum ← type_is_enum n' H type;
          is_real ← type_is_real n' H type;
          is_arr ← type_is_array n' H type;
          is_rec ← type_is_record n' H type;
          if is_int || is_phys || is_enum then
            l ← scalar_layout n' H type;
            Some (l, <[type := l]> cache)
          else if (is_real : bool) then
            let l := real_layout in
            Some (l, <[type := l]> cache)
          else if (is_arr : bool) then
            let ndims := to_int (dimension_of H type) in
            nelems ← count_sub_elements n' H type;
            if 0 <=? nelems then
              elem ← type_elem_recur n' H type;
              r ← layout_of n' H cache elem;
              let '(el, cache) := r in
              let l := array_layout nelems el in
              Some (l, <[type := l]> cache)
            else
              k ← type_kind H type;
              if bool_decide (k = T_SUBTYPE) then
                (* Reduce number of cached copies *)
                base ← type_base_recur n' H type;
                layout_of n' H cache base
              else
                let l := pointer_layout ndims LC_EXTERNAL LC_BOUNDS in
                Some (l, <[type := l]> cache)
          else if (is_rec : bool) then
            nf ← type_fields n' H type;
            let nfields := to_int (Z.of_nat nf) in
            r ← record_loop (layout_of n' H)
                  (fun i => type_field n' H type (Z.to_nat i))
                  (Z.to_nat nfields) 0 0 cache [];
            let '(offset, ps, cache) := r in
            let l := JitLayout offset sizeof_ptr nfields ps in
            Some (l, <[type := l]> cache)
          else None                   (* fatal_trace: cannot get layout *)
      end
  end.

End V1.

(** *** The second revision (2022-2023)

    It never assigns the class of a part: the parts come from
    [xcalloc_flex], zeroed, so their class is [LC_DATA]. *)
Module V2.

Fixpoint elem_loop (n : nat) (H : heap) (elem : type_t) : option type_t :=
  match n with
  | O => None
  | S n' =>
      a ← type_is_array n' H elem;
      if (a : bool) then e ← type_elem n' H elem; elem_loop n' H e
      else Some elem
  end.

Fixpoint layout_of `{Env} (n : nat) (H : heap) (cache : cache_t) (type : type_t)
    {struct n} : option (jit_layout_t * cache_t) :=
  match n with
  | O => None
  | S n' =>
      match cache !! type with
      | Some l => Some (l, cache)
      | None =>
          is_int ← type_is_integer n' H type;
          is_phys ← type_is_physical n' H type;
          is_enum ← type_is_enum n' H type;
          is_real ← type_is_real n' H type;
          is_arr ← type_is_array n' H type;
          is_rec ← type_is_record n' H type;
          if is_int || is_phys || is_enum then
            l ← scalar_layout n' H type;
            Some (l, <[type := l]> cache)
          else if (is_real : bool) then
            let l := real_layout in
            Some (l, <[type := l]> cache)
          else if (is_arr : bool) then
            let ndims := to_int (dimension_of H type) in
            nelems ← count_sub_elements n' H type;
            if nelems <? 0 then
              let l := pointer_layout ndims LC_DATA LC_DATA in
              Some (l, <[type := l]> cache)
            else
              e ← type_elem n' H type;
              elem ← elem_loop n' H e;
              r ← layout_of n' H cache elem;
              let '(el, cache) := r in
              let l := array_layout nelems el in
              Some (l, <[type := l]> cache)
          else if (is_rec : bool) then
            nf ← type_fields n' H type;
            let nfields := to_int (Z.of_nat nf) in
            r ← record_loop (layout_of n' H)
                  (fun i => type_field n' H type (Z.to_nat i))
                  (Z.to_nat nfields) 0 0 cache [];
            let '(offset, ps, cache) := r in
            let l := JitLayout offset sizeof_ptr nfields ps in
            Some (l, <[type := l]> cache)
          else None                   (* fatal_trace: cannot get layout *)
      end
  end.

End V2.

End Layout.

(* --------------------------------------------------------------------- *)
(** ** jit-layout.c: signal layouts                                       *)
(* --------------------------------------------------------------------- *)

Module LayoutSig.
Import Common Type_ Layout.

Local Open Scope Z_scope.

(** Two more functions of common.c that are not among the sources. *)
Class SigEnv := {
  type_const_bounds   : heap -> type_t -> bool;
  type_is_homogeneous : heap -> type_t -> bool
}.

(** [type_is_scalar] of type.c. *)
Definition type_is_scalar (n : nat) (H : heap) (t : type_t) : option bool :=
  base ← type_base_kind n H t;
  Some (bool_decide (base = T_INTEGER) || bool_decide (base = T_REAL)
        || bool_decide (base = T_ENUM) || bool_decide (base = T_PHYSICAL)
        || bool_decide (base = T_NONE)).

(** [l->size += p->size * p->repeat]: the product of two [unsigned] is
    added to the [int] as an [unsigned] and the sum is stored in the
    [int]. *)
Definition add_part (size : Z) (p : layout_part_t) : Z :=
  to_int (to_unsigned (to_unsigned size + to_unsigned (psize p * repeat p))).

(** The pointer to the signal or record data, then the offset when the
    type is homogeneous: the parts, and [l->size] after them ([l] comes
    zeroed from [xcalloc_flex]). *)
Definition pointer_parts (has_offset : bool) : list layout_part_t * Z :=
  let p0 := Part 0 sizeof_ptr 1 sizeof_ptr LC_EXTERNAL in
  let size := add_part 0 p0 in
  if has_offset then
    let p1 := Part (to_unsigned (to_int (ALIGN_UP size 8))) 8 1 8 LC_OFFSET in
    ([p0; p1], add_part size p1)
  else ([p0], size).

(** [signal_layout_of]; the printing under [OPT_LAYOUT_VERBOSE] is left
    out. *)
Fixpoint signal_layout_of `{Env} `{SigEnv} (n : nat) (H : heap)
    (cache : cache_t) (type : type_t) {struct n}
    : option (jit_layout_t * cache_t) :=
  match n with
  | O => None
  | S n' =>
      match cache !! type with
      | Some l => Some (l, cache)
      | None =>
          sc ← type_is_scalar n' H type;
          if (sc : bool) then
            let l := JitLayout 16 8 2
                       [Part 0 sizeof_ptr 1 sizeof_ptr LC_EXTERNAL;
                        Part 8 8 1 8 LC_OFFSET] in
            Some (l, <[type := l]> cache)
          else
            rc ← type_is_record n' H type;
            if (rc : bool) then
              nf ← type_fields n' H type;
              let nfields := to_int (Z.of_nat nf) in
              r ← record_loop (signal_layout_of n' H)
                    (fun i => type_field n' H type (Z.to_nat i))
                    (Z.to_nat nfields) 0 0 cache [];
              let '(offset, ps, cache) := r in
              let l := JitLayout offset sizeof_ptr nfields ps in
              Some (l, <[type := l]> cache)
            else if type_const_bounds H type then
              let has_offset := type_is_homogeneous H type in
              let '(ps, size) := pointer_parts has_offset in
              let l := JitLayout size sizeof_ptr
                         (1 + (if has_offset then 1 else 0)) ps in
              Some (l, <[type := l]> cache)
            else
              k ← type_kind H type;
              if bool_decide (k = T_SUBTYPE) then
                (* Reduce number of cached copies *)
                base ← type_base_recur n' H type;
                signal_layout_of n' H cache base
              else
                let has_offset := type_is_homogeneous H type in
                let ndims := to_int (dimension_of H type) in
                let '(ps, size) := pointer_parts has_offset in
                let p := Part (to_unsigned (to_int (ALIGN_UP size 8))) 8
                           (to_unsigned (to_int (ndims * 2))) 8 LC_BOUNDS in
                let l := JitLayout (add_part size p) sizeof_ptr
                           (2 + (if has_offset then 1 else 0)) (ps ++ [p]) in
                Some (l, <[type := l]> cache)
      end
  end.

End LayoutSig.

(* --------------------------------------------------------------------- *)
(** ** src/hash.c                                                         *)
(* --------------------------------------------------------------------- *)

Module Hash.
Import Common.

Local Open Scope Z_scope.

(** The bit mixers and [next_power_of_2] are inline functions of util.h,
    which is not among the sources: they are parameters, and nothing is
    assumed about the mixers. *)
Class Util := {
  mix_bits_64 : Z -> Z;
  mix_bits_32 : Z -> Z;
  next_power_of_2 : Z -> Z
}.

Definition UINT_MAX : Z := 2^32 - 1.
Definition HASH_BEGIN : Z := 0.
Definition HASH_END : Z := UINT_MAX.

(** Pointers stored in the tables are machine words; NULL is 0. *)
Definition NULL : Z := 0.

(** [hash_slot]; the key must not be NULL (assert). *)
Definition hash_slot `{Util} (size key : Z) : option Z :=
  if key =? NULL then None
  else Some (Z.land (mix_bits_64 key) (to_unsigned (size - 1))).

(* ..................................................................... *)
(** *** Hash table of pointers to pointers                                *)

Module Ptr.

Record hash_t := Hash {
  size    : Z;
  members : Z;
  values  : list Z;
  keys    : list Z
}.

Definition hash_new `{Util} (sz : Z) : hash_t :=
  let size := next_power_of_2 sz in
  Hash size 0 (replicate (Z.to_nat size) NULL) (replicate (Z.to_nat size) NULL).

(** The probing loop of [hash_put]:
    [for (int i = 1; ; slot = (slot + i++) & (h->size - 1))]. *)
Fixpoint hash_put_loop (fuel : nat) (h : hash_t) (key value slot i : Z)
    : option (bool * hash_t) :=
  match fuel with
  | O => None
  | S fuel' =>
      k ← get_at (keys h) slot;
      if k =? key then
        Some (true, Hash (size h) (members h) (set_at (values h) slot value)
                      (keys h))
      else if k =? NULL then
        Some (false, Hash (size h) (to_unsigned (members h + 1))
                       (set_at (values h) slot value)
                       (set_at (keys h) slot key))
      else
        hash_put_loop fuel' h key value
          (Z.land (slot + i) (to_unsigned (size h - 1))) (i + 1)
  end.

Fixpoint hash_put `{Util} (n : nat) (h : hash_t) (key value : Z) {struct n}
    : option (bool * hash_t) :=
  match n with
  | O => None
  | S n' =>
      h ← (if size h / 2 <=? members h then
             (* Rebuild the hash table with a larger size *)
             let old_size := to_int (size h) in
             let new_size := to_unsigned (size h * 2) in
             let old_keys := keys h in
             let old_values := values h in
             for_loop (Z.to_nat old_size) 0
               (fun i h =>
                  k ← get_at old_keys i;
                  if negb (k =? NULL) then
                    v ← get_at old_values i;
                    snd <$> hash_put n' h k v
                  else Some h)
               (Hash new_size 0 (replicate (Z.to_nat new_size) NULL)
                  (replicate (Z.to_nat new_size) NULL))
           else Some h);
      slot ← hash_slot (size h) key;
      hash_put_loop n' h key value slot 1
  end.

Fixpoint hash_delete_loop (fuel : nat) (h : hash_t) (key slot i : Z)
    : option hash_t :=
  match fuel with
  | O => None
  | S fuel' =>
      k ← get_at (keys h) slot;
      if k =? key then
        Some (Hash (size h) (members h) (set_at (values h) slot NULL) (keys h))
      else if k =? NULL then Some h
      else
        hash_delete_loop fuel' h key
          (Z.land (slot + i) (to_unsigned (size h - 1))) (i + 1)
  end.

Definition hash_delete `{Util} (n : nat) (h : hash_t) (key : Z) : option hash_t :=
  slot ← hash_slot (size h) key;
  hash_delete_loop n h key slot 1.

Fixpoint hash_get_loop (fuel : nat) (h : hash_t) (key slot i : Z) : option Z :=
  match fuel with
  | O => None
  | S fuel' =>
      k ← get_at (keys h) slot;
      if k =? key then get_at (values h) slot
      else if k =? NULL then Some NULL
      else
        hash_get_loop fuel' h key
          (Z.land (slot + i) (to_unsigned (size h - 1))) (i + 1)
  end.

Definition hash_get `{Util} (n : nat) (h : hash_t) (key : Z) : option Z :=
  slot ← hash_slot (size h) key;
  hash_get_loop n h key slot 1.

(** [hash_iter]: the result is the return value, the new [*now] and, when
    true, the key and value stored through the out parameters. *)
Fixpoint hash_iter_loop (fuel : nat) (h : hash_t) (now : Z)
    : option (bool * Z * option (Z * Z)) :=
  match fuel with
  | O => None
  | S fuel' =>
      if now <? size h then
        let old := now in
        let now := to_unsigned (now + 1) in
        k ← get_at (keys h) old;
        v ← get_at (values h) old;
        if negb (k =? NULL) && negb (v =? NULL) then Some (true, now, Some (k, v))
        else hash_iter_loop fuel' h now
      else Some (false, HASH_END, None)
  end.

Definition hash_iter (h : hash_t) (now : Z) : option (bool * Z * option (Z * Z)) :=
  if now =? HASH_END then None
  else hash_iter_loop (S (Z.to_nat (size h - now))) h now.

Definition hash_members (h : hash_t) : Z := members h.

End Ptr.

(* ..................................................................... *)
(** *** Hash table of strings to pointers                                 *)

Module Str.

(** A key slot is NULL or points to a string owned by the table. *)
Record shash_t := SHash {
  size    : Z;
  members : Z;
  values  : list Z;
  keys    : list (option string)
}.

(** [int c = *key]: the value of a [char], which is signed (the bytes
    from 128 on are negative), as on x86-64 Linux. *)
Definition char_value (c : ascii) : Z :=
  let b := Z.of_nat (nat_of_ascii c) in
  if b <? 128 then b else b - 256.

(** DJB2 over the characters of the key, in 32 bits.  A key is a C
    string: a [string] without the NUL character stands for it. *)
Fixpoint djb2 (hash : Z) (key : string) : Z :=
  match key with
  | EmptyString => hash
  | String c key' =>
      djb2 (to_unsigned (to_unsigned (to_unsigned (Z.shiftl hash 5) + hash)
                         + char_value c)) key'
  end.

Definition shash_slot `{Util} (h : shash_t) (key : string) : Z :=
  Z.land (mix_bits_32 (djb2 5381 key)) (to_unsigned (size h - 1)).

Definition shash_new `{Util} (sz : Z) : shash_t :=
  let size := next_power_of_2 sz in
  SHash size 0 (replicate (Z.to_nat size) NULL) (replicate (Z.to_nat size) None).

Fixpoint shash_put_copy_loop (fuel : nat) (h : shash_t) (key : string)
    (value slot : Z) : option shash_t :=
  match fuel with
  | O => None
  | S fuel' =>
      k ← get_at (keys h) slot;
      match k with
      | None =>
          Some (SHash (size h) (to_unsigned (members h + 1))
                  (set_at (values h) slot value)
                  (set_at (keys h) slot (Some key)))
      | Some k' =>
          if String.eqb k' key then
            Some (SHash (size h) (members h) (set_at (values h) slot value)
                    (keys h))
          else
            shash_put_copy_loop fuel' h key value
              (Z.land (slot + 1) (to_unsigned (size h - 1)))
      end
  end.

Definition shash_put_copy `{Util} (n : nat) (h : shash_t) (key : string)
    (value : Z) : option shash_t :=
  shash_put_copy_loop n h key value (shash_slot h key).

Definition shash_put `{Util} (n : nat) (h : shash_t) (key : string) (value : Z)
    : option shash_t :=
  h ← (if size h / 2 <=? members h then
         let old_size := to_int (size h) in
         let new_size := to_unsigned (size h * 2) in
         let old_keys := keys h in
         let old_values := values h in
         for_loop (Z.to_nat old_size) 0
           (fun i h =>
              k ← get_at old_keys i;
              match k with
              | Some k' => v ← get_at old_values i; shash_put_copy n h k' v
              | None => Some h
              end)
           (SHash new_size 0 (replicate (Z.to_nat new_size) NULL)
              (replicate (Z.to_nat new_size) None))
       else Some h);
  shash_put_copy n h key value.

Fixpoint shash_get_loop (fuel : nat) (h : shash_t) (key : string) (slot : Z)
    : option Z :=
  match fuel with
  | O => None
  | S fuel' =>
      k ← get_at (keys h) slot;
      match k with
      | None => Some NULL
      | Some k' =>
          if String.eqb k' key then get_at (values h) slot
          else shash_get_loop fuel' h key
                 (Z.land (slot + 1) (to_unsigned (size h - 1)))
      end
  end.

Definition shash_get `{Util} (n : nat) (h : shash_t) (key : string) : option Z :=
  shash_get_loop n h key (shash_slot h key).

Fixpoint shash_delete_loop (fuel : nat) (h : shash_t) (key : string) (slot : Z)
    : option shash_t :=
  match fuel with
  | O => None
  | S fuel' =>
      k ← get_at (keys h) slot;
      match k with
      | None => Some h
      | Some k' =>
          if String.eqb k' key then
            Some (SHash (size h) (members h) (set_at (values h) slot NULL)
                    (keys h))
          else shash_delete_loop fuel' h key
                 (Z.land (slot + 1) (to_unsigned (size h - 1)))
      end
  end.

Definition shash_delete `{Util} (n : nat) (h : shash_t) (key : string)
    : option shash_t :=
  shash_delete_loop n h key (shash_slot h key).

End Str.

(* ..................................................................... *)
(** *** Hash of unsigned integers to pointers                             *)

Module Int.

Record ihash_t := IHash {
  size     : Z;
  members  : Z;
  values   : list Z;
  keys     : list Z;
  mask     : list Z;
  cachekey : Z;
  cacheval : Z
}.

Definition ihash_slot (h : ihash_t) (key : Z) : Z :=
  let key := to_uint64 (Z.lxor key (Z.shiftr key 30) * 0xbf58476d1ce4e5b9) in
  let key := to_uint64 (Z.lxor key (Z.shiftr key 27) * 0x94d049bb133111eb) in
  let key := Z.lxor key (Z.shiftr key 31) in
  Z.land key (to_unsigned (size h - 1)).

(** [h->mask[slot / 64] & (UINT64_C(1) << (slot % 64))] *)
Definition mask_test (mask : list Z) (slot : Z) : option bool :=
  w ← get_at mask (slot / 64);
  Some (negb (Z.land w (Z.shiftl 1 (slot mod 64)) =? 0)).

(** [h->mask[slot / 64] |= (UINT64_C(1) << (slot % 64))] *)
Definition mask_set (mask : list Z) (slot : Z) : option (list Z) :=
  w ← get_at mask (slot / 64);
  Some (set_at mask (slot / 64) (Z.lor w (Z.shiftl 1 (slot mod 64)))).

(** [ihash_new]: the cache fields come from [xmalloc] and hold whatever
    was there ([junk_key], [junk_val]); the mask gets [size + 63/64], that
    is [size], words. *)
Definition ihash_new `{Util} (sz junk_key junk_val : Z) : ihash_t :=
  let size := next_power_of_2 sz in
  IHash size 0 (replicate (Z.to_nat size) NULL) (replicate (Z.to_nat size) 0)
    (replicate (Z.to_nat (size + 63 / 64)) 0) junk_key junk_val.

Fixpoint ihash_put_loop (fuel : nat) (h : ihash_t) (key value slot : Z)
    : option ihash_t :=
  match fuel with
  | O => None
  | S fuel' =>
      m ← mask_test (mask h) slot;
      if negb m then
        mask' ← mask_set (mask h) slot;
        Some (IHash (size h) (to_unsigned (members h + 1))
                (set_at (values h) slot value) (set_at (keys h) slot key)
                mask' (cachekey h) (cacheval h))
      else
        k ← get_at (keys h) slot;
        if k =? key then
          Some (IHash (size h) (members h) (set_at (values h) slot value)
                  (keys h) (mask h) (cachekey h) (cacheval h))
        else
          ihash_put_loop fuel' h key value
            (Z.land (slot + 1) (to_unsigned (size h - 1)))
  end.

Fixpoint ihash_put (n : nat) (h : ihash_t) (key value : Z) {struct n}
    : option ihash_t :=
  match n with
  | O => None
  | S n' =>
      h ← (if size h / 2 <=? members h then
             let old_size := to_int (size h) in
             let new_size := to_unsigned (size h * 2) in
             let old_keys := keys h in
             let old_mask := mask h in
             let old_values := values h in
             for_loop (Z.to_nat old_size) 0
               (fun i h =>
                  m ← mask_test old_mask i;
                  if (m : bool) then
                    k ← get_at old_keys i;
                    v ← get_at old_values i;
                    ihash_put n' h k v
                  else Some h)
               (IHash new_size 0 (replicate (Z.to_nat new_size) NULL)
                  (replicate (Z.to_nat new_size) 0)
                  (replicate (Z.to_nat (ALIGN_UP new_size 64 / 64)) 0)
                  (cachekey h) (cacheval h))
           else Some h);
      let h := IHash (size h) (members h) (values h) (keys h) (mask h)
                 key value in
      ihash_put_loop n' h key value (ihash_slot h key)
  end.

Fixpoint ihash_get_loop (fuel : nat) (h : ihash_t) (key slot : Z)
    : option (Z * ihash_t) :=
  match fuel with
  | O => None
  | S fuel' =>
      m ← mask_test (mask h) slot;
      if negb m then
        Some (NULL, IHash (size h) (members h) (values h) (keys h) (mask h)
                      (cachekey h) NULL)
      else
        k ← get_at (keys h) slot;
        if k =? key then
          v ← get_at (values h) slot;
          Some (v, IHash (size h) (members h) (values h) (keys h) (mask h)
                     (cachekey h) v)
        else
          ihash_get_loop fuel' h key
            (Z.land (slot + 1) (to_unsigned (size h - 1)))
  end.

(** [ihash_get] updates the one-entry cache: it returns the value and the
    table. *)
Definition ihash_get (n : nat) (h : ihash_t) (key : Z) : option (Z * ihash_t) :=
  if (0 <? members h) && (key =? cachekey h) then Some (cacheval h, h)
  else
    let h := IHash (size h) (members h) (values h) (keys h) (mask h)
               key (cacheval h) in
    ihash_get_loop n h key (ihash_slot h key).

End Int.

(* ..................................................................... *)
(** *** Hash table that supports concurrent updates                       *)

Module Conc.

(** Addresses of chain nodes. *)
Abbreviation node_p := positive.

Record chash_node_t := Node {
  chain : option node_p;
  key   : Z;
  value : Z
}.

(** The table, the heap holding its nodes, the next address [xmalloc]
    hands out, and (ghost) the number of [atomic_cas] calls made by the
    thread under observation. *)
Record state := State {
  size     : Z;
  members  : Z;
  slots    : list (option node_p);
  nodes    : gmap positive chash_node_t;
  next_new : positive;
  n_cas    : nat
}.

(** The values of [chash_node_t **p]: the address of a slot or of the
    [chain] field of a node. *)
Inductive link := SlotLink (slot : Z) | ChainLink (it : node_p).

Definition load_acquire (s : state) (p : link) : option (option node_p) :=
  match p with
  | SlotLink i => get_at (slots s) i
  | ChainLink a => chain <$> nodes s !! a
  end.

Definition store_link (s : state) (p : link) (v : option node_p) : state :=
  match p with
  | SlotLink i =>
      State (size s) (members s) (set_at (slots s) i v) (nodes s)
        (next_new s) (n_cas s)
  | ChainLink a =>
      State (size s) (members s) (slots s)
        (alter (fun nd => Node v (key nd) (value nd)) a (nodes s))
        (next_new s) (n_cas s)
  end.

(** [store_release(&(it->value), value)] *)
Definition store_value (s : state) (it : node_p) (v : Z) : state :=
  State (size s) (members s) (slots s)
    (alter (fun nd => Node (chain nd) (key nd) v) it (nodes s))
    (next_new s) (n_cas s).

Definition xmalloc (nd : chash_node_t) (s : state) : node_p * state :=
  (next_new s,
   State (size s) (members s) (slots s) (<[next_new s := nd]> (nodes s))
     (Pos.succ (next_new s)) (n_cas s)).

Definition free (a : node_p) (s : state) : state :=
  State (size s) (members s) (slots s) (delete a (nodes s)) (next_new s)
    (n_cas s).

Definition count_cas (s : state) : state :=
  State (size s) (members s) (slots s) (nodes s) (next_new s) (S (n_cas s)).

Definition with_n_cas (s : state) (n : nat) : state :=
  State (size s) (members s) (slots s) (nodes s) (next_new s) n.

Definition chash_new `{Util} (sz : Z) : state :=
  let roundup := next_power_of_2 sz in
  State roundup 0 (replicate (Z.to_nat roundup) None) ∅ 1%positive 0.

(** The inner loop of [chash_put]: follow the chain from [p]; the result is
    the node holding the key, or the link that was read as NULL. *)
Fixpoint chash_put_walk (fuel : nat) (s : state) (p : link) (k : Z)
    : option (link + node_p) :=
  match fuel with
  | O => None
  | S fuel' =>
      it ← load_acquire s p;
      match it with
      | None => Some (inl p)
      | Some a =>
          nd ← nodes s !! a;
          if key nd =? k then Some (inr a)
          else chash_put_walk fuel' s (ChainLink a) k
      end
  end.

(** [chash_put].  Other threads may run between the end of the walk and
    the compare-and-swap: [env] lists, for each attempt of this call, the
    insertions they complete in that window. *)
Fixpoint chash_put `{Util} (n : nat) (env : list (list (Z * Z))) (s : state)
    (k v : Z) {struct n} : option (bool * state) :=
  match n with
  | O => None
  | S n' =>
      slot ← hash_slot (size s) k;
      w ← chash_put_walk n' s (SlotLink slot) k;
      match w with
      | inr it => Some (true, store_value s it v)
      | inl p =>
          let '(new, s) := xmalloc (Node None k v) s in
          s ← foldl (fun acc kv =>
                       s ← acc;
                       r ← chash_put n' [] s kv.1 kv.2;
                       Some (with_n_cas r.2 (n_cas s)))
                 (Some s) (default [] (head env));
          cur ← load_acquire s p;
          let s := count_cas s in
          match cur with
          | None => Some (false, store_link s p (Some new))
          | Some _ => chash_put n' (tail env) (free new s) k v
          end
      end
  end.

Fixpoint chash_get_loop (fuel : nat) (s : state) (it : option node_p) (k : Z)
    : option Z :=
  match fuel with
  | O => None
  | S fuel' =>
      match it with
      | None => Some NULL
      | Some a =>
          nd ← nodes s !! a;
          if key nd =? k then Some (value nd)
          else chash_get_loop fuel' s (chain nd) k
      end
  end.

Definition chash_get `{Util} (n : nat) (s : state) (k : Z) : option Z :=
  slot ← hash_slot (size s) k;
  it ← load_acquire s (SlotLink slot);
  chash_get_loop n s it k.

End Conc.

End Hash.
(* --------------------------------------------------------------------- *)
(** ** src/hash.c: set of pointers                                        *)
(* --------------------------------------------------------------------- *)

Module Hset.
Import Common Hash.
Local Open Scope Z_scope.

Record hset_t := HSet {
  size    : Z;
  members : Z;
  keys    : list Z
}.

Definition hset_new `{Util} (sz : Z) : hset_t :=
  let size := next_power_of_2 sz in
  HSet size 0 (replicate (Z.to_nat size) NULL).

(** The probing loop of [hset_insert]:
    [for (; ; slot = (slot + 1) & (h->size - 1))]. *)
Fixpoint hset_insert_loop (fuel : nat) (h : hset_t) (key slot : Z)
    : option hset_t :=
  match fuel with
  | O => None
  | S fuel' =>
      k ← get_at (keys h) slot;
      if k =? key then Some h
      else if k =? NULL then
        Some (HSet (size h) (to_unsigned (members h + 1))
                (set_at (keys h) slot key))
      else
        hset_insert_loop fuel' h key
          (Z.land (slot + 1) (to_unsigned (size h - 1)))
  end.

Fixpoint hset_insert `{Util} (n : nat) (h : hset_t) (key : Z) {struct n}
    : option hset_t :=
  match n with
  | O => None
  | S n' =>
      h ← (if size h / 2 <=? members h then
             let old_size := to_int (size h) in
             let new_size := to_unsigned (size h * 2) in
             let old_keys := keys h in
             for_loop (Z.to_nat old_size) 0
               (fun i h =>
                  k ← get_at old_keys i;
                  if negb (k =? NULL) then hset_insert n' h k else Some h)
               (HSet new_size 0 (replicate (Z.to_nat new_size) NULL))
           else Some h);
      slot ← hash_slot (size h) key;
      hset_insert_loop n' h key slot
  end.

Fixpoint hset_contains_loop (fuel : nat) (h : hset_t) (key slot : Z)
    : option bool :=
  match fuel with
  | O => None
  | S fuel' =>
      k ← get_at (keys h) slot;
      if k =? key then Some true
      else if k =? NULL then Some false
      else
        hset_contains_loop fuel' h key
          (Z.land (slot + 1) (to_unsigned (size h - 1)))
  end.

Definition hset_contains `{Util} (n : nat) (h : hset_t) (key : Z)
    : option bool :=
  slot ← hash_slot (size h) key;
  hset_contains_loop n h key slot.

End Hset.

(* --------------------------------------------------------------------- *)
(** ** src/hash.c: generic hash table                                     *)
(* --------------------------------------------------------------------- *)

Module Ghash.
Import Common Hash.
Local Open Scope Z_scope.

(** The two function pointers are functions on machine words; the result
    of [cmp_fn] is used as a truth value. *)
Record ghash_t := GHash {
  size    : Z;
  members : Z;
  hash_fn : Z -> Z;
  cmp_fn  : Z -> Z -> bool;
  values  : list Z;
  keys    : list Z
}.

(** [ghash_slot]; the key must not be NULL (assert). *)
Definition ghash_slot `{Util} (h : ghash_t) (key : Z) : option Z :=
  if key =? NULL then None
  else
    let hash := to_uint64 (hash_fn h key) in
    Some (Z.land (mix_bits_64 hash) (to_unsigned (size h - 1))).

Definition ghash_new `{Util} (sz : Z) (hash_fn : Z -> Z)
    (cmp_fn : Z -> Z -> bool) : ghash_t :=
  let size := next_power_of_2 sz in
  GHash size 0 hash_fn cmp_fn
    (replicate (Z.to_nat size) NULL) (replicate (Z.to_nat size) NULL).

(** The probing loop of [ghash_put]:
    [for (int i = 1; ; slot = (slot + i++) & (h->size - 1))].  A slot
    whose key compares equal has its value replaced, and the loop goes
    on: only an empty slot ends it. *)
Fixpoint ghash_put_loop (fuel : nat) (h : ghash_t) (key value slot i : Z)
    : option ghash_t :=
  match fuel with
  | O => None
  | S fuel' =>
      k ← get_at (keys h) slot;
      if k =? NULL then
        Some (GHash (size h) (to_unsigned (members h + 1)) (hash_fn h)
                (cmp_fn h) (set_at (values h) slot value)
                (set_at (keys h) slot key))
      else
        let h :=
          if (k =? key) || cmp_fn h k key then
            GHash (size h) (members h) (hash_fn h) (cmp_fn h)
              (set_at (values h) slot value) (keys h)
          else h in
        ghash_put_loop fuel' h key value
          (Z.land (slot + i) (to_unsigned (size h - 1))) (i + 1)
  end.

Fixpoint ghash_put `{Util} (n : nat) (h : ghash_t) (key value : Z) {struct n}
    : option ghash_t :=
  match n with
  | O => None
  | S n' =>
      h ← (if size h / 2 <=? members h then
             (* Rebuild the hash table with a larger size *)
             let old_size := to_int (size h) in
             let new_size := to_unsigned (size h * 2) in
             let old_keys := keys h in
             let old_values := values h in
             for_loop (Z.to_nat old_size) 0
               (fun i h =>
                  k ← get_at old_keys i;
                  if negb (k =? NULL) then
                    v ← get_at old_values i;
                    ghash_put n' h k v
                  else Some h)
               (GHash new_size 0 (hash_fn h) (cmp_fn h)
                  (replicate (Z.to_nat new_size) NULL)
                  (replicate (Z.to_nat new_size) NULL))
           else Some h);
      slot ← ghash_slot h key;
      ghash_put_loop n' h key value slot 1
  end.

Fixpoint ghash_get_loop (fuel : nat) (h : ghash_t) (key slot i : Z)
    : option Z :=
  match fuel with
  | O => None
  | S fuel' =>
      k ← get_at (keys h) slot;
      if k =? NULL then Some NULL
      else if (k =? key) || cmp_fn h k key then get_at (values h) slot
      else
        ghash_get_loop fuel' h key
          (Z.land (slot + i) (to_unsigned (size h - 1))) (i + 1)
  end.

Definition ghash_get `{Util} (n : nat) (h : ghash_t) (key : Z) : option Z :=
  slot ← ghash_slot h key;
  ghash_get_loop n h key slot 1.

End Ghash.


(* --------------------------------------------------------------------- *)
(** ** src/util.c: the diagnostic collector                               *)
(* --------------------------------------------------------------------- *)

Module Util.

Local Open Scope Z_scope.

(** Source locations; [LOC_INVALID] is the location substituted for NULL. *)
Record loc_t := Loc { first_line : Z; first_column : Z }.
Definition LOC_INVALID : loc_t := Loc (-1) (-1).

(** Function pointers.  The default handlers live in util.c and are
    modelled; handlers installed by clients are foreign code, assumed not to
    call back into the collector: invoking one is recorded as an event. *)
Inductive error_fn_t := def_error_fn_p | user_error_fn (id : nat).
Inductive hint_fn_t := default_hint_fn_p | user_hint_fn (id : nat).

Inductive message_style_t := MESSAGE_FULL | MESSAGE_COMPACT.
Inductive option_kind_t := OPTION_INT | OPTION_STRING.

Record option_t := Opt {
  opt_key   : ident_t;
  opt_kind  : option_kind_t;
  opt_value : Z
}.

(** [struct hint]; [context] is kept only for foreign hint functions
    ([hint_at] stores the hint itself there). *)
Record hint_t := Hint {
  func    : hint_fn_t;
  str     : option string;
  context : Z;
  hloc    : loc_t
}.

(** What the process wrote or called, oldest first. *)
Inductive event :=
| EvPrint (prefix : string) (msg : string)       (* fmt_color to stderr  *)
| EvLoc (l : loc_t)                              (* fmt_loc(stderr, loc) *)
| EvErrorFn (id : nat) (msg : string) (l : loc_t)(* foreign error_fn     *)
| EvHintFn (id : nat) (ctx : Z).                 (* foreign hint func    *)

(** The file-scope variables of util.c (and the static [inside] of
    [show_hint]). *)
Record state := State {
  error_fn      : error_fn_t;
  message_style : message_style_t;
  options       : list option_t;
  hints         : list hint_t;
  n_errors      : Z;
  inside        : bool;
  trace         : list event
}.

(** A call returns, terminates the process ([exit]), or, in the model
    only, runs out of fuel. *)
Inductive outcome (A : Type) :=
| Return (a : A) (s : state)
| Exit (s : state)
| OutOfFuel.
Arguments Return {A} a s.
Arguments Exit {A} s.
Arguments OutOfFuel {A}.

Definition M (A : Type) := state -> outcome A.
Definition ret {A} (a : A) : M A := fun s => Return a s.
Definition bind {A B} (m : M A) (k : A -> M B) : M B :=
  fun s => match m s with
           | Return a s' => k a s'
           | Exit s' => Exit s'
           | OutOfFuel => OutOfFuel
           end.
Notation "x <- m ;; k" := (bind m (fun x => k))
  (at level 90, m at next level, right associativity).
Notation "m ;;; k" := (bind m (fun _ => k))
  (at level 90, right associativity).

Definition get : M state := fun s => Return s s.
Definition emit (e : event) : M unit :=
  fun s => Return tt (State (error_fn s) (message_style s) (options s)
                        (hints s) (n_errors s) (inside s) (trace s ++ [e])).
Definition set_hints (h : list hint_t) : M unit :=
  fun s => Return tt (State (error_fn s) (message_style s) (options s)
                        h (n_errors s) (inside s) (trace s)).
Definition set_inside (b : bool) : M unit :=
  fun s => Return tt (State (error_fn s) (message_style s) (options s)
                        (hints s) (n_errors s) b (trace s)).
(** [n_errors++] on an [unsigned]. *)
Definition incr_n_errors : M unit :=
  fun s => Return tt (State (error_fn s) (message_style s) (options s)
                        (hints s) ((n_errors s + 1) mod 2^32) (inside s)
                        (trace s)).
Definition set_error_fn_field (f : error_fn_t) : M unit :=
  fun s => Return tt (State f (message_style s) (options s)
                        (hints s) (n_errors s) (inside s) (trace s)).

(** [fatal_trace]: print and [exit(EXIT_FAILURE)]. *)
Definition fatal_trace {A} (msg : string) : M A :=
  fun s => Exit (State (error_fn s) (message_style s) (options s)
                   (hints s) (n_errors s) (inside s)
                   (trace s ++ [EvPrint "Fatal" msg])).

Definition errorf (msg : string) : M unit := emit (EvPrint "Error" msg).
Definition warnf (msg : string) : M unit := emit (EvPrint "Warning" msg).
Definition notef (msg : string) : M unit := emit (EvPrint "Note" msg).
Definition fmt_loc (l : loc_t) : M unit := emit (EvLoc l).

Definition def_error_fn (msg : string) (l : loc_t) : M unit :=
  s <- get ;;
  (match message_style s with MESSAGE_COMPACT => fmt_loc l | _ => ret tt end) ;;;
  errorf msg ;;;
  (match message_style s with MESSAGE_FULL => fmt_loc l | _ => ret tt end).

(** A call through the [error_fn] pointer. *)
Definition call_error_fn (msg : string) (l : loc_t) : M unit :=
  s <- get ;;
  match error_fn s with
  | def_error_fn_p => def_error_fn msg l
  | user_error_fn id => emit (EvErrorFn id msg l)
  end.

Definition msg_at (fn : string -> M unit) (l : loc_t) (msg : string) : M unit :=
  s <- get ;;
  (match message_style s with MESSAGE_COMPACT => fmt_loc l | _ => ret tt end) ;;;
  fn msg ;;;
  (match message_style s with MESSAGE_FULL => fmt_loc l | _ => ret tt end).

Fixpoint opt_find (name : ident_t) (l : list option_t) : option option_t :=
  match l with
  | [] => None
  | it :: l' => if String.eqb (opt_key it) name then Some it else opt_find name l'
  end.

Definition opt_get_generic (name : string) (k : option_kind_t) : M Z :=
  s <- get ;;
  match opt_find name (options s) with
  | Some it =>
      match opt_kind it, k with
      | OPTION_INT, OPTION_INT | OPTION_STRING, OPTION_STRING => ret (opt_value it)
      | _, _ => fatal_trace ("wrong option kind for " ++ name)
      end
  | None => fatal_trace ("invalid option " ++ name)
  end.

Definition opt_get_int (name : string) : M Z := opt_get_generic name OPTION_INT.

Definition loc_or_invalid (l : option loc_t) : loc_t :=
  match l with Some l => l | None => LOC_INVALID end.

Definition catch_in_unit_test (fn : string -> M unit) (l : option loc_t)
    (msg : string) : M unit :=
  u <- opt_get_int "unit-test" ;;
  if negb (u =? 0) then call_error_fn msg (loc_or_invalid l)
  else msg_at fn (loc_or_invalid l) msg.

(** [pop_hint]: dereferences [hints], which the callers know is not NULL. *)
Definition pop_hint : M unit :=
  s <- get ;;
  match hints s with
  | [] => fun _ => OutOfFuel
  | _ :: tmp => set_hints tmp
  end.

(** [show_hint], [note_at] and [default_hint_fn] call each other:
    [show_hint] runs the hint functions, the default one reports its text
    with [note_at], which calls [show_hint] again (stopped by [inside]). *)
Fixpoint show_hint (n : nat) : M unit :=
  match n with
  | O => fun _ => OutOfFuel
  | S n' =>
      s <- get ;;
      if inside s then ret tt
      else
        set_inside true ;;;
        show_hint_loop n' ;;;
        set_inside false
  end
(** The loop of [show_hint]: while [hints] is not NULL, call the function
    of the first hint on its context, then [pop_hint]. *)
with show_hint_loop (n : nat) : M unit :=
  match n with
  | O => fun _ => OutOfFuel
  | S n' =>
      s <- get ;;
      match hints s with
      | [] => ret tt
      | h :: _ =>
          (match func h with
           | default_hint_fn_p =>
               (* default_hint_fn: note_at on the location and text of h *)
               note_at n' (Some (hloc h)) (default "" (str h))
           | user_hint_fn id => emit (EvHintFn id (context h))
           end) ;;;
          pop_hint ;;;
          show_hint_loop n'
      end
  end
with note_at (n : nat) (l : option loc_t) (msg : string) : M unit :=
  match n with
  | O => fun _ => OutOfFuel
  | S n' =>
      catch_in_unit_test notef l msg ;;;
      show_hint n' ;;;
      u <- opt_get_int "unit-test" ;;
      if negb (u =? 0) then incr_n_errors else ret tt
  end.

Definition warn_at (n : nat) (l : option loc_t) (msg : string) : M unit :=
  catch_in_unit_test warnf l msg ;;;
  show_hint n ;;;
  u <- opt_get_int "unit-test" ;;
  if negb (u =? 0) then incr_n_errors else ret tt.

(** [error_at]; [msg] is the text built by [prepare_msg]. *)
Definition error_at (n : nat) (l : option loc_t) (msg : string) : M unit :=
  call_error_fn msg (loc_or_invalid l) ;;;
  show_hint n ;;;
  incr_n_errors.

Definition set_hint_fn (fn : nat) (ctx : Z) : M unit :=
  s <- get ;;
  set_hints (Hint (user_hint_fn fn) None ctx LOC_INVALID :: hints s).

Definition clear_hint : M unit := set_hints [].

Definition hint_at (l : loc_t) (msg : string) : M unit :=
  s <- get ;;
  set_hints (Hint default_hint_fn_p (Some msg) 0 l :: hints s).

(** [fn ?: def_error_fn] *)
Definition set_error_fn (fn : option nat) : M error_fn_t :=
  s <- get ;;
  set_error_fn_field
    (match fn with Some id => user_error_fn id | None => def_error_fn_p end) ;;;
  ret (error_fn s).

Definition error_count : M Z := s <- get ;; ret (n_errors s).

Definition reset_error_count : M unit :=
  fun s => Return tt (State (error_fn s) (message_style s) (options s)
                        (hints s) 0 (inside s) (trace s)).

(** The state at program start. *)
Definition initial : state :=
  State def_error_fn_p MESSAGE_FULL [] [] 0 false [].

End Util.

(* --------------------------------------------------------------------- *)
(** ** src/util.c: integer helpers                                        *)
(* --------------------------------------------------------------------- *)

Module UtilNum.
Import Common.

Local Open Scope Z_scope.

(** Conversion to [int64_t]. *)
Definition to_int64 (x : Z) : Z :=
  let y := x mod 2^64 in if y <? 2^63 then y else y - 2^64.

(** [next_power_of_2] on an [int]; [>>] on a negative [int] is the
    arithmetic shift. *)
Definition next_power_of_2 (n : Z) : Z :=
  let n := to_int (n - 1) in
  let n := Z.lor n (Z.shiftr n 1) in
  let n := Z.lor n (Z.shiftr n 2) in
  let n := Z.lor n (Z.shiftr n 4) in
  let n := Z.lor n (Z.shiftr n 8) in
  let n := Z.lor n (Z.shiftr n 16) in
  to_int (n + 1).

(** The loop of [ilog2]: [while (c < n) { r += 1; c *= 2; }] with
    [int r] and [int64_t c]. *)
Fixpoint ilog2_loop (fuel : nat) (n r c : Z) : option Z :=
  match fuel with
  | O => None
  | S fuel' =>
      if c <? n then ilog2_loop fuel' n (to_int (r + 1)) (to_int64 (c * 2))
      else Some r
  end.

Definition ilog2 (fuel : nat) (n : Z) : option Z :=
  if n <=? 1 then Some 1 else ilog2_loop fuel n 0 1.

(** The loop of [ipow]:
    [while (y) { if (y & 1) r *= x; y >>= 1; x *= x; }]. *)
Fixpoint ipow_loop (fuel : nat) (x y r : Z) : option Z :=
  match fuel with
  | O => None
  | S fuel' =>
      if y =? 0 then Some r
      else
        let r := if negb (Z.land y 1 =? 0) then to_int64 (r * x) else r in
        ipow_loop fuel' (to_int64 (x * x)) (Z.shiftr y 1) r
  end.

Definition ipow (fuel : nat) (x y : Z) : option Z := ipow_loop fuel x y 1.

End UtilNum.

(* --------------------------------------------------------------------- *)
(** ** src/util.c: text buffers                                           *)
(* --------------------------------------------------------------------- *)

Module TextBuf.
Import Common.

Local Open Scope Z_scope.

(** [struct text_buf]: the bytes of [buf] (of a block from [xmalloc] or
    [xrealloc]: a byte is indeterminate, [None], until it is stored), and
    the [size_t] fields [alloc] and [len]. *)
Record text_buf_t := TB {
  buf   : list (option Z);
  alloc : Z;
  len   : Z
}.

Definition xmalloc (n : Z) : list (option Z) := replicate (Z.to_nat n) None.

(** [xrealloc]: the old bytes, up to the new size. *)
Definition xrealloc (b : list (option Z)) (n : Z) : list (option Z) :=
  take (Z.to_nat n) b ++ replicate (Z.to_nat n - length b) None.

(** [b[i] = c]; a store outside the block has no defined result. *)
Definition store (b : list (option Z)) (i c : Z) : option (list (option Z)) :=
  if (0 <=? i) && (i <? Z.of_nat (length b)) then Some (set_at b i (Some c))
  else None.

Fixpoint store_all (b : list (option Z)) (off : Z) (l : list Z)
    : option (list (option Z)) :=
  match l with
  | [] => Some b
  | c :: l' => b' ← store b off c; store_all b' (off + 1) l'
  end.

(** [vsnprintf(b + off, avail, fmt, ap)] where the format and its
    arguments give the text [s]: at most [avail - 1] characters and a NUL
    are stored (nothing for size 0; a negative [int] converts to a huge
    [size_t]); the result is the length of [s] as an [int]. *)
Definition vsnprintf (b : list (option Z)) (off avail : Z) (s : list Z)
    : option (list (option Z) * Z) :=
  let out :=
    if avail =? 0 then []
    else if avail <? 0 then s ++ [0]
    else take (Z.to_nat (avail - 1)) s ++ [0] in
  b' ← store_all b off out;
  Some (b', to_int (Z.of_nat (length s))).

Definition tb_new : option text_buf_t :=
  b ← store (xmalloc 256) 0 0;
  Some (TB b 256 0).

(** [tb_printf]; [s] is the text the format and its arguments give. *)
Fixpoint tb_printf (fuel : nat) (tb : text_buf_t) (s : list Z)
    : option text_buf_t :=
  match fuel with
  | O => None
  | S fuel' =>
      let avail := to_int (to_uint64 (alloc tb - len tb)) in
      r ← vsnprintf (buf tb) (len tb) avail s;
      let '(b, nchars) := r in
      if nchars <? avail then
        Some (TB b (alloc tb) (to_uint64 (len tb + nchars)))
      else
        let alloc' := to_uint64 (alloc tb * 2) in
        tb_printf fuel' (TB (xrealloc b alloc') alloc' (len tb)) s
  end.

Definition tb_append (tb : text_buf_t) (ch : Z) : option text_buf_t :=
  let tb :=
    if alloc tb <=? to_uint64 (len tb + 1) then
      let alloc' := to_uint64 (alloc tb * 2) in
      TB (xrealloc (buf tb) alloc') alloc' (len tb)
    else tb in
  b ← store (buf tb) (len tb) ch;
  let len' := to_uint64 (len tb + 1) in
  b ← store b len' 0;
  Some (TB b (alloc tb) len').

(** [tb_get] returns [buf]; the caller reads it as a C string, up to the
    first NUL. *)
Fixpoint c_string (b : list (option Z)) : option (list Z) :=
  match b with
  | Some c :: b' => if c =? 0 then Some [] else (c ::.) <$> c_string b'
  | _ => None
  end.

Definition tb_get (tb : text_buf_t) : option (list Z) := c_string (buf tb).

Definition tb_rewind (tb : text_buf_t) : option text_buf_t :=
  b ← store (buf tb) 0 0;
  Some (TB b (alloc tb) 0).

(** [tb_backup]; [n] is an [unsigned]. *)
Definition tb_backup (tb : text_buf_t) (n : Z) : option text_buf_t :=
  let len' := if len tb <? n then 0 else to_uint64 (len tb - n) in
  b ← store (buf tb) len' 0;
  Some (TB b (alloc tb) len').

End TextBuf.
(* --------------------------------------------------------------------- *)
(** ** src/util.c: colour escapes in messages                             *)
(* --------------------------------------------------------------------- *)

Module Color.
Import Common TextBuf.

Local Open Scope Z_scope.

(** The characters of a string literal. *)
Definition chars (s : string) : list Z :=
  (fun a => Z.of_nat (nat_of_ascii a)) <$> list_ascii_of_string s.

Definition ANSI_RESET : Z := 0.
Definition ANSI_BOLD : Z := 1.
Definition ANSI_FG_BLACK : Z := 30.
Definition ANSI_FG_RED : Z := 31.
Definition ANSI_FG_GREEN : Z := 32.
Definition ANSI_FG_YELLOW : Z := 33.
Definition ANSI_FG_BLUE : Z := 34.
Definition ANSI_FG_MAGENTA : Z := 35.
Definition ANSI_FG_CYAN : Z := 36.
Definition ANSI_FG_WHITE : Z := 37.

Definition escapes : list (list Z * Z) :=
  [ (chars EmptyString, ANSI_RESET);
    (chars "bold", ANSI_BOLD);
    (chars "black", ANSI_FG_BLACK);
    (chars "red", ANSI_FG_RED);
    (chars "green", ANSI_FG_GREEN);
    (chars "yellow", ANSI_FG_YELLOW);
    (chars "blue", ANSI_FG_BLUE);
    (chars "magenta", ANSI_FG_MAGENTA);
    (chars "cyan", ANSI_FG_CYAN);
    (chars "white", ANSI_FG_WHITE) ].

(** The character ['$']. *)
Definition DOLLAR : Z := 36.

(** [strncmp(a, b, n) == 0] on C strings, given by their characters
    before the NUL. *)
Fixpoint strncmp_eq (a b : list Z) (n : nat) : bool :=
  match n with
  | O => true
  | S n' =>
      match a, b with
      | [], [] => true
      | x :: a', y :: b' => (x =? y) && strncmp_eq a' b' n'
      | _, _ => false
      end
  end.

(** [strncpy(b + off, src, n)]: [n] bytes are stored, the characters of
    [src] and then NULs. *)
Definition strncpy (b : list (option Z)) (off : Z) (src : list Z) (n : nat)
    : option (list (option Z)) :=
  store_all b off (take n src ++ replicate (n - length src) 0).

(** The decimal digits [%d] prints for an [int]. *)
Fixpoint digits (fuel : nat) (n : Z) (acc : list Z) : list Z :=
  match fuel with
  | O => acc
  | S fuel' =>
      let acc' := (48 + n mod 10) :: acc in
      if n <? 10 then acc' else digits fuel' (n / 10) acc'
  end.

Definition fmt_d (n : Z) : list Z :=
  if n <? 0 then 45 :: digits 10 (- n) [] else digits 10 n [].

(** The loop over the table of escapes: the value of the first entry
    whose name agrees with the [len] characters at [e]. *)
Fixpoint find_escape (e : list Z) (len : nat) (tbl : list (list Z * Z))
    : option Z :=
  match tbl with
  | [] => None
  | (name, value) :: tbl' =>
      if strncmp_eq e name len then Some value else find_escape e len tbl'
  end.

(** The variables of [filter_color]: the block [copy], [p] as an offset
    into it, and [escape_start] as an index into [str]. *)
Record fc_state := FC {
  copy : list (option Z);
  p : Z;
  escape_start : option nat
}.

(** One turn of the [while] loop, at the character [c] of index [idx]. *)
Definition fc_step (want_color force_plain : bool) (str : list Z) (eptr : Z)
    (idx : nat) (c : Z) (s : fc_state) : option fc_state :=
  if c =? DOLLAR then
    match escape_start s with
    | None => Some (FC (copy s) (p s) (Some idx))
    | Some es =>
        let e := S es in
        let len := (idx - e)%nat in
        if want_color && negb force_plain then
          match find_escape (drop e str) len escapes with
          | Some value =>
              r ← vsnprintf (copy s) (p s) (eptr - p s)
                    ([27; 91] ++ fmt_d value ++ [109]);
              Some (FC r.1 (p s + r.2) None)
          | None =>
              b ← strncpy (copy s) (p s) (drop es str) (len + 1);
              Some (FC b (p s + Z.of_nat (len + 1)) (Some idx))
          end
        else Some (FC (copy s) (p s) None)
    end
  else
    match escape_start s with
    | None => b ← store (copy s) (p s) c; Some (FC b (p s + 1) None)
    | Some _ => Some s
    end.

Fixpoint fc_loop (want_color force_plain : bool) (str : list Z) (eptr : Z)
    (rest : list Z) (idx : nat) (s : fc_state) : option fc_state :=
  match rest with
  | [] => Some s
  | c :: rest' =>
      s' ← fc_step want_color force_plain str eptr idx c s;
      fc_loop want_color force_plain str eptr rest' (S idx) s'
  end.

(** [filter_color]; [str] holds the characters before the NUL, and
    [want_color] is the static variable.  The result is the block
    returned. *)
Definition filter_color (want_color : bool) (str : list Z)
    (force_plain : bool) : option (list (option Z)) :=
  let maxlen := to_uint64 (Z.of_nat (length str) * 2) in
  s ← fc_loop want_color force_plain str maxlen str 0
        (FC (xmalloc maxlen) 0 None);
  s ← match escape_start s with
       | Some es =>
           let len := (length str - es)%nat in
           b ← strncpy (copy s) (p s) (drop es str) (len + 1);
           Some (FC b (p s + Z.of_nat (len + 1)) None)
       | None => Some s
       end;
  store (copy s) (p s) 0.

End Color.

(* --------------------------------------------------------------------- *)
(** ** src/util.c: breaking a message into lines                          *)
(* --------------------------------------------------------------------- *)

Module Paginate.
Import Common TextBuf Color.

Local Open Scope Z_scope.

(** [isspace] in the C locale: space, and the characters from ['\t'] to
    ['\r']. *)
Definition isspace (c : Z) : bool := (c =? 32) || ((9 <=? c) && (c <=? 13)).

(** What [paginate_msg] has written to [stderr], and its variables [col]
    and [escape]. *)
Record pg_state := PG {
  stderr : list Z;
  col    : Z;
  escape : bool
}.

Definition fputc (c : Z) (s : pg_state) : pg_state :=
  PG (stderr s ++ [c]) (col s) (escape s).

(** [for (col = 0; col < left; col++) fputc(' ', stderr);] *)
Definition indent (left : Z) (s : pg_state) : pg_state :=
  PG (stderr s ++ replicate (Z.to_nat left) 32) (Z.max left 0) (escape s).

(** One turn of the loop over the filtered message. *)
Definition pg_step (left right : Z) (s : pg_state) (c : Z) : pg_state :=
  if (c =? 10) || (c =? 13) || (isspace c && (right <=? col s)) then
    (* Can break line here *)
    let s := fputc 10 s in
    if c =? 13 then PG (stderr s) 0 (escape s)
    else indent left s
  else
    let s := fputc c s in
    if c =? 27 then PG (stderr s) (col s) true
    else if escape s then
      if c =? 109 then PG (stderr s) (col s) false else s
    else PG (stderr s) (to_int (col s + 1)) (escape s).

(** [paginate_msg], for the message [str] that the format and its
    arguments give; the result is what was written to [stderr]. *)
Definition paginate_msg (want_color : bool) (str : list Z)
    (start left right : Z) : option (list Z) :=
  filtered ← filter_color want_color str false;
  text ← c_string filtered;
  let s := fold_left (pg_step left right) text (PG [] start false) in
  Some (stderr (fputc 10 s)).

End Paginate.

(* --------------------------------------------------------------------- *)
(** ** src/util.c: the static format buffers                              *)
(* --------------------------------------------------------------------- *)

Module FmtBuf.
Import Common TextBuf.

Local Open Scope Z_scope.

Definition MAX_FMT_BUFS : Z := 32.

(** The static variables of [get_fmt_buf]: a buffer is NULL ([None]) or
    a block. *)
Record state := St {
  buf_set  : list (option (list (option Z)));
  buflen   : list Z;
  next_buf : Z
}.

(** Static storage starts zeroed. *)
Definition initial : state :=
  St (replicate (Z.to_nat MAX_FMT_BUFS) None)
     (replicate (Z.to_nat MAX_FMT_BUFS) 0) 0.

(** What a call gives: the index of the buffer returned, whose block is
    in the new state; the end of the process in [fatal]; or nothing, when
    the model runs out of fuel. *)
Inductive result :=
| Buffer (i : Z) (s : state)
| Fatal (msg : string)
| OutOfFuel.

(** The loop [while (len > *blenp)], which doubles [*blenp] and
    reallocates the buffer.  [realloc] of a block to the size 0 frees the
    block and returns NULL (glibc), on which [xrealloc] is fatal. *)
Fixpoint grow (fuel : nat) (len : Z) (b : list (option Z)) (blen : Z)
    : option (list (option Z) * Z) + string :=
  match fuel with
  | O => inl None
  | S fuel' =>
      if blen <? len then
        let blen' := to_uint64 (blen * 2) in
        if blen' =? 0 then inr "memory exhausted (realloc 0)"%string
        else grow fuel' len (xrealloc b blen') blen'
      else inl (Some (b, blen))
  end.

(** [get_fmt_buf]; the two arrays have [MAX_FMT_BUFS] entries, and
    [next_buf] is an index into them. *)
Definition get_fmt_buf (fuel : nat) (len : Z) (s : state) : result :=
  let i := next_buf s in
  match get_at (buf_set s) i, get_at (buflen s) i with
  | Some bufp, Some blen =>
      let next := Z.rem (to_int (i + 1)) MAX_FMT_BUFS in
      let '(b, blen) :=
        match bufp with
        | None => (xmalloc len, len)
        | Some b => (b, blen)
        end in
      match grow fuel len b blen with
      | inl (Some r) =>
          Buffer i (St (set_at (buf_set s) i (Some r.1))
                       (set_at (buflen s) i r.2) next)
      | inl None => OutOfFuel
      | inr msg => Fatal msg
      end
  | _, _ => OutOfFuel
  end.

End FmtBuf.


(* --------------------------------------------------------------------- *)
(** ** src/rt/vcd.c: the VCD writer                                       *)
(* --------------------------------------------------------------------- *)

Module Vcd.

Local Open Scope Z_scope.

Definition UINT64_MAX : Z := 2^64 - 1.

(** Handle of a runtime watch (owned by the kernel). *)
Abbreviation watch_t := positive.

(** The lines [vcd_event_cb] prints to [vcd_file].  The text of a value
    line comes from the declaration's attributes and the watched signal,
    which belong to the tree and the runtime; the line records both. *)
Inductive line :=
| TimeLine (now : Z)                         (* "#%PRIu64\n"  *)
| ValueLine (decl : tree_t) (w : watch_t).   (* "%s%s\n"      *)

(** [vcd_file] and the static [last_time] of [vcd_event_cb]. *)
Record state := State {
  vcd_file  : list line;
  last_time : Z
}.

Definition initial : state := State [] UINT64_MAX.

Definition fprintf (l : line) (s : state) : state :=
  State (vcd_file s ++ [l]) (last_time s).

Definition emit_value (decl : tree_t) (w : watch_t) (s : state) : state :=
  fprintf (ValueLine decl w) s.

Definition vcd_event_cb (now : Z) (decl : tree_t) (w : watch_t) (s : state)
    : state :=
  let s1 :=
    if negb (now =? last_time s)
    then State (vcd_file (fprintf (TimeLine now) s)) now
    else s in
  emit_value decl w s1.

(** One call of the callback by the kernel. *)
Record event := Event { ev_now : Z; ev_decl : tree_t; ev_watch : watch_t }.

(** The kernel calling the callback for a sequence of signal events. *)
Definition run (evs : list event) (s : state) : state :=
  fold_left (fun s e => vcd_event_cb (ev_now e) (ev_decl e) (ev_watch e) s)
    evs s.

End Vcd.

(* --------------------------------------------------------------------- *)
(** ** src/rt/vcd.c: identifier codes                                     *)
(* --------------------------------------------------------------------- *)

Module VcdKey.

Local Open Scope Z_scope.

(** [vcd_key_fmt]: the characters stored into [buf] before the NUL, as
    their codes.  [%] and [/] on [int] truncate towards zero.  The loop
    [do { *p++ = 33 + (key % (126 - 33)); key /= (126 - 33); }
     while (key > 0);] *)
Fixpoint vcd_key_fmt (fuel : nat) (key : Z) : option (list Z) :=
  match fuel with
  | O => None
  | S fuel' =>
      let c := 33 + Z.rem key (126 - 33) in
      let key := Z.quot key (126 - 33) in
      if 0 <? key then (c ::.) <$> vcd_key_fmt fuel' key else Some [c]
  end.

End VcdKey.
(* --------------------------------------------------------------------- *)
(** ** src/rt/vcd.c: the text of a value                                  *)
(* --------------------------------------------------------------------- *)

Module VcdFmt.
Import Common TextBuf.

Local Open Scope Z_scope.

Definition MAX_VAR_WIDTH : Z := 256.
Definition MAX_TEXT_WIDTH : Z := 512.

(** [vcd_fmt_enum]: [snprintf(buf, max, "%c", arg[val])], where [arg] is
    a string literal, given by its characters before the NUL. *)
Definition vcd_fmt_enum (b : list (option Z)) (off max val : Z)
    (arg : list Z) : option (list (option Z) * Z) :=
  c ← get_at (arg ++ [0]) val;
  vsnprintf b off max [c].

(** [p += ( *fn)(p, end - p, vals[i], arg)] *)
Definition fmt_one (arg : list Z) (vals : list Z) (i : Z)
    (s : list (option Z) * Z) : option (list (option Z) * Z) :=
  let '(b, p) := s in
  v ← get_at vals i;
  r ← vcd_fmt_enum b p (MAX_TEXT_WIDTH - p) v arg;
  Some (r.1, p + r.2).

(** [for (int i = w - 1; i >= 0; i--) body] *)
Fixpoint down_loop {S} (w : nat) (body : Z -> S -> option S) (s : S)
    : option S :=
  match w with
  | O => Some s
  | Datatypes.S w' => s' ← body (Z.of_nat w') s; down_loop w' body s'
  end.

(** [vcd_value_fmt]: [buf] is the static buffer as the last call left
    it, [arg] the attribute [i_fmt_arg] of the declaration (its [i_fmt_fn]
    is [vcd_fmt_enum], the one function [vcd_set_fmt_fn] sets), [vals] and
    [w] what [rt_signal_value] stored and returned, [is_array] the result
    of [type_is_array] and [downto] whether the kind of the first
    dimension is [RANGE_DOWNTO]. *)
Definition vcd_value_fmt (buf : list (option Z)) (arg : list Z)
    (vals : list Z) (w : Z) (is_array downto : bool)
    : option (list (option Z)) :=
  if is_array then
    r ← vsnprintf buf 0 (MAX_TEXT_WIDTH - 0) [98];
    let s := (r.1, 0 + r.2) in
    s ← (if downto then down_loop (Z.to_nat w) (fmt_one arg vals) s
         else for_loop (Z.to_nat w) 0 (fmt_one arg vals) s);
    r ← vsnprintf s.1 s.2 (MAX_TEXT_WIDTH - s.2) [32];
    Some r.1
  else
    v ← get_at vals 0;
    r ← vcd_fmt_enum buf 0 MAX_TEXT_WIDTH v arg;
    Some r.1.

End VcdFmt.


(* --------------------------------------------------------------------- *)
(** ** src/vlog/vlog-simp.c: simplification of Verilog modules            *)
(* --------------------------------------------------------------------- *)

Module Vlog.
Import Common.
Local Open Scope Z_scope.

(** A [vlog_node_t] is a handle into the object store. *)
Abbreviation vlog_node_t := positive.

(** The kinds of vlog-node.h the pass looks at or creates; [V_OTHER]
    stands for the remaining ones. *)
Inductive vlog_kind_t :=
| V_MODULE | V_PRIMITIVE | V_PORT_DECL | V_NET_DECL | V_GATE_INST
| V_STRENGTH | V_REF | V_ASSIGN
| V_OTHER (tag : Z).

(** The slots of a node the pass reads or writes.  NULL object slots are
    [None]; arrays are lists in order of addition. *)
Record vlog_obj := Obj {
  kind    : vlog_kind_t;
  subkind : Z;
  ident   : option ident_t;
  loc     : Util.loc_t;
  value   : option vlog_node_t;
  ref     : option vlog_node_t;
  target  : option vlog_node_t;
  type_   : option vlog_node_t;
  params  : list vlog_node_t;
  decls   : list vlog_node_t;
  stmts   : list vlog_node_t
}.

(** The object store, and the identifiers interned so far in the run. *)
Record state := State {
  nodes    : gmap positive vlog_obj;
  interned : list ident_t
}.

(** The enumerators of vlog-node.h, which is not among the sources, and
    the choice [ident_uniq] makes.
    Modelled from the spec: [ident_uniq] (ident.c, not among the sources)
    is the [unique(base)] of the identifier interner, "guaranteed fresh in
    the run": [uniq used base] is the identifier it gives when [used] are
    the identifiers interned so far, and [uniq_fresh] is the guarantee. *)
Class Env := {
  V_NET_WIRE      : Z;
  V_NET_SUPPLY0   : Z;
  V_NET_SUPPLY1   : Z;
  V_GATE_PULLDOWN : Z;
  V_GATE_PULLUP   : Z;
  ST_SUPPLY       : Z;
  uniq            : list ident_t -> string -> ident_t;
  uniq_fresh      : forall used base, uniq used base ∉ used
}.

(** Calls read and write the store and can fail (an assertion, a NULL
    that must not be one, or the bound on the traversal). *)
Definition M (A : Type) : Type := state -> option (A * state).

Definition ret {A} (a : A) : M A := fun s => Some (a, s).

Definition bind {A B} (m : M A) (k : A -> M B) : M B :=
  fun s => match m s with
           | Some (a, s') => k a s'
           | None => None
           end.

Definition fail {A} : M A := fun _ => None.

Notation "x <- m ;; k" := (bind m (fun x => k))
  (at level 90, m at next level, right associativity).
Notation "m ;;; k" := (bind m (fun _ => k))
  (at level 90, right associativity).

Definition get_obj (v : vlog_node_t) : M vlog_obj :=
  fun s => match nodes s !! v with
           | Some o => Some (o, s)
           | None => None
           end.

Definition update (v : vlog_node_t) (f : vlog_obj -> vlog_obj) : M unit :=
  fun s => match nodes s !! v with
           | Some o => Some (tt, State (<[v := f o]> (nodes s)) (interned s))
           | None => None
           end.

Definition with_subkind (x : Z) (o : vlog_obj) : vlog_obj :=
  Obj (kind o) x (ident o) (loc o) (value o) (ref o) (target o) (type_ o)
    (params o) (decls o) (stmts o).

Definition with_ident (x : option ident_t) (o : vlog_obj) : vlog_obj :=
  Obj (kind o) (subkind o) x (loc o) (value o) (ref o) (target o) (type_ o)
    (params o) (decls o) (stmts o).

Definition with_loc (x : Util.loc_t) (o : vlog_obj) : vlog_obj :=
  Obj (kind o) (subkind o) (ident o) x (value o) (ref o) (target o) (type_ o)
    (params o) (decls o) (stmts o).

Definition with_value (x : option vlog_node_t) (o : vlog_obj) : vlog_obj :=
  Obj (kind o) (subkind o) (ident o) (loc o) x (ref o) (target o) (type_ o)
    (params o) (decls o) (stmts o).

Definition with_ref (x : option vlog_node_t) (o : vlog_obj) : vlog_obj :=
  Obj (kind o) (subkind o) (ident o) (loc o) (value o) x (target o) (type_ o)
    (params o) (decls o) (stmts o).

Definition with_target (x : option vlog_node_t) (o : vlog_obj) : vlog_obj :=
  Obj (kind o) (subkind o) (ident o) (loc o) (value o) (ref o) x (type_ o)
    (params o) (decls o) (stmts o).

Definition with_type (x : option vlog_node_t) (o : vlog_obj) : vlog_obj :=
  Obj (kind o) (subkind o) (ident o) (loc o) (value o) (ref o) (target o) x
    (params o) (decls o) (stmts o).

Definition with_params (x : list vlog_node_t) (o : vlog_obj) : vlog_obj :=
  Obj (kind o) (subkind o) (ident o) (loc o) (value o) (ref o) (target o)
    (type_ o) x (decls o) (stmts o).

Definition with_decls (x : list vlog_node_t) (o : vlog_obj) : vlog_obj :=
  Obj (kind o) (subkind o) (ident o) (loc o) (value o) (ref o) (target o)
    (type_ o) (params o) x (stmts o).

Definition with_stmts (x : list vlog_node_t) (o : vlog_obj) : vlog_obj :=
  Obj (kind o) (subkind o) (ident o) (loc o) (value o) (ref o) (target o)
    (type_ o) (params o) (decls o) x.

(* ..................................................................... *)
(** *** The node interface (vlog-node.c, not among the sources)           *)

(** Modelled from the spec: [vlog_new] (vlog-node.c) is the
    [new(tag, kind)] of the object store, which gives a handle to a new
    object, all its slots empty.  The has-map of the kinds is not
    modelled: every slot can be read and written. *)
Definition vlog_new (k : vlog_kind_t) : M vlog_node_t :=
  fun s =>
    let v := fresh (dom (nodes s)) in
    Some (v, State (<[v := Obj k 0 None Util.LOC_INVALID None None None None
                            [] [] []]> (nodes s))
                (interned s)).

(** Modelled from the spec: the accessors of vlog-node.c are the
    [get_item(h, slot)] of the object store. *)
Definition vlog_kind (v : vlog_node_t) : M vlog_kind_t :=
  o <- get_obj v ;; ret (kind o).

Definition vlog_subkind (v : vlog_node_t) : M Z :=
  o <- get_obj v ;; ret (subkind o).

Definition vlog_loc (v : vlog_node_t) : M Util.loc_t :=
  o <- get_obj v ;; ret (loc o).

(** The identifier of a node; a node without one is not modelled. *)
Definition vlog_ident (v : vlog_node_t) : M ident_t :=
  o <- get_obj v ;;
  match ident o with
  | Some id => ret id
  | None => fail
  end.

Definition vlog_has_value (v : vlog_node_t) : M bool :=
  o <- get_obj v ;; ret (if value o is Some _ then true else false).

Definition vlog_value (v : vlog_node_t) : M vlog_node_t :=
  o <- get_obj v ;;
  match value o with
  | Some x => ret x
  | None => fail
  end.

Definition vlog_has_ref (v : vlog_node_t) : M bool :=
  o <- get_obj v ;; ret (if ref o is Some _ then true else false).

Definition vlog_type (v : vlog_node_t) : M (option vlog_node_t) :=
  o <- get_obj v ;; ret (type_ o).

(** Modelled from the spec: the setters of vlog-node.c are the
    [set_item(h, slot, value)] of the object store. *)
Definition vlog_set_subkind (v : vlog_node_t) (x : Z) : M unit :=
  update v (with_subkind x).

Definition vlog_set_ident (v : vlog_node_t) (x : ident_t) : M unit :=
  update v (with_ident (Some x)).

Definition vlog_set_loc (v : vlog_node_t) (x : Util.loc_t) : M unit :=
  update v (with_loc x).

Definition vlog_set_value (v : vlog_node_t) (x : option vlog_node_t) : M unit :=
  update v (with_value x).

Definition vlog_set_ref (v : vlog_node_t) (x : vlog_node_t) : M unit :=
  update v (with_ref (Some x)).

Definition vlog_set_target (v : vlog_node_t) (x : vlog_node_t) : M unit :=
  update v (with_target (Some x)).

Definition vlog_set_type (v : vlog_node_t) (x : option vlog_node_t) : M unit :=
  update v (with_type x).

Definition vlog_add_param (v x : vlog_node_t) : M unit :=
  update v (fun o => with_params (params o ++ [x]) o).

Definition vlog_add_decl (v x : vlog_node_t) : M unit :=
  update v (fun o => with_decls (decls o ++ [x]) o).

Definition vlog_add_stmt (v x : vlog_node_t) : M unit :=
  update v (fun o => with_stmts (stmts o ++ [x]) o).

(* ..................................................................... *)
(** *** The identifier interner (ident.c, not among the sources)          *)

(** Modelled from the spec: [ident_new] (ident.c) is [intern(bytes)],
    which gives the identifier of the bytes. *)
Definition ident_new (str : string) : M ident_t :=
  fun s => Some (str, State (nodes s) (str :: interned s)).

(** Modelled from the spec: [ident_prefix] (ident.c) is
    [prefix(a, b, sep)], the identifier of [a], the separator and [b]. *)
Definition ident_prefix (a b : ident_t) (sep : ascii) : M ident_t :=
  ident_new (a ++ String sep b).

(** Modelled from the spec: [istr] (ident.c) is [string_of(ident)]. *)
Definition istr (id : ident_t) : string := id.

(** Modelled from the spec: [ident_uniq] (ident.c) is [unique(base)],
    which gives an identifier that is guaranteed fresh in the run; the
    identifier is interned. *)
Definition ident_uniq `{Env} (base : string) : M ident_t :=
  fun s => let id := uniq (interned s) base in
           Some (id, State (nodes s) (id :: interned s)).

(* ..................................................................... *)
(** *** vlog-simp.c                                                       *)

(** The module is [mod_]: [mod] is taken by the notation of the remainder. *)
Definition simp_net_decl `{Env} (decl mod_ : vlog_node_t) : M vlog_node_t :=
  kind <- vlog_subkind decl ;;
  (if (kind =? V_NET_SUPPLY0) || (kind =? V_NET_SUPPLY1) then
     g <- vlog_new V_GATE_INST ;;
     l <- vlog_loc decl ;;
     vlog_set_loc g l ;;;
     name <- vlog_ident decl ;;
     pull <- ident_new "pull" ;;
     id <- ident_prefix name pull "#" ;;
     vlog_set_ident g id ;;;
     s <- vlog_new V_STRENGTH ;;
     vlog_set_subkind s ST_SUPPLY ;;;
     vlog_add_param g s ;;;
     (if kind =? V_NET_SUPPLY0 then vlog_set_subkind g V_GATE_PULLDOWN
      else vlog_set_subkind g V_GATE_PULLUP) ;;;
     target <- vlog_new V_REF ;;
     l <- vlog_loc decl ;;
     vlog_set_loc target l ;;;
     vlog_set_ident target name ;;;
     vlog_set_ref target decl ;;;
     vlog_set_target g target ;;;
     vlog_add_stmt mod_ g
   else ret tt) ;;;
  hv <- vlog_has_value decl ;;
  (if (hv : bool) then
     value <- vlog_value decl ;;
     vlog_set_value decl None ;;;
     id <- vlog_ident decl ;;
     loc <- vlog_loc decl ;;
     ref <- vlog_new V_REF ;;
     vlog_set_ref ref decl ;;;
     vlog_set_ident ref id ;;;
     vlog_set_loc ref loc ;;;
     a <- vlog_new V_ASSIGN ;;
     vlog_set_target a ref ;;;
     vlog_set_value a (Some value) ;;;
     vlog_set_loc a loc ;;;
     let name := ("__assign#" ++ istr id)%string in
     uid <- ident_uniq name ;;
     vlog_set_ident a uid ;;;
     vlog_add_stmt mod_ a
   else ret tt) ;;;
  ret decl.

Definition simp_port_decl `{Env} (decl mod_ : vlog_node_t) : M vlog_node_t :=
  hr <- vlog_has_ref decl ;;
  if (hr : bool) then ret decl
  else
    wire <- vlog_new V_NET_DECL ;;
    vlog_set_subkind wire V_NET_WIRE ;;;
    l <- vlog_loc decl ;;
    vlog_set_loc wire l ;;;
    id <- vlog_ident decl ;;
    vlog_set_ident wire id ;;;
    t <- vlog_type decl ;;
    vlog_set_type wire t ;;;
    vlog_set_ref decl wire ;;;
    vlog_add_decl mod_ wire ;;;
    ret decl.

Definition vlog_simp_cb `{Env} (v context : vlog_node_t) : M vlog_node_t :=
  k <- vlog_kind v ;;
  match k with
  | V_NET_DECL => simp_net_decl v context
  | V_PORT_DECL => simp_port_decl v context
  | _ => ret v
  end.

(* ..................................................................... *)
(** *** The traversal (vlog-node.c and object.c, not among the sources)   *)

(** The slots that hold the nodes a node owns.  [ref] is a reference to
    a declaration elsewhere, not an ownership edge, and is not followed. *)
Inductive obj_slot := I_VALUE | I_TARGET | I_TYPE.
Inductive array_slot := I_PARAMS | I_DECLS | I_STMTS.

Definition get_object (i : obj_slot) (o : vlog_obj) : option vlog_node_t :=
  match i with
  | I_VALUE => value o
  | I_TARGET => target o
  | I_TYPE => type_ o
  end.

Definition set_object (i : obj_slot) (x : option vlog_node_t) (o : vlog_obj)
    : vlog_obj :=
  match i with
  | I_VALUE => with_value x o
  | I_TARGET => with_target x o
  | I_TYPE => with_type x o
  end.

Definition get_array (i : array_slot) (o : vlog_obj) : list vlog_node_t :=
  match i with
  | I_PARAMS => params o
  | I_DECLS => decls o
  | I_STMTS => stmts o
  end.

Definition set_array (i : array_slot) (x : list vlog_node_t) (o : vlog_obj)
    : vlog_obj :=
  match i with
  | I_PARAMS => with_params x o
  | I_DECLS => with_decls x o
  | I_STMTS => with_stmts x o
  end.

(** Modelled from the spec: the steps of [vlog_rewrite] (vlog-node.c and
    object.c, not among the sources), which is the [visit(h, walker)] of
    the object store: it walks the objects reachable from [h].  The walk
    rewrites the nodes a node owns, slot by slot, and stores what comes
    back; an array is read again at every step, so that the nodes a
    callback adds to it are walked too. *)
Definition rewrite_object (rec : vlog_node_t -> M vlog_node_t)
    (v : vlog_node_t) (i : obj_slot) : M unit :=
  o <- get_obj v ;;
  match get_object i o with
  | None => ret tt
  | Some c => c' <- rec c ;; update v (set_object i (Some c'))
  end.

Fixpoint rewrite_array (fuel : nat) (rec : vlog_node_t -> M vlog_node_t)
    (v : vlog_node_t) (i : array_slot) (n : nat) : M unit :=
  match fuel with
  | O => fail
  | S fuel' =>
      o <- get_obj v ;;
      match get_array i o !! n with
      | None => ret tt
      | Some c =>
          c' <- rec c ;;
          update v (fun o => set_array i (<[n := c']> (get_array i o)) o) ;;;
          rewrite_array fuel' rec v i (S n)
      end
  end.

(** Modelled from the spec: [vlog_rewrite] (vlog-node.c and object.c, not
    among the sources) is the [visit(h, walker)] of the object store,
    children first: the callback sees a node after the nodes it owns.
    [n] bounds the depth of the walk and the length of the arrays. *)
Fixpoint vlog_rewrite (n : nat)
    (fn : vlog_node_t -> vlog_node_t -> M vlog_node_t)
    (context : vlog_node_t) (v : vlog_node_t) : M vlog_node_t :=
  match n with
  | O => fail
  | S n' =>
      rewrite_object (vlog_rewrite n' fn context) v I_VALUE ;;;
      rewrite_object (vlog_rewrite n' fn context) v I_TARGET ;;;
      rewrite_object (vlog_rewrite n' fn context) v I_TYPE ;;;
      rewrite_array n' (vlog_rewrite n' fn context) v I_PARAMS 0 ;;;
      rewrite_array n' (vlog_rewrite n' fn context) v I_DECLS 0 ;;;
      rewrite_array n' (vlog_rewrite n' fn context) v I_STMTS 0 ;;;
      fn v context
  end.

(** vlog-util.c is not among the sources: the top-level units are the
    modules and the primitives. *)
Definition is_top_level (v : vlog_node_t) : M bool :=
  k <- vlog_kind v ;;
  ret (match k with V_MODULE | V_PRIMITIVE => true | _ => false end).

Definition vlog_simp `{Env} (n : nat) (mod_ : vlog_node_t) : M unit :=
  top <- is_top_level mod_ ;;
  if (top : bool) then vlog_rewrite n vlog_simp_cb mod_ mod_ ;;; ret tt
  else fail.

End Vlog.

(* ===================================================================== *)
(** * Part II: vocabulary of the statements and sample data               *)
(* ===================================================================== *)

Module TypeSpec.
Import Type_.

(** The implicit conversions the specification describes: from a universal
    integer or real to a type that is not universal and belongs to the same
    family. *)
Definition universal_to_same_family (n : nat) (H : heap) (from to : type_t) : Prop :=
  type_is_universal H from = Some true /\
  type_is_universal H to = Some false /\
  ((type_is_integer n H from = Some true /\ type_is_integer n H to = Some true) \/
   (type_is_real n H from = Some true /\ type_is_real n H to = Some true)).

(** A type of kind [T_NONE] (the error type) and a record type. *)
Definition none_heap : heap :=
  <[1%positive := type_new T_NONE]> (<[2%positive := type_new T_RECORD]> ∅).

(** The amended statement at the universal integer and a user integer
    subtype. *)
Definition conv_heap : heap :=
  <[1%positive := TypeObj T_INTEGER (Some universal_integer) None None None
                    [1%positive] None [] [] None None [] None]>
  (<[2%positive := TypeObj T_INTEGER (Some "STD.STANDARD.INTEGER"%string) None
                     None None [2%positive] None [] [] None None [] None]>
  (<[3%positive := TypeObj T_SUBTYPE (Some "WORK.P.SMALL"%string)
                     (Some 2%positive) None (Some 7%positive) [] None [] []
                     None None [] None]> ∅)).

(** Two anonymous subtypes, one of INTEGER and one of REAL. *)
Definition subtype_heap : heap :=
  <[1%positive := TypeObj T_INTEGER (Some "STD.STANDARD.INTEGER"%string) None
                    None None [1%positive] None [] [] None None [] None]>
  (<[2%positive := TypeObj T_REAL (Some "STD.STANDARD.REAL"%string) None
                     None None [2%positive] None [] [] None None [] None]>
  (<[3%positive := TypeObj T_SUBTYPE None (Some 1%positive) None
                     (Some 3%positive) [] None [] [] None None [] None]>
  (<[4%positive := TypeObj T_SUBTYPE None (Some 2%positive) None
                     (Some 4%positive) [] None [] [] None None [] None]> ∅))).

(** The same happens on constrained arrays: the early return on [I_ELEM]
    skips the comparison of the number of dimensions that [type_eq] makes. *)
Definition carray_heap : heap :=
  <[1%positive := TypeObj T_ENUM (Some "STD.STANDARD.BIT"%string) None
                    None None [1%positive] None [] [] None None [] None]>
  (<[2%positive := TypeObj T_CARRAY None None None None [2%positive]
                     (Some 1%positive) [] [] None None [] None]>
  (<[3%positive := TypeObj T_CARRAY None None None None
                     [3%positive; 4%positive]
                     (Some 1%positive) [] [] None None [] None]> ∅)).

End TypeSpec.

Module LayoutSpec.
Import Common Type_ Layout.
Local Open Scope Z_scope.

(** The bytes taken by the parts: the sum of [size * repeat]. *)
Fixpoint parts_total (ps : list layout_part_t) : Z :=
  match ps with
  | [] => 0
  | p :: ps' => psize p * repeat p + parts_total ps'
  end.

(** C1 for one layout: the size covers the parts and every part starts at
    a multiple of its alignment. *)
Definition layout_ok (l : jit_layout_t) : Prop :=
  parts_total (parts l) <= size l /\
  Forall (fun p => (palign p | offset p)) (parts l).

(** Where a part ends: its offset and then [repeat] times its size. *)
Definition part_end (p : layout_part_t) : Z :=
  offset p + psize p * repeat p.

(** No number of the layout reaches 2^31: every part ends below it and
    has an alignment below it.  Then nothing was cut when the sizes and
    offsets, which are [int], were stored. *)
Definition in_int (l : jit_layout_t) : Prop :=
  Forall (fun p => part_end p < 2^31 /\ palign p < 2^31) (parts l).

(** A part of alignment zero (a scalar of null range, or an array of
    such) is found only where the parts before it end at offset zero:
    [ALIGN_UP] to zero puts the offset back to zero. *)
Fixpoint no_reset (fin : Z) (ps : list layout_part_t) : Prop :=
  match ps with
  | [] => True
  | p :: ps' => (palign p = 0 -> fin = 0) /\ no_reset (part_end p) ps'
  end.

(** The values of an [int]. *)
Definition int_range (x : Z) : Prop := - 2^31 <= x < 2^31.

(** What holds of every layout that [layout_of] returns: its size and
    alignment are [int], and it satisfies C1 when no number in it reaches
    2^31 and no part of alignment zero follows a part that takes room. *)
Definition layout_sound (l : jit_layout_t) : Prop :=
  int_range (size l) /\ int_range (align l) /\
  (in_int l -> no_reset 0 (parts l) -> layout_ok l).

(** A cache built by earlier calls. *)
Definition cache_ok (c : cache_t) : Prop :=
  forall t l, c !! t = Some l -> layout_sound l.

(** [bits_for_range] as its name says: the width of the machine integer
    that holds the range, none for a null range. *)
Definition sample_bits_for_range (low high : Z) : Z :=
  if high <? low then 0
  else if low <? 0 then
    if (- 2^7 <=? low) && (high <? 2^7) then 8
    else if (- 2^15 <=? low) && (high <? 2^15) then 16
    else if (- 2^31 <=? low) && (high <? 2^31) then 32
    else 64
  else
    if high <=? 1 then 1
    else if high <? 2^8 then 8
    else if high <? 2^16 then 16
    else if high <? 2^32 then 32
    else 64.

(** Ranges with known bounds: 1 is INTEGER'range, 2 is BIT'range. *)
Definition sample_bounds : gmap positive (Z * Z) :=
  {[ 1%positive := (- 2^31, 2^31 - 1); 2%positive := (0, 1) ]}.

(** The only index range of known length: 10 is (7 downto 0). *)
Definition sample_lengths : gmap positive Z := {[ 10%positive := 8 ]}.

Definition sample_dimension_of (hp : heap) (t : type_t) : Z :=
  match type_base_recur 8 hp t ≫= (hp !!.) with
  | Some o =>
      match kind o with
      | T_UARRAY => Z.of_nat (length (indexcon o))
      | _ => Z.of_nat (length (dims o))
      end
  | None => 0
  end.

Definition sample_range_of (hp : heap) (t : type_t) (i : Z) : range_t :=
  match hp !! t with
  | Some o => default 99%positive (dims o !! Z.to_nat i)
  | None => 99%positive
  end.

(** The sample numbers a field declaration like the type of the field. *)
Definition sample_env : Env :=
  {| bits_for_range := sample_bits_for_range;
     folded_bounds := fun r => sample_bounds !! r;
     folded_length := fun r => sample_lengths !! r;
     dimension_of := sample_dimension_of;
     range_of := sample_range_of;
     tree_type := fun f => f |}.

(** INTEGER, BIT, REAL, a constrained array of 8 bits, BIT_VECTOR, an
    unconstrained subtype of it, and a record of a bit, an integer, a real
    and the array. *)
Definition sample_heap : heap :=
  list_to_map
    [(1%positive, TypeObj T_INTEGER (Some "INTEGER") None None None
                    [1%positive] None [] [] None None [] None);
     (2%positive, TypeObj T_ENUM (Some "BIT") None None None
                    [2%positive] None [] [] None None [] None);
     (3%positive, TypeObj T_REAL (Some "REAL") None None None
                    [3%positive] None [] [] None None [] None);
     (4%positive, TypeObj T_CARRAY (Some "BYTE") None None None
                    [10%positive] (Some 2%positive) [] [] None None [] None);
     (5%positive, TypeObj T_UARRAY (Some "BIT_VECTOR") None None None
                    [] (Some 2%positive) [1%positive] [] None None [] None);
     (6%positive, TypeObj T_SUBTYPE None (Some 5%positive) None None
                    [] None [] [] None None [] None);
     (7%positive, TypeObj T_RECORD (Some "REC") None None None
                    [] None [] [2%positive; 1%positive; 3%positive; 4%positive]
                    None None [] None)].

(** [elem_chain hp e r]: [r] is reached from [e] by taking the element
    type as long as the type is an array. *)
Inductive elem_chain (hp : heap) : type_t -> type_t -> Prop :=
| elem_chain_stop n e :
    type_is_array n hp e = Some false -> elem_chain hp e e
| elem_chain_step n m e e' r :
    type_is_array n hp e = Some true -> type_elem m hp e = Some e' ->
    elem_chain hp e' r -> elem_chain hp e r.

(** A layout with the class of every part reset to the zero class. *)
Definition untagged (l : jit_layout_t) : jit_layout_t :=
  JitLayout (size l) (align l) (nparts l)
    (map (fun p => Part (offset p) (psize p) (repeat p) (palign p) LC_DATA)
       (parts l)).

(** An array whose number of elements is not known ([count_sub_elements]
    is negative): an unconstrained array type, or one with bounds that are
    not static. *)
Definition unconstrained_array `{Env} (hp : heap) (t : type_t) : Prop :=
  exists n ne, type_is_array n hp t = Some true /\
               count_sub_elements n hp t = Some ne /\ ne < 0.

(** Only the layouts of such arrays carry a class other than [LC_DATA]. *)
Definition tagged_only_if_unconstrained `{Env} (hp : heap) (t : type_t)
    (l : jit_layout_t) : Prop :=
  untagged l = l \/ unconstrained_array hp t.

(** Calls of [layout_of], one after the other, each from the cache the
    one before left: the layouts returned and the cache at the end. *)
Fixpoint layout_calls
    (lay : cache_t -> type_t -> option (jit_layout_t * cache_t))
    (ts : list type_t) (c : cache_t) : option (list jit_layout_t * cache_t) :=
  match ts with
  | [] => Some ([], c)
  | t :: ts' =>
      r ← lay c t;
      r' ← layout_calls lay ts' r.2;
      Some (r.1 :: r'.1, r'.2)
  end.

(** The assumption on the absent [dimension_of], [range_of] and
    [folded_length]: a subtype that is an array of unknown length has a
    base type that is one too, with as many dimensions. *)
Definition subtype_like_base `{Env} (hp : heap) (t : type_t) : Prop :=
  type_kind hp t = Some T_SUBTYPE -> unconstrained_array hp t ->
  forall n b, type_base_recur n hp t = Some b ->
    unconstrained_array hp b /\ dimension_of hp b = dimension_of hp t.

(** The caches of the two revisions after the same calls.  A type of
    known length is in both or in none, with the same layout; of an array
    of unknown length the first revision holds the layout with its
    classes and never a subtype, the second the layout without them. *)
Definition caches_agree `{Env} (hp : heap) (c1 c2 : cache_t) : Prop :=
  (forall t l1, c1 !! t = Some l1 ->
     (unconstrained_array hp t /\ type_kind hp t <> Some T_SUBTYPE /\
      l1 = pointer_layout (to_int (dimension_of hp t)) LC_EXTERNAL LC_BOUNDS) \/
     (~ unconstrained_array hp t /\ untagged l1 = l1 /\ c2 !! t = Some l1)) /\
  (forall t l2, c2 !! t = Some l2 ->
     (unconstrained_array hp t /\
      l2 = pointer_layout (to_int (dimension_of hp t)) LC_DATA LC_DATA) \/
     (~ unconstrained_array hp t /\ c1 !! t = Some l2)).

(** An array of 2^30 integers: range 10 now has 2^30 values, and type 4
    is an array over it of INTEGER. *)
Definition big_env : Env :=
  {| bits_for_range := sample_bits_for_range;
     folded_bounds := fun r => sample_bounds !! r;
     folded_length := fun r => (<[10%positive := 2^30]> sample_lengths) !! r;
     dimension_of := sample_dimension_of;
     range_of := sample_range_of;
     tree_type := fun f => f |}.

Definition big_heap : heap :=
  <[4%positive := TypeObj T_CARRAY (Some "WORDS") None None None
                    [10%positive] (Some 1%positive) [] [] None None [] None]>
    sample_heap.

(** A record with a field of the unconstrained subtype. *)
Definition nested_heap : heap :=
  <[8%positive := TypeObj T_RECORD (Some "REC2") None None None
                    [] None [] [2%positive; 6%positive; 1%positive]
                    None None [] None]>
    sample_heap.

(** A scalar of no bits (null range, here range 4) between two integers:
    the fields of the record overlap and the size falls short of the
    parts. *)
Definition null_env : Env :=
  {| bits_for_range := sample_bits_for_range;
     folded_bounds := fun r => (<[4%positive := (1, 0)]> sample_bounds) !! r;
     folded_length := fun r => sample_lengths !! r;
     dimension_of := sample_dimension_of;
     range_of := sample_range_of;
     tree_type := fun f => f |}.

Definition null_heap : heap :=
  list_to_map
    [(1%positive, TypeObj T_INTEGER (Some "INTEGER") None None None
                    [1%positive] None [] [] None None [] None);
     (2%positive, TypeObj T_INTEGER (Some "EMPTY") None None None
                    [4%positive] None [] [] None None [] None);
     (3%positive, TypeObj T_RECORD (Some "REC") None None None
                    [] None [] [1%positive; 2%positive; 1%positive]
                    None None [] None)].

End LayoutSpec.

Module ChashSpec.
Import Common Hash Hash.Conc.
Local Open Scope Z_scope.

(** [chain_rep nodes hd l]: following [chain] from [hd] visits exactly the
    nodes [l] and ends at NULL. *)
Inductive chain_rep (nodes : gmap positive chash_node_t)
    : option node_p -> list node_p -> Prop :=
| chain_nil : chain_rep nodes None []
| chain_cons a nd l :
    nodes !! a = Some nd -> chain_rep nodes (chain nd) l ->
    chain_rep nodes (Some a) (a :: l).

(** The link the walk stops at: the link it started from for an empty
    chain, the [chain] field of the last node otherwise. *)
Fixpoint last_link (p : link) (l : list node_p) : link :=
  match l with
  | [] => p
  | a :: l' => last_link (ChainLink a) l'
  end.

Definition key_absent (s : state) (l : list node_p) (k : Z) : Prop :=
  forall a nd, a ∈ l -> nodes s !! a = Some nd -> key nd <> k.

(** An instance of the helpers of util.h to run the code on. *)
Definition sample_util : Util :=
  {| mix_bits_64 := fun k => Z.lxor k (Z.shiftr k 33);
     mix_bits_32 := fun k => Z.lxor k (Z.shiftr k 15);
     next_power_of_2 := fun n => 2 ^ Z.log2_up (Z.max n 1) |}.

(** A table of [chash_new(1)] holding the key 16. *)
Definition one_key : state :=
  State 1 0 [Some 1%positive] {[ 1%positive := Node None 16 100 ]} 2%positive 0.

End ChashSpec.

Module DiagSpec.
Import Util.
Local Open Scope Z_scope.

(** What a call through [error_fn] appends to the trace. *)
Definition error_fn_trace (s : state) (msg : string) (l : loc_t) : list event :=
  match error_fn s with
  | def_error_fn_p =>
      match message_style s with
      | MESSAGE_COMPACT => [EvLoc l; EvPrint "Error" msg]
      | MESSAGE_FULL => [EvPrint "Error" msg; EvLoc l]
      end
  | user_error_fn id => [EvErrorFn id msg l]
  end.

Definition with_trace (s : state) (t : list event) : state :=
  State (error_fn s) (message_style s) (options s) (hints s) (n_errors s)
    (inside s) t.

(** The hints queued by [hint_at], which are reported through [note_at]. *)
Definition is_default (h : hint_t) : bool :=
  match func h with default_hint_fn_p => true | _ => false end.

Fixpoint count_default (hs : list hint_t) : Z :=
  match hs with
  | [] => 0
  | h :: hs' => (if is_default h then 1 else 0) + count_default hs'
  end.

(** The value of the integer option "unit-test". *)
Definition unit_test (s : state) (u : Z) : Prop :=
  exists it, opt_find "unit-test" (options s) = Some it /\
             opt_kind it = OPTION_INT /\ opt_value it = u.

(** A run with "unit-test" set and one hint queued by [hint_at]. *)
Definition unit_test_state : state :=
  State (user_error_fn 0) MESSAGE_FULL [Opt "unit-test" OPTION_INT 1]
    [Hint default_hint_fn_p (Some "while elaborating") 0 (Loc 3 1)] 0 false [].

End DiagSpec.

Module VcdSpec.
Import Vcd.
Local Open Scope Z_scope.

(** The times of the '#' records among some lines, in order. *)
Fixpoint time_lines (ls : list line) : list Z :=
  match ls with
  | [] => []
  | TimeLine t :: ls' => t :: time_lines ls'
  | ValueLine _ _ :: ls' => time_lines ls'
  end.

(** The output as the specification words it: a callback writes a time
    record only when its time differs from that of the previous callback
    ([prev]), then its value line. *)
Fixpoint expected (prev : Z) (evs : list event) : list line :=
  match evs with
  | [] => []
  | e :: evs' =>
      (if decide (ev_now e = prev) then [] else [TimeLine (ev_now e)])
      ++ ValueLine (ev_decl e) (ev_watch e) :: expected (ev_now e) evs'
  end.

(** No two neighbours of a list are equal. *)
Definition adjacent_distinct (l : list Z) : Prop :=
  forall i a b, l !! i = Some a -> l !! S i = Some b -> a <> b.

(** The lines written by a run on top of what the file held. *)
Definition written (evs : list event) (s : state) : list line :=
  drop (length (vcd_file s)) (vcd_file (run evs s)).

(** Three events at 10 fs, 10 fs and 25 fs from the initial state. *)
Definition sample_events : list event :=
  [Event 10 1 1; Event 10 2 2; Event 25 1 1].

End VcdSpec.

(* --------------------------------------------------------------------- *)
(** ** Open addressing, abstractly                                       *)
(* --------------------------------------------------------------------- *)

Module Probe.
Import Common.
Local Open Scope nat_scope.

(** An open-addressing table seen as a list of slots: empty, or a key with
    its value.  [pos k j] is the slot tried at step [j] of the probe
    sequence of key [k]. *)

(** Probing for [k] stops at an empty slot or at a slot holding [k]. *)
Definition stops {K} `{EqDecision K} (k : K) (s : option (K * Z)) : bool :=
  match s with
  | None => true
  | Some (k', _) => bool_decide (k' = k)
  end.

(** [j] is the first step at which probing for [k] stops. *)
Definition first_hit {K} `{EqDecision K} (pos : K -> nat -> nat)
    (tab : list (option (K * Z))) (k : K) (j : nat) : Prop :=
  (exists s, tab !! pos k j = Some s /\ stops k s = true) /\
  (forall j', j' < j -> exists s, tab !! pos k j' = Some s /\ stops k s = false).

(** Every stored key is where probing for it stops. *)
Definition reach {K} `{EqDecision K} (pos : K -> nat -> nat)
    (tab : list (option (K * Z))) : Prop :=
  forall q k v, tab !! q = Some (Some (k, v)) ->
  exists j, first_hit pos tab k j /\ pos k j = q.

(** The probe sequence of every key visits every slot of a table of [n]
    slots within [n] steps, and stays inside the table. *)
Definition covers {K} (pos : K -> nat -> nat) (n : nat) : Prop :=
  (forall k j, pos k j < n) /\
  (forall k q, q < n -> exists j, j < n /\ pos k j = q).

(** The value stored with [k], NULL if there is none: the table as a map. *)
Definition lookup {K} `{EqDecision K} (tab : list (option (K * Z))) (k : K) : Z :=
  match list_find (fun s => fst <$> s = Some k) tab with
  | Some (_, Some (_, v)) => v
  | _ => 0%Z
  end.

(** The number of occupied slots. *)
Definition occ {K} (tab : list (option (K * Z))) : nat :=
  length (filter (fun s => is_Some s) tab).

(** [first_hit], decided by running the probe sequence. *)
Definition first_hit_check {K} `{EqDecision K} (pos : K -> nat -> nat)
    (tab : list (option (K * Z))) (k : K) (j : nat) : bool :=
  match tab !! pos k j with Some s => stops k s | None => false end &&
  forallb (fun j' => match tab !! pos k j' with
                     | Some s => negb (stops k s)
                     | None => false
                     end) (seq 0 j).

(** [reach], decided by probing for every stored key. *)
Definition reach_check {K} `{EqDecision K} (pos : K -> nat -> nat)
    (tab : list (option (K * Z))) : bool :=
  forallb (fun q => match tab !! q with
                    | Some (Some (k, _)) =>
                        existsb (fun j => (pos k j =? q)
                                          && first_hit_check pos tab k j)
                          (seq 0 (length tab))
                    | _ => true
                    end) (seq 0 (length tab)).

Local Open Scope Z_scope.

(** The triangular numbers: the offsets of quadratic probing. *)
Definition tri (j : Z) : Z := j * (j + 1) / 2.

(** Linear probing from [start k] in a table of [size] slots. *)
Definition pos_linear {K} (start : K -> Z) (size : Z) (k : K) (j : nat) : nat :=
  Z.to_nat ((start k + Z.of_nat j) mod size).

(** Quadratic probing from [start k]. *)
Definition pos_quadratic {K} (start : K -> Z) (size : Z) (k : K) (j : nat) : nat :=
  Z.to_nat ((start k + tri (Z.of_nat j)) mod size).

End Probe.

(* --------------------------------------------------------------------- *)
(** ** The open-addressing tables of hash.c as maps                      *)
(* --------------------------------------------------------------------- *)

Module PtrSpec.
Import Common Hash Hash.Ptr Probe.
Local Open Scope Z_scope.

(** The table as a list of slots: a slot is empty when its key is NULL. *)
Definition slots (h : hash_t) : list (option (Z * Z)) :=
  zip_with (fun k v => if k =? NULL then None else Some (k, v))
    (keys h) (values h).

(** The slot [hash_slot] starts from. *)
Definition start `{Util} (size : Z) (key : Z) : Z :=
  Z.land (mix_bits_64 key) (size - 1).

Definition pos `{Util} (size : Z) : Z -> nat -> nat :=
  pos_quadratic (start size) size.

(** The representation invariant of [hash_t], without the bound on the
    load: the size is a power of two that fits the C types, the arrays
    have that many entries, [members] counts the slots with a key, and
    every key is where probing finds it. *)
Definition wf0 `{Util} (h : hash_t) : Prop :=
  (exists p, 0 <= p <= 31 /\ size h = 2 ^ p) /\
  length (keys h) = Z.to_nat (size h) /\
  length (values h) = Z.to_nat (size h) /\
  members h = Z.of_nat (occ (slots h)) /\
  reach (pos (size h)) (slots h).

(** The invariant between calls: at most half of the slots have a key. *)
Definition wf `{Util} (h : hash_t) : Prop :=
  wf0 h /\ members h <= size h / 2.

(** The body of the loop that reinserts the entries of the old arrays. *)
Definition rehash_body `{Util} (n : nat) (old : hash_t) (i : Z) (h : hash_t)
    : option hash_t :=
  k ← get_at (keys old) i;
  if negb (k =? NULL) then
    v ← get_at (values old) i;
    snd <$> hash_put n h k v
  else Some h.

(** The empty table [hash_put] allocates when it rebuilds. *)
Definition rebuilt_empty (h : hash_t) : hash_t :=
  Hash (to_unsigned (size h * 2)) 0
    (replicate (Z.to_nat (to_unsigned (size h * 2))) NULL)
    (replicate (Z.to_nat (to_unsigned (size h * 2))) NULL).

(** The table after the reinsertion loop of [hash_put]. *)
Definition rebuilt `{Util} (n : nat) (h : hash_t) : option hash_t :=
  for_loop (Z.to_nat (to_int (size h))) 0 (rehash_body n h) (rebuilt_empty h).

(** The contract of one call of [hash_put]: it returns a well-formed
    table; when [members] had reached half of the size the arrays were
    first rebuilt at twice the size with every binding kept, and the
    binding was stored into the rebuilt table, else the size is unchanged;
    afterwards the key maps to the value and every other key to what it
    mapped to before. *)
Definition hash_put_ok `{Util} (n : nat) (h : hash_t) (key value : Z) : Prop :=
  exists b h',
    hash_put n h key value = Some (b, h') /\ wf h' /\
    (if size h / 2 <=? members h then
       size h' = 2 * size h /\
       exists h1, rebuilt (pred n) h = Some h1 /\ size h1 = 2 * size h /\
         (forall k, k <> NULL -> hash_get n h1 k = hash_get n h k) /\
         hash_put n h key value
         = (slot ← hash_slot (size h1) key;
            hash_put_loop (pred n) h1 key value slot 1)
     else size h' = size h) /\
    hash_get n h' key = Some value /\
    (forall k', k' <> NULL -> k' <> key -> hash_get n h' k' = hash_get n h k').

(** A table of four slots, half full: the keys 5 and 13 both start
    probing at slot 1 under the sample mixer. *)
Definition sample_table : hash_t :=
  Hash 4 2 [0; 50; 130; 0] [0; 5; 13; 0].

End PtrSpec.

Module StrSpec.
Import Common Hash Hash.Str Probe.
Local Open Scope Z_scope.

(** The table as a list of slots: a slot is empty when its key is NULL. *)
Definition slots (h : shash_t) : list (option (string * Z)) :=
  zip_with (fun k v => (fun k' => (k', v)) <$> k) (keys h) (values h).

(** The slot [shash_slot] starts from. *)
Definition start `{Util} (size : Z) (key : string) : Z :=
  Z.land (mix_bits_32 (djb2 5381 key)) (size - 1).

Definition pos `{Util} (size : Z) : string -> nat -> nat :=
  pos_linear (start size) size.

(** The representation invariant of [shash_t], without the bound on the
    load. *)
Definition wf0 `{Util} (h : shash_t) : Prop :=
  (exists p, 0 <= p <= 31 /\ size h = 2 ^ p) /\
  length (keys h) = Z.to_nat (size h) /\
  length (values h) = Z.to_nat (size h) /\
  members h = Z.of_nat (occ (slots h)) /\
  reach (pos (size h)) (slots h).

(** The invariant between calls: at most half of the slots have a key. *)
Definition wf `{Util} (h : shash_t) : Prop :=
  wf0 h /\ members h <= size h / 2.

(** The body of the loop that reinserts the entries of the old arrays. *)
Definition rehash_body `{Util} (n : nat) (old : shash_t) (i : Z) (h : shash_t)
    : option shash_t :=
  k ← get_at (keys old) i;
  match k with
  | Some k' => v ← get_at (values old) i; shash_put_copy n h k' v
  | None => Some h
  end.

(** The empty table [shash_put] allocates when it rebuilds. *)
Definition rebuilt_empty (h : shash_t) : shash_t :=
  SHash (to_unsigned (size h * 2)) 0
    (replicate (Z.to_nat (to_unsigned (size h * 2))) NULL)
    (replicate (Z.to_nat (to_unsigned (size h * 2))) None).

(** The table after the reinsertion loop of [shash_put]. *)
Definition rebuilt `{Util} (n : nat) (h : shash_t) : option shash_t :=
  for_loop (Z.to_nat (to_int (size h))) 0 (rehash_body n h) (rebuilt_empty h).

(** The contract of one call of [shash_put], as for [hash_put]. *)
Definition shash_put_ok `{Util} (n : nat) (h : shash_t) (key : string)
    (value : Z) : Prop :=
  exists h',
    shash_put n h key value = Some h' /\ wf h' /\
    (if size h / 2 <=? members h then
       size h' = 2 * size h /\
       exists h1, rebuilt n h = Some h1 /\ size h1 = 2 * size h /\
         (forall k, shash_get n h1 k = shash_get n h k) /\
         shash_put n h key value = shash_put_copy n h1 key value
     else size h' = size h) /\
    shash_get n h' key = Some value /\
    (forall k', k' <> key -> shash_get n h' k' = shash_get n h k').

(** A table of two slots, half full: the key [a] sits in slot 1. *)
Definition sample_table : shash_t :=
  SHash 2 1 [0; 10] [None; Some "a"%string].

End StrSpec.

Module IntSpec.
Import Common Hash Hash.Int Probe.
Local Open Scope Z_scope.

(** A slot of the table: empty unless its bit of the mask is set. *)
Definition slot_at (h : ihash_t) (i : nat) : option (Z * Z) :=
  match mask_test (mask h) (Z.of_nat i), keys h !! i, values h !! i with
  | Some true, Some k, Some v => Some (k, v)
  | _, _, _ => None
  end.

(** The table as a list of slots. *)
Definition slots (h : ihash_t) : list (option (Z * Z)) :=
  slot_at h <$> seq 0 (Z.to_nat (size h)).

(** The mixer of [ihash_slot]. *)
Definition splitmix (key : Z) : Z :=
  let key := to_uint64 (Z.lxor key (Z.shiftr key 30) * 0xbf58476d1ce4e5b9) in
  let key := to_uint64 (Z.lxor key (Z.shiftr key 27) * 0x94d049bb133111eb) in
  Z.lxor key (Z.shiftr key 31).

(** The slot [ihash_slot] starts from. *)
Definition start (size : Z) (key : Z) : Z := Z.land (splitmix key) (size - 1).

Definition pos (size : Z) : Z -> nat -> nat := pos_linear (start size) size.

(** The representation invariant of [ihash_t], without the bounds on the
    load and on the cache: the mask has a bit for every slot. *)
Definition wf0 (h : ihash_t) : Prop :=
  (exists p, 0 <= p <= 31 /\ size h = 2 ^ p) /\
  length (keys h) = Z.to_nat (size h) /\
  length (values h) = Z.to_nat (size h) /\
  size h <= 64 * Z.of_nat (length (mask h)) /\
  members h = Z.of_nat (occ (slots h)) /\
  reach (pos (size h)) (slots h).

(** The one-entry cache is consulted when the table has a member: it then
    holds a key and the value stored with it. *)
Definition cache_ok (h : ihash_t) : Prop :=
  0 < members h -> cacheval h = lookup (slots h) (cachekey h).

(** The invariant between calls. *)
Definition wf (h : ihash_t) : Prop :=
  wf0 h /\ members h <= size h / 2 /\ cache_ok h.

(** [h->cachekey = key; h->cacheval = value] *)
Definition with_cache (h : ihash_t) (key value : Z) : ihash_t :=
  IHash (size h) (members h) (values h) (keys h) (mask h) key value.

(** The body of the loop that reinserts the entries of the old arrays. *)
Definition rehash_body (n : nat) (old : ihash_t) (i : Z) (h : ihash_t)
    : option ihash_t :=
  m ← mask_test (mask old) i;
  if (m : bool) then
    k ← get_at (keys old) i;
    v ← get_at (values old) i;
    ihash_put n h k v
  else Some h.

(** The empty table [ihash_put] allocates when it rebuilds. *)
Definition rebuilt_empty (h : ihash_t) : ihash_t :=
  IHash (to_unsigned (size h * 2)) 0
    (replicate (Z.to_nat (to_unsigned (size h * 2))) NULL)
    (replicate (Z.to_nat (to_unsigned (size h * 2))) 0)
    (replicate (Z.to_nat (ALIGN_UP (to_unsigned (size h * 2)) 64 / 64)) 0)
    (cachekey h) (cacheval h).

(** The table after the reinsertion loop of [ihash_put]. *)
Definition rebuilt (n : nat) (h : ihash_t) : option ihash_t :=
  for_loop (Z.to_nat (to_int (size h))) 0 (rehash_body n h) (rebuilt_empty h).

(** The contract of one call of [ihash_put], as for [hash_put]; the
    lookups go through [ihash_get], which also returns the table with its
    cache updated. *)
Definition ihash_put_ok (n : nat) (h : ihash_t) (key value : Z) : Prop :=
  exists h',
    ihash_put n h key value = Some h' /\ wf h' /\
    (if size h / 2 <=? members h then
       size h' = 2 * size h /\
       exists h1, rebuilt (pred n) h = Some h1 /\ size h1 = 2 * size h /\
         (forall k, fst <$> ihash_get n h1 k = fst <$> ihash_get n h k) /\
         ihash_put n h key value
         = ihash_put_loop (pred n) (with_cache h1 key value) key value
             (ihash_slot h1 key)
     else size h' = size h) /\
    fst <$> ihash_get n h' key = Some value /\
    (forall k', k' <> key ->
       fst <$> ihash_get n h' k' = fst <$> ihash_get n h k').

(** A table of two slots, half full: the key 7 sits in slot 0, and the
    cache holds it. *)
Definition sample_table : ihash_t :=
  IHash 2 1 [70; 0] [7; 0] [1] 7 70.

End IntSpec.

(* --------------------------------------------------------------------- *)
(** ** Verilog simplification: what a step changes and the trees of a module *)
(* --------------------------------------------------------------------- *)

Module VlogSpec.
Import Common Vlog.
Local Open Scope nat_scope.

(** The nodes a node owns: what the traversal walks. *)
Definition children (o : vlog_obj) : list vlog_node_t :=
  option_list (value o) ++ option_list (target o) ++ option_list (type_ o)
  ++ params o ++ decls o ++ stmts o.

(** The kinds on which [vlog_simp_cb] does nothing and that are not
    top-level units. *)
Definition plain (k : vlog_kind_t) : bool :=
  match k with
  | V_MODULE | V_PRIMITIVE | V_PORT_DECL | V_NET_DECL => false
  | _ => true
  end.

(** [v] is the root of a tree of plain nodes of depth at most [b] whose
    arrays have fewer than [b] entries. *)
Fixpoint clean (b : nat) (s : state) (v : vlog_node_t) : Prop :=
  match b with
  | O => False
  | S b' =>
      exists o, nodes s !! v = Some o /\ plain (kind o) = true /\
        length (params o) <= b' /\ length (decls o) <= b' /\
        length (stmts o) <= b' /\
        Forall (clean b' s) (children o)
  end.

(** The block of [simp_net_decl] that pulls a supply net up or down. *)
Definition gate_block `{Env} (kind : Z) (decl mod_ : vlog_node_t) : M unit :=
  g <- vlog_new V_GATE_INST ;;
  l <- vlog_loc decl ;;
  vlog_set_loc g l ;;;
  name <- vlog_ident decl ;;
  pull <- ident_new "pull" ;;
  id <- ident_prefix name pull "#" ;;
  vlog_set_ident g id ;;;
  s <- vlog_new V_STRENGTH ;;
  vlog_set_subkind s ST_SUPPLY ;;;
  vlog_add_param g s ;;;
  (if (kind =? V_NET_SUPPLY0)%Z then vlog_set_subkind g V_GATE_PULLDOWN
   else vlog_set_subkind g V_GATE_PULLUP) ;;;
  target <- vlog_new V_REF ;;
  l <- vlog_loc decl ;;
  vlog_set_loc target l ;;;
  vlog_set_ident target name ;;;
  vlog_set_ref target decl ;;;
  vlog_set_target g target ;;;
  vlog_add_stmt mod_ g.

(** The block of [simp_net_decl] that moves the initial value. *)
Definition hoist_block `{Env} (decl mod_ : vlog_node_t) : M unit :=
  value <- vlog_value decl ;;
  vlog_set_value decl None ;;;
  id <- vlog_ident decl ;;
  loc <- vlog_loc decl ;;
  ref <- vlog_new V_REF ;;
  vlog_set_ref ref decl ;;;
  vlog_set_ident ref id ;;;
  vlog_set_loc ref loc ;;;
  a <- vlog_new V_ASSIGN ;;
  vlog_set_target a ref ;;;
  vlog_set_value a (Some value) ;;;
  vlog_set_loc a loc ;;;
  let name := ("__assign#" ++ istr id)%string in
  uid <- ident_uniq name ;;
  vlog_set_ident a uid ;;;
  vlog_add_stmt mod_ a.

(** The reference to [decl] that the blocks create. *)
Definition ref_obj (id : ident_t) (l : Util.loc_t) (decl : vlog_node_t)
    : vlog_obj :=
  Obj V_REF 0 (Some id) l None (Some decl) None None [] [] [].

(** The continuous assignment that takes the initial value [v]. *)
Definition assign_obj (uid : ident_t) (l : Util.loc_t) (v r : vlog_node_t)
    : vlog_obj :=
  Obj V_ASSIGN 0 (Some uid) l (Some v) None (Some r) None [] [] [].

(** The gate of a supply net. *)
Definition gate_obj (sk : Z) (id : ident_t) (l : Util.loc_t)
    (st t : vlog_node_t) : vlog_obj :=
  Obj V_GATE_INST sk (Some id) l None None (Some t) None [st] [] [].

Definition strength_obj `{Env} : vlog_obj :=
  Obj V_STRENGTH ST_SUPPLY None Util.LOC_INVALID None None None None [] [] [].

(** The wire that [simp_port_decl] declares for a port. *)
Definition wire_obj `{Env} (id : ident_t) (l : Util.loc_t)
    (t : option vlog_node_t) : vlog_obj :=
  Obj V_NET_DECL V_NET_WIRE (Some id) l None None None t [] [] [].

(** The top-level units. *)
Definition is_top (k : vlog_kind_t) : bool :=
  match k with V_MODULE | V_PRIMITIVE => true | _ => false end.

(** What a call of [vlog_simp_cb] on [d] may change: [d] can lose its
    value or gain its wire, the module gets new statements and
    declarations, new nodes appear; every other node stays as it is. *)
Definition step (mod_ d : vlog_node_t) (s s' : state) : Prop :=
  is_Some (nodes s !! d) /\ is_Some (nodes s !! mod_) /\
  (forall x o, nodes s !! x = Some o -> x <> d -> x <> mod_ ->
     nodes s' !! x = Some o) /\
  (forall od, nodes s !! d = Some od ->
     exists od', nodes s' !! d = Some od' /\
       kind od' = kind od /\ ident od' = ident od /\
       target od' = target od /\ type_ od' = type_ od /\
       params od' = params od /\ decls od' = decls od /\
       stmts od' = stmts od /\
       (value od' = value od \/ value od' = None) /\
       (ref od' = ref od \/ ref od = None)) /\
  (forall om, nodes s !! mod_ = Some om ->
     exists ns nd,
       nodes s' !! mod_
       = Some (with_decls (decls om ++ nd) (with_stmts (stmts om ++ ns) om))) /\
  (forall x o', nodes s !! x = None -> nodes s' !! x = Some o' ->
     plain (kind o') = true \/
     (kind o' = V_NET_DECL /\ value o' = None)).

(** Every identifier of a node came from the interner. *)
Definition idents_interned (s : state) : Prop :=
  forall x o id, nodes s !! x = Some o -> ident o = Some id ->
  id ∈ interned s.

(** [idents_interned], decided by running over the store. *)
Definition idents_interned_check (s : state) : bool :=
  forallb (fun xo => match ident (snd xo) with
                     | Some id => bool_decide (id ∈ interned s)
                     | None => true
                     end) (map_to_list (nodes s)).

(** A choice for [ident_uniq]: the base, made longer than every
    identifier in use. *)
Definition max_len (used : list ident_t) : nat :=
  foldr (fun x m => Nat.max (String.length x) m) 0 used.

Fixpoint pad (n : nat) : string :=
  match n with
  | O => EmptyString
  | S n' => String "_" (pad n')
  end.

Definition sample_uniq (used : list ident_t) (base : string) : ident_t :=
  (base ++ pad (S (max_len used)))%string.

(** The sample values of the enumerators, with [sample_uniq]. *)
Definition sample_env : Env.
Proof.
  refine {| V_NET_WIRE := 0; V_NET_SUPPLY0 := 1; V_NET_SUPPLY1 := 2;
            V_GATE_PULLDOWN := 0; V_GATE_PULLUP := 1; ST_SUPPLY := 0;
            uniq := sample_uniq |}.
  intros used base Hin.
  assert (Hle : String.length (sample_uniq used base) <= max_len used).
  { clear -Hin. induction Hin as [x l|x y l _ IH]; simpl; lia. }
  assert (Happ : forall a c : string,
            String.length (a ++ c) = String.length a + String.length c).
  { clear. intros a c. induction a as [|ch a IH]; simpl; [done|]. by rewrite IH. }
  assert (Hpad : forall n, String.length (pad n) = n).
  { clear. induction n as [|n IH]; simpl; [done|]. by rewrite IH. }
  unfold sample_uniq in Hle. rewrite Happ, Hpad in Hle. lia.
Defined.

(** A module with a net [w] that has an initial value and a port [p]. *)
Definition sample_module : vlog_obj :=
  Obj V_MODULE 0 (Some "m"%string) Util.LOC_INVALID None None None None
    [] [2%positive; 3%positive] [].

Definition sample_net : vlog_obj :=
  Obj V_NET_DECL 0 (Some "w"%string) Util.LOC_INVALID (Some 4%positive)
    None None None [] [] [].

Definition sample_port : vlog_obj :=
  Obj V_PORT_DECL 0 (Some "p"%string) Util.LOC_INVALID None None None None
    [] [] [].

Definition sample_number : vlog_obj :=
  Obj (V_OTHER 0) 0 None Util.LOC_INVALID None None None None [] [] [].

Definition sample_store : state :=
  State (list_to_map [(1%positive, sample_module); (2%positive, sample_net);
                      (3%positive, sample_port); (4%positive, sample_number)])
        ["m"; "w"; "p"]%string.

(** [c] is among the nodes that [v] owns. *)
Definition owns (s : state) (v c : vlog_node_t) : Prop :=
  exists o, nodes s !! v = Some o /\ c ∈ children o.

(** [d] is [v] or a node below [v]: in the part of the design that the
    walk from [v] visits. *)
Inductive reach (s : state) : vlog_node_t -> vlog_node_t -> Prop :=
| reach_refl v : reach s v v
| reach_step v c d : owns s v c -> reach s c d -> reach s v d.

(** The identifier that the pass reads with [vlog_ident] is there: on a
    supply net, on a net with an initial value and on a port without a
    wire. *)
Definition decl_ok `{Env} (o : vlog_obj) : bool :=
  match kind o with
  | V_NET_DECL =>
      if (subkind o =? V_NET_SUPPLY0)%Z || (subkind o =? V_NET_SUPPLY1)%Z
         || (if value o is Some _ then true else false)
      then (if ident o is Some _ then true else false)
      else true
  | V_PORT_DECL =>
      match ref o, ident o with
      | None, None => false
      | _, _ => true
      end
  | _ => true
  end.

(** [v] is the root of a tree of nodes of the store, of depth at most
    [b] and with arrays of fewer than [b] entries, that does not hold
    the module and whose declarations have the identifiers that the pass
    reads. *)
Fixpoint tree `{Env} (mod_ : vlog_node_t) (b : nat) (s : state) (v : vlog_node_t)
    : bool :=
  match b with
  | O => false
  | S b' =>
      bool_decide (v <> mod_) &&
      match nodes s !! v with
      | None => false
      | Some o =>
          decl_ok o && (length (params o) <=? b') && (length (decls o) <=? b')
          && (length (stmts o) <=? b') && forallb (tree mod_ b' s) (children o)
      end
  end.

(** The least [b] below [B] with [P b], to order the nodes of a tree by
    their height. *)
Fixpoint least (P : nat -> bool) (B : nat) : nat :=
  match B with
  | O => O
  | S B' => if P O then O else S (least (fun b => P (S b)) B')
  end.

Definition height `{Env} (mod_ : vlog_node_t) (B : nat) (s : state)
    (v : vlog_node_t) : nat :=
  least (fun b => tree mod_ b s v) B.

(** [tree] with the order on the nodes made explicit: what a node owns
    is below it in [rank]. *)
Fixpoint raw `{Env} (rank : vlog_node_t -> nat) (mod_ : vlog_node_t) (b : nat)
    (s : state) (v : vlog_node_t) : Prop :=
  match b with
  | O => False
  | S b' =>
      v <> mod_ /\
      exists o, nodes s !! v = Some o /\ decl_ok o = true /\
        length (params o) <= b' /\ length (decls o) <= b' /\
        length (stmts o) <= b' /\
        Forall (fun c => rank c < rank v /\ raw rank mod_ b' s c) (children o)
  end.

(** Nothing is left to do on the node: a net declaration has no initial
    value, a port has its wire. *)
Definition nothing_left (o : vlog_obj) : Prop :=
  (kind o = V_NET_DECL -> value o = None) /\
  (kind o = V_PORT_DECL -> is_Some (ref o)).

(** A tree on whose nodes nothing is left to do. *)
Fixpoint settled `{Env} (mod_ : vlog_node_t) (b : nat) (s : state)
    (v : vlog_node_t) : Prop :=
  match b with
  | O => False
  | S b' =>
      v <> mod_ /\
      exists o, nodes s !! v = Some o /\ decl_ok o = true /\ nothing_left o /\
        length (params o) <= b' /\ length (decls o) <= b' /\
        length (stmts o) <= b' /\
        Forall (settled mod_ b' s) (children o)
  end.

(** What the pass may change of a node that is not the module: a net
    declaration can lose its value, a port can get its wire. *)
Definition keeps (o o' : vlog_obj) : Prop :=
  kind o' = kind o /\ ident o' = ident o /\
  target o' = target o /\ type_ o' = type_ o /\
  params o' = params o /\ decls o' = decls o /\ stmts o' = stmts o /\
  (value o' = value o \/ (kind o = V_NET_DECL /\ value o' = None)) /\
  (ref o' = ref o \/ (kind o = V_PORT_DECL /\ is_Some (ref o'))) /\
  subkind o' = subkind o.

Definition kept (mod_ : vlog_node_t) (s s' : state) : Prop :=
  forall x o, nodes s !! x = Some o -> x <> mod_ ->
  exists o', nodes s' !! x = Some o' /\ keeps o o'.

(** What a part of the walk may change: the nodes other than the module
    as [keeps] says, and the module gets statements and declarations on
    which nothing is left to do. *)
Definition evolves `{Env} (mod_ : vlog_node_t) (B : nat) (s s' : state) : Prop :=
  kept mod_ s s' /\
  forall om, nodes s !! mod_ = Some om ->
    exists ns nd,
      nodes s' !! mod_
      = Some (with_decls (decls om ++ nd) (with_stmts (stmts om ++ ns) om)) /\
      Forall (settled mod_ B s') ns /\ Forall (settled mod_ B s') nd.

(** The walk of a tree on which nothing is left to do: the nodes other
    than the module stay, the module gets gates of supply nets. *)
Definition gated (mod_ : vlog_node_t) (s s' : state) : Prop :=
  (forall x o, nodes s !! x = Some o -> x <> mod_ -> nodes s' !! x = Some o) /\
  forall om, nodes s !! mod_ = Some om ->
    exists ns,
      nodes s' !! mod_ = Some (with_stmts (stmts om ++ ns) om) /\
      Forall (clean 2 s') ns.

(** The nodes at or above [x] in [rank] stay as they are. *)
Definition above (rank : vlog_node_t -> nat) (mod_ x : vlog_node_t)
    (s s' : state) : Prop :=
  forall y o, nodes s !! y = Some o -> y <> mod_ -> rank x <= rank y ->
  nodes s' !! y = Some o.

(** What a callback adds to an array of the module. *)
Definition grow (i : array_slot) (ns nd : list vlog_node_t)
    : list vlog_node_t :=
  match i with
  | I_PARAMS => []
  | I_DECLS => nd
  | I_STMTS => ns
  end.

(** A module [m] whose net [w] holds, in its initial value, the
    expression 4 that owns the net 5 with the initial value 6. *)
Definition nested_module : vlog_obj :=
  Obj V_MODULE 0 (Some "m"%string) Util.LOC_INVALID None None None None
    [] [2%positive; 3%positive] [].

Definition nested_expr : vlog_obj :=
  Obj (V_OTHER 1) 0 None Util.LOC_INVALID None None None None
    [] [5%positive] [].

Definition nested_net : vlog_obj :=
  Obj V_NET_DECL 0 (Some "t"%string) Util.LOC_INVALID (Some 6%positive)
    None None None [] [] [].

Definition nested_store : state :=
  State (list_to_map [(1%positive, nested_module); (2%positive, sample_net);
                      (3%positive, sample_port); (4%positive, nested_expr);
                      (5%positive, nested_net); (6%positive, sample_number)])
        ["m"; "w"; "p"; "t"]%string.

(** More steps do not change the result of a call. *)
Definition le_M {A} (m m' : M A) : Prop :=
  forall s r, m s = Some r -> m' s = Some r.

End VlogSpec.

Module UtilNumSpec.
Local Open Scope Z_scope.

(** Equality of the low 64 bits. *)
Definition eqm (a b : Z) : Prop := a mod 2 ^ 64 = b mod 2 ^ 64.

End UtilNumSpec.

(* --------------------------------------------------------------------- *)
(** ** More vocabulary for the pointer hash                              *)
(* --------------------------------------------------------------------- *)

Module PtrMore.
Import Common Hash Hash.Ptr Probe PtrSpec.
Local Open Scope Z_scope.

(** The key occupies a slot of the table. *)
Definition has_key {K} (tab : list (option (K * Z))) (k : K) : Prop :=
  exists q v, tab !! q = Some (Some (k, v)).

(** A slot that [hash_iter] hands out: key and value are not NULL. *)
Definition live (kv : Z * Z) : Prop := kv.1 <> NULL /\ kv.2 <> NULL.

#[global] Instance live_dec kv : Decision (live kv).
Proof. unfold live. apply _. Defined.

(** The entries of the table in slot order. *)
Definition live_entries (h : hash_t) : list (Z * Z) :=
  filter live (zip (keys h) (values h)).

(** The loop of a client,
    [while (hash_iter(h, &it, &key, &value)) ...], collecting what it is
    handed; the result also holds the final value of the iterator. *)
Fixpoint hash_iter_all (fuel : nat) (h : hash_t) (now : Z)
    : option (list (Z * Z) * Z) :=
  match fuel with
  | O => None
  | S fuel' =>
      r ← hash_iter h now;
      match r with
      | (true, now', Some kv) =>
          r' ← hash_iter_all fuel' h now'; Some (kv :: r'.1, r'.2)
      | (true, _, None) => None
      | (false, now', _) => Some ([], now')
      end
  end.

(** The helpers of util.h, with [next_power_of_2] as util.c defines it. *)
Definition util_c : Util :=
  {| mix_bits_64 := fun k => Z.lxor k (Z.shiftr k 33);
     mix_bits_32 := fun k => Z.lxor k (Z.shiftr k 15);
     next_power_of_2 := UtilNum.next_power_of_2 |}.

End PtrMore.

Module VcdKeySpec.
Local Open Scope Z_scope.

(** Reading an identifier code back: base 93, least digit first. *)
Fixpoint vcd_key_decode (s : list Z) : Z :=
  match s with
  | [] => 0
  | c :: s' => (c - 33) + 93 * vcd_key_decode s'
  end.

End VcdKeySpec.

Module DiagMore.
Import Util DiagSpec.
Local Open Scope Z_scope.

(** What [msg_at] appends to the trace for a print function that writes
    its text under [prefix]. *)
Definition msg_trace (s : state) (prefix msg : string) (l : loc_t) : list event :=
  match message_style s with
  | MESSAGE_COMPACT => [EvLoc l; EvPrint prefix msg]
  | MESSAGE_FULL => [EvPrint prefix msg; EvLoc l]
  end.

(** What a warning or a note appends first: under "unit-test" it goes to
    the error function. *)
Definition report_trace (s : state) (u : Z) (prefix msg : string) (l : loc_t)
    : list event :=
  if u =? 0 then msg_trace s prefix msg l else error_fn_trace s msg l.

(** A run without "unit-test", two hints queued. *)
Definition plain_state : state :=
  State def_error_fn_p MESSAGE_FULL [Opt "unit-test" OPTION_INT 0]
    [Hint (user_hint_fn 4) None 9 LOC_INVALID;
     Hint default_hint_fn_p (Some "hint") 0 (Loc 3 1)] 41 false [].

End DiagMore.

Module TextBufSpec.
Import Common TextBuf.
Local Open Scope Z_scope.

(** The buffer holds [text]: its characters, none of them NUL, then a NUL,
    all inside the block of [alloc] bytes. *)
Definition tb_ok (tb : text_buf_t) (text : list Z) : Prop :=
  alloc tb = Z.of_nat (length (buf tb)) /\
  len tb = Z.of_nat (length text) /\
  Forall (fun c => c <> 0) text /\
  exists rest, buf tb = (Some <$> text) ++ Some 0 :: rest.

(** The calls a client makes on a buffer. *)
Inductive tb_op :=
| Append (ch : Z)
| Printf (s : list Z)
| Backup (n : Z)
| Rewind.

Definition tb_apply (fuel : nat) (tb : text_buf_t) (op : tb_op)
    : option text_buf_t :=
  match op with
  | Append ch => tb_append tb ch
  | Printf s => tb_printf fuel tb s
  | Backup n => tb_backup tb n
  | Rewind => tb_rewind tb
  end.

Fixpoint tb_run (fuel : nat) (ops : list tb_op) (tb : text_buf_t)
    : option text_buf_t :=
  match ops with
  | [] => Some tb
  | op :: ops' => tb' ← tb_apply fuel tb op; tb_run fuel ops' tb'
  end.

(** What the calls do to the text. *)
Definition text_after (text : list Z) (op : tb_op) : list Z :=
  match op with
  | Append ch => text ++ [ch]
  | Printf s => text ++ s
  | Backup n => take (length text - Z.to_nat n) text
  | Rewind => []
  end.

Fixpoint text_run (ops : list tb_op) (text : list Z) : list Z :=
  match ops with
  | [] => text
  | op :: ops' => text_run ops' (text_after text op)
  end.

(** The arguments are characters other than NUL, and counts. *)
Definition op_ok (op : tb_op) : Prop :=
  match op with
  | Append ch => ch <> 0
  | Printf s => Forall (fun c => c <> 0) s
  | Backup n => 0 <= n
  | Rewind => True
  end.

(** The number of characters a call adds. *)
Definition op_size (op : tb_op) : Z :=
  match op with
  | Append _ => 1
  | Printf s => Z.of_nat (length s)
  | _ => 0
  end.

Fixpoint ops_size (ops : list tb_op) : Z :=
  match ops with
  | [] => 0
  | op :: ops' => op_size op + ops_size ops'
  end.

End TextBufSpec.
Module LayoutSigSpec.
Import Common Type_ Layout LayoutSig.
Local Open Scope Z_scope.

(** The parts follow each other from [off] to [fin] without a gap. *)
Fixpoint packed (off : Z) (ps : list layout_part_t) (fin : Z) : Prop :=
  match ps with
  | [] => off = fin
  | p :: ps' => offset p = off /\ packed (off + psize p * repeat p) ps' fin
  end.

(** No part ends at 2^31 or beyond: nothing was cut in the sizes and
    offsets, which are [int]. *)
Definition sig_in_int (l : jit_layout_t) : Prop :=
  Forall (fun p => offset p + psize p * repeat p < 2^31) (parts l).

(** A signal layout: pointer aligned, of a size that is a multiple of 8,
    made of parts aligned to 8 whose sizes are multiples of 8. *)
Definition sig_aligned (l : jit_layout_t) : Prop :=
  align l = 8 /\ (8 | size l) /\
  Forall (fun p => palign p = 8 /\ (8 | psize p)) (parts l).

(** What holds of every layout that [signal_layout_of] returns. *)
Definition sig_ok (l : jit_layout_t) : Prop :=
  sig_aligned l /\ - 2^31 <= size l < 2^31 /\
  (sig_in_int l -> packed 0 (parts l) (size l)) /\
  (0 <= nparts l -> nparts l = Z.of_nat (length (parts l))).

Definition sig_cache_ok (c : cache_t) : Prop :=
  forall t l, c !! t = Some l -> sig_ok l.

(** Arrays whose bounds are static, all types homogeneous. *)
Definition sample_sig_env : SigEnv :=
  {| type_const_bounds := fun hp t => bool_decide (t = 4%positive);
     type_is_homogeneous := fun _ _ => true |}.

End LayoutSigSpec.
Module ChashMore.
Import Common Hash Hash.Conc ChashSpec.
Local Open Scope Z_scope.

(** The representation invariant of [chash_t]: the size is a power of two
    and counts the slots, the chain of every slot ends, and the addresses
    [xmalloc] has still to hand out are not in use. *)
Definition chash_wf (s : state) : Prop :=
  (exists p, 0 <= p <= 31 /\ size s = 2 ^ p) /\
  length (slots s) = Z.to_nat (size s) /\
  (forall i hd, slots s !! i = Some hd -> exists l, chain_rep (nodes s) hd l) /\
  (forall a, is_Some (nodes s !! a) -> (a < next_new s)%positive).

(** The value of the first node of a chain that holds the key, NULL when
    there is none. *)
Fixpoint chain_value (nodes : gmap positive chash_node_t) (l : list node_p)
    (k : Z) : Z :=
  match l with
  | [] => NULL
  | a :: l' =>
      match nodes !! a with
      | Some nd => if key nd =? k then value nd else chain_value nodes l' k
      | None => NULL
      end
  end.

End ChashMore.

(* --------------------------------------------------------------------- *)
(** ** The set of pointers                                               *)
(* --------------------------------------------------------------------- *)

Module HsetSpec.
Import Common Hash Hset Probe.
Local Open Scope Z_scope.

(** The table as a list of slots: a slot is empty when its key is NULL;
    a set stores no values. *)
Definition slots (h : hset_t) : list (option (Z * Z)) :=
  (fun k => if k =? NULL then None else Some (k, 0)) <$> keys h.

(** The slot [hash_slot] starts from. *)
Definition start `{Util} (size : Z) (key : Z) : Z :=
  Z.land (mix_bits_64 key) (size - 1).

Definition pos `{Util} (size : Z) : Z -> nat -> nat :=
  pos_linear (start size) size.

(** The representation invariant of [hset_t], without the bound on the
    load. *)
Definition wf0 `{Util} (h : hset_t) : Prop :=
  (exists p, 0 <= p <= 31 /\ size h = 2 ^ p) /\
  length (keys h) = Z.to_nat (size h) /\
  members h = Z.of_nat (occ (slots h)) /\
  reach (pos (size h)) (slots h).

(** The invariant between calls: at most half of the slots have a key. *)
Definition wf `{Util} (h : hset_t) : Prop :=
  wf0 h /\ members h <= size h / 2.

(** The body of the loop that reinserts the keys of the old array. *)
Definition rehash_body `{Util} (n : nat) (old : hset_t) (i : Z) (h : hset_t)
    : option hset_t :=
  k ← get_at (keys old) i;
  if negb (k =? NULL) then hset_insert n h k else Some h.

(** The empty table [hset_insert] allocates when it rebuilds. *)
Definition rebuilt_empty (h : hset_t) : hset_t :=
  HSet (to_unsigned (size h * 2)) 0
    (replicate (Z.to_nat (to_unsigned (size h * 2))) NULL).

(** The table after the reinsertion loop of [hset_insert]. *)
Definition rebuilt `{Util} (n : nat) (h : hset_t) : option hset_t :=
  for_loop (Z.to_nat (to_int (size h))) 0 (rehash_body n h) (rebuilt_empty h).

(** A client inserting the keys of a list, first to last. *)
Fixpoint hset_insert_all `{Util} (n : nat) (h : hset_t) (ks : list Z)
    : option hset_t :=
  match ks with
  | [] => Some h
  | k :: ks' => h' ← hset_insert n h k; hset_insert_all n h' ks'
  end.

End HsetSpec.

(* --------------------------------------------------------------------- *)
(** ** The generic hash table                                            *)
(* --------------------------------------------------------------------- *)

Module GhashSpec.
Import Common Hash Ghash Probe.
Local Open Scope Z_scope.

(** The keys stored in the table, in slot order and with repetitions. *)
Definition live (keys : list Z) : list Z := filter (fun k => k <> NULL) keys.

(** The slot [ghash_slot] starts from. *)
Definition start `{Util} (h : ghash_t) (key : Z) : Z :=
  Z.land (mix_bits_64 (to_uint64 (hash_fn h key))) (size h - 1).

Definition pos `{Util} (h : ghash_t) : Z -> nat -> nat :=
  pos_quadratic (start h) (size h).

(** [j] is the first step of a probe sequence that meets an empty slot. *)
Definition first_empty (pos : nat -> nat) (keys : list Z) (j : nat) : Prop :=
  keys !! pos j = Some NULL /\
  forall j', (j' < j)%nat -> exists k, keys !! pos j' = Some k /\ k <> NULL.

(** The representation invariant of [ghash_t], without the bound on the
    load: [members] counts the slots that hold a key. *)
Definition wf0 (h : ghash_t) : Prop :=
  (exists p, 0 <= p <= 31 /\ size h = 2 ^ p) /\
  length (keys h) = Z.to_nat (size h) /\
  length (values h) = Z.to_nat (size h) /\
  members h = Z.of_nat (length (live (keys h))).

(** The invariant between calls: at most half of the slots have a key. *)
Definition wf (h : ghash_t) : Prop :=
  wf0 h /\ members h <= size h / 2.

(** The body of the loop that reinserts the entries of the old arrays. *)
Definition rehash_body `{Util} (n : nat) (old : ghash_t) (i : Z) (h : ghash_t)
    : option ghash_t :=
  k ← get_at (keys old) i;
  if negb (k =? NULL) then
    v ← get_at (values old) i;
    ghash_put n h k v
  else Some h.

(** The empty table [ghash_put] allocates when it rebuilds. *)
Definition rebuilt_empty (h : ghash_t) : ghash_t :=
  GHash (to_unsigned (size h * 2)) 0 (hash_fn h) (cmp_fn h)
    (replicate (Z.to_nat (to_unsigned (size h * 2))) NULL)
    (replicate (Z.to_nat (to_unsigned (size h * 2))) NULL).

(** The table after the reinsertion loop of [ghash_put]. *)
Definition rebuilt `{Util} (n : nat) (h : ghash_t) : option ghash_t :=
  for_loop (Z.to_nat (to_int (size h))) 0 (rehash_body n h) (rebuilt_empty h).

(** A table of four slots that holds the key 16 in the slot its probing
    starts from; keys are compared by their remainder modulo 16. *)
Definition sample_ghash : ghash_t :=
  GHash 4 1 (fun k => k mod 16) (fun a b => a mod 16 =? b mod 16)
    [100; 0; 0; 0] [16; 0; 0; 0].

End GhashSpec.

(* --------------------------------------------------------------------- *)
(** ** Messages without colour                                           *)
(* --------------------------------------------------------------------- *)

Module ColorSpec.
Import Common Color.
Local Open Scope Z_scope.

Definition has_dollar (str : list Z) : bool :=
  existsb (fun c => c =? DOLLAR) str.

(** A message without its escapes: the text between a ['$'] and the next
    one is dropped with both of them; a ['$'] that is not closed stays,
    with what follows it.  [esc] tells that an escape is open. *)
Fixpoint strip (esc : bool) (str : list Z) : list Z :=
  match str with
  | [] => []
  | c :: r =>
      if c =? DOLLAR then
        if esc then strip false r
        else if has_dollar r then strip true r
        else c :: r
      else if esc then strip true r
      else c :: strip false r
  end.

(** What the loop of [filter_color] has done, in plain mode, when it is
    at index [idx]: the characters [out] are stored, and [p] is behind
    them. *)
Definition fc_inv (str : list Z) (idx : nat) (rest : list Z) (s : fc_state)
    (out : list Z) : Prop :=
  (exists junk, copy s = (Some <$> out) ++ junk) /\
  length (copy s) = (2 * length str)%nat /\
  p s = Z.of_nat (length out) /\
  Forall (fun c => c <> 0) out /\
  match escape_start s with
  | None => (length out <= idx)%nat /\ strip false str = out ++ strip false rest
  | Some es =>
      (es < idx)%nat /\ (length out <= es)%nat /\ str !! es = Some DOLLAR /\
      strip false str
      = out ++ (if has_dollar rest then strip true rest else drop es str)
  end.

End ColorSpec.

(* --------------------------------------------------------------------- *)
(** ** A chain of subtypes                                                *)
(* --------------------------------------------------------------------- *)

Module TypeBaseSpec.
Import Type_.

(** An unconstrained array type, a subtype of it without a constraint
    and a subtype of that one. *)
Definition uarray_heap : heap :=
  <[1%positive := TypeObj T_UARRAY (Some "STD.STANDARD.STRING"%string) None
                    None None [] (Some 4%positive) [4%positive] [] None None
                    [] None]>
  (<[2%positive := TypeObj T_SUBTYPE (Some "WORK.P.TEXT"%string)
                     (Some 1%positive) None None [] None [] [] None None []
                     None]>
  (<[3%positive := TypeObj T_SUBTYPE None (Some 2%positive) None None []
                     None [] [] None None [] None]>
  (<[4%positive := TypeObj T_ENUM (Some "STD.STANDARD.CHARACTER"%string) None
                     None None [4%positive] None [] [] None None [] None]>
     ∅))).

End TypeBaseSpec.

(* --------------------------------------------------------------------- *)
(** ** A module with a supply net                                         *)
(* --------------------------------------------------------------------- *)

Module VlogMoreSpec.
Import Common Vlog VlogSpec.

(** With the sample values of the enumerators, a [supply1] net [vdd]
    without an initial value. *)
Definition supply_net : vlog_obj :=
  Obj V_NET_DECL 2 (Some "vdd"%string) Util.LOC_INVALID None None None None
    [] [] [].

Definition supply_module : vlog_obj :=
  Obj V_MODULE 0 (Some "m"%string) Util.LOC_INVALID None None None None
    [] [2%positive] [].

Definition supply_store : state :=
  State (list_to_map [(1%positive, supply_module); (2%positive, supply_net)])
        ["m"; "vdd"]%string.

End VlogMoreSpec.

(* --------------------------------------------------------------------- *)
(** ** The words of a message                                             *)
(* --------------------------------------------------------------------- *)

Module PaginateSpec.
Import Common Paginate.
Local Open Scope Z_scope.

(** The characters of a text that are not white space. *)
Definition visible (l : list Z) : list Z :=
  filter (fun c => isspace c = false) l.

End PaginateSpec.

(* --------------------------------------------------------------------- *)
(** ** The characters of a value                                          *)
(* --------------------------------------------------------------------- *)

Module VcdFmtSpec.
Import Common VcdFmt.
Local Open Scope Z_scope.

(** The characters that the string [arg] gives for the values. *)
Definition chars_of (arg : list Z) (vals : list Z) : list Z :=
  (fun v => default 0 (arg !! Z.to_nat v)) <$> vals.

(** The values index the string. *)
Definition in_range (arg : list Z) (vals : list Z) : Prop :=
  Forall (fun v => 0 <= v < Z.of_nat (length arg)) vals.

End VcdFmtSpec.

(* --------------------------------------------------------------------- *)
(** ** A client of the pointer hash                                       *)
(* --------------------------------------------------------------------- *)

Module HashRun.
Import Common Hash Hash.Ptr Probe PtrSpec.
Local Open Scope Z_scope.

(** The calls of a client that change a table. *)
Inductive hash_op :=
| HPut (key value : Z)
| HDelete (key : Z).

Definition hash_apply `{Util} (n : nat) (h : hash_t) (op : hash_op)
    : option hash_t :=
  match op with
  | HPut key value => snd <$> hash_put n h key value
  | HDelete key => hash_delete n h key
  end.

Fixpoint hash_run `{Util} (n : nat) (ops : list hash_op) (h : hash_t)
    : option hash_t :=
  match ops with
  | [] => Some h
  | op :: ops' => h' ← hash_apply n h op; hash_run n ops' h'
  end.

(** What the calls do to a finite map. *)
Definition map_apply (m : gmap Z Z) (op : hash_op) : gmap Z Z :=
  match op with
  | HPut key value => <[key := value]> m
  | HDelete key => delete key m
  end.

Definition map_run (ops : list hash_op) (m : gmap Z Z) : gmap Z Z :=
  foldl map_apply m ops.

(** The keys are not NULL. *)
Definition op_ok (op : hash_op) : Prop :=
  match op with
  | HPut key _ => key <> NULL
  | HDelete key => key <> NULL
  end.

(** A table that holds the map [m] after [c] calls. *)
Definition holds `{Util} (s0 : Z) (c : Z) (h : hash_t) (m : gmap Z Z) : Prop :=
  wf h /\ members h <= c /\ size h <= Z.max s0 (4 * c) /\
  forall k, k <> NULL -> lookup (slots h) k = default NULL (m !! k).

End HashRun.

(* --------------------------------------------------------------------- *)
(** ** A client of the string hash                                        *)
(* --------------------------------------------------------------------- *)

Module ShashRun.
Import Common Hash Hash.Str Probe StrSpec.
Local Open Scope Z_scope.

(** The calls of a client that change a table. *)
Inductive shash_op :=
| SPut (key : string) (value : Z)
| SDelete (key : string).

Definition shash_apply `{Util} (n : nat) (h : shash_t) (op : shash_op)
    : option shash_t :=
  match op with
  | SPut key value => shash_put n h key value
  | SDelete key => shash_delete n h key
  end.

Fixpoint shash_run `{Util} (n : nat) (ops : list shash_op) (h : shash_t)
    : option shash_t :=
  match ops with
  | [] => Some h
  | op :: ops' => h' ← shash_apply n h op; shash_run n ops' h'
  end.

(** What the calls do to a finite map. *)
Definition smap_apply (m : gmap string Z) (op : shash_op) : gmap string Z :=
  match op with
  | SPut key value => <[key := value]> m
  | SDelete key => delete key m
  end.

Definition smap_run (ops : list shash_op) (m : gmap string Z)
    : gmap string Z :=
  foldl smap_apply m ops.

(** A table that holds the map [m] after [c] calls. *)
Definition sholds `{Util} (s0 : Z) (c : Z) (h : shash_t) (m : gmap string Z)
    : Prop :=
  wf h /\ members h <= c /\ size h <= Z.max s0 (4 * c) /\
  forall k, lookup (slots h) k = default NULL (m !! k).

End ShashRun.

(* --------------------------------------------------------------------- *)
(** ** A client of the integer hash                                       *)
(* --------------------------------------------------------------------- *)

Module IhashRun.
Import Common Hash Hash.Int Probe IntSpec.
Local Open Scope Z_scope.

(** The calls of a client; [ihash_get] changes the cache of the table. *)
Inductive ihash_op :=
| IPut (key value : Z)
| IGet (key : Z).

(** A run of calls: the values that the calls of [ihash_get] returned, in
    order, and the table. *)
Fixpoint ihash_run (n : nat) (ops : list ihash_op) (h : ihash_t)
    : option (list Z * ihash_t) :=
  match ops with
  | [] => Some ([], h)
  | IPut key value :: ops' => h' ← ihash_put n h key value; ihash_run n ops' h'
  | IGet key :: ops' =>
      r ← ihash_get n h key;
      r' ← ihash_run n ops' r.2;
      Some (r.1 :: r'.1, r'.2)
  end.

(** The same calls on a finite map. *)
Fixpoint imap_run (ops : list ihash_op) (m : gmap Z Z) : list Z :=
  match ops with
  | [] => []
  | IPut key value :: ops' => imap_run ops' (<[key := value]> m)
  | IGet key :: ops' => default NULL (m !! key) :: imap_run ops' m
  end.

(** A table that holds the map [m] after [c] calls. *)
Definition iholds (s0 : Z) (c : Z) (h : ihash_t) (m : gmap Z Z) : Prop :=
  wf h /\ members h <= c /\ size h <= Z.max s0 (4 * c) /\
  forall k, lookup (slots h) k = default NULL (m !! k).

End IhashRun.

(* --------------------------------------------------------------------- *)
(** ** The static format buffers                                         *)
(* --------------------------------------------------------------------- *)

Module FmtBufSpec.
Import Common FmtBuf.
Local Open Scope Z_scope.

(** The state between calls: 32 buffers, each NULL or a block of the
    recorded length, which is not zero. *)
Definition fb_ok (s : state) : Prop :=
  length (buf_set s) = Z.to_nat MAX_FMT_BUFS /\
  length (buflen s) = Z.to_nat MAX_FMT_BUFS /\
  0 <= next_buf s < MAX_FMT_BUFS /\
  forall i b, buf_set s !! i = Some (Some b) ->
    buflen s !! i = Some (Z.of_nat (length b)) /\
    0 < Z.of_nat (length b) < 2 ^ 64.

End FmtBufSpec.


(* ===================================================================== *)
(** * Part III: properties                                                *)
(* ===================================================================== *)

#[local] Set Warnings "-clear-no-such-hyp".

Module TypeFacts.
Import Type_.
Import TypeSpec.

(** Every kind carries an identifier item, so [lookup_item _ _ I_IDENT]
    only fails on a dangling address. *)
Lemma has_ident_all k : has k I_IDENT = true.
Proof. by destruct k. Qed.

Lemma lookup_item_ident H t o :
  H !! t = Some o -> lookup_item H t I_IDENT = Some o.
Proof. intros E. unfold lookup_item. rewrite E. simpl. by rewrite has_ident_all. Qed.

Lemma type_base_kind_lookup n H t k :
  type_base_kind n H t = Some k -> exists o, H !! t = Some o.
Proof. destruct n; simpl; [done|]. destruct (H !! t); [eauto | done]. Qed.

Lemma type_is_universal_total H t o :
  H !! t = Some o -> exists u, type_is_universal H t = Some u.
Proof.
  intros E. unfold type_is_universal. rewrite (lookup_item_ident _ _ _ E).
  simpl. destruct (kind o); eauto.
Qed.

(** C3 as stated fails: the error type converts to anything although it
    is not universal ("suppress cascading errors"). *)
Lemma type_is_convertible_none_cex :
  type_is_convertible 1 none_heap 1 2 = Some true /\
  ~ universal_to_same_family 1 none_heap 1 2.
Proof.
  split; [reflexivity|].
  intros [U _]. vm_compute in U. discriminate.
Qed.

(** C3 (amended): on two live types whose subtype chains end,
    [type_is_convertible] returns, and it returns true exactly when the
    source has base kind [T_NONE] or is a universal integer/real and the
    target is a non-universal type of the same family. *)
Theorem type_is_convertible_spec n H from to fk tk :
  type_base_kind n H from = Some fk ->
  type_base_kind n H to = Some tk ->
  exists r, type_is_convertible n H from to = Some r /\
    (r = true <-> fk = T_NONE \/ universal_to_same_family n H from to).
Proof.
  intros Hf Ht.
  destruct (type_base_kind_lookup _ _ _ _ Hf) as [ofr Eof].
  destruct (type_base_kind_lookup _ _ _ _ Ht) as [oto Eot].
  destruct (type_is_universal_total _ _ _ Eof) as [uf Uf].
  destruct (type_is_universal_total _ _ _ Eot) as [ut Ut].
  unfold type_is_convertible, universal_to_same_family,
    type_is_integer, type_is_real.
  rewrite Hf, Ht, Uf, Ut. simpl.
  destruct uf, ut; simpl; repeat case_bool_decide; simpl;
    (eexists; split; [reflexivity|]); naive_solver.
Qed.

Lemma type_is_convertible_spec_witness :
  exists r, type_is_convertible 2 conv_heap 1 3 = Some r /\
    (r = true <-> T_INTEGER = T_NONE \/ universal_to_same_family 2 conv_heap 1 3).
Proof.
  apply (type_is_convertible_spec 2 conv_heap 1 3 T_INTEGER T_INTEGER);
    reflexivity.
Defined.

Example type_is_convertible_universal :
  type_is_convertible 2 conv_heap 1 3 = Some true /\
  type_is_convertible 2 conv_heap 3 1 = Some false /\
  type_is_convertible 2 conv_heap 2 3 = Some false.
Proof. repeat split; reflexivity. Qed.

(** *** [type_strict_eq] against [type_eq] *)

(** C2 at the failing input: [type_strict_eq] never looks at the base of a
    subtype, so it accepts two anonymous subtypes of different base types,
    which [type_eq] (walking to the bases) rejects, whatever the fuel. *)
Theorem type_strict_eq_not_type_eq :
  (forall n, type_strict_eq (S n) subtype_heap 3 4 = Some true) /\
  (forall n, type_eq (S (S (S n))) subtype_heap 3 4 = Some false) /\
  (forall n, type_eq n subtype_heap 3 4 <> Some true).
Proof.
  split; [|split].
  - intros n. reflexivity.
  - intros n. reflexivity.
  - intros [|[|[|n]]]; [done|done|done|]. discriminate.
Qed.

Example type_strict_eq_carray_dims :
  type_strict_eq 2 carray_heap 2 3 = Some true /\
  type_eq 2 carray_heap 2 3 = Some false.
Proof. split; reflexivity. Qed.

End TypeFacts.
(* --------------------------------------------------------------------- *)
(** ** Layouts: size and alignment of the parts                           *)
(* --------------------------------------------------------------------- *)

Module LayoutFacts.
Import Common Type_ Layout.
Local Open Scope Z_scope.
Import LayoutSpec.

(** *** The conversions between the C integer types *)

Lemma to_int_range x : int_range (to_int x).
Proof.
  unfold int_range, to_int. pose proof (Z.mod_pos_bound x (2^32) eq_refl).
  destruct (Z.ltb_spec (x mod 2^32) (2^31)); lia.
Qed.

Lemma to_unsigned_range x : 0 <= to_unsigned x < 2^32.
Proof. unfold to_unsigned. by apply Z.mod_pos_bound. Qed.

Lemma to_int_nonneg x : 0 <= x < 2^31 -> to_int x = x.
Proof.
  intros Hx. unfold to_int. rewrite Z.mod_small by lia.
  destruct (Z.ltb_spec x (2^31)); lia.
Qed.

Lemma to_int_congr x y : x mod 2^32 = y mod 2^32 -> to_int x = to_int y.
Proof. unfold to_int. by intros ->. Qed.

Lemma to_unsigned_fits x : 0 <= x < 2^32 -> to_unsigned x = x.
Proof. intros Hx. unfold to_unsigned. by rewrite Z.mod_small. Qed.

(** An [int] that reads below 2^31 as an [unsigned] is not negative. *)
Lemma to_unsigned_int x :
  int_range x -> to_unsigned x < 2^31 -> 0 <= x /\ to_unsigned x = x.
Proof.
  unfold int_range, to_unsigned. intros Hx Hu.
  destruct (Z.lt_ge_cases x 0) as [Hneg|Hpos].
  - replace x with (x + 2^32 + (-1) * 2^32) in Hu by lia.
    rewrite Z.mod_add in Hu by lia. rewrite Z.mod_small in Hu; lia.
  - split; [done|]. apply Z.mod_small. lia.
Qed.

Lemma to_unsigned_mod x : to_unsigned x mod 2^32 = x mod 2^32.
Proof. unfold to_unsigned. by rewrite Z.mod_mod. Qed.

Lemma parts_total_app ps qs :
  parts_total (ps ++ qs) = parts_total ps + parts_total qs.
Proof. induction ps as [|p ps IH]; simpl; lia. Qed.

Lemma ALIGN_UP_ge p a : 0 < a -> p <= ALIGN_UP p a.
Proof.
  intros Ha. unfold ALIGN_UP.
  pose proof (Z.mul_succ_div_gt (p + a - 1) a Ha) as Hd.
  rewrite Z.mul_comm. lia.
Qed.

Lemma ALIGN_UP_le p a : 0 < a -> ALIGN_UP p a <= p + a - 1.
Proof.
  intros Ha. unfold ALIGN_UP.
  pose proof (Z.mul_div_le (p + a - 1) a Ha). lia.
Qed.

Lemma ALIGN_UP_divide p a : (a | ALIGN_UP p a).
Proof. unfold ALIGN_UP. apply Z.divide_factor_r. Qed.

Lemma ALIGN_UP_0 : ALIGN_UP 0 0 = 0.
Proof. reflexivity. Qed.

Lemma cache_ok_insert c t l :
  cache_ok c -> layout_sound l -> cache_ok (<[t := l]> c).
Proof.
  intros Hc Hl t' l'. rewrite lookup_insert. case_decide; [|apply Hc].
  by intros [= <-].
Qed.

Lemma cache_ok_empty : cache_ok ∅.
Proof. intros t l. by rewrite lookup_empty. Qed.

(** *** The four shapes of a layout *)

Lemma scalar_layout_sound `{Env} n hp t l :
  scalar_layout n hp t = Some l -> layout_sound l.
Proof.
  intros Hs. unfold scalar_layout in Hs.
  destruct (type_base_recur n hp t) as [b|]; [|done]. simpl in Hs.
  destruct (type_dim hp b 0) as [r|]; [|done]. simpl in Hs.
  destruct (folded_bounds r) as [[lo hi]|] eqn:Hf; [|done].
  injection Hs as <-.
  set (sz := Z.quot _ 8).
  assert (Hsz : int_range sz).
  { unfold sz. pose proof (to_int_range (ALIGN_UP (to_int (bits_for_range lo hi)) 8))
      as Hr. unfold int_range in *.
    pose proof (Z.quot_lt_upper_bound (to_int (ALIGN_UP (to_int (bits_for_range lo hi)) 8)) 8) as _.
    destruct (Z.lt_ge_cases (to_int (ALIGN_UP (to_int (bits_for_range lo hi)) 8)) 0)
      as [Hneg|Hpos].
    - pose proof (Z.quot_opp_l (to_int (ALIGN_UP (to_int (bits_for_range lo hi)) 8)) 8)
        as Ho.
      assert (Hq : 0 <= Z.quot (- to_int (ALIGN_UP (to_int (bits_for_range lo hi)) 8)) 8
                   <= - to_int (ALIGN_UP (to_int (bits_for_range lo hi)) 8)).
      { split; [apply Z.quot_pos; lia|]. apply Z.quot_le_upper_bound; lia. }
      rewrite Ho in Hq by lia. lia.
    - assert (Hq : 0 <= Z.quot (to_int (ALIGN_UP (to_int (bits_for_range lo hi)) 8)) 8
                   <= to_int (ALIGN_UP (to_int (bits_for_range lo hi)) 8)).
      { split; [apply Z.quot_pos; lia|]. apply Z.quot_le_upper_bound; lia. }
      lia. }
  split; [done|]. split; [apply to_int_range|].
  intros Hin _. unfold in_int in Hin. simpl in Hin.
  apply Forall_singleton in Hin as [Hend _]. unfold part_end in Hend. simpl in Hend.
  destruct (to_unsigned_int sz Hsz) as [Hpos Heq]; [lia|].
  split; simpl.
  - rewrite Heq. lia.
  - apply Forall_singleton. simpl. apply Z.divide_0_r.
Qed.

Lemma real_layout_sound : layout_sound real_layout.
Proof.
  split; [done|]. split; [done|]. intros _ _. split; simpl.
  - done.
  - apply Forall_singleton. simpl. apply Z.divide_0_r.
Qed.

Lemma array_layout_sound nelems el :
  0 <= nelems < 2^31 -> int_range (align el) ->
  layout_sound (array_layout nelems el).
Proof.
  intros Hn Hal. split; [apply to_int_range|]. split; [done|].
  intros Hin _. unfold in_int in Hin. simpl in Hin.
  apply Forall_singleton in Hin as [Hend _]. unfold part_end in Hend. simpl in Hend.
  rewrite (to_unsigned_fits nelems) in Hend by lia.
  split; simpl.
  - rewrite (to_unsigned_fits nelems) by lia.
    pose proof (to_unsigned_range (size el)) as Hr.
    destruct (decide (nelems = 0)) as [->|Hnz].
    { rewrite Z.mul_0_l, Z.mul_0_r. done. }
    assert (Hp : 0 <= to_unsigned (size el) * nelems < 2^31) by nia.
    rewrite (to_int_congr (nelems * size el) (to_unsigned (size el) * nelems)).
    + rewrite to_int_nonneg by done. lia.
    + unfold to_unsigned. rewrite Zmult_mod_idemp_l. f_equal. lia.
  - apply Forall_singleton. simpl. apply Z.divide_0_r.
Qed.

Lemma pointer_layout_sound ndims c0 c1 : layout_sound (pointer_layout ndims c0 c1).
Proof.
  split; [apply to_int_range|]. split; [done|].
  intros Hin _. unfold in_int, pointer_layout in *.
  cbn [parts size align] in *.
  set (m := to_int (ndims * 2)) in *.
  apply Forall_cons in Hin as [_ Hin]. apply Forall_singleton in Hin as [Hend _].
  unfold part_end in Hend. cbn [offset psize repeat] in Hend.
  unfold sizeof_ptr, sizeof_int64 in *.
  pose proof (to_int_range (ndims * 2)) as Hm. fold m in Hm.
  pose proof (to_unsigned_range m) as Hr.
  destruct (to_unsigned_int m Hm) as [Hpos Heq]; [lia|].
  rewrite Heq in *.
  assert (E1 : to_uint64 m = m) by (unfold to_uint64; apply Z.mod_small; lia).
  assert (E2 : to_uint64 (8 + m * 8) = 8 + m * 8)
    by (unfold to_uint64; apply Z.mod_small; lia).
  split.
  - rewrite E1, E2, to_int_nonneg by lia.
    cbn [parts size parts_total psize repeat]. lia.
  - cbn [parts]. repeat constructor; cbn [palign offset]; [apply Z.divide_0_r | done].
Qed.

(** *** The loop over the fields *)

(** What the loop keeps: [offset] is where the parts so far end. *)
Lemma record_loop_sound `{Env} lay field :
  (forall c t l c', cache_ok c -> lay c t = Some (l, c') ->
                    layout_sound l /\ cache_ok c') ->
  forall k i off c ps off' ps' c',
  cache_ok c -> int_range off ->
  record_loop lay field k i off c ps = Some (off', ps', c') ->
  int_range off' /\ cache_ok c' /\
  exists qs, ps' = ps ++ qs /\
    (0 <= off ->
     Forall (fun p => part_end p < 2^31 /\ palign p < 2^31) qs ->
     no_reset off qs ->
     off + parts_total qs <= off' /\
     Forall (fun p => (palign p | offset p)) qs).
Proof.
  intros Hlay. induction k as [|k IH];
    intros i off c ps off' ps' c' Hc Hoff E.
  - simpl in E. simplify_eq. split; [done|]. split; [done|].
    exists []. rewrite app_nil_r. split; [done|]. intros. simpl. split; [lia|done].
  - simpl in E. destruct (field i) as [f|]; [|done]. simpl in E.
    destruct (lay c (tree_type f)) as [[fl c1]|] eqn:El; [|done]. simpl in E.
    destruct (Hlay _ _ _ _ Hc El) as [(Hsz & Hal & _) Hc1].
    set (o1 := to_int (ALIGN_UP off (align fl))) in *.
    assert (Eo1 : o1 = to_int (ALIGN_UP off (align fl))) by done.
    clearbody o1.
    set (p := Part (to_unsigned o1) (to_unsigned (size fl)) 1
                (to_unsigned (align fl)) LC_DATA) in *.
    destruct (IH _ _ _ _ _ _ _ Hc1 (to_int_range (o1 + size fl)) E)
      as (Hoff' & Hc' & qs & -> & Hqs).
    split; [done|]. split; [done|].
    exists (p :: qs). split; [by rewrite <- app_assoc|].
    intros Hpos Hin Hnr.
    apply Forall_cons in Hin as [[Hend Hpal] Hin].
    destruct Hnr as [Hzero Hnr].
    unfold part_end in Hend. simpl in Hend, Hpal, Hzero. rewrite Z.mul_1_r in Hend.
    pose proof (to_unsigned_range (size fl)) as Hrs.
    pose proof (to_unsigned_range o1) as Hro.
    destruct (to_unsigned_int (align fl) Hal Hpal) as [Hapos Haeq].
    assert (Hro1 : int_range o1) by (rewrite Eo1; apply to_int_range).
    destruct (to_unsigned_int o1 Hro1) as [Ho1pos Ho1eq]; [lia|].
    destruct (to_unsigned_int (size fl) Hsz) as [Hspos Hseq]; [lia|].
    rewrite Ho1eq, Hseq in Hend.
    (* the aligned offset is not below the offset *)
    assert (Hge : off <= o1 /\ (align fl | o1)).
    { destruct (decide (align fl = 0)) as [Hz|Hnz].
      - rewrite Haeq in Hzero. rewrite (Hzero Hz), Hz, ALIGN_UP_0 in Eo1.
        rewrite Eo1, (Hzero Hz). split; [done|]. by exists 0.
      - assert (Hap : 0 < align fl) by lia.
        pose proof (ALIGN_UP_ge off (align fl) Hap) as Hlo.
        pose proof (ALIGN_UP_le off (align fl) Hap) as Hhi.
        unfold int_range in Hoff, Hal.
        assert (Hsmall : ALIGN_UP off (align fl) < 2^31).
        { destruct (Z.lt_ge_cases (ALIGN_UP off (align fl)) (2^31)) as [|Hbig];
            [done|].
          exfalso. rewrite Eo1 in Ho1pos. unfold to_int in Ho1pos.
          rewrite Z.mod_small in Ho1pos by lia.
          destruct (Z.ltb_spec (ALIGN_UP off (align fl)) (2^31)); lia. }
        rewrite Eo1, to_int_nonneg by lia.
        split; [done | apply ALIGN_UP_divide]. }
    destruct Hge as [Hge Hdiv].
    assert (Hfin : to_int (o1 + size fl) = o1 + size fl)
      by (apply to_int_nonneg; lia).
    unfold part_end in Hnr. simpl in Hnr.
    rewrite Z.mul_1_r, Ho1eq, Hseq, <- Hfin in Hnr.
    destruct Hqs as [Htot Hall]; [lia | done | done |].
    split.
    + simpl. rewrite Z.mul_1_r, Hseq. lia.
    + apply Forall_cons. split; [|done]. simpl. by rewrite Ho1eq, Haeq.
Qed.

Lemma record_layout_sound nfields off ps :
  int_range off ->
  (Forall (fun p => part_end p < 2^31 /\ palign p < 2^31) ps ->
   no_reset 0 ps ->
   0 + parts_total ps <= off /\ Forall (fun p => (palign p | offset p)) ps) ->
  layout_sound (JitLayout off sizeof_ptr nfields ps).
Proof.
  intros Hoff Hps. split; [done|]. split; [done|].
  intros Hin Hnr. destruct (Hps Hin Hnr) as [Htot Hall].
  split; simpl; [lia | done].
Qed.

(** *** The two revisions *)

Lemma count_sub_elements_int `{Env} n : forall hp t ne,
  count_sub_elements n hp t = Some ne -> int_range ne.
Proof.
  induction n as [|n IH]; intros hp t ne E; [done|].
  cbn [count_sub_elements] in E.
  destruct (type_is_array n hp t) as [[]|]; simpl in E; [| |done].
  - destruct (type_is_unconstrained n hp t) as [[]|]; simpl in E; [| |done].
    { by simplify_eq. }
    destruct (type_elem n hp t) as [e|]; [simpl in E|done].
    destruct (count_sub_elements n hp e) as [len|] eqn:Ee; [simpl in E|done].
    apply IH in Ee. revert E.
    generalize 0 at 1. generalize (Z.to_nat (to_int (dimension_of hp t))).
    intros k. revert len Ee. induction k as [|k IHk]; intros len Hlen i E.
    + by simplify_eq.
    + destruct (folded_length (range_of hp t i)) as [dlen|]; [|by simplify_eq].
      eapply IHk; [|exact E]. apply to_int_range.
  - by simplify_eq.
Qed.

Lemma layout_of_v1_sound `{Env} :
  forall n hp c t l c',
  cache_ok c -> V1.layout_of n hp c t = Some (l, c') ->
  layout_sound l /\ cache_ok c'.
Proof.
  induction n as [|n IH]; intros HH c t l c' Hc E; [done|].
  cbn [V1.layout_of] in E.
  destruct (c !! t) as [l0|] eqn:Ec.
  { simplify_eq. split; [by eapply Hc | done]. }
  destruct (type_is_integer n HH t) as [is_int|]; [simpl in E|done].
  destruct (type_is_physical n HH t) as [is_phys|]; [simpl in E|done].
  destruct (type_is_enum n HH t) as [is_enum|]; [simpl in E|done].
  destruct (type_is_real n HH t) as [is_real|]; [simpl in E|done].
  destruct (type_is_array n HH t) as [is_arr|]; [simpl in E|done].
  destruct (type_is_record n HH t) as [is_rec|]; [simpl in E|done].
  destruct (is_int || is_phys || is_enum).
  { destruct (scalar_layout n HH t) as [l1|] eqn:Es; [simpl in E|done].
    simplify_eq. pose proof (scalar_layout_sound _ _ _ _ Es).
    split; [done | by apply cache_ok_insert]. }
  destruct is_real.
  { simplify_eq. pose proof real_layout_sound.
    split; [done | by apply cache_ok_insert]. }
  destruct is_arr.
  { destruct (count_sub_elements n HH t) as [nelems|] eqn:En; [simpl in E|done].
    pose proof (count_sub_elements_int _ _ _ _ En) as Hne.
    destruct (Z.leb_spec 0 nelems) as [Hge|Hlt].
    - destruct (type_elem_recur n HH t) as [elem|]; [simpl in E|done].
      destruct (V1.layout_of n HH c elem) as [[el c1]|] eqn:El; [simpl in E|done].
      simplify_eq. destruct (IH _ _ _ _ _ Hc El) as [(_ & Hal & _) Hc1].
      assert (layout_sound (array_layout nelems el)).
      { apply array_layout_sound; [unfold int_range in Hne; lia | done]. }
      split; [done | by apply cache_ok_insert].
    - destruct (type_kind HH t) as [k|]; [simpl in E|done].
      case_bool_decide.
      + destruct (type_base_recur n HH t) as [b|]; [simpl in E|done].
        by eapply IH.
      + simplify_eq.
        pose proof (pointer_layout_sound (to_int (dimension_of HH t))
                      LC_EXTERNAL LC_BOUNDS).
        split; [done | by apply cache_ok_insert]. }
  destruct is_rec; [|done].
  destruct (type_fields n HH t) as [nf|]; [simpl in E|done].
  destruct (record_loop _ _ _ _ _ _ _) as [[[offset ps] c1]|] eqn:Er; [simpl in E|done].
  simplify_eq.
  eapply record_loop_sound in Er as (Hoff & Hc1 & qs & Hqs & Hps); try done.
  - simpl in Hqs. subst qs.
    assert (layout_sound (JitLayout offset sizeof_ptr (to_int (Z.of_nat nf)) ps)).
    { apply record_layout_sound; [done|]. intros. by apply Hps. }
    split; [done | by apply cache_ok_insert].
  - intros. by eapply IH.
Qed.

Lemma layout_of_v2_sound `{Env} :
  forall n hp c t l c',
  cache_ok c -> V2.layout_of n hp c t = Some (l, c') ->
  layout_sound l /\ cache_ok c'.
Proof.
  induction n as [|n IH]; intros HH c t l c' Hc E; [done|].
  cbn [V2.layout_of] in E.
  destruct (c !! t) as [l0|] eqn:Ec.
  { simplify_eq. split; [by eapply Hc | done]. }
  destruct (type_is_integer n HH t) as [is_int|]; [simpl in E|done].
  destruct (type_is_physical n HH t) as [is_phys|]; [simpl in E|done].
  destruct (type_is_enum n HH t) as [is_enum|]; [simpl in E|done].
  destruct (type_is_real n HH t) as [is_real|]; [simpl in E|done].
  destruct (type_is_array n HH t) as [is_arr|]; [simpl in E|done].
  destruct (type_is_record n HH t) as [is_rec|]; [simpl in E|done].
  destruct (is_int || is_phys || is_enum).
  { destruct (scalar_layout n HH t) as [l1|] eqn:Es; [simpl in E|done].
    simplify_eq. pose proof (scalar_layout_sound _ _ _ _ Es).
    split; [done | by apply cache_ok_insert]. }
  destruct is_real.
  { simplify_eq. pose proof real_layout_sound.
    split; [done | by apply cache_ok_insert]. }
  destruct is_arr.
  { destruct (count_sub_elements n HH t) as [nelems|] eqn:En; [simpl in E|done].
    pose proof (count_sub_elements_int _ _ _ _ En) as Hne.
    destruct (Z.ltb_spec nelems 0) as [Hlt|Hge].
    - simplify_eq.
      pose proof (pointer_layout_sound (to_int (dimension_of HH t))
                    LC_DATA LC_DATA).
      split; [done | by apply cache_ok_insert].
    - destruct (type_elem n HH t) as [e|]; [simpl in E|done].
      destruct (V2.elem_loop n HH e) as [elem|]; [simpl in E|done].
      destruct (V2.layout_of n HH c elem) as [[el c1]|] eqn:El; [simpl in E|done].
      simplify_eq. destruct (IH _ _ _ _ _ Hc El) as [(_ & Hal & _) Hc1].
      assert (layout_sound (array_layout nelems el)).
      { apply array_layout_sound; [unfold int_range in Hne; lia | done]. }
      split; [done | by apply cache_ok_insert]. }
  destruct is_rec; [|done].
  destruct (type_fields n HH t) as [nf|]; [simpl in E|done].
  destruct (record_loop _ _ _ _ _ _ _) as [[[offset ps] c1]|] eqn:Er; [simpl in E|done].
  simplify_eq.
  eapply record_loop_sound in Er as (Hoff & Hc1 & qs & Hqs & Hps); try done.
  - simpl in Hqs. subst qs.
    assert (layout_sound (JitLayout offset sizeof_ptr (to_int (Z.of_nat nf)) ps)).
    { apply record_layout_sound; [done|]. intros. by apply Hps. }
    split; [done | by apply cache_ok_insert].
  - intros. by eapply IH.
Qed.

(** C1 (amended): in both revisions, every layout that [layout_of]
    returns in which no part ends at 2^31 or beyond and no alignment
    reaches 2^31 (the sizes and offsets are [int] and wrap around), and in
    which no part of alignment zero follows parts that take room (a scalar
    of null range puts the offset of a record back to zero), has a size
    that covers the sum of [size * repeat] over its parts and every part
    at an offset that is a multiple of its alignment.  This holds from any
    cache built by earlier calls (the empty one to begin with), and the
    cache stays so. *)
Theorem layout_of_size_and_alignment `{Env} n hp c t l c' :
  cache_ok c ->
  V1.layout_of n hp c t = Some (l, c') \/ V2.layout_of n hp c t = Some (l, c') ->
  (in_int l -> no_reset 0 (parts l) -> layout_ok l) /\ cache_ok c'.
Proof.
  intros Hc [E|E].
  - destruct (layout_of_v1_sound _ _ _ _ _ _ Hc E) as [(_ & _ & Hok) Hc'].
    by split.
  - destruct (layout_of_v2_sound _ _ _ _ _ _ Hc E) as [(_ & _ & Hok) Hc'].
    by split.
Qed.

(** *** A sample environment and type arena *)

Lemma layout_of_size_and_alignment_witness :
  exists l c',
    @V1.layout_of sample_env 8 sample_heap ∅ 7 = Some (l, c') /\
    layout_ok l /\ cache_ok c'.
Proof.
  destruct (@V1.layout_of sample_env 8 sample_heap ∅ 7) as [[l c']|] eqn:E;
    [|vm_compute in E; discriminate].
  exists l, c'. split; [reflexivity|].
  destruct (@layout_of_size_and_alignment sample_env 8 sample_heap ∅ 7 l c'
              cache_ok_empty (or_introl E)) as [Hok Hc].
  split; [|exact Hc]. vm_compute in E. injection E as <- _.
  apply Hok.
  - repeat (apply Forall_cons_2; [vm_compute; split; reflexivity|]).
    apply Forall_nil_2.
  - vm_compute. repeat split; discriminate.
Defined.

(** C1 as stated fails.  An array of 2^30 integers has the size 0 in both
    revisions, with one part of 2^30 times 4 bytes: the product does not
    fit the [int].  And in a record with a field of null range between two
    integers the second integer lies over the first. *)
Lemma layout_of_size_cex :
  (exists l c', @V1.layout_of big_env 8 big_heap ∅ 4 = Some (l, c') /\
     l = JitLayout 0 4 1 [Part 0 4 (2^30) 4 LC_DATA] /\ ~ layout_ok l) /\
  (exists l c', @V2.layout_of big_env 8 big_heap ∅ 4 = Some (l, c') /\
     l = JitLayout 0 4 1 [Part 0 4 (2^30) 4 LC_DATA] /\ ~ layout_ok l) /\
  (exists l c', @V1.layout_of null_env 8 null_heap ∅ 3 = Some (l, c') /\
     l = JitLayout 4 8 3
           [Part 0 4 1 4 LC_DATA; Part 0 0 1 0 LC_DATA; Part 0 4 1 4 LC_DATA] /\
     ~ layout_ok l).
Proof.
  split; [|split].
  - destruct (@V1.layout_of big_env 8 big_heap ∅ 4) as [[l c']|] eqn:E;
      [|vm_compute in E; discriminate].
    exists l, c'. split; [reflexivity|]. vm_compute in E. injection E as <- _.
    split; [reflexivity|]. intros [Ht _]. vm_compute in Ht. by apply Ht.
  - destruct (@V2.layout_of big_env 8 big_heap ∅ 4) as [[l c']|] eqn:E;
      [|vm_compute in E; discriminate].
    exists l, c'. split; [reflexivity|]. vm_compute in E. injection E as <- _.
    split; [reflexivity|]. intros [Ht _]. vm_compute in Ht. by apply Ht.
  - destruct (@V1.layout_of null_env 8 null_heap ∅ 3) as [[l c']|] eqn:E;
      [|vm_compute in E; discriminate].
    exists l, c'. split; [reflexivity|]. vm_compute in E. injection E as <- _.
    split; [reflexivity|]. intros [Ht _]. vm_compute in Ht. by apply Ht.
Qed.

Example layout_of_record_v1 :
  fst <$> @V1.layout_of sample_env 8 sample_heap ∅ 7 =
  Some (JitLayout 24 8 4
          [Part 0 1 1 1 LC_DATA; Part 4 4 1 4 LC_DATA; Part 8 8 1 8 LC_DATA;
           Part 16 8 1 1 LC_DATA]).
Proof. vm_compute. reflexivity. Qed.

Example layout_of_record_v2 :
  fst <$> @V2.layout_of sample_env 8 sample_heap ∅ 7 =
  Some (JitLayout 24 8 4
          [Part 0 1 1 1 LC_DATA; Part 4 4 1 4 LC_DATA; Part 8 8 1 8 LC_DATA;
           Part 16 8 1 1 LC_DATA]).
Proof. vm_compute. reflexivity. Qed.

Example layout_of_byte :
  fst <$> @V1.layout_of sample_env 8 sample_heap ∅ 4 =
  Some (JitLayout 8 1 1 [Part 0 1 8 1 LC_DATA]).
Proof. vm_compute. reflexivity. Qed.

(** *** The results of the type queries do not depend on the fuel *)

Lemma type_base_kind_mono n : forall m hp t k,
  type_base_kind n hp t = Some k -> (n <= m)%nat -> type_base_kind m hp t = Some k.
Proof.
  induction n as [|n IH]; intros m hp t k E Hm; [done|].
  destruct m as [|m]; [lia|]. simpl in *.
  destruct (hp !! t) as [o|]; [simpl in *|done].
  destruct (kind o); try done.
  destruct (type_base hp t) as [b|]; [simpl in *|done].
  apply IH; [done|lia].
Qed.

Lemma type_base_kind_det n m hp t k1 k2 :
  type_base_kind n hp t = Some k1 -> type_base_kind m hp t = Some k2 -> k1 = k2.
Proof.
  intros E1 E2.
  apply (type_base_kind_mono _ (max n m)) in E1; [|lia].
  apply (type_base_kind_mono _ (max n m)) in E2; [|lia]. congruence.
Qed.

Lemma type_is_array_det n m hp t a1 a2 :
  type_is_array n hp t = Some a1 -> type_is_array m hp t = Some a2 -> a1 = a2.
Proof.
  unfold type_is_array. intros E1 E2.
  destruct (type_base_kind n hp t) as [k1|] eqn:K1; [simpl in *|done].
  destruct (type_base_kind m hp t) as [k2|] eqn:K2; [simpl in *|done].
  rewrite (type_base_kind_det _ _ _ _ _ _ K1 K2) in E1. congruence.
Qed.

Lemma type_elem_mono n : forall m hp t e,
  type_elem n hp t = Some e -> (n <= m)%nat -> type_elem m hp t = Some e.
Proof.
  induction n as [|n IH]; intros m hp t e E Hm; [done|].
  destruct m as [|m]; [lia|]. simpl in *.
  destruct (hp !! t) as [o|]; [simpl in *|done].
  destruct (kind o); try done.
  destruct (type_base hp t) as [b|]; [simpl in *|done].
  apply IH; [done|lia].
Qed.

Lemma type_elem_det n m hp t e1 e2 :
  type_elem n hp t = Some e1 -> type_elem m hp t = Some e2 -> e1 = e2.
Proof.
  intros E1 E2.
  apply (type_elem_mono _ (max n m)) in E1; [|lia].
  apply (type_elem_mono _ (max n m)) in E2; [|lia]. congruence.
Qed.

Lemma elem_chain_det hp e r1 r2 :
  elem_chain hp e r1 -> elem_chain hp e r2 -> r1 = r2.
Proof.
  intros C1. revert r2. induction C1 as [n e A|n m e e' r A E C IH]; intros r2 C2.
  - inversion C2 as [|n2 m2 ? e2 ? A2 E2 C2']; subst; [done|].
    pose proof (type_is_array_det _ _ _ _ _ _ A A2). done.
  - inversion C2 as [n2 ? A2|n2 m2 ? e2 ? A2 E2 C2']; subst.
    + pose proof (type_is_array_det _ _ _ _ _ _ A A2). done.
    + rewrite (type_elem_det _ _ _ _ _ _ E E2) in IH. by apply IH.
Qed.

Lemma type_elem_recur_chain n : forall hp t r,
  type_elem_recur n hp t = Some r ->
  exists m e, type_elem m hp t = Some e /\ elem_chain hp e r.
Proof.
  induction n as [|n IH]; intros hp t r E; [done|]. simpl in E.
  destruct (type_elem n hp t) as [e|] eqn:Ee; [simpl in E|done].
  destruct (type_is_array n hp e) as [[]|] eqn:Ea; [simpl in E| |done].
  - destruct (IH _ _ _ E) as (m & e' & Ee' & C).
    exists n, e. split; [done|]. eapply elem_chain_step; eauto.
  - simpl in E. simplify_eq. exists n, r. split; [done|]. by eapply elem_chain_stop.
Qed.

Lemma elem_loop_chain n : forall hp e r,
  V2.elem_loop n hp e = Some r -> elem_chain hp e r.
Proof.
  induction n as [|n IH]; intros hp e r E; [done|]. simpl in E.
  destruct (type_is_array n hp e) as [[]|] eqn:Ea; [simpl in E| |done].
  - destruct (type_elem n hp e) as [e'|] eqn:Ee; [simpl in E|done].
    eapply elem_chain_step; eauto.
  - simpl in E. simplify_eq. by eapply elem_chain_stop.
Qed.

(** The element type the two revisions lay out is the same. *)
Lemma elem_agree n hp t e1 e e2 :
  type_elem_recur n hp t = Some e1 ->
  type_elem n hp t = Some e -> V2.elem_loop n hp e = Some e2 -> e1 = e2.
Proof.
  intros E1 Ee E2.
  destruct (type_elem_recur_chain _ _ _ _ E1) as (m & e' & Ee' & C1).
  rewrite (type_elem_det _ _ _ _ _ _ Ee' Ee) in C1.
  apply elem_loop_chain in E2. by eapply elem_chain_det.
Qed.

Lemma type_is_array_mono n m hp t a :
  type_is_array n hp t = Some a -> (n <= m)%nat -> type_is_array m hp t = Some a.
Proof.
  unfold type_is_array. intros E Hm.
  destruct (type_base_kind n hp t) as [k|] eqn:K; [|done].
  by rewrite (type_base_kind_mono _ _ _ _ _ K Hm).
Qed.

Lemma type_is_unconstrained_mono n : forall m hp t u,
  type_is_unconstrained n hp t = Some u -> (n <= m)%nat ->
  type_is_unconstrained m hp t = Some u.
Proof.
  induction n as [|n IH]; intros m hp t u E Hm; [done|].
  destruct m as [|m]; [lia|]. simpl in *.
  destruct (hp !! t) as [o|]; [simpl in *|done].
  destruct (kind o); try done.
  destruct (type_has_constraint hp t) as [[]|]; simpl in *; [done| |done].
  destruct (type_base hp t) as [b|]; [simpl in *|done].
  apply IH; [done|lia].
Qed.

Lemma count_sub_elements_mono `{Env} n : forall m hp t x,
  count_sub_elements n hp t = Some x -> (n <= m)%nat ->
  count_sub_elements m hp t = Some x.
Proof.
  induction n as [|n IH]; intros m hp t x E Hm; [done|].
  destruct m as [|m]; [lia|]. cbn [count_sub_elements] in *.
  destruct (type_is_array n hp t) as [a|] eqn:Ea; [|done].
  rewrite (type_is_array_mono _ m _ _ _ Ea) by lia. simpl in *.
  destruct a; [|done].
  destruct (type_is_unconstrained n hp t) as [u|] eqn:Eu; [|done].
  rewrite (type_is_unconstrained_mono _ m _ _ _ Eu) by lia. simpl in *.
  destruct u; [done|].
  destruct (type_elem n hp t) as [e|] eqn:Ee; [|done].
  rewrite (type_elem_mono _ m _ _ _ Ee) by lia. simpl in *.
  destruct (count_sub_elements n hp e) as [len|] eqn:Ec; [|done].
  rewrite (IH m _ _ _ Ec) by lia. simpl in *. done.
Qed.

Lemma count_sub_elements_det `{Env} n m hp t x y :
  count_sub_elements n hp t = Some x -> count_sub_elements m hp t = Some y ->
  x = y.
Proof.
  intros E1 E2.
  apply (count_sub_elements_mono _ (max n m)) in E1; [|lia].
  apply (count_sub_elements_mono _ (max n m)) in E2; [|lia]. congruence.
Qed.

Lemma type_base_recur_not_subtype n : forall hp t b,
  type_base_recur n hp t = Some b ->
  exists k, type_kind hp b = Some k /\ k <> T_SUBTYPE.
Proof.
  induction n as [|n IH]; intros hp t b E; [done|]. simpl in E.
  destruct (hp !! t) as [o|] eqn:Et; [simpl in E|done].
  destruct (kind o) eqn:Ek;
    try (assert (b = t) by congruence; subst b; exists (kind o);
         unfold type_kind; rewrite Et; simpl; split; [done|]; by rewrite Ek).
  destruct (type_base hp t) as [c|]; [simpl in E|done]. by eapply IH.
Qed.

(** *** Arrays of unknown length *)

Lemma unconstrained_is_array `{Env} hp t n a :
  unconstrained_array hp t -> type_is_array n hp t = Some a -> a = true.
Proof.
  intros (m & ne & Ea & _) E. symmetry. by eapply type_is_array_det.
Qed.

Lemma unconstrained_count `{Env} hp t n ne :
  unconstrained_array hp t -> count_sub_elements n hp t = Some ne -> ne < 0.
Proof.
  intros (m & ne' & _ & Ec & Hlt) E.
  by rewrite (count_sub_elements_det _ _ _ _ _ _ E Ec).
Qed.

Lemma not_unconstrained_count `{Env} hp t n ne :
  count_sub_elements n hp t = Some ne -> 0 <= ne -> ~ unconstrained_array hp t.
Proof. intros E Hge Hu. pose proof (unconstrained_count _ _ _ _ Hu E). lia. Qed.

Lemma not_unconstrained_array `{Env} hp t n :
  type_is_array n hp t = Some false -> ~ unconstrained_array hp t.
Proof. intros E Hu. by pose proof (unconstrained_is_array _ _ _ _ Hu E). Qed.

(** *** The two revisions against each other *)

Lemma untagged_id l :
  Forall (fun p => class p = LC_DATA) (parts l) -> untagged l = l.
Proof.
  destruct l as [sz al np ps]. unfold untagged. simpl. intros Hall. f_equal.
  induction Hall as [|p ps Hp Hall IH]; simpl; [done|].
  rewrite IH. f_equal. destruct p; simpl in *. by subst.
Qed.

Lemma untagged_scalar `{Env} n hp t l :
  scalar_layout n hp t = Some l -> untagged l = l.
Proof.
  unfold scalar_layout. intros E.
  destruct (type_base_recur n hp t) as [b|]; [simpl in E|done].
  destruct (type_dim hp b 0) as [r|]; [simpl in E|done].
  destruct (folded_bounds r) as [[lo hi]|]; [|done]. by simplify_eq.
Qed.

Lemma array_layout_untagged nelems el :
  array_layout nelems (untagged el) = array_layout nelems el.
Proof. done. Qed.

Lemma caches_agree_empty `{Env} hp : caches_agree hp ∅ ∅.
Proof. split; intros t l E; by rewrite lookup_empty in E. Qed.

Lemma caches_agree_insert_l `{Env} hp c1 c2 t :
  caches_agree hp c1 c2 -> unconstrained_array hp t ->
  type_kind hp t <> Some T_SUBTYPE ->
  caches_agree hp
    (<[t := pointer_layout (to_int (dimension_of hp t)) LC_EXTERNAL LC_BOUNDS]> c1)
    c2.
Proof.
  intros [R1 R2] Hu Hk. split.
  - intros x l1. rewrite lookup_insert. case_decide as Hx.
    + intros [= <-]. subst x. by left.
    + apply R1.
  - intros x l2 E. destruct (R2 x l2 E) as [?|[Hnu E1]]; [by left|right].
    split; [done|]. rewrite lookup_insert_ne; [done|]. by intros ->.
Qed.

Lemma caches_agree_insert_r `{Env} hp c1 c2 t :
  caches_agree hp c1 c2 -> unconstrained_array hp t ->
  caches_agree hp c1
    (<[t := pointer_layout (to_int (dimension_of hp t)) LC_DATA LC_DATA]> c2).
Proof.
  intros [R1 R2] Hu. split.
  - intros x l1 E. destruct (R1 x l1 E) as [?|(Hnu & Hid & E2)]; [by left|right].
    split; [done|]. split; [done|]. rewrite lookup_insert_ne; [done|]. by intros ->.
  - intros x l2. rewrite lookup_insert. case_decide as Hx.
    + intros [= <-]. subst x. by left.
    + apply R2.
Qed.

Lemma caches_agree_insert_both `{Env} hp c1 c2 t l :
  caches_agree hp c1 c2 -> ~ unconstrained_array hp t -> untagged l = l ->
  caches_agree hp (<[t := l]> c1) (<[t := l]> c2).
Proof.
  intros [R1 R2] Hnu Hid. split.
  - intros x l1. rewrite lookup_insert. case_decide as Hx.
    + intros [= <-]. subst x. right. by rewrite lookup_insert_eq.
    + intros E. destruct (R1 x l1 E) as [?|(? & ? & E2)]; [by left|right].
      by rewrite lookup_insert_ne.
  - intros x l2. rewrite lookup_insert. case_decide as Hx.
    + intros [= <-]. subst x. right. by rewrite lookup_insert_eq.
    + intros E. destruct (R2 x l2 E) as [?|(? & E1)]; [by left|right].
      by rewrite lookup_insert_ne.
Qed.

(** The cache of the second revision only grows. *)
Lemma record_loop_dom `{Env} lay field :
  (forall c t l c', lay c t = Some (l, c') ->
     forall x, is_Some (c !! x) -> is_Some (c' !! x)) ->
  forall k i off c ps off' ps' c',
  record_loop lay field k i off c ps = Some (off', ps', c') ->
  forall x : type_t, is_Some (c !! x) -> is_Some (c' !! x).
Proof.
  intros Hlay. induction k as [|k IH]; intros i off c ps off' ps' c' E x Hx.
  - simpl in E. by simplify_eq.
  - simpl in E. destruct (field i) as [f|]; [simpl in E|done].
    destruct (lay c (tree_type f)) as [[fl c1]|] eqn:El; [simpl in E|done].
    eapply IH; [exact E|]. by eapply Hlay.
Qed.

Lemma layout_of_v2_dom `{Env} n : forall hp c t l c',
  V2.layout_of n hp c t = Some (l, c') ->
  forall x, is_Some (c !! x) -> is_Some (c' !! x).
Proof.
  induction n as [|n IH]; intros hp c t l c' E x Hx; [done|].
  cbn [V2.layout_of] in E.
  destruct (c !! t) as [l0|] eqn:Ec; [by simplify_eq|].
  assert (Hins : forall (d : cache_t) l', is_Some (d !! x) ->
            is_Some (<[t := l']> d !! x)).
  { intros d l' Hd. rewrite lookup_insert. by case_decide. }
  destruct (type_is_integer n hp t) as [is_int|]; [simpl in E|done].
  destruct (type_is_physical n hp t) as [is_phys|]; [simpl in E|done].
  destruct (type_is_enum n hp t) as [is_enum|]; [simpl in E|done].
  destruct (type_is_real n hp t) as [is_real|]; [simpl in E|done].
  destruct (type_is_array n hp t) as [is_arr|]; [simpl in E|done].
  destruct (type_is_record n hp t) as [is_rec|]; [simpl in E|done].
  destruct (is_int || is_phys || is_enum).
  { destruct (scalar_layout n hp t) as [l1|]; [simpl in E|done].
    simplify_eq. by apply Hins. }
  destruct is_real; [simplify_eq; by apply Hins|].
  destruct is_arr.
  { destruct (count_sub_elements n hp t) as [nelems|]; [simpl in E|done].
    destruct (nelems <? 0); [simplify_eq; by apply Hins|].
    destruct (type_elem n hp t) as [e|]; [simpl in E|done].
    destruct (V2.elem_loop n hp e) as [elem|]; [simpl in E|done].
    destruct (V2.layout_of n hp c elem) as [[el c1]|] eqn:El; [simpl in E|done].
    simplify_eq. apply Hins. by eapply IH. }
  destruct is_rec; [|done].
  destruct (type_fields n hp t) as [nf|]; [simpl in E|done].
  destruct (record_loop _ _ _ _ _ _ _) as [[[offset ps] c1]|] eqn:Er;
    [simpl in E|done].
  simplify_eq. apply Hins.
  eapply (record_loop_dom (V2.layout_of n hp)); [|exact Er|done].
  intros. by eapply IH.
Qed.

(** What each revision does for an array of unknown length that its
    cache does not hold. *)
Lemma layout_of_v2_unconstrained `{Env} n hp c2 t l2 c2' :
  c2 !! t = None -> unconstrained_array hp t ->
  V2.layout_of n hp c2 t = Some (l2, c2') ->
  l2 = pointer_layout (to_int (dimension_of hp t)) LC_DATA LC_DATA /\
  c2' = <[t := l2]> c2.
Proof.
  intros Ec Hu E. destruct n as [|n]; [done|].
  cbn [V2.layout_of] in E. rewrite Ec in E.
  destruct (type_is_array n hp t) as [a|] eqn:Ea; [|
    destruct (type_is_integer n hp t); simpl in E; [|done];
    destruct (type_is_physical n hp t); simpl in E; [|done];
    destruct (type_is_enum n hp t); simpl in E; [|done];
    by destruct (type_is_real n hp t)].
  pose proof (unconstrained_is_array _ _ _ _ Hu Ea) as ->.
  unfold type_is_integer, type_is_physical, type_is_enum, type_is_real,
    type_is_record in E.
  unfold type_is_array in Ea.
  destruct (type_base_kind n hp t) as [k|]; [simpl in *|done].
  destruct (count_sub_elements n hp t) as [ne|] eqn:En; [|
    destruct k; simpl in *; done].
  pose proof (unconstrained_count _ _ _ _ Hu En) as Hlt.
  apply Z.ltb_lt in Hlt.
  destruct k; simpl in *; try done; rewrite Hlt in E; by simplify_eq.
Qed.

Lemma layout_of_v1_unconstrained `{Env} n hp c1 t l1 c1' :
  c1 !! t = None -> unconstrained_array hp t ->
  V1.layout_of n hp c1 t = Some (l1, c1') ->
  (type_kind hp t = Some T_SUBTYPE /\
   exists m b, type_base_recur m hp t = Some b /\
               V1.layout_of m hp c1 b = Some (l1, c1')) \/
  (type_kind hp t <> Some T_SUBTYPE /\
   l1 = pointer_layout (to_int (dimension_of hp t)) LC_EXTERNAL LC_BOUNDS /\
   c1' = <[t := l1]> c1).
Proof.
  intros Ec Hu E. destruct n as [|n]; [done|].
  cbn [V1.layout_of] in E. rewrite Ec in E.
  destruct (type_is_array n hp t) as [a|] eqn:Ea; [|
    destruct (type_is_integer n hp t); simpl in E; [|done];
    destruct (type_is_physical n hp t); simpl in E; [|done];
    destruct (type_is_enum n hp t); simpl in E; [|done];
    by destruct (type_is_real n hp t)].
  pose proof (unconstrained_is_array _ _ _ _ Hu Ea) as ->.
  unfold type_is_integer, type_is_physical, type_is_enum, type_is_real,
    type_is_record in E.
  unfold type_is_array in Ea.
  destruct (type_base_kind n hp t) as [k|]; [simpl in *|done].
  destruct (count_sub_elements n hp t) as [ne|] eqn:En; [|
    destruct k; simpl in *; done].
  pose proof (unconstrained_count _ _ _ _ Hu En) as Hlt.
  apply Z.leb_gt in Hlt.
  assert (E' : (k0 ← type_kind hp t;
                if bool_decide (k0 = T_SUBTYPE)
                then base ← type_base_recur n hp t; V1.layout_of n hp c1 base
                else
                  Some (pointer_layout (to_int (dimension_of hp t))
                          LC_EXTERNAL LC_BOUNDS,
                        <[t := pointer_layout (to_int (dimension_of hp t))
                                 LC_EXTERNAL LC_BOUNDS]> c1))
               = Some (l1, c1')).
  { destruct k; simpl in *; try done; by rewrite Hlt in E. }
  clear E. destruct (type_kind hp t) as [k0|]; [simpl in E'|done].
  case_bool_decide as Hk.
  - subst k0. left. split; [done|].
    destruct (type_base_recur n hp t) as [b|] eqn:Eb; [simpl in E'|done].
    by exists n, b.
  - right. simplify_eq. split; [congruence|done].
Qed.

Lemma layout_of_v1_cached `{Env} n hp c t l r :
  c !! t = Some l -> V1.layout_of n hp c t = Some r -> r = (l, c).
Proof.
  intros Ec E. destruct n as [|n]; [done|]. cbn [V1.layout_of] in E.
  rewrite Ec in E. congruence.
Qed.

Lemma layout_of_v2_cached `{Env} n hp c t l r :
  c !! t = Some l -> V2.layout_of n hp c t = Some r -> r = (l, c).
Proof.
  intros Ec E. destruct n as [|n]; [done|]. cbn [V2.layout_of] in E.
  rewrite Ec in E. congruence.
Qed.

(** The first revision on the base type of such a subtype. *)
Lemma layout_of_v1_base `{Env} n hp c1 c2 b l1 c1' :
  caches_agree hp c1 c2 -> unconstrained_array hp b ->
  type_kind hp b <> Some T_SUBTYPE ->
  V1.layout_of n hp c1 b = Some (l1, c1') ->
  l1 = pointer_layout (to_int (dimension_of hp b)) LC_EXTERNAL LC_BOUNDS /\
  caches_agree hp c1' c2.
Proof.
  intros HR Hu Hk E. destruct (c1 !! b) as [l|] eqn:Ec.
  - pose proof (layout_of_v1_cached _ _ _ _ _ _ Ec E) as [= -> ->].
    destruct (proj1 HR b l Ec) as [(_ & _ & ->)|(Hnu & _)]; [done|].
    by destruct Hnu.
  - destruct (layout_of_v1_unconstrained _ _ _ _ _ _ Ec Hu E)
      as [[Hs _]|(_ & -> & ->)]; [by destruct Hk|].
    split; [done|]. by apply caches_agree_insert_l.
Qed.

(** The two revisions on an array of unknown length. *)
Lemma layout_of_agree_unconstrained `{Env} n hp c1 c2 t l1 c1' l2 c2' :
  caches_agree hp c1 c2 -> unconstrained_array hp t ->
  subtype_like_base hp t ->
  V1.layout_of n hp c1 t = Some (l1, c1') ->
  V2.layout_of n hp c2 t = Some (l2, c2') ->
  l1 = pointer_layout (to_int (dimension_of hp t)) LC_EXTERNAL LC_BOUNDS /\
  l2 = pointer_layout (to_int (dimension_of hp t)) LC_DATA LC_DATA /\
  caches_agree hp c1' c2'.
Proof.
  intros HR Hu Hsub E1 E2.
  assert (H1 : l1 = pointer_layout (to_int (dimension_of hp t))
                      LC_EXTERNAL LC_BOUNDS /\ caches_agree hp c1' c2).
  { destruct (c1 !! t) as [l|] eqn:Ec.
    - pose proof (layout_of_v1_cached _ _ _ _ _ _ Ec E1) as [= -> ->].
      destruct (proj1 HR t l Ec) as [(_ & _ & ->)|(Hnu & _)]; [done|].
      by destruct Hnu.
    - destruct (layout_of_v1_unconstrained _ _ _ _ _ _ Ec Hu E1)
        as [(Hs & m & b & Eb & Eb1)|(Hk & -> & ->)].
      + destruct (Hsub Hs Hu m b Eb) as [Hub Hd].
        destruct (type_base_recur_not_subtype _ _ _ _ Eb) as (k & Ek & Hk).
        destruct (layout_of_v1_base m hp c1 c2 b l1 c1' HR Hub) as [-> HR'];
          [congruence | done |].
        by rewrite Hd.
      + split; [done|]. by apply caches_agree_insert_l. }
  destruct H1 as [-> HR1]. split; [done|].
  destruct (c2 !! t) as [l|] eqn:Ec.
  - pose proof (layout_of_v2_cached _ _ _ _ _ _ Ec E2) as [= -> ->].
    destruct (proj2 HR t l Ec) as [(_ & ->)|(Hnu & _)]; [done|].
    by destruct Hnu.
  - destruct (layout_of_v2_unconstrained _ _ _ _ _ _ Ec Hu E2) as [-> ->].
    split; [done|]. by apply caches_agree_insert_r.
Qed.

Lemma record_loop_agree `{Env} hp lay1 lay2 field :
  (forall c t l c', lay2 c t = Some (l, c') ->
     forall x, is_Some (c !! x) -> is_Some (c' !! x)) ->
  (forall c1 c2 t l1 c1' l2 c2', caches_agree hp c1 c2 ->
     lay1 c1 t = Some (l1, c1') -> lay2 c2 t = Some (l2, c2') ->
     (forall x, is_Some (c2' !! x) -> subtype_like_base hp x) ->
     l2 = untagged l1 /\ caches_agree hp c1' c2') ->
  forall k i off c1 c2 ps o1 ps1 c1' o2 ps2 c2',
  caches_agree hp c1 c2 ->
  Forall (fun p => class p = LC_DATA) ps ->
  record_loop lay1 field k i off c1 ps = Some (o1, ps1, c1') ->
  record_loop lay2 field k i off c2 ps = Some (o2, ps2, c2') ->
  (forall x, is_Some (c2' !! x) -> subtype_like_base hp x) ->
  o1 = o2 /\ ps1 = ps2 /\ caches_agree hp c1' c2' /\
  Forall (fun p => class p = LC_DATA) ps1.
Proof.
  intros Hdom Hlay. induction k as [|k IH];
    intros i off c1 c2 ps o1 ps1 c1' o2 ps2 c2' HR Hps E1 E2 Hsub.
  - simpl in *. by simplify_eq.
  - simpl in *. destruct (field i) as [f|]; [simpl in *|done].
    destruct (lay1 c1 (tree_type f)) as [[fl1 d1]|] eqn:L1; [simpl in *|done].
    destruct (lay2 c2 (tree_type f)) as [[fl2 d2]|] eqn:L2; [simpl in *|done].
    destruct (Hlay _ _ _ _ _ _ _ HR L1 L2) as [-> HR'].
    { intros x Hx. apply Hsub.
      by eapply (record_loop_dom lay2 field Hdom _ _ _ _ _ _ _ _ E2). }
    simpl in E2. eapply IH; [exact HR'| |exact E1|exact E2|exact Hsub].
    apply Forall_app. split; [done|]. by repeat constructor.
Qed.

Lemma layout_of_agree `{Env} hp :
  forall n c1 c2 t l1 c1' l2 c2',
  caches_agree hp c1 c2 ->
  V1.layout_of n hp c1 t = Some (l1, c1') ->
  V2.layout_of n hp c2 t = Some (l2, c2') ->
  (forall x, is_Some (c2' !! x) -> subtype_like_base hp x) ->
  l2 = untagged l1 /\ tagged_only_if_unconstrained hp t l1 /\
  caches_agree hp c1' c2'.
Proof.
  induction n as [|n IH]; intros c1 c2 t l1 c1' l2 c2' HR E1 E2 Hsub;
    [done|].
  assert (Ht : is_Some (c2' !! t)).
  { destruct (c2 !! t) as [l|] eqn:Ec.
    - pose proof (layout_of_v2_cached _ _ _ _ _ _ Ec E2) as [= -> ->].
      by rewrite Ec.
    - clear -E2 Ec. cbn [V2.layout_of] in E2. rewrite Ec in E2.
      destruct (type_is_integer n hp t) as [is_int|]; [simpl in *|done].
      destruct (type_is_physical n hp t) as [is_phys|]; [simpl in *|done].
      destruct (type_is_enum n hp t) as [is_enum|]; [simpl in *|done].
      destruct (type_is_real n hp t) as [is_real|]; [simpl in *|done].
      destruct (type_is_array n hp t) as [is_arr|]; [simpl in *|done].
      destruct (type_is_record n hp t) as [is_rec|]; [simpl in *|done].
      destruct (is_int || is_phys || is_enum).
      { destruct (scalar_layout n hp t); simpl in *; [|done].
        simplify_eq. by rewrite lookup_insert_eq. }
      destruct is_real; [simplify_eq; by rewrite lookup_insert_eq|].
      destruct is_arr.
      { destruct (count_sub_elements n hp t); simpl in *; [|done].
        destruct (_ <? 0); [simplify_eq; by rewrite lookup_insert_eq|].
        destruct (type_elem n hp t); simpl in *; [|done].
        destruct (V2.elem_loop n hp _); simpl in *; [|done].
        destruct (V2.layout_of n hp c2 _) as [[]|]; simpl in *; [|done].
        simplify_eq. by rewrite lookup_insert_eq. }
      destruct is_rec; [|done].
      destruct (type_fields n hp t); simpl in *; [|done].
      destruct (record_loop _ _ _ _ _ _ _) as [[[]]|]; simpl in *; [|done].
      simplify_eq. by rewrite lookup_insert_eq. }
  (* an array of unknown length *)
  assert (Hun : unconstrained_array hp t ->
            l2 = untagged l1 /\ tagged_only_if_unconstrained hp t l1 /\
            caches_agree hp c1' c2').
  { intros Hu.
    destruct (layout_of_agree_unconstrained _ _ _ _ _ _ _ _ _ HR Hu
                (Hsub t Ht) E1 E2) as (-> & -> & HR').
    split; [done|]. split; [by right | done]. }
  pose proof HR as [R1 R2].
  destruct (c1 !! t) as [l01|] eqn:Ec1.
  { destruct (R1 t l01 Ec1) as [(Hu & _)|(Hnu & Hid & Ec2)]; [by apply Hun|].
    pose proof (layout_of_v1_cached _ _ _ _ _ _ Ec1 E1) as [= -> ->].
    pose proof (layout_of_v2_cached _ _ _ _ _ _ Ec2 E2) as [= -> ->].
    split; [done|]. split; [by left | done]. }
  destruct (c2 !! t) as [l02|] eqn:Ec2.
  { destruct (R2 t l02 Ec2) as [(Hu & _)|(Hnu & Ec1')]; [by apply Hun|].
    congruence. }
  pose proof E1 as E1'. pose proof E2 as E2'.
  cbn [V1.layout_of] in E1. cbn [V2.layout_of] in E2.
  rewrite Ec1 in E1. rewrite Ec2 in E2.
  destruct (type_is_integer n hp t) as [is_int|] eqn:Ei; [simpl in *|done].
  destruct (type_is_physical n hp t) as [is_phys|] eqn:Ep; [simpl in *|done].
  destruct (type_is_enum n hp t) as [is_enum|] eqn:Ee; [simpl in *|done].
  destruct (type_is_real n hp t) as [is_real|] eqn:Er; [simpl in *|done].
  destruct (type_is_array n hp t) as [is_arr|] eqn:Ea; [simpl in *|done].
  destruct (type_is_record n hp t) as [is_rec|] eqn:Erc; [simpl in *|done].
  (* the kinds exclude each other *)
  assert (Hna : is_arr = false -> ~ unconstrained_array hp t).
  { intros ->. by eapply not_unconstrained_array. }
  assert (Hex : (is_int || is_phys || is_enum = true \/ is_real = true
                 \/ is_rec = true) -> is_arr = false).
  { clear -Ei Ep Ee Er Ea Erc.
    unfold type_is_integer, type_is_physical, type_is_enum, type_is_real,
      type_is_array, type_is_record in *.
    destruct (type_base_kind n hp t) as [k|]; [simpl in *|done].
    simplify_eq. destruct k; simpl; intros [?|[?|?]]; done. }
  destruct (is_int || is_phys || is_enum) eqn:Hs.
  { destruct (scalar_layout n hp t) as [l|] eqn:Es; [simpl in *|done].
    simplify_eq. pose proof (untagged_scalar _ _ _ _ Es) as Hid.
    split; [done|]. split; [by left|].
    apply caches_agree_insert_both; [done | | done]. apply Hna, Hex. by left. }
  destruct is_real.
  { simplify_eq. split; [done|]. split; [by left|].
    apply caches_agree_insert_both; [done | | done].
    apply Hna, Hex. right. by left. }
  destruct is_arr.
  { destruct (count_sub_elements n hp t) as [nelems|] eqn:Ec'; [simpl in *|done].
    destruct (Z.leb_spec 0 nelems) as [Hge|Hlt].
    - rewrite (proj2 (Z.ltb_ge nelems 0)) in E2 by done.
      destruct (type_elem_recur n hp t) as [e1|] eqn:Ee1; [simpl in *|done].
      destruct (type_elem n hp t) as [e|] eqn:Eel; [simpl in *|done].
      destruct (V2.elem_loop n hp e) as [e2|] eqn:Ee2; [simpl in *|done].
      rewrite <- (elem_agree _ _ _ _ _ _ Ee1 Eel Ee2) in E2.
      destruct (V1.layout_of n hp c1 e1) as [[el1 d1]|] eqn:L1; [simpl in *|done].
      destruct (V2.layout_of n hp c2 e1) as [[el2 d2]|] eqn:L2; [simpl in *|done].
      simplify_eq.
      destruct (IH _ _ _ _ _ _ _ HR L1 L2) as (-> & _ & HR').
      { intros x Hx. apply Hsub. rewrite lookup_insert. by case_decide. }
      rewrite array_layout_untagged.
      split; [done|]. split; [by left|].
      apply caches_agree_insert_both; [done | | done].
      by eapply not_unconstrained_count.
    - apply Hun. by exists n, nelems. }
  destruct is_rec; [|done].
  destruct (type_fields n hp t) as [nf|]; [simpl in *|done].
  destruct (record_loop (V1.layout_of n hp) _ _ _ _ _ _)
    as [[[o1 ps1] d1]|] eqn:Er1; [simpl in *|done].
  destruct (record_loop (V2.layout_of n hp) _ _ _ _ _ _)
    as [[[o2 ps2] d2]|] eqn:Er2; [simpl in *|done].
  simplify_eq.
  destruct (record_loop_agree hp (V1.layout_of n hp) (V2.layout_of n hp) _
              (layout_of_v2_dom n hp)
              (fun c1 c2 t l1 c1' l2 c2' HR E1 E2 Hs =>
                 match IH c1 c2 t l1 c1' l2 c2' HR E1 E2 Hs with
                 | conj A (conj _ B) => conj A B
                 end)
              _ _ _ _ _ _ _ _ _ _ _ _ HR (Forall_nil_2 _) Er1 Er2)
    as (-> & -> & HR' & Hps).
  { intros x Hx. apply Hsub. rewrite lookup_insert. by case_decide. }
  assert (Hid : untagged (JitLayout o2 sizeof_ptr (to_int (Z.of_nat nf)) ps2)
                = JitLayout o2 sizeof_ptr (to_int (Z.of_nat nf)) ps2)
    by (by apply untagged_id).
  split; [by rewrite Hid|]. split; [by left|].
  apply caches_agree_insert_both; [done | | done].
  apply Hna, Hex. right. by right.
Qed.

(** The same calls, one after the other. *)
Lemma layout_calls_dom `{Env} hp n ts : forall c ls c',
  layout_calls (V2.layout_of n hp) ts c = Some (ls, c') ->
  forall x, is_Some (c !! x) -> is_Some (c' !! x).
Proof.
  induction ts as [|t ts IH]; intros c ls c' E x Hx.
  - simpl in E. by simplify_eq.
  - simpl in E.
    destruct (V2.layout_of n hp c t) as [[l d]|] eqn:El; [simpl in E|done].
    destruct (layout_calls _ ts d) as [[ls' d']|] eqn:Er; [simpl in E|done].
    simplify_eq. eapply IH; [exact Er|]. by eapply layout_of_v2_dom.
Qed.

Lemma layout_calls_agree `{Env} hp n ts : forall c1 c2 ls1 c1' ls2 c2',
  caches_agree hp c1 c2 ->
  layout_calls (V1.layout_of n hp) ts c1 = Some (ls1, c1') ->
  layout_calls (V2.layout_of n hp) ts c2 = Some (ls2, c2') ->
  (forall x, is_Some (c2' !! x) -> subtype_like_base hp x) ->
  ls2 = untagged <$> ls1 /\
  Forall2 (tagged_only_if_unconstrained hp) ts ls1 /\
  caches_agree hp c1' c2'.
Proof.
  induction ts as [|t ts IH]; intros c1 c2 ls1 c1' ls2 c2' HR E1 E2 Hsub.
  - simpl in *. simplify_eq. split; [done|]. split; [constructor | done].
  - simpl in *.
    destruct (V1.layout_of n hp c1 t) as [[l1 d1]|] eqn:L1; [simpl in *|done].
    destruct (V2.layout_of n hp c2 t) as [[l2 d2]|] eqn:L2; [simpl in *|done].
    destruct (layout_calls _ ts d1) as [[r1 e1]|] eqn:R1; [simpl in *|done].
    destruct (layout_calls _ ts d2) as [[r2 e2]|] eqn:R2; [simpl in *|done].
    simplify_eq.
    destruct (layout_of_agree hp _ _ _ _ _ _ _ _ HR L1 L2) as (-> & Htag & HR').
    { intros x Hx. apply Hsub. by eapply layout_calls_dom. }
    destruct (IH _ _ _ _ _ _ HR' R1 R2 Hsub) as (-> & Hall & HR'').
    split; [done|]. split; [by constructor | done].
Qed.

(** Where they differ: on a subtype that is an array of unknown length
    the first revision hands back the layout of the base type and caches
    nothing for the subtype, the second builds and caches a layout of its
    own. *)
Lemma layout_of_unconstrained_subtype `{Env} hp n c1 c2 t ne :
  c1 !! t = None -> c2 !! t = None ->
  type_kind hp t = Some T_SUBTYPE ->
  type_is_array n hp t = Some true ->
  count_sub_elements n hp t = Some ne -> ne < 0 ->
  V1.layout_of (S n) hp c1 t
    = (base ← type_base_recur n hp t; V1.layout_of n hp c1 base) /\
  V2.layout_of (S n) hp c2 t
    = Some (pointer_layout (to_int (dimension_of hp t)) LC_DATA LC_DATA,
            <[t := pointer_layout (to_int (dimension_of hp t)) LC_DATA LC_DATA]>
              c2).
Proof.
  intros E1 E2 Ek Ea Ec Hlt. cbn [V1.layout_of V2.layout_of].
  rewrite E1, E2. unfold type_is_array in Ea.
  unfold type_is_integer, type_is_physical, type_is_enum, type_is_real,
    type_is_array, type_is_record.
  destruct (type_base_kind n hp t) as [k|]; [simpl in *|done].
  rewrite Ec, Ek. simpl.
  rewrite (proj2 (Z.ltb_lt ne 0)) by done.
  rewrite (proj2 (Z.leb_gt 0 ne)) by done.
  injection Ea as Ea.
  destruct k; simpl in *; try discriminate; done.
Qed.

(** C4 as stated fails on the class: for an unconstrained array type that
    is not a subtype (BIT_VECTOR) the first revision tags the parts
    EXTERNAL and BOUNDS, the second leaves the zero class. *)
Lemma layout_of_class_cex :
  type_kind sample_heap 5 = Some T_UARRAY /\
  fst <$> @V1.layout_of sample_env 8 sample_heap ∅ 5 =
    Some (JitLayout 24 8 2
            [Part 0 8 1 8 LC_EXTERNAL; Part 8 8 2 8 LC_BOUNDS]) /\
  fst <$> @V2.layout_of sample_env 8 sample_heap ∅ 5 =
    Some (JitLayout 24 8 2 [Part 0 8 1 8 LC_DATA; Part 8 8 2 8 LC_DATA]).
Proof. repeat split; vm_compute; reflexivity. Qed.

(** C4 (amended): called on the same types in the same order, from empty
    caches, the two revisions return layouts with the same size,
    alignment and parts up to the class, which the second revision leaves
    at zero: it differs only on arrays of unknown length (EXTERNAL and
    BOUNDS in the first revision).  This is for every type; for the
    subtypes that are arrays of unknown length among the types laid out,
    the base type is taken to be an array of unknown length with as many
    dimensions (an assumption on the absent [dimension_of], [range_of] and
    [folded_length]).  On such a subtype the first revision returns the
    layout of the base type and caches nothing for the subtype, while the
    second builds and caches an unconstrained layout for the subtype
    itself. *)
Theorem layout_of_revisions `{Env} hp n ts ls1 c1 ls2 c2 :
  layout_calls (V1.layout_of n hp) ts ∅ = Some (ls1, c1) ->
  layout_calls (V2.layout_of n hp) ts ∅ = Some (ls2, c2) ->
  (forall t, is_Some (c2 !! t) -> subtype_like_base hp t) ->
  ls2 = untagged <$> ls1 /\
  Forall2 (tagged_only_if_unconstrained hp) ts ls1 /\
  (forall m d1 d2 t ne,
     d1 !! t = None -> d2 !! t = None ->
     type_kind hp t = Some T_SUBTYPE ->
     type_is_array m hp t = Some true ->
     count_sub_elements m hp t = Some ne -> ne < 0 ->
     V1.layout_of (S m) hp d1 t
       = (base ← type_base_recur m hp t; V1.layout_of m hp d1 base) /\
     V2.layout_of (S m) hp d2 t
       = Some (pointer_layout (to_int (dimension_of hp t)) LC_DATA LC_DATA,
               <[t := pointer_layout (to_int (dimension_of hp t))
                        LC_DATA LC_DATA]> d2)).
Proof.
  intros E1 E2 Hsub.
  destruct (layout_calls_agree hp n ts ∅ ∅ ls1 c1 ls2 c2
              (caches_agree_empty hp) E1 E2 Hsub) as (Hls & Htag & _).
  split; [done|]. split; [done|].
  intros m d1 d2 t ne. apply layout_of_unconstrained_subtype.
Qed.

Lemma nested_heap_subtype t :
  type_kind nested_heap t = Some T_SUBTYPE -> t = 6%positive.
Proof.
  unfold type_kind. intros Ek.
  destruct (nested_heap !! t) as [o|] eqn:Eo; [|done].
  simpl in Ek. injection Ek as Ek.
  assert (Hall : map_Forall
                   (fun t o => bool_decide (kind o = T_SUBTYPE -> t = 6%positive))
                   nested_heap).
  { apply map_Forall_to_list. vm_compute. repeat constructor. }
  apply (bool_decide_unpack _ (Hall t o Eo)). exact Ek.
Qed.

Lemma nested_heap_like_base t : @subtype_like_base sample_env nested_heap t.
Proof.
  intros Hk _ n b Eb. apply nested_heap_subtype in Hk. subst t.
  assert (b = 5%positive) as ->.
  { destruct n as [|[|n]]; [done | done |]. vm_compute in Eb. congruence. }
  split; [|reflexivity].
  exists 8%nat, (-1). repeat split; vm_compute; reflexivity.
Qed.

Lemma layout_of_revisions_witness :
  exists ls1 c1 ls2 c2,
    layout_calls (@V1.layout_of sample_env 8 nested_heap)
      [8; 6; 5; 7]%positive ∅ = Some (ls1, c1) /\
    layout_calls (@V2.layout_of sample_env 8 nested_heap)
      [8; 6; 5; 7]%positive ∅ = Some (ls2, c2) /\
    ls2 = untagged <$> ls1 /\
    Forall2 (@tagged_only_if_unconstrained sample_env nested_heap)
      [8; 6; 5; 7]%positive ls1.
Proof.
  destruct (layout_calls (@V1.layout_of sample_env 8 nested_heap)
              [8; 6; 5; 7]%positive ∅) as [[ls1 c1]|] eqn:E1;
    [|vm_compute in E1; discriminate].
  destruct (layout_calls (@V2.layout_of sample_env 8 nested_heap)
              [8; 6; 5; 7]%positive ∅) as [[ls2 c2]|] eqn:E2;
    [|vm_compute in E2; discriminate].
  exists ls1, c1, ls2, c2. split; [reflexivity|]. split; [reflexivity|].
  destruct (@layout_of_revisions sample_env nested_heap 8
              [8; 6; 5; 7]%positive ls1 c1 ls2 c2 E1 E2) as (A & B & _).
  - intros t _. apply nested_heap_like_base.
  - split; [exact A | exact B].
Defined.

(** The record with a field of the unconstrained subtype: the same
    numbers in both revisions. *)
Example layout_of_nested_record :
  fst <$> @V1.layout_of sample_env 8 nested_heap ∅ 8 =
    Some (JitLayout 36 8 3
            [Part 0 1 1 1 LC_DATA; Part 8 24 1 8 LC_DATA; Part 32 4 1 4 LC_DATA]) /\
  fst <$> @V2.layout_of sample_env 8 nested_heap ∅ 8 =
    Some (JitLayout 36 8 3
            [Part 0 1 1 1 LC_DATA; Part 8 24 1 8 LC_DATA; Part 32 4 1 4 LC_DATA]).
Proof. split; vm_compute; reflexivity. Qed.

(** The unconstrained subtype of the sample: the first revision answers
    with the layout of BIT_VECTOR and caches that, the second caches a
    layout for the subtype. *)
Example layout_of_subtype_v1 :
  @V1.layout_of sample_env 8 sample_heap ∅ 6 =
  Some (pointer_layout 1 LC_EXTERNAL LC_BOUNDS,
        {[ 5%positive := pointer_layout 1 LC_EXTERNAL LC_BOUNDS ]}).
Proof. vm_compute. reflexivity. Qed.

Example layout_of_subtype_v2 :
  @V2.layout_of sample_env 8 sample_heap ∅ 6 =
  Some (pointer_layout 1 LC_DATA LC_DATA,
        {[ 6%positive := pointer_layout 1 LC_DATA LC_DATA ]}).
Proof. vm_compute. reflexivity. Qed.

End LayoutFacts.

(* --------------------------------------------------------------------- *)
(** ** The concurrent map: where [chash_put] links a new node             *)
(* --------------------------------------------------------------------- *)

Module ChashFacts.
Import Common Hash Hash.Conc.
Local Open Scope Z_scope.
Import ChashSpec.

Lemma chain_rep_fun nodes hd l1 l2 :
  chain_rep nodes hd l1 -> chain_rep nodes hd l2 -> l1 = l2.
Proof.
  intros C1. revert l2. induction C1 as [|a nd l E C IH]; intros l2 C2.
  - by inversion C2.
  - inversion C2 as [|a' nd' l' E' C']; subst. simplify_eq. f_equal. by apply IH.
Qed.

Lemma chain_rep_suffix nodes hd l a :
  chain_rep nodes hd l -> a ∈ l ->
  exists l1 l2, l = l1 ++ a :: l2 /\ chain_rep nodes (Some a) (a :: l2).
Proof.
  induction 1 as [|b nd l E C IH]; intros Hin.
  - by apply elem_of_nil in Hin.
  - apply elem_of_cons in Hin as [->|Hin].
    + exists [], l. split; [done|]. by econstructor.
    + destruct (IH Hin) as (l1 & l2 & -> & C2). by exists (b :: l1), l2.
Qed.

Lemma chain_rep_NoDup nodes hd l : chain_rep nodes hd l -> NoDup l.
Proof.
  induction 1 as [|a nd l E C IH]; constructor; [|done].
  intros Hin.
  destruct (chain_rep_suffix _ _ _ _ C Hin) as (l1 & l2 & -> & C2).
  assert (C1 : chain_rep nodes (Some a) (a :: l1 ++ a :: l2)) by by econstructor.
  pose proof (chain_rep_fun _ _ _ _ C1 C2) as Heq.
  apply (f_equal length) in Heq. simpl in Heq. rewrite length_app in Heq.
  simpl in Heq. lia.
Qed.

Lemma chain_rep_lookup nodes hd l a :
  chain_rep nodes hd l -> a ∈ l -> is_Some (nodes !! a).
Proof.
  induction 1 as [|b nd l E C IH]; intros Hin.
  - by apply elem_of_nil in Hin.
  - apply elem_of_cons in Hin as [->|Hin]; eauto.
Qed.

(** A heap update that leaves the nodes of a chain alone leaves the chain. *)
Lemma chain_rep_ext nodes nodes' hd l :
  chain_rep nodes hd l -> (forall a, a ∈ l -> nodes' !! a = nodes !! a) ->
  chain_rep nodes' hd l.
Proof.
  induction 1 as [|b nd l E C IH]; intros Hext; [constructor|].
  econstructor.
  - rewrite Hext; [done | by left].
  - apply IH. intros a Ha. apply Hext. by right.
Qed.

Lemma last_link_in a l :
  exists c, last_link (ChainLink a) l = ChainLink c /\ c ∈ a :: l.
Proof.
  revert a. induction l as [|b l IH]; intros a; simpl.
  - exists a. split; [done | by left].
  - destruct (IH b) as (c & -> & Hc). exists c. split; [done | by right].
Qed.

Lemma chash_put_walk_absent l : forall fuel s p k hd,
  load_acquire s p = Some hd -> chain_rep (nodes s) hd l -> key_absent s l k ->
  (length l < fuel)%nat ->
  chash_put_walk fuel s p k = Some (inl (last_link p l)).
Proof.
  induction l as [|a l IH]; intros fuel s p k hd Hld C Hk Hf;
    (destruct fuel as [|fuel]; [simpl in Hf; lia|]); simpl; rewrite Hld; simpl;
    inversion C as [|a' nd l' E C']; subst; [done|].
  rewrite E. simpl.
  assert (key nd <> k) as Hne by (eapply Hk; [left|done]).
  apply Z.eqb_neq in Hne. rewrite Hne.
  apply (IH _ _ _ _ (chain nd)); simpl.
  - by rewrite E.
  - done.
  - intros b ndb Hb. apply Hk. by right.
  - simpl in Hf. lia.
Qed.

(** Setting the [chain] field of the last node of a chain to a node that
    ends a chain appends that node. *)
Lemma alter_last_appends nodes new ndn l : forall a nodes' c,
  chain_rep nodes (Some a) (a :: l) ->
  nodes !! new = Some ndn -> chain ndn = None -> new ∉ a :: l ->
  last_link (ChainLink a) l = ChainLink c ->
  nodes' = alter (fun nd => Node (Some new) (key nd) (value nd)) c nodes ->
  chain_rep nodes' (Some a) (a :: l ++ [new]).
Proof.
  induction l as [|b l IH]; intros a nodes' c C En Hcn Hnew Hc ->;
    inversion C as [|a' nd l' E C']; subst; simpl in Hc.
  - simplify_eq. inversion C'; subst.
    assert (new <> c) by (intros ->; apply Hnew; by left).
    econstructor; [by rewrite lookup_alter_eq, E|]. simpl.
    econstructor; [by rewrite lookup_alter_ne, En|]. rewrite Hcn. constructor.
  - pose proof (chain_rep_NoDup _ _ _ C) as Hnd.
    destruct (last_link_in b l) as (c' & Hc' & Hin). rewrite Hc in Hc'.
    simplify_eq.
    assert (c' <> a).
    { intros ->. apply NoDup_cons in Hnd as [Hnd _]. done. }
    assert (Hb : chain nd = Some b) by (by inversion C').
    econstructor; [by rewrite lookup_alter_ne, E|].
    rewrite Hb in *. eapply IH; eauto.
    intros Hin'. apply Hnew. by right.
Qed.

(** Linking [new] behind the last link of the chain of a slot appends it
    to that chain. *)
Lemma store_link_appends s i hd l new ndn :
  get_at (slots s) i = Some hd -> chain_rep (nodes s) hd l ->
  nodes s !! new = Some ndn -> chain ndn = None -> new ∉ l ->
  let s' := store_link s (last_link (SlotLink i) l) (Some new) in
  exists hd', get_at (slots s') i = Some hd' /\
    chain_rep (nodes s') hd' (l ++ [new]) /\
    (forall j, j <> i -> get_at (slots s') j = get_at (slots s) j) /\
    size s' = size s /\ members s' = members s /\ n_cas s' = n_cas s /\
    length (slots s') = length (slots s) /\
    (hd' = Some new <-> l = []).
Proof.
  intros Hld C En Hcn Hnew s'.
  destruct l as [|a l].
  - inversion C; subst. subst s'. simpl. exists (Some new).
    unfold get_at, set_at in *. destruct (0 <=? i) eqn:Hi; [|done].
    apply Z.leb_le in Hi. apply lookup_lt_Some in Hld as Hlt.
    split; [by apply list_lookup_insert_eq|].
    split; [econstructor; [done|]; rewrite Hcn; constructor|].
    split.
    { intros j Hj. destruct (0 <=? j) eqn:Hj0; [|done]. apply Z.leb_le in Hj0.
      apply list_lookup_insert_ne. lia. }
    rewrite length_insert. done.
  - inversion C as [|a' nd l' E C']; subst.
    destruct (last_link_in a l) as (c & Hc & Hin).
    subst s'. simpl. rewrite Hc. simpl. exists (Some a).
    split; [done|]. split.
    + eapply alter_last_appends; eauto.
    + repeat split; auto; try done.
      intros [= <-]. exfalso. apply Hnew. by left.
Qed.

Lemma last_link_load s l : forall p hd,
  load_acquire s p = Some hd -> chain_rep (nodes s) hd l ->
  load_acquire s (last_link p l) = Some None.
Proof.
  induction l as [|a l IH]; intros p hd Hld C; inversion C; subst; simpl.
  - done.
  - apply (IH _ (chain nd)); [|done]. simpl. by rewrite H2.
Qed.

(** C5 (amended): without interference, [chash_put] of a key that is not
    in the chain of its slot allocates one node and links it behind the
    LAST node of that chain with one compare-and-swap (the node becomes the
    head only if the chain was empty); the other slots and the size of the
    table are unchanged. *)
Theorem chash_put_links_at_tail `{Util} n s k v slot hd l :
  hash_slot (size s) k = Some slot ->
  get_at (slots s) slot = Some hd ->
  chain_rep (nodes s) hd l ->
  key_absent s l k ->
  nodes s !! next_new s = None ->
  (length l + 1 < n)%nat ->
  exists s', chash_put n [] s k v = Some (false, s') /\
    nodes s' !! next_new s = Some (Node None k v) /\
    (exists hd', get_at (slots s') slot = Some hd' /\
       chain_rep (nodes s') hd' (l ++ [next_new s]) /\
       (hd' = Some (next_new s) <-> l = [])) /\
    size s' = size s /\ length (slots s') = length (slots s) /\
    n_cas s' = S (n_cas s) /\
    (forall j, j <> slot -> get_at (slots s') j = get_at (slots s) j).
Proof.
  intros Hslot Hhd C Hk Hfree Hn.
  destruct n as [|n]; [lia|]. cbn [chash_put]. rewrite Hslot. simpl.
  rewrite (chash_put_walk_absent l n s (SlotLink slot) k hd) by (done || lia).
  simpl.
  set (new := next_new s).
  set (s1 := State (size s) (members s) (slots s)
               (<[new := Node None k v]> (nodes s)) (Pos.succ new) (n_cas s)).
  assert (Hnew : new ∉ l).
  { intros Hin. destruct (chain_rep_lookup _ _ _ _ C Hin) as [nd E].
    unfold new in *. rewrite Hfree in E. discriminate. }
  assert (C1 : chain_rep (nodes s1) hd l).
  { apply (chain_rep_ext (nodes s)); [done|]. intros a Ha. simpl.
    apply lookup_insert_ne. intros <-. done. }
  rewrite (last_link_load s1 l (SlotLink slot) hd) by done. simpl.
  eexists. split; [reflexivity|].
  destruct (store_link_appends (count_cas s1) slot hd l new (Node None k v))
    as (hd' & E1 & E2 & E3 & E4 & E5 & E6 & E7 & E8); try done.
  { simpl. apply lookup_insert_eq. }
  split.
  { destruct l as [|a l]; simpl.
    - apply lookup_insert_eq.
    - destruct (last_link_in a l) as (c & -> & Hc). simpl.
      rewrite lookup_alter_ne; [apply lookup_insert_eq|].
      intros ->. done. }
  split; [by exists hd'|].
  repeat split; try done.
Qed.

(** C5 as stated fails: the node of a new key (32) is linked behind the
    node already in the chain, which stays the head of the slot. *)
Lemma chash_put_not_head_cex :
  @chash_put sample_util 4 [] one_key 32 200 =
  Some (false,
        State 1 0 [Some 1%positive]
          {[ 1%positive := Node (Some 2%positive) 16 100;
             2%positive := Node None 32 200 ]} 3%positive 1).
Proof. vm_compute. reflexivity. Qed.

Lemma chash_put_links_at_tail_witness :
  exists s', @chash_put sample_util 4 [] one_key 32 200 = Some (false, s') /\
    nodes s' !! next_new one_key = Some (Node None 32 200) /\
    (exists hd', get_at (slots s') 0 = Some hd' /\
       chain_rep (nodes s') hd' ([1%positive] ++ [next_new one_key]) /\
       (hd' = Some (next_new one_key) <-> [1%positive] = [])) /\
    size s' = size one_key /\ length (slots s') = length (slots one_key) /\
    n_cas s' = S (n_cas one_key) /\
    (forall j, j <> 0 -> get_at (slots s') j = get_at (slots one_key) j).
Proof.
  apply (@chash_put_links_at_tail sample_util 4 one_key 32 200 0
           (Some 1%positive) [1%positive]).
  - reflexivity.
  - reflexivity.
  - econstructor; [reflexivity|]. constructor.
  - intros a nd Ha%list_elem_of_singleton E. subst a.
    vm_compute in E. injection E as <-. simpl. lia.
  - reflexivity.
  - simpl. lia.
Defined.

(** When another thread links a node (key 48) to the same chain between
    the walk and the compare-and-swap, the latter fails, the node is freed
    and the walk starts again: two calls of [atomic_cas], and the new node
    ends up behind the other thread's. *)
Example chash_put_retry :
  @chash_put sample_util 5 [[(48, 300)]] one_key 32 200 =
  Some (false,
        State 1 0 [Some 1%positive]
          {[ 1%positive := Node (Some 3%positive) 16 100;
             3%positive := Node (Some 4%positive) 48 300;
             4%positive := Node None 32 200 ]} 5%positive 2).
Proof. vm_compute. reflexivity. Qed.

(** A key already in the chain only has its value replaced. *)
Example chash_put_existing :
  @chash_put sample_util 4 [] one_key 16 7 =
  Some (true,
        State 1 0 [Some 1%positive] {[ 1%positive := Node None 16 7 ]}
          2%positive 0).
Proof. vm_compute. reflexivity. Qed.

End ChashFacts.

(* --------------------------------------------------------------------- *)
(** ** The diagnostic collector: [error_at] and the hint queue            *)
(* --------------------------------------------------------------------- *)

Module DiagFacts.
Import Util.
Local Open Scope Z_scope.
Import DiagSpec.

Ltac msimpl :=
  repeat (progress (unfold bind, get, ret, emit, set_hints, set_inside,
            incr_n_errors, fmt_loc, errorf, warnf, notef, pop_hint,
            def_error_fn, msg_at; simpl)).

Lemma bind_Return {A B} (m : M A) (k : A -> M B) s a s' :
  m s = Return a s' -> bind m k s = k a s'.
Proof. intros E. unfold bind. by rewrite E. Qed.

Lemma call_error_fn_spec msg l s :
  call_error_fn msg l s = Return tt (with_trace s (trace s ++ error_fn_trace s msg l)).
Proof.
  unfold call_error_fn, error_fn_trace, with_trace.
  destruct s as [ef ms os hs ne ins tr]; simpl.
  destruct ef, ms; msimpl; rewrite <- ?app_assoc; reflexivity.
Qed.

Lemma count_default_nonneg hs : 0 <= count_default hs.
Proof. induction hs as [|h hs IH]; simpl; [lia|]. destruct (is_default h); lia. Qed.

Lemma opt_get_int_spec s u :
  unit_test s u -> opt_get_int "unit-test" s = Return u s.
Proof.
  intros (it & E & K & V). unfold opt_get_int, opt_get_generic, bind, get.
  rewrite E, K, V. reflexivity.
Qed.

Lemma catch_in_unit_test_spec fn l msg s u :
  unit_test s u ->
  (forall m s0, exists e, fn m s0 = Return tt (with_trace s0 (trace s0 ++ [e]))) ->
  exists tl, catch_in_unit_test fn l msg s = Return tt (with_trace s (trace s ++ tl)).
Proof.
  intros Hu Hfn. unfold catch_in_unit_test, bind at 1.
  rewrite (opt_get_int_spec _ _ Hu).
  destruct (negb (u =? 0)).
  - rewrite call_error_fn_spec. eauto.
  - unfold msg_at. destruct s as [ef ms os hs ne ins tr].
    destruct ms; msimpl.
    + destruct (Hfn msg (State ef MESSAGE_FULL os hs ne ins tr)) as [e ->].
      simpl. unfold with_trace; simpl. rewrite <- app_assoc. eauto.
    + destruct (Hfn msg (State ef MESSAGE_COMPACT os hs ne ins (tr ++ [EvLoc (loc_or_invalid l)]))) as [e ->].
      simpl. unfold with_trace; simpl. rewrite <- app_assoc. eauto.
Qed.

Lemma notef_one m s0 : exists e, notef m s0 = Return tt (with_trace s0 (trace s0 ++ [e])).
Proof. eexists. reflexivity. Qed.

Lemma show_hint_inside n s : inside s = true -> show_hint (S n) s = Return tt s.
Proof. intros Hi. cbn [show_hint]. unfold bind, get. by rewrite Hi. Qed.

Lemma unit_test_with_trace s u t : unit_test s u -> unit_test (with_trace s t) u.
Proof. intros (it & ? & ? & ?). by exists it. Qed.

(** [note_at] called from a hint function, that is with [inside] set. *)
Lemma note_at_inside_spec n l msg s u :
  inside s = true -> unit_test s u -> (2 <= n)%nat ->
  exists tl, note_at n l msg s =
    Return tt (State (error_fn s) (message_style s) (options s) (hints s)
                 (if u =? 0 then n_errors s else (n_errors s + 1) mod 2^32)
                 (inside s) (trace s ++ tl)).
Proof.
  intros Hi Hu Hn. destruct n as [|[|n]]; [lia|lia|].
  destruct (catch_in_unit_test_spec notef l msg s u Hu notef_one) as [tl E].
  exists tl. cbn [note_at].
  rewrite (bind_Return _ _ _ _ _ E); cbv beta.
  rewrite (bind_Return _ _ _ _ _ (show_hint_inside n (with_trace s (trace s ++ tl)) Hi)); cbv beta.
  rewrite (bind_Return _ _ _ _ _
             (opt_get_int_spec _ u (unit_test_with_trace _ _ _ Hu))); cbv beta.
  unfold with_trace. destruct (u =? 0); reflexivity.
Qed.

Lemma show_hint_loop_spec hs : forall n s u,
  hints s = hs -> inside s = true -> unit_test s u ->
  0 <= n_errors s < 2^32 ->
  (length hs + 3 <= n)%nat ->
  exists s', show_hint_loop n s = Return tt s' /\
    hints s' = [] /\ inside s' = true /\ options s' = options s /\
    error_fn s' = error_fn s /\ message_style s' = message_style s /\
    (exists tl, trace s' = trace s ++ tl) /\
    n_errors s' =
      (n_errors s + (if u =? 0 then 0 else count_default hs)) mod 2^32.
Proof.
  induction hs as [|h hs IH]; intros n s u Hh Hi Hu Hr Hn.
  - destruct n as [|n]; [simpl in Hn; lia|]. simpl. unfold bind, get. rewrite Hh.
    exists s. unfold ret. repeat split; auto.
    + exists []. by rewrite app_nil_r.
    + replace (if u =? 0 then 0 else 0) with 0 by (by destruct (u =? 0)).
      rewrite Z.add_0_r, Z.mod_small; lia.
  - destruct n as [|n]; [simpl in Hn; lia|]. simpl in Hn.
    cbn [show_hint_loop]. unfold bind at 1, get at 1. rewrite Hh.
    destruct (func h) eqn:Hf.
    + destruct (note_at_inside_spec n (Some (hloc h)) (default "" (str h)) s u
                  Hi Hu ltac:(lia)) as [tl E].
      rewrite (bind_Return _ _ _ _ _ E); cbv beta.
      erewrite bind_Return;
        [|unfold pop_hint, bind, get; cbn [hints]; rewrite Hh; reflexivity].
      cbv beta.
      destruct (IH n (State (error_fn s) (message_style s) (options s) hs
                        (if u =? 0 then n_errors s else (n_errors s + 1) mod 2^32)
                        (inside s) (trace s ++ tl)) u)
        as (s' & E' & H1 & H2 & H3 & H4 & H5 & [tl' H6] & Hne);
        [reflexivity | exact Hi | by destruct Hu as (it & ? & ? & ?); exists it
        | simpl; destruct (u =? 0); [lia | apply Z.mod_pos_bound; lia] | lia |].
      exists s'. split; [exact E'|]. simpl in *. repeat split; auto.
      * exists (tl ++ tl'). by rewrite app_assoc.
      * rewrite Hne. unfold is_default. rewrite Hf.
        destruct (u =? 0); [done|].
        rewrite Zplus_mod_idemp_l. f_equal. lia.
    + erewrite bind_Return; [|reflexivity]. cbv beta.
      erewrite bind_Return;
        [|unfold pop_hint, bind, get; cbn [hints]; rewrite Hh; reflexivity].
      cbv beta.
      destruct (IH n (State (error_fn s) (message_style s) (options s) hs
                        (n_errors s) (inside s)
                        (trace s ++ [EvHintFn id (context h)])) u)
        as (s' & E' & H1 & H2 & H3 & H4 & H5 & [tl' H6] & Hne);
        [reflexivity | exact Hi | by destruct Hu as (it & ? & ? & ?); exists it
        | simpl; lia | lia |].
      exists s'. split; [exact E'|]. simpl in *. repeat split; auto.
      * eexists. rewrite <- app_assoc in H6. exact H6.
      * rewrite Hne. unfold is_default. rewrite Hf. done.
Qed.




(** With "unit-test" at 0 the count grows by exactly one and the hint is
    printed as a note. *)
Example error_at_plain :
  error_at 5 None "bad"
    (State def_error_fn_p MESSAGE_FULL [Opt "unit-test" OPTION_INT 0]
       [Hint (user_hint_fn 4) None 9 LOC_INVALID;
        Hint default_hint_fn_p (Some "hint") 0 (Loc 3 1)] 41 false []) =
  Return tt
    (State def_error_fn_p MESSAGE_FULL [Opt "unit-test" OPTION_INT 0] [] 42
       false
       [EvPrint "Error" "bad"; EvLoc LOC_INVALID; EvHintFn 4 9;
        EvPrint "Note" "hint"; EvLoc (Loc 3 1)]).
Proof. reflexivity. Qed.

(** When the option was never set, reporting a [hint_at] hint ends the
    process in [opt_get_int]. *)
Example error_at_without_option :
  error_at 5 None "bad"
    (State def_error_fn_p MESSAGE_FULL []
       [Hint default_hint_fn_p (Some "hint") 0 (Loc 3 1)] 0 false []) =
  Exit (State def_error_fn_p MESSAGE_FULL []
          [Hint default_hint_fn_p (Some "hint") 0 (Loc 3 1)] 0 true
          [EvPrint "Error" "bad"; EvLoc LOC_INVALID;
           EvPrint "Fatal" "invalid option unit-test"]).
Proof. reflexivity. Qed.

End DiagFacts.

(* --------------------------------------------------------------------- *)
(** ** The VCD writer: time records                                       *)
(* --------------------------------------------------------------------- *)

Module VcdFacts.
Import Vcd.
Local Open Scope Z_scope.
Import VcdSpec.

Lemma time_lines_app l1 l2 : time_lines (l1 ++ l2) = time_lines l1 ++ time_lines l2.
Proof.
  induction l1 as [|[t|d w] l1 IH]; simpl; [done| |done]. by rewrite IH.
Qed.

(** After a callback [last_time] is the time of that callback. *)
Lemma vcd_event_cb_last_time now d w s : last_time (vcd_event_cb now d w s) = now.
Proof.
  unfold vcd_event_cb. destruct (Z.eqb_spec now (last_time s)); simpl; congruence.
Qed.

Lemma vcd_event_cb_file now d w s :
  vcd_file (vcd_event_cb now d w s) =
  vcd_file s ++ (if decide (now = last_time s) then [] else [TimeLine now])
             ++ [ValueLine d w].
Proof.
  unfold vcd_event_cb.
  destruct (Z.eqb_spec now (last_time s)); destruct (decide _); try done; simpl.
  by rewrite <- app_assoc.
Qed.

Lemma run_expected evs : forall s,
  vcd_file (run evs s) = vcd_file s ++ expected (last_time s) evs.
Proof.
  induction evs as [|e evs IH]; intros s.
  - simpl. by rewrite app_nil_r.
  - unfold run. simpl. fold (run evs (vcd_event_cb (ev_now e) (ev_decl e) (ev_watch e) s)).
    rewrite (IH (vcd_event_cb (ev_now e) (ev_decl e) (ev_watch e) s)).
    rewrite vcd_event_cb_last_time, vcd_event_cb_file.
    rewrite <- !app_assoc. done.
Qed.

Lemma adjacent_distinct_cons a l :
  (forall b, head l = Some b -> a <> b) -> adjacent_distinct l ->
  adjacent_distinct (a :: l).
Proof.
  intros Hh Hl [|i] x y; simpl.
  - intros [= <-] E. apply Hh. by destruct l; simplify_eq/=.
  - apply Hl.
Qed.

Lemma expected_adjacent evs : forall prev,
  adjacent_distinct (prev :: time_lines (expected prev evs)).
Proof.
  induction evs as [|e evs IH]; intros prev.
  - simpl. intros [|i] a b; simpl; done.
  - simpl. destruct (decide (ev_now e = prev)) as [->|Hne]; simpl.
    + apply IH.
    + apply adjacent_distinct_cons; [|apply IH].
      simpl. intros b [= <-]. congruence.
Qed.

(** With time moving forward the records are strictly increasing. *)
Lemma expected_increasing evs : forall prev,
  Sorted Z.le (map ev_now evs) ->
  (forall t, In t (map ev_now evs) -> prev <= t) ->
  StronglySorted Z.lt (time_lines (expected prev evs)) /\
  (forall t, In t (time_lines (expected prev evs)) -> prev < t).
Proof.
  induction evs as [|e evs IH]; intros prev Hs Hb.
  - simpl. split; [constructor | done].
  - simpl in Hs. apply Sorted_inv in Hs as [Hs Hh].
    assert (Hall : forall t, In t (map ev_now evs) -> ev_now e <= t).
    { apply Sorted_StronglySorted in Hs; [|intros x y z; lia].
      clear -Hs Hh. intros t Ht.
      destruct (map ev_now evs) as [|x l]; [done|].
      apply HdRel_inv in Hh. apply StronglySorted_inv in Hs as [_ Hx].
      destruct Ht as [<-|Ht]; [done|].
      rewrite List.Forall_forall in Hx. specialize (Hx t). 
      assert (x <= t); [|lia]. by apply Hx. }
    destruct (IH (ev_now e) Hs Hall) as [IH1 IH2].
    assert (Hp : prev <= ev_now e) by (apply Hb; simpl; auto).
    simpl. destruct (decide (ev_now e = prev)) as [E|Hne]; simpl.
    + rewrite <- E. split; [done|]. done.
    + split.
      * constructor; [done|]. apply List.Forall_forall. intros t Ht.
        by apply IH2.
      * intros t [<-|Ht]; [lia|]. specialize (IH2 t Ht). lia.
Qed.

Lemma StronglySorted_lt_NoDup l : StronglySorted Z.lt l -> NoDup l.
Proof.
  induction 1 as [|a l Hs IH Ha]; constructor; [|done].
  intros Hin%list_elem_of_In. rewrite List.Forall_forall in Ha. specialize (Ha a Hin). lia.
Qed.

Lemma expected_NoDup evs prev :
  Sorted Z.le (map ev_now evs) -> NoDup (time_lines (expected prev evs)).
Proof.
  destruct evs as [|e evs]; [constructor|].
  intros Hs. simpl in Hs. pose proof Hs as Hs0.
  apply Sorted_inv in Hs as [Hs Hh].
  assert (Hall : forall t, In t (map ev_now evs) -> ev_now e <= t).
  { apply Sorted_StronglySorted in Hs0; [|intros x y z; lia].
    apply StronglySorted_inv in Hs0 as [_ Hx]. rewrite List.Forall_forall in Hx.
    intros t Ht. by apply Hx. }
  destruct (expected_increasing evs (ev_now e) Hs Hall) as [I1 I2].
  simpl. destruct (decide (ev_now e = prev)); simpl.
  - by apply StronglySorted_lt_NoDup.
  - constructor; [|by apply StronglySorted_lt_NoDup].
    intros Hin%list_elem_of_In. specialize (I2 _ Hin). lia.
Qed.

Lemma written_expected evs s : written evs s = expected (last_time s) evs.
Proof.
  unfold written. rewrite (run_expected evs s).
  by rewrite drop_app_length.
Qed.

(** C8: whatever the callbacks, a '#' line is written exactly by the
    callbacks whose time differs from that of the previous callback, so no
    two consecutive time records carry the same time (the first differs
    from the time of the callback before the run); and with simulation
    time never going back, each time stamp is written at most once. *)
Theorem vcd_time_records evs s :
  written evs s = expected (last_time s) evs /\
  adjacent_distinct (last_time s :: time_lines (written evs s)) /\
  (Sorted Z.le (map ev_now evs) -> NoDup (time_lines (written evs s))).
Proof.
  rewrite written_expected. split; [done|]. split.
  - apply expected_adjacent.
  - apply expected_NoDup.
Qed.

Lemma vcd_time_records_witness :
  NoDup (time_lines (written sample_events initial)).
Proof.
  apply (vcd_time_records sample_events initial).
  simpl. repeat constructor; lia.
Defined.

Example vcd_sample_output :
  vcd_file (run sample_events initial) =
  [TimeLine 10; ValueLine 1 1; ValueLine 2 2; TimeLine 25; ValueLine 1 1].
Proof. reflexivity. Qed.

(** Without monotone time a stamp can be written twice. *)
Example vcd_time_going_back :
  time_lines (vcd_file (run [Event 10 1 1; Event 25 1 1; Event 10 1 1] initial))
  = [10; 25; 10].
Proof. reflexivity. Qed.

End VcdFacts.

(* --------------------------------------------------------------------- *)
(** ** Open addressing: probing and probe sequences                      *)
(* --------------------------------------------------------------------- *)

Module ProbeFacts.
Import Common Probe.
Local Open Scope nat_scope.

Section Probe.
Context {K : Type} `{EqDecision K}.
Variable pos : K -> nat -> nat.
Implicit Types (tab : list (option (K * Z))) (k : K).

Lemma first_hit_unique tab k j1 j2 :
  first_hit pos tab k j1 -> first_hit pos tab k j2 -> j1 = j2.
Proof.
  intros [(s1 & E1 & S1) H1] [(s2 & E2 & S2) H2].
  destruct (Nat.lt_trichotomy j1 j2) as [Hlt|[->|Hlt]]; [|done|].
  - destruct (H2 _ Hlt) as (s & E & S). congruence.
  - destruct (H1 _ Hlt) as (s & E & S). congruence.
Qed.

Lemma first_hit_search tab k : (forall j, pos k j < length tab) ->
  forall j0,
  (exists j, j < j0 /\ first_hit pos tab k j) \/
  (forall j', j' < j0 -> exists s, tab !! pos k j' = Some s /\ stops k s = false).
Proof.
  intros Hin. induction j0 as [|j0 [IH|IH]].
  - right. intros j' Hj'. lia.
  - left. destruct IH as (j & Hj & Hf). exists j. split; [lia|done].
  - destruct (lookup_lt_is_Some_2 tab (pos k j0)) as [s Es]; [apply Hin|].
    destruct (stops k s) eqn:S.
    + left. exists j0. split; [lia|]. split; [eauto | done].
    + right. intros j' Hj'. destruct (decide (j' = j0)) as [->|Hne]; [eauto|].
      apply IH. lia.
Qed.

Lemma first_hit_exists tab k :
  covers pos (length tab) -> (exists q, tab !! q = Some None) ->
  exists j, j < length tab /\ first_hit pos tab k j.
Proof.
  intros [Hin Hcov] [q Eq].
  destruct (Hcov k q) as (j0 & Hj0 & Hq); [by eapply lookup_lt_Some|].
  destruct (first_hit_search tab k (Hin k) j0) as [(j & Hj & Hf)|Hno].
  - exists j. split; [lia | done].
  - exists j0. split; [done|]. split; [|done].
    exists None. by rewrite Hq.
Qed.

(** Keys are stored once. *)
Lemma reach_key_unique tab q1 q2 k v1 v2 :
  reach pos tab -> tab !! q1 = Some (Some (k, v1)) ->
  tab !! q2 = Some (Some (k, v2)) -> q1 = q2.
Proof.
  intros Hr E1 E2.
  destruct (Hr _ _ _ E1) as (j1 & F1 & <-).
  destruct (Hr _ _ _ E2) as (j2 & F2 & <-).
  by rewrite (first_hit_unique _ _ _ _ F1 F2).
Qed.

Lemma lookup_content tab q k v :
  reach pos tab -> tab !! q = Some (Some (k, v)) -> lookup tab k = v.
Proof.
  intros Hr E. unfold lookup.
  destruct (list_find _ tab) as [[q' s]|] eqn:Ef.
  - apply list_find_Some in Ef as (E' & Hk & _).
    destruct s as [[k' v']|]; [|done]. simpl in Hk. simplify_eq.
    pose proof (reach_key_unique _ _ _ _ _ _ Hr E E'). by simplify_eq.
  - apply list_find_None in Ef. rewrite Forall_forall in Ef.
    exfalso. apply (Ef (Some (k, v))); [|done].
    by eapply list_elem_of_lookup_2.
Qed.

Lemma lookup_absent tab k :
  (forall q v, tab !! q <> Some (Some (k, v))) -> lookup tab k = 0%Z.
Proof.
  intros Hno. unfold lookup.
  destruct (list_find _ tab) as [[q' s]|] eqn:Ef; [|done].
  apply list_find_Some in Ef as (E' & Hk & _).
  destruct s as [[k' v']|]; [|done]. simpl in Hk. simplify_eq.
  by destruct (Hno q' v').
Qed.

(** What probing finds is what the table holds. *)
Lemma first_hit_lookup tab k j s :
  reach pos tab -> first_hit pos tab k j -> tab !! pos k j = Some s ->
  lookup tab k = match s with Some (_, v) => v | None => 0%Z end.
Proof.
  intros Hr Hf E. destruct s as [[k' v]|].
  - destruct Hf as [(s & E' & S) _]. rewrite E in E'. simplify_eq. simpl in S.
    apply bool_decide_eq_true in S as ->. by eapply lookup_content.
  - apply lookup_absent. intros q v Eq.
    destruct (Hr _ _ _ Eq) as (j2 & F2 & <-).
    rewrite (first_hit_unique _ _ _ _ F2 Hf) in Eq. congruence.
Qed.

(** Storing [(k, v)] where probing for [k] stops. *)
Lemma put_reach tab k v j :
  reach pos tab -> first_hit pos tab k j ->
  reach pos (<[pos k j := Some (k, v)]> tab).
Proof.
  intros Hr Hf q k' v' Eq.
  pose proof Hf as [(s & Es & Ss) Hbefore].
  assert (Hlt : pos k j < length tab) by by eapply lookup_lt_Some.
  destruct (decide (q = pos k j)) as [->|Hq].
  - rewrite list_lookup_insert_eq in Eq by done.
    assert (k' = k /\ v' = v) as [-> ->] by (by simplify_eq). clear Eq.
    exists j. split; [|done]. split.
    + exists (Some (k, v)). rewrite list_lookup_insert_eq by done.
      split; [done|]. simpl. by apply bool_decide_eq_true.
    + intros j' Hj'. destruct (Hbefore _ Hj') as (s' & Es' & Ss').
      exists s'. split; [|done]. rewrite list_lookup_insert_ne; [done|].
      intros Heq. rewrite <- Heq in Es'. congruence.
  - rewrite list_lookup_insert_ne in Eq by done.
    assert (Hk : k' <> k).
    { intros ->. destruct (Hr _ _ _ Eq) as (j2 & F2 & <-).
      by rewrite (first_hit_unique _ _ _ _ F2 Hf) in Hq. }
    destruct (Hr _ _ _ Eq) as (j2 & [(s2 & Es2 & Ss2) Hb2] & Hp).
    exists j2. split; [|done]. split.
    + exists s2. split; [|done]. rewrite list_lookup_insert_ne; [done|].
      by rewrite Hp.
    + intros j' Hj'. destruct (Hb2 _ Hj') as (s' & Es' & Ss').
      destruct (decide (pos k' j' = pos k j)) as [Heq|Hne].
      * exists (Some (k, v)). rewrite Heq, list_lookup_insert_eq by done.
        split; [done|]. simpl. by apply bool_decide_eq_false.
      * exists s'. by rewrite list_lookup_insert_ne.
Qed.

Lemma put_lookup tab k v j k' :
  reach pos tab -> first_hit pos tab k j ->
  lookup (<[pos k j := Some (k, v)]> tab) k'
  = if decide (k' = k) then v else lookup tab k'.
Proof.
  intros Hr Hf. pose proof (put_reach _ _ v _ Hr Hf) as Hr'.
  pose proof Hf as [(s & Es & Ss) Hbefore].
  assert (Hlt : pos k j < length tab) by by eapply lookup_lt_Some.
  destruct (decide (k' = k)) as [->|Hk].
  - apply (lookup_content _ (pos k j)); [done|].
    by rewrite list_lookup_insert_eq.
  - unfold lookup at 2.
    destruct (list_find _ tab) as [[q s']|] eqn:Ef.
    + apply list_find_Some in Ef as (E' & Hk' & _).
      destruct s' as [[k2 v2]|]; [|done]. simpl in Hk'. simplify_eq.
      apply (lookup_content _ q); [done|].
      rewrite list_lookup_insert_ne; [done|].
      intros <-. rewrite E' in Es. simplify_eq. simpl in Ss.
      by apply bool_decide_eq_true in Ss.
    + apply lookup_absent. intros q v2 Eq.
      destruct (decide (q = pos k j)) as [->|Hq].
      * rewrite list_lookup_insert_eq in Eq by done. by simplify_eq.
      * rewrite list_lookup_insert_ne in Eq by done.
        apply list_find_None in Ef. rewrite Forall_forall in Ef.
        apply (Ef (Some (k', v2))); [|done]. by eapply list_elem_of_lookup_2.
Qed.

(** Replacing the value of a stored key keeps every key in place. *)
Lemma set_value_reach tab q k v v' :
  reach pos tab -> tab !! q = Some (Some (k, v)) ->
  reach pos (<[q := Some (k, v')]> tab).
Proof.
  intros Hr E. destruct (Hr _ _ _ E) as (j & Hf & <-).
  by apply put_reach.
Qed.

Lemma reach_replicate n : reach pos (replicate n None).
Proof. intros q k v E. apply lookup_replicate in E as [? _]. done. Qed.

Lemma lookup_empty n k : lookup (replicate n (@None (K * Z))) k = 0%Z.
Proof.
  apply lookup_absent. intros q v E. apply lookup_replicate in E as [? _]. done.
Qed.

(** Counting occupied slots. *)
Lemma occ_app tab1 tab2 : occ (tab1 ++ tab2) = occ tab1 + occ tab2.
Proof. unfold occ. by rewrite filter_app, length_app. Qed.

Lemma occ_le tab : occ tab <= length tab.
Proof. unfold occ. apply length_filter. Qed.

Lemma occ_replicate n : occ (replicate n (@None (K * Z))) = 0.
Proof.
  unfold occ. induction n as [|n IH]; [done|]. simpl.
  rewrite filter_cons_False; [done|]. by intros [? ?].
Qed.

Lemma occ_insert tab q x (s : option (K * Z)) :
  tab !! q = Some s ->
  occ (<[q := Some x]> tab)
  = match s with Some _ => occ tab | None => S (occ tab) end.
Proof.
  intros E.
  rewrite insert_take_drop by by eapply lookup_lt_Some.
  replace (occ tab) with (occ (take q tab ++ s :: drop (S q) tab))
    by (by rewrite take_drop_middle).
  rewrite !occ_app.
  assert (Hc : forall (y : option (K * Z)) l,
             occ (y :: l) = (if y is Some _ then 1 else 0) + occ l).
  { intros y l. unfold occ. rewrite filter_cons. destruct y.
    - by rewrite decide_True by eauto.
    - by rewrite decide_False by (by intros [? ?]). }
  rewrite !Hc. destruct s; lia.
Qed.

Lemma occ_lt_empty tab : occ tab < length tab -> exists q, tab !! q = Some None.
Proof.
  induction tab as [|s tab IH]; simpl; [lia|].
  unfold occ. rewrite filter_cons. destruct s as [x|].
  - rewrite decide_True by eauto. simpl. intros Hlt.
    destruct IH as [q Eq]; [unfold occ; lia|]. by exists (S q).
  - intros _. by exists 0.
Qed.

Lemma occ_take_le tab i : occ (take i tab) <= occ tab.
Proof.
  rewrite <- (take_drop i tab) at 2. rewrite occ_app. lia.
Qed.

(** [lookup] on a table grown by one slot. *)
Lemma lookup_snoc tab s k :
  lookup (tab ++ [s]) k =
  match list_find (fun s => fst <$> s = Some k) tab with
  | Some _ => lookup tab k
  | None => match s with
            | Some (k', v) => if decide (k' = k) then v else 0%Z
            | None => 0%Z
            end
  end.
Proof.
  unfold lookup.
  destruct (list_find _ tab) as [[q s']|] eqn:Ef; simpl.
  - by rewrite (list_find_app_l _ _ _ _ _ Ef).
  - rewrite (list_find_app_r _ _ _ Ef). simpl.
    destruct s as [[k' v]|]; simpl; repeat case_decide; by simplify_eq.
Qed.

End Probe.

Section Check.
Context {K : Type} `{EqDecision K}.
Variable pos : K -> nat -> nat.
Implicit Types (tab : list (option (K * Z))) (k : K).

Lemma first_hit_check_sound tab k j :
  first_hit_check pos tab k j = true -> first_hit pos tab k j.
Proof.
  unfold first_hit_check. intros [Hj Hbefore]%andb_true_iff. split.
  - destruct (tab !! pos k j) as [s|]; [by exists s | done].
  - intros j' Hj'. rewrite List.forallb_forall in Hbefore.
    specialize (Hbefore j'). rewrite List.in_seq in Hbefore.
    specialize (Hbefore ltac:(lia)).
    destruct (tab !! pos k j') as [s|]; [|done].
    exists s. split; [done|]. by apply negb_true_iff.
Qed.

Lemma reach_check_sound tab : reach_check pos tab = true -> reach pos tab.
Proof.
  unfold reach_check. rewrite List.forallb_forall. intros Hc q k v E.
  specialize (Hc q). rewrite List.in_seq in Hc.
  pose proof (lookup_lt_Some _ _ _ E) as Hq.
  specialize (Hc ltac:(lia)). rewrite E in Hc.
  apply List.existsb_exists in Hc as (j & _ & [Hpos Hf]%andb_true_iff).
  exists j. split; [by apply first_hit_check_sound | by apply Nat.eqb_eq].
Qed.

End Check.

End ProbeFacts.

Module SeqFacts.
Import Common Probe.
Local Open Scope Z_scope.

Lemma tri_double j : 2 * tri j = j * (j + 1).
Proof.
  unfold tri. assert (H : (j * (j + 1)) mod 2 = 0).
  { rewrite Z.mul_mod by lia.
    destruct (Z.mod_pos_bound j 2 ltac:(lia)) as [? ?].
    assert (Hc : j mod 2 = 0 \/ j mod 2 = 1) by lia.
    rewrite Z.add_mod by lia. destruct Hc as [->| ->]; reflexivity. }
  pose proof (Z.div_mod (j * (j + 1)) 2 ltac:(lia)). lia.
Qed.

Lemma tri_succ j : tri (j + 1) = tri j + (j + 1).
Proof. pose proof (tri_double j). pose proof (tri_double (j + 1)). lia. Qed.

Lemma tri_0 : tri 0 = 0.
Proof. reflexivity. Qed.

Lemma pow2_divide_odd m : 0 <= m -> forall a b,
  Z.odd b = true -> (2 ^ m | a * b) -> (2 ^ m | a).
Proof.
  intros Hm. pattern m. apply natlike_ind; [| |done]; clear m Hm.
  - intros a b _ _. apply Z.divide_1_l.
  - intros m Hm IH a b Hb [c Hc]. rewrite Z.pow_succ_r in * by done.
    assert (Ha : Z.even a = true).
    { destruct (Z.even a) eqn:Ea; [done|].
      assert (Ho : Z.odd (a * b) = true).
      { rewrite Z.odd_mul, Hb, <- Z.negb_even, Ea. done. }
      rewrite Hc in Ho. rewrite Z.odd_mul in Ho.
      replace (Z.odd (2 * 2 ^ m)) with false in Ho.
      - by rewrite andb_false_r in Ho.
      - symmetry. rewrite Z.odd_mul. done. }
    apply Z.even_spec in Ha as [a' ->].
    destruct (IH a' b Hb) as [d Hd].
    + exists c. lia.
    + exists d. lia.
Qed.

(** Distinct steps below [2^p] give offsets that differ modulo [2^p]. *)
Lemma tri_injective p i j :
  0 <= p -> 0 <= i < j -> j < 2 ^ p -> (tri j - tri i) mod 2 ^ p <> 0.
Proof.
  intros Hp Hij Hj Hmod.
  assert (Hpos : 0 < 2 ^ p) by (apply Z.pow_pos_nonneg; lia).
  apply Z.mod_divide in Hmod; [|lia]. destruct Hmod as [c Hc].
  assert (Hd : (2 ^ (p + 1) | (j - i) * (i + j + 1))).
  { exists c. rewrite Z.pow_add_r by lia.
    pose proof (tri_double i). pose proof (tri_double j). lia. }
  destruct (Z.odd (i + j + 1)) eqn:Ho.
  - apply pow2_divide_odd in Hd; [|lia|done].
    apply Z.divide_pos_le in Hd; [|lia].
    rewrite Z.pow_add_r in Hd by lia. lia.
  - assert (Ho' : Z.odd (j - i) = true).
    { pose proof (Zmod_odd (i + j + 1)) as H1. rewrite Ho in H1.
      pose proof (Zmod_odd (j - i)) as H2.
      destruct (Z.odd (j - i)); [done|].
      pose proof (Z.div_mod (i + j + 1) 2 ltac:(lia)).
      pose proof (Z.div_mod (j - i) 2 ltac:(lia)). lia. }
    rewrite Z.mul_comm in Hd.
    apply pow2_divide_odd in Hd; [|lia|done].
    apply Z.divide_pos_le in Hd; [|lia].
    rewrite Z.pow_add_r in Hd by lia. lia.
Qed.

Lemma covers_of_injective {K} (pos : K -> nat -> nat) (n : nat) :
  (forall k j, (pos k j < n)%nat) ->
  (forall k i j, (i < n)%nat -> (j < n)%nat -> pos k i = pos k j -> i = j) ->
  covers pos n.
Proof.
  intros Hin Hinj. split; [done|]. intros k q Hq.
  assert (Hnd : NoDup (pos k <$> seq 0 n)).
  { apply NoDup_fmap_2_strong; [|apply NoDup_seq].
    intros i j Hi%elem_of_seq Hj%elem_of_seq. apply Hinj; lia. }
  assert (Hsub : pos k <$> seq 0 n ⊆+ seq 0 n).
  { apply NoDup_submseteq; [done|]. intros x (j & -> & _)%list_elem_of_fmap.
    apply elem_of_seq. split; [lia|apply Hin]. }
  apply submseteq_length_Permutation in Hsub;
    [|by rewrite length_fmap].
  assert (Hin' : q ∈ pos k <$> seq 0 n).
  { rewrite Hsub. apply elem_of_seq. lia. }
  apply list_elem_of_fmap in Hin' as (j & -> & Hj%elem_of_seq).
  exists j. split; [lia|done].
Qed.

Lemma pos_quadratic_covers {K} (start : K -> Z) p :
  0 <= p ->
  covers (pos_quadratic start (2 ^ p)) (Z.to_nat (2 ^ p)).
Proof.
  intros Hp. assert (Hpos : 0 < 2 ^ p) by (apply Z.pow_pos_nonneg; lia).
  apply covers_of_injective.
  - intros k j. unfold pos_quadratic.
    pose proof (Z.mod_pos_bound (start k + tri (Z.of_nat j)) (2 ^ p) Hpos). lia.
  - intros k i j Hi Hj E. unfold pos_quadratic in E.
    apply Z2Nat.inj in E;
      [|apply Z.mod_pos_bound; lia|apply Z.mod_pos_bound; lia].
    assert (Hm : forall a b, (start k + a) mod 2 ^ p = (start k + b) mod 2 ^ p ->
                 (b - a) mod 2 ^ p = 0).
    { intros a b Hab.
      replace (b - a) with ((start k + b) - (start k + a)) by lia.
      rewrite Zminus_mod, Hab, Z.sub_diag. done. }
    destruct (Nat.lt_trichotomy i j) as [Hlt|[->|Hlt]]; [|done|].
    + exfalso. apply (tri_injective p (Z.of_nat i) (Z.of_nat j)); [lia|lia|lia|].
      by apply Hm.
    + exfalso. apply (tri_injective p (Z.of_nat j) (Z.of_nat i)); [lia|lia|lia|].
      by apply Hm.
Qed.

Lemma pos_linear_covers {K} (start : K -> Z) size :
  0 < size -> covers (pos_linear start size) (Z.to_nat size).
Proof.
  intros Hpos. apply covers_of_injective.
  - intros k j. unfold pos_linear.
    pose proof (Z.mod_pos_bound (start k + Z.of_nat j) size Hpos). lia.
  - intros k i j Hi Hj E. unfold pos_linear in E.
    apply Z2Nat.inj in E;
      [|apply Z.mod_pos_bound; lia|apply Z.mod_pos_bound; lia].
    assert (Hm : (Z.of_nat j - Z.of_nat i) mod size = 0).
    { replace (Z.of_nat j - Z.of_nat i)
        with ((start k + Z.of_nat j) - (start k + Z.of_nat i)) by lia.
      rewrite Zminus_mod, E, Z.sub_diag. done. }
    apply Z.mod_divide in Hm; [|lia]. destruct Hm as [c Hc].
    assert (c = 0) by nia. lia.
Qed.

(** Masking with [size - 1] is the remainder modulo a power of two. *)
Lemma land_mask x p : 0 <= p -> Z.land x (2 ^ p - 1) = x mod 2 ^ p.
Proof.
  intros Hp. rewrite <- Z.land_ones by done. by rewrite Z.ones_equiv, Z.sub_1_r.
Qed.

Lemma get_at_nat {A} (l : list A) (q : nat) : get_at l (Z.of_nat q) = l !! q.
Proof.
  unfold get_at. rewrite (proj2 (Z.leb_le 0 (Z.of_nat q))) by lia.
  by rewrite Nat2Z.id.
Qed.

Lemma set_at_nat {A} (l : list A) (q : nat) x : set_at l (Z.of_nat q) x = <[q := x]> l.
Proof. unfold set_at. by rewrite Nat2Z.id. Qed.

Lemma to_unsigned_small x : 0 <= x < 2 ^ 32 -> to_unsigned x = x.
Proof. intros. unfold to_unsigned. by apply Z.mod_small. Qed.

Lemma to_int_small x : 0 <= x < 2 ^ 31 -> to_int x = x.
Proof.
  intros. unfold to_int. rewrite Z.mod_small by lia.
  by rewrite (proj2 (Z.ltb_lt x (2 ^ 31))) by lia.
Qed.

Lemma pow2_bounds p : 0 <= p <= 31 -> 1 <= 2 ^ p <= 2 ^ 31.
Proof.
  intros Hp. split.
  - pose proof (Z.pow_pos_nonneg 2 p). lia.
  - apply Z.pow_le_mono_r; lia.
Qed.

Lemma half_lt x : 1 <= x -> x / 2 < x.
Proof. intros. apply Z.div_lt; lia. Qed.

End SeqFacts.

(* --------------------------------------------------------------------- *)
(** ** The pointer hash refines a map                                    *)
(* --------------------------------------------------------------------- *)

Module PtrFacts.
Import Common Hash Hash.Ptr Probe ProbeFacts SeqFacts PtrSpec.
Local Open Scope Z_scope.

Section Ptr.
Context `{Util}.

Lemma slots_lookup h q k v :
  keys h !! q = Some k -> values h !! q = Some v ->
  slots h !! q = Some (if k =? NULL then None else Some (k, v)).
Proof. intros Ek Ev. unfold slots. by rewrite lookup_zip_with, Ek, Ev. Qed.

Lemma slots_lookup_inv h q s :
  slots h !! q = Some s ->
  exists k v, keys h !! q = Some k /\ values h !! q = Some v /\
              s = if k =? NULL then None else Some (k, v).
Proof.
  unfold slots. rewrite lookup_zip_with. intros E.
  destruct (keys h !! q) as [k|]; [simpl in E|done].
  destruct (values h !! q) as [v|]; [simpl in E|done].
  exists k, v. by simplify_eq.
Qed.

Lemma slots_length h :
  length (keys h) = length (values h) -> length (slots h) = length (keys h).
Proof. intros E. unfold slots. rewrite length_zip_with. lia. Qed.

Lemma slots_set_value h q k v v' :
  keys h !! q = Some k -> values h !! q = Some v -> k <> NULL ->
  slots (Hash (size h) (members h) (<[q := v']> (values h)) (keys h))
  = <[q := Some (k, v')]> (slots h).
Proof.
  intros Ek Ev Hk. unfold slots. simpl.
  rewrite <- (list_insert_id (keys h) q k) at 1 by done.
  rewrite <- (insert_zip_with (fun k v => if k =? NULL then None else Some (k, v))).
  apply Z.eqb_neq in Hk. by rewrite Hk.
Qed.

Lemma slots_set_both h q k v m :
  k <> NULL ->
  slots (Hash (size h) m (<[q := v]> (values h)) (<[q := k]> (keys h)))
  = <[q := Some (k, v)]> (slots h).
Proof.
  intros Hk. unfold slots. simpl.
  rewrite <- (insert_zip_with (fun k v => if k =? NULL then None else Some (k, v))).
  apply Z.eqb_neq in Hk. by rewrite Hk.
Qed.

(** The next slot of the loops is the next step of the probe sequence. *)
Lemma next_slot p key (j : nat) :
  0 <= p <= 31 ->
  Z.land (Z.of_nat (pos (2 ^ p) key j) + (Z.of_nat j + 1))
    (to_unsigned (2 ^ p - 1))
  = Z.of_nat (pos (2 ^ p) key (S j)).
Proof.
  intros Hp. pose proof (pow2_bounds p Hp).
  rewrite to_unsigned_small by lia. rewrite land_mask by lia.
  unfold pos, pos_quadratic.
  rewrite !Z2Nat.id by (apply Z.mod_pos_bound; lia).
  rewrite Zplus_mod_idemp_l. f_equal.
  rewrite Nat2Z.inj_succ, <- Z.add_1_r, tri_succ. lia.
Qed.

Lemma first_slot p key :
  0 <= p <= 31 ->
  Z.land (mix_bits_64 key) (to_unsigned (2 ^ p - 1))
  = Z.of_nat (pos (2 ^ p) key 0).
Proof.
  intros Hp. pose proof (pow2_bounds p Hp).
  rewrite to_unsigned_small by lia.
  unfold pos, pos_quadratic, start. change (Z.of_nat 0) with 0.
  rewrite tri_0, Z.add_0_r.
  rewrite !land_mask by lia. rewrite Zmod_mod.
  rewrite Z2Nat.id by (apply Z.mod_pos_bound; lia). done.
Qed.

(** What a probing loop sees at a step: the key and value of the slot,
    and whether probing for [key] stops there. *)
Lemma probe_step h key (j : nat) :
  key <> NULL ->
  forall s, slots h !! pos (size h) key j = Some s ->
  exists k v, get_at (keys h) (Z.of_nat (pos (size h) key j)) = Some k /\
    get_at (values h) (Z.of_nat (pos (size h) key j)) = Some v /\
    s = (if k =? NULL then None else Some (k, v)) /\
    (stops key s = true -> k = key \/ k = NULL) /\
    (stops key s = false -> k <> key /\ k <> NULL).
Proof.
  intros Hkey s Es. apply slots_lookup_inv in Es as (k & v & Ek & Ev & ->).
  exists k, v. rewrite !get_at_nat.
  split; [done|]. split; [done|]. split; [done|].
  destruct (Z.eqb_spec k NULL) as [->|Hk]; simpl.
  - split; [auto | done].
  - split.
    + intros ?%bool_decide_eq_true. auto.
    + intros ?%bool_decide_eq_false. done.
Qed.

Lemma hash_put_loop_spec h p key value :
  size h = 2 ^ p -> 0 <= p <= 31 -> key <> NULL ->
  forall d j fuel,
  first_hit (pos (size h)) (slots h) key (j + d) -> (d < fuel)%nat ->
  exists k v,
    keys h !! pos (size h) key (j + d) = Some k /\
    values h !! pos (size h) key (j + d) = Some v /\
    (k = key \/ k = NULL) /\
    hash_put_loop fuel h key value (Z.of_nat (pos (size h) key j))
      (Z.of_nat j + 1)
    = Some (if k =? key
            then (true, Hash (size h) (members h)
                          (<[pos (size h) key (j + d) := value]> (values h))
                          (keys h))
            else (false, Hash (size h) (to_unsigned (members h + 1))
                           (<[pos (size h) key (j + d) := value]> (values h))
                           (<[pos (size h) key (j + d) := key]> (keys h)))).
Proof.
  intros Hsz Hp Hkey. induction d as [|d IH]; intros j fuel Hf Hfuel;
    (destruct fuel as [|fuel]; [lia|]); cbn [hash_put_loop].
  - rewrite Nat.add_0_r in *. destruct Hf as [(s & Es & Ss) _].
    destruct (probe_step h key j Hkey s Es) as (k & v & Ek & Ev & -> & Hs & _).
    exists k, v. rewrite <- !get_at_nat. rewrite Ek. simpl.
    split; [done|]. split; [done|]. split; [auto|].
    rewrite !set_at_nat.
    destruct (Z.eqb_spec k key); [done|].
    destruct (Hs Ss) as [?| ->]; [done|]. done.
  - pose proof Hf as [_ Hbefore].
    destruct (Hbefore j ltac:(lia)) as (s & Es & Ss).
    destruct (probe_step h key j Hkey s Es) as (k & v & Ek & Ev & -> & _ & Hs).
    destruct (Hs Ss) as [Hk1 Hk2].
    rewrite Ek. simpl.
    rewrite (proj2 (Z.eqb_neq k key)) by done.
    rewrite (proj2 (Z.eqb_neq k NULL)) by done.
    rewrite Hsz, next_slot by done. rewrite <- Hsz.
    replace (Z.of_nat j + 1 + 1) with (Z.of_nat (S j) + 1) by lia.
    replace (j + S d)%nat with (S j + d)%nat in * by lia.
    apply IH; [done|lia].
Qed.

Lemma hash_get_loop_spec h p key :
  size h = 2 ^ p -> 0 <= p <= 31 -> key <> NULL ->
  forall d j fuel,
  first_hit (pos (size h)) (slots h) key (j + d) -> (d < fuel)%nat ->
  exists s, slots h !! pos (size h) key (j + d) = Some s /\
    hash_get_loop fuel h key (Z.of_nat (pos (size h) key j)) (Z.of_nat j + 1)
    = Some (match s with Some (_, v) => v | None => NULL end).
Proof.
  intros Hsz Hp Hkey. induction d as [|d IH]; intros j fuel Hf Hfuel;
    (destruct fuel as [|fuel]; [lia|]); cbn [hash_get_loop].
  - rewrite Nat.add_0_r in *. destruct Hf as [(s & Es & Ss) _].
    destruct (probe_step h key j Hkey s Es) as (k & v & Ek & Ev & -> & Hs & _).
    eexists. split; [exact Es|]. rewrite Ek. simpl.
    destruct (Z.eqb_spec k key) as [->|Hne].
    + rewrite (proj2 (Z.eqb_neq key NULL)) by done. done.
    + destruct (Hs Ss) as [?| ->]; [done|]. done.
  - pose proof Hf as [_ Hbefore].
    destruct (Hbefore j ltac:(lia)) as (s & Es & Ss).
    destruct (probe_step h key j Hkey s Es) as (k & v & Ek & Ev & -> & _ & Hs).
    destruct (Hs Ss) as [Hk1 Hk2].
    rewrite Ek. simpl.
    rewrite (proj2 (Z.eqb_neq k key)) by done.
    rewrite (proj2 (Z.eqb_neq k NULL)) by done.
    rewrite Hsz, next_slot by done. rewrite <- Hsz.
    replace (Z.of_nat j + 1 + 1) with (Z.of_nat (S j) + 1) by lia.
    replace (j + S d)%nat with (S j + d)%nat in * by lia.
    apply IH; [done|lia].
Qed.

Lemma hash_delete_loop_spec h p key :
  size h = 2 ^ p -> 0 <= p <= 31 -> key <> NULL ->
  forall d j fuel,
  first_hit (pos (size h)) (slots h) key (j + d) -> (d < fuel)%nat ->
  exists k v,
    keys h !! pos (size h) key (j + d) = Some k /\
    values h !! pos (size h) key (j + d) = Some v /\
    (k = key \/ k = NULL) /\
    hash_delete_loop fuel h key (Z.of_nat (pos (size h) key j))
      (Z.of_nat j + 1)
    = Some (if k =? key
            then Hash (size h) (members h)
                   (<[pos (size h) key (j + d) := NULL]> (values h)) (keys h)
            else h).
Proof.
  intros Hsz Hp Hkey. induction d as [|d IH]; intros j fuel Hf Hfuel;
    (destruct fuel as [|fuel]; [lia|]); cbn [hash_delete_loop].
  - rewrite Nat.add_0_r in *. destruct Hf as [(s & Es & Ss) _].
    destruct (probe_step h key j Hkey s Es) as (k & v & Ek & Ev & -> & Hs & _).
    exists k, v. rewrite <- !get_at_nat. rewrite Ek. simpl.
    split; [done|]. split; [done|]. split; [auto|].
    rewrite !set_at_nat.
    destruct (Z.eqb_spec k key); [done|].
    destruct (Hs Ss) as [?| ->]; [done|]. done.
  - pose proof Hf as [_ Hbefore].
    destruct (Hbefore j ltac:(lia)) as (s & Es & Ss).
    destruct (probe_step h key j Hkey s Es) as (k & v & Ek & Ev & -> & _ & Hs).
    destruct (Hs Ss) as [Hk1 Hk2].
    rewrite Ek. simpl.
    rewrite (proj2 (Z.eqb_neq k key)) by done.
    rewrite (proj2 (Z.eqb_neq k NULL)) by done.
    rewrite Hsz, next_slot by done. rewrite <- Hsz.
    replace (Z.of_nat j + 1 + 1) with (Z.of_nat (S j) + 1) by lia.
    replace (j + S d)%nat with (S j + d)%nat in * by lia.
    apply IH; [done|lia].
Qed.

Lemma wf0_slots_length h : wf0 h -> length (slots h) = Z.to_nat (size h).
Proof. intros (_ & Hk & Hv & _). rewrite slots_length; lia. Qed.

Lemma wf0_covers h :
  wf0 h -> covers (pos (size h)) (length (slots h)).
Proof.
  intros Hwf. rewrite (wf0_slots_length h Hwf).
  destruct Hwf as ((p & Hp & ->) & _).
  apply pos_quadratic_covers. lia.
Qed.

(** With a free slot, probing for any key stops within [size] steps. *)
Lemma wf0_first_hit h key :
  wf0 h -> members h < size h ->
  exists j, (j < Z.to_nat (size h))%nat /\
            first_hit (pos (size h)) (slots h) key j.
Proof.
  intros Hwf Hroom. rewrite <- (wf0_slots_length h Hwf).
  apply first_hit_exists; [by apply wf0_covers|].
  apply occ_lt_empty. rewrite (wf0_slots_length h Hwf).
  destruct Hwf as (_ & _ & _ & Hm & _). lia.
Qed.

Lemma hash_slot_spec h key :
  wf0 h -> key <> NULL ->
  hash_slot (size h) key = Some (Z.of_nat (pos (size h) key 0)).
Proof.
  intros ((p & Hp & Hsz) & _) Hkey. unfold hash_slot.
  rewrite (proj2 (Z.eqb_neq key NULL)) by done.
  by rewrite Hsz, first_slot.
Qed.

(** The probing phase of [hash_put]: the binding is stored where probing
    stops; the other keys keep their values. *)
Lemma insert_spec h key value fuel :
  wf0 h -> members h < size h -> key <> NULL ->
  (Z.to_nat (size h) <= fuel)%nat ->
  exists b h',
    hash_put_loop fuel h key value (Z.of_nat (pos (size h) key 0)) 1
      = Some (b, h') /\
    wf0 h' /\ size h' = size h /\
    members h <= members h' <= members h + 1 /\
    (forall k', lookup (slots h') k'
                = if decide (k' = key) then value else lookup (slots h) k').
Proof.
  intros Hwf Hroom Hkey Hfuel.
  destruct (wf0_first_hit h key Hwf Hroom) as (j & Hj & Hf).
  pose proof Hwf as ((p & Hp & Hsz) & Hlk & Hlv & Hm & Hr).
  destruct (hash_put_loop_spec h p key value Hsz Hp Hkey j 0%nat fuel)
    as (k & v & Ek & Ev & Hk & E); [done|lia|].
  change (Z.of_nat 0 + 1) with 1 in E. change (0 + j)%nat with j in *.
  rewrite E. clear E.
  pose proof (pow2_bounds p Hp) as Hb.
  assert (Hs : slots h !! pos (size h) key j
               = Some (if k =? NULL then None else Some (k, v)))
    by by apply slots_lookup.
  destruct (Z.eqb_spec k key) as [->|Hne].
  - eexists _, _. split; [done|].
    assert (Hsl := slots_set_value h _ _ _ value Ek Ev Hkey).
    rewrite (proj2 (Z.eqb_neq key NULL)) in Hs by done.
    split; [|split; [done|split; [simpl; lia|]]].
    + split; [by exists p|]. simpl. rewrite length_insert.
      split; [done|]. split; [done|]. rewrite Hsl.
      split; [|by apply put_reach].
      by rewrite (occ_insert _ _ _ _ Hs).
    + intros k'. rewrite Hsl. by apply put_lookup.
  - destruct Hk as [?| ->]; [done|].
    assert (Hsl := slots_set_both h (pos (size h) key j) key value
                     (to_unsigned (members h + 1)) Hkey).
    simpl in Hs.
    assert (Hocc := occ_insert (slots h) _ (key, value) _ Hs). simpl in Hocc.
    assert (Hmem : to_unsigned (members h + 1) = members h + 1).
    { apply to_unsigned_small. lia. }
    eexists _, _. split; [done|].
    split; [|split; [done|split; [simpl; lia|]]].
    + split; [by exists p|]. simpl. rewrite !length_insert.
      split; [done|]. split; [done|]. rewrite Hsl, Hocc, Hmem.
      split; [lia | by apply put_reach].
    + intros k'. rewrite Hsl. by apply put_lookup.
Qed.

(** [hash_get] returns the value the table holds for the key. *)
Lemma hash_get_spec h key fuel :
  wf0 h -> members h < size h -> key <> NULL ->
  (Z.to_nat (size h) <= fuel)%nat ->
  hash_get fuel h key = Some (lookup (slots h) key).
Proof.
  intros Hwf Hroom Hkey Hfuel.
  destruct (wf0_first_hit h key Hwf Hroom) as (j & Hj & Hf).
  pose proof Hwf as ((p & Hp & Hsz) & Hlk & Hlv & Hm & Hr).
  unfold hash_get. rewrite (hash_slot_spec h key Hwf Hkey). simpl.
  destruct (hash_get_loop_spec h p key Hsz Hp Hkey j 0%nat fuel)
    as (s & Es & E); [done|lia|].
  change (Z.of_nat 0 + 1) with 1 in E. change (0 + j)%nat with j in *.
  rewrite E. f_equal. symmetry.
  by apply (first_hit_lookup (pos (size h)) _ _ j).
Qed.

Lemma slots_replicate sz m :
  slots (Hash sz m (replicate (Z.to_nat sz) NULL) (replicate (Z.to_nat sz) NULL))
  = replicate (Z.to_nat sz) None.
Proof.
  unfold slots. simpl. induction (Z.to_nat sz) as [|n IH]; [done|].
  simpl. by rewrite IH.
Qed.

Lemma rehash_body_eq n old i h :
  rehash_body n old i h
  = (k ← get_at (keys old) i;
     if negb (k =? NULL) then
       v ← get_at (values old) i; snd <$> hash_put n h k v
     else Some h).
Proof. reflexivity. Qed.

Lemma hash_put_noresize n h key value :
  members h < size h / 2 ->
  hash_put (S n) h key value
  = (slot ← hash_slot (size h) key; hash_put_loop n h key value slot 1).
Proof.
  intros Hlt. cbn [hash_put].
  by rewrite (proj2 (Z.leb_gt (size h / 2) (members h))) by done.
Qed.

Lemma rehash_loop old n :
  wf old -> (2 * Z.to_nat (size old) + 1 <= n)%nat ->
  forall c i h,
  (i + c = Z.to_nat (size old))%nat ->
  wf0 h -> size h = 2 * size old ->
  members h <= Z.of_nat (occ (take i (slots old))) ->
  (forall k, lookup (slots h) k = lookup (take i (slots old)) k) ->
  exists h1,
    for_loop c (Z.of_nat i) (rehash_body n old) h = Some h1 /\
    wf0 h1 /\ size h1 = 2 * size old /\
    members h1 <= members old /\
    (forall k, lookup (slots h1) k = lookup (slots old) k).
Proof.
  intros [Hwf Hload] Hn.
  pose proof Hwf as ((p & Hp & Hsz) & Hlk & Hlv & Hm & Hr).
  pose proof (pow2_bounds p Hp) as Hb.
  induction c as [|c IH]; intros i h Hic Hwfh Hszh Hmh Hlh.
  - simpl. exists h. rewrite take_ge in Hmh, Hlh
      by (rewrite (wf0_slots_length old Hwf); lia).
    split; [done|]. split; [done|]. split; [done|]. split; [lia|done].
  - cbn [for_loop].
    destruct (lookup_lt_is_Some_2 (keys old) i) as [k Ek]; [lia|].
    destruct (lookup_lt_is_Some_2 (values old) i) as [v Ev]; [lia|].
    assert (Hs := slots_lookup old i k v Ek Ev).
    assert (Htake : take (S i) (slots old)
                    = take i (slots old)
                      ++ [if k =? NULL then None else Some (k, v)])
      by by apply take_S_r.
    rewrite rehash_body_eq, !get_at_nat, Ek. simpl.
    replace (Z.of_nat i + 1) with (Z.of_nat (S i)) by lia.
    destruct (Z.eqb_spec k NULL) as [->|Hk]; simpl.
    + apply IH; [lia|done|done| |].
      * rewrite Htake, occ_app. lia.
      * intros k'. rewrite Htake, lookup_snoc, Hlh. unfold lookup.
        by destruct (list_find _ (take i (slots old))) as [[? ?]|].
    + rewrite Ev. simpl.
      assert (Hle : Z.of_nat (occ (take i (slots old))) <= members old).
      { rewrite Hm. pose proof (occ_take_le (slots old) i). lia. }
      destruct n as [|n]; [lia|].
      rewrite hash_put_noresize
        by (rewrite Hszh, Z.mul_comm, Z.div_mul by lia;
            pose proof (half_lt (size old)); lia).
      rewrite (hash_slot_spec h k Hwfh Hk). simpl.
      destruct (insert_spec h k v n Hwfh) as (b & h' & E & Hwf' & Hsz' & Hm' & Hl');
        [pose proof (half_lt (size old)); lia | done | lia |].
      rewrite E. simpl.
      apply IH; [lia|done|lia| |].
      * rewrite Htake, occ_app.
        replace (occ [Some (k, v)]) with 1%nat by done. lia.
      * intros k'. rewrite Hl', Htake, lookup_snoc, Hlh.
        destruct (list_find _ (take i (slots old))) as [[q s]|] eqn:Ef.
        -- destruct (decide (k' = k)) as [->|]; [|done].
           exfalso. apply list_find_Some in Ef as (Eq & Hkey & _).
           destruct s as [[k2 v2]|]; [|done]. simpl in Hkey. simplify_eq.
           assert (Hq : (q < i)%nat).
           { apply lookup_lt_Some in Eq. rewrite length_take in Eq. lia. }
           rewrite lookup_take_lt in Eq by done.
           pose proof (reach_key_unique _ _ _ _ _ _ _ Hr Eq Hs). lia.
        -- unfold lookup at 1. rewrite Ef.
           by destruct (decide (k' = k)) as [->|]; [rewrite decide_True|rewrite decide_False].
Qed.

Lemma hash_put_resize n h key value :
  size h / 2 <= members h ->
  hash_put (S n) h key value
  = (h1 ← rebuilt n h; slot ← hash_slot (size h1) key;
     hash_put_loop n h1 key value slot 1).
Proof.
  intros Hle. cbn [hash_put].
  by rewrite (proj2 (Z.leb_le (size h / 2) (members h))) by done.
Qed.

(** Rebuilding doubles the size and keeps every binding. *)
Lemma rebuilt_spec n h :
  wf h -> size h < 2 ^ 31 -> (2 * Z.to_nat (size h) + 1 <= n)%nat ->
  exists h1, rebuilt n h = Some h1 /\ wf0 h1 /\ size h1 = 2 * size h /\
    members h1 <= members h /\
    (forall k, lookup (slots h1) k = lookup (slots h) k).
Proof.
  intros Hwfl Hlim Hn. pose proof Hwfl as [Hwf Hload].
  pose proof Hwf as ((p & Hp & Hsz) & Hlk & Hlv & Hm & Hr).
  pose proof (pow2_bounds p Hp) as Hb.
  unfold rebuilt, rebuilt_empty.
  rewrite to_int_small, to_unsigned_small by lia.
  set (h0 := Hash (size h * 2) 0 _ _).
  assert (Hp' : p <= 30).
  { destruct (Z.le_gt_cases p 30); [done|].
    assert (2 ^ 31 <= 2 ^ p) by (apply Z.pow_le_mono_r; lia). lia. }
  assert (Hwf0 : wf0 h0).
  { split; [exists (p + 1); split; [lia|]; simpl;
            rewrite Z.pow_add_r by lia; lia|].
    unfold h0. simpl. rewrite !length_replicate.
    split; [done|]. split; [done|].
    rewrite slots_replicate, occ_replicate.
    split; [done | apply reach_replicate]. }
  apply (rehash_loop h n Hwfl Hn (Z.to_nat (size h)) 0%nat h0);
    [lia | done | simpl; lia | simpl; lia |].
  intros k. unfold h0. rewrite slots_replicate, lookup_empty.
  by rewrite take_0.
Qed.

(** [hash_put]: the table stays well formed, its size doubles exactly when
    [members] has reached half of it, and afterwards the key maps to the
    value while every other key maps to what it mapped to before. *)
Lemma hash_put_spec n h key value :
  wf h -> size h < 2 ^ 31 -> key <> NULL ->
  (2 * Z.to_nat (size h) + 2 <= n)%nat ->
  exists b h',
    hash_put n h key value = Some (b, h') /\ wf h' /\
    size h' = (if size h / 2 <=? members h then 2 * size h else size h) /\
    (forall k', lookup (slots h') k'
                = if decide (k' = key) then value else lookup (slots h) k').
Proof.
  intros Hwfl Hlim Hkey Hn. pose proof Hwfl as [Hwf Hload].
  pose proof Hwf as ((p & Hp & Hsz) & Hlk & Hlv & Hm & Hr).
  pose proof (pow2_bounds p Hp) as Hb.
  pose proof (half_lt (size h)) as Hhalf.
  destruct n as [|n]; [lia|].
  destruct (Z.leb_spec (size h / 2) (members h)) as [Hfull|Hfree].
  - rewrite hash_put_resize by done.
    destruct (rebuilt_spec n h Hwfl Hlim ltac:(lia))
      as (h1 & E1 & Hwf1 & Hsz1 & Hm1 & Hl1).
    rewrite E1. simpl.
    rewrite (hash_slot_spec h1 key Hwf1 Hkey). simpl.
    destruct (insert_spec h1 key value n Hwf1)
      as (b & h' & E & Hwf' & Hsz' & Hm' & Hl'); [lia|done|lia|].
    exists b, h'. split; [done|]. split; [|split; [lia|]].
    + split; [done|]. rewrite Hsz', Hsz1, Z.mul_comm, Z.div_mul by lia.
      assert (size h / 2 + 1 <= size h); [|lia].
      destruct (Z.eq_dec (size h) 1) as [->|]; [done|].
      pose proof (Z.div_le_upper_bound (size h) 2 (size h - 1)). lia.
    + intros k'. by rewrite Hl', Hl1.
  - rewrite hash_put_noresize by done.
    rewrite (hash_slot_spec h key Hwf Hkey). simpl.
    destruct (insert_spec h key value n Hwf)
      as (b & h' & E & Hwf' & Hsz' & Hm' & Hl'); [lia|done|lia|].
    exists b, h'. split; [done|]. split; [|split; [done|done]].
    split; [done|]. rewrite Hsz'. lia.
Qed.

Lemma wf_room h : wf h -> members h < size h.
Proof.
  intros [((p & Hp & Hsz) & _) Hload].
  pose proof (pow2_bounds p Hp). pose proof (half_lt (size h)). lia.
Qed.

(** [hash_delete] clears the value of the key and nothing else. *)
Lemma hash_delete_spec h key fuel :
  wf0 h -> members h < size h -> key <> NULL ->
  (Z.to_nat (size h) <= fuel)%nat ->
  exists h',
    hash_delete fuel h key = Some h' /\
    wf0 h' /\ size h' = size h /\ members h' = members h /\
    keys h' = keys h /\
    (forall q, keys h !! q = Some key -> values h' !! q = Some NULL) /\
    (forall k', lookup (slots h') k'
                = if decide (k' = key) then NULL else lookup (slots h) k').
Proof.
  intros Hwf Hroom Hkey Hfuel.
  destruct (wf0_first_hit h key Hwf Hroom) as (j & Hj & Hf).
  pose proof Hwf as ((p & Hp & Hsz) & Hlk & Hlv & Hm & Hr).
  unfold hash_delete. rewrite (hash_slot_spec h key Hwf Hkey). simpl.
  destruct (hash_delete_loop_spec h p key Hsz Hp Hkey j 0%nat fuel)
    as (k & v & Ek & Ev & Hk & E); [done|lia|].
  change (Z.of_nat 0 + 1) with 1 in E. change (0 + j)%nat with j in *.
  rewrite E. clear E.
  assert (Hs : slots h !! pos (size h) key j
               = Some (if k =? NULL then None else Some (k, v)))
    by by apply slots_lookup.
  destruct (Z.eqb_spec k key) as [->|Hne].
  - eexists. split; [done|].
    assert (Hsl := slots_set_value h _ _ _ NULL Ek Ev Hkey).
    rewrite (proj2 (Z.eqb_neq key NULL)) in Hs by done.
    split; [|split; [done|split; [done|split; [done|split]]]].
    + split; [by exists p|]. simpl. rewrite length_insert.
      split; [done|]. split; [done|]. rewrite Hsl.
      split; [|by apply put_reach].
      by rewrite (occ_insert _ _ _ _ Hs).
    + intros q Eq. simpl.
      assert (Hsq : slots h !! q = Some (Some (key, default NULL (values h !! q)))).
      { destruct (lookup_lt_is_Some_2 (values h) q) as [vq Evq].
        - apply lookup_lt_Some in Eq. lia.
        - rewrite (slots_lookup h q key vq Eq Evq), Evq.
          by rewrite (proj2 (Z.eqb_neq key NULL)). }
      rewrite (reach_key_unique _ _ _ _ _ _ _ Hr Hsq Hs).
      apply list_lookup_insert_eq. apply lookup_lt_Some in Ev. done.
    + intros k'. rewrite Hsl. by apply put_lookup.
  - destruct Hk as [?| ->]; [done|]. simpl in Hs.
    exists h. split; [done|].
    split; [done|split; [done|split; [done|split; [done|split]]]].
    + intros q Eq. exfalso.
      destruct (lookup_lt_is_Some_2 (values h) q) as [vq Evq].
      { apply lookup_lt_Some in Eq. lia. }
      pose proof (slots_lookup h q key vq Eq Evq) as Hsq.
      rewrite (proj2 (Z.eqb_neq key NULL)) in Hsq by done.
      destruct (Hr _ _ _ Hsq) as (j2 & F2 & Hq).
      rewrite (first_hit_unique _ _ _ _ _ F2 Hf) in Hq. subst q.
      rewrite Hs in Hsq. done.
    + intros k'. destruct (decide (k' = key)) as [->|]; [|done].
      by rewrite (first_hit_lookup _ _ _ _ _ Hr Hf Hs).
Qed.

(** What [hash_iter] hands out is a slot with a key and a value. *)
Lemma hash_iter_loop_sound fuel : forall h now now' k v,
  0 <= now ->
  hash_iter_loop fuel h now = Some (true, now', Some (k, v)) ->
  exists q, keys h !! q = Some k /\ values h !! q = Some v /\
            k <> NULL /\ v <> NULL.
Proof.
  induction fuel as [|fuel IH]; intros h now now' k v Hnow E; [done|].
  cbn [hash_iter_loop] in E.
  destruct (now <? size h); [|done].
  destruct (get_at (keys h) now) as [k0|] eqn:Ek; [simpl in E|done].
  destruct (get_at (values h) now) as [v0|] eqn:Ev; [simpl in E|done].
  destruct (Z.eqb_spec k0 NULL) as [->|Hk]; simpl in E.
  - eapply IH; [|exact E]. unfold to_unsigned.
    apply Z.mod_pos_bound. done.
  - destruct (Z.eqb_spec v0 NULL) as [->|Hv]; simpl in E.
    + eapply IH; [|exact E]. unfold to_unsigned.
      apply Z.mod_pos_bound. done.
    + simplify_eq. exists (Z.to_nat now).
      unfold get_at in Ek, Ev.
      rewrite (proj2 (Z.leb_le 0 now)) in Ek, Ev by done. done.
Qed.

Lemma hash_put_ok_holds n h key value :
  wf h -> size h < 2 ^ 31 -> key <> NULL ->
  (2 * Z.to_nat (size h) + 2 <= n)%nat ->
  hash_put_ok n h key value.
Proof.
  intros Hwfl Hlim Hkey Hn.
  destruct (hash_put_spec n h key value Hwfl Hlim Hkey Hn)
    as (b & h' & E & Hwfl' & Hsz' & Hl').
  pose proof Hwfl as [Hwf Hload]. pose proof Hwfl' as [Hwf' Hload'].
  pose proof (wf_room h Hwfl) as Hroom. pose proof (wf_room h' Hwfl') as Hroom'.
  assert (0 <= members h) as Hm0 by (destruct Hwf as (_ & _ & _ & -> & _); lia).
  assert (Hsz2 : size h' <= 2 * size h).
  { rewrite Hsz'. destruct (_ <=? _); lia. }
  exists b, h'. split; [done|]. split; [done|]. split; [|split].
  - destruct (Z.leb_spec (size h / 2) (members h)) as [Hfull|Hfree]; [|done].
    split; [done|]. destruct n as [|n]; [lia|].
    change (pred (S n)) with n.
    destruct (rebuilt_spec n h Hwfl Hlim ltac:(lia))
      as (h1 & E1 & Hwf1 & Hsz1 & Hm1 & Hl1).
    exists h1. split; [done|]. split; [done|]. split.
    + intros k Hk.
      rewrite (hash_get_spec h1), (hash_get_spec h); try done; try lia.
      by rewrite Hl1.
    + rewrite hash_put_resize by done. by rewrite E1.
  - rewrite (hash_get_spec h') by (done || lia).
    by rewrite Hl', decide_True.
  - intros k' Hk' Hne.
    rewrite (hash_get_spec h'), (hash_get_spec h) by (done || lia).
    by rewrite Hl', decide_False.
Qed.

(** C9: deleting a stored key makes [hash_get] return NULL for it,
    leaves [hash_members] and the value of every other key unchanged; the
    slot keeps the key with a NULL value, and [hash_iter] never hands the
    key out. *)
Theorem hash_delete_frame n h key q :
  wf h -> key <> NULL -> keys h !! q = Some key ->
  (Z.to_nat (size h) <= n)%nat ->
  exists h',
    hash_delete n h key = Some h' /\
    hash_get n h' key = Some NULL /\
    hash_members h' = hash_members h /\
    (forall k', k' <> NULL -> k' <> key -> hash_get n h' k' = hash_get n h k') /\
    keys h' !! q = Some key /\ values h' !! q = Some NULL /\
    (forall now now' k v, 0 <= now ->
       hash_iter h' now = Some (true, now', Some (k, v)) -> k <> key) /\
    wf h'.
Proof.
  intros Hwfl Hkey Hq Hn. pose proof Hwfl as [Hwf Hload].
  pose proof (wf_room h Hwfl) as Hroom.
  destruct (hash_delete_spec h key n Hwf Hroom Hkey Hn)
    as (h' & E & Hwf' & Hsz' & Hm' & Hk' & Hv' & Hl').
  exists h'. split; [done|].
  split.
  { rewrite (hash_get_spec h') by (done || lia). by rewrite Hl', decide_True. }
  split; [done|]. split.
  { intros k' Hk'0 Hne.
    rewrite (hash_get_spec h'), (hash_get_spec h) by (done || lia).
    by rewrite Hl', decide_False. }
  split; [by rewrite Hk'|]. split; [by apply Hv'|]. split.
  - intros now now' k v Hnow Ei ->. unfold hash_iter in Ei.
    destruct (now =? HASH_END); [done|].
    apply hash_iter_loop_sound in Ei as (q' & Ek & Ev & _ & Hv); [|done].
    rewrite Hk' in Ek. rewrite (Hv' _ Ek) in Ev. by simplify_eq.
  - split; [done|]. by rewrite Hm', Hsz'.
Qed.

End Ptr.

#[local] Existing Instance ChashSpec.sample_util.

Lemma sample_table_wf : wf sample_table.
Proof.
  split; [|by vm_compute].
  split; [exists 2; split; [lia | reflexivity]|].
  split; [reflexivity|]. split; [reflexivity|]. split; [reflexivity|].
  apply reach_check_sound. vm_compute. reflexivity.
Qed.

Lemma hash_delete_frame_witness :
  exists h',
    hash_delete 4 sample_table 5 = Some h' /\
    hash_get 4 h' 5 = Some NULL /\
    hash_members h' = hash_members sample_table /\
    (forall k', k' <> NULL -> k' <> 5 ->
       hash_get 4 h' k' = hash_get 4 sample_table k') /\
    keys h' !! 1%nat = Some 5 /\ values h' !! 1%nat = Some NULL /\
    (forall now now' k v, 0 <= now ->
       hash_iter h' now = Some (true, now', Some (k, v)) -> k <> 5) /\
    wf h'.
Proof.
  apply (hash_delete_frame 4 sample_table 5 1).
  - exact sample_table_wf.
  - vm_compute. discriminate.
  - reflexivity.
  - vm_compute. lia.
Defined.

End PtrFacts.

(* --------------------------------------------------------------------- *)
(** ** The string hash refines a map                                     *)
(* --------------------------------------------------------------------- *)

Module StrFacts.
Import Common Hash Hash.Str Probe ProbeFacts SeqFacts StrSpec.
Local Open Scope Z_scope.

Section Str.
Context `{Util}.

Lemma shash_slots_lookup h q k v :
  keys h !! q = Some k -> values h !! q = Some v ->
  slots h !! q = Some ((fun k' => (k', v)) <$> k).
Proof. intros Ek Ev. unfold slots. by rewrite lookup_zip_with, Ek, Ev. Qed.

Lemma shash_slots_lookup_inv h q s :
  slots h !! q = Some s ->
  exists k v, keys h !! q = Some k /\ values h !! q = Some v /\
              s = (fun k' => (k', v)) <$> k.
Proof.
  unfold slots. rewrite lookup_zip_with. intros E.
  destruct (keys h !! q) as [k|]; [simpl in E|done].
  destruct (values h !! q) as [v|]; [simpl in E|done].
  exists k, v. by simplify_eq.
Qed.

Lemma shash_slots_length h :
  length (keys h) = length (values h) -> length (slots h) = length (keys h).
Proof. intros E. unfold slots. rewrite length_zip_with. lia. Qed.

Lemma shash_slots_set_value h q k v v' :
  keys h !! q = Some (Some k) -> values h !! q = Some v ->
  slots (SHash (size h) (members h) (<[q := v']> (values h)) (keys h))
  = <[q := Some (k, v')]> (slots h).
Proof.
  intros Ek Ev. unfold slots. simpl.
  rewrite <- (list_insert_id (keys h) q (Some k)) at 1 by done.
  by rewrite <- (insert_zip_with (fun k v => (fun k' => (k', v)) <$> k)).
Qed.

Lemma shash_slots_set_both h q k v m :
  slots (SHash (size h) m (<[q := v]> (values h)) (<[q := Some k]> (keys h)))
  = <[q := Some (k, v)]> (slots h).
Proof.
  unfold slots. simpl.
  by rewrite <- (insert_zip_with (fun k v => (fun k' => (k', v)) <$> k)).
Qed.

(** The next slot of the loops is the next step of the probe sequence. *)
Lemma shash_next_slot p key (j : nat) :
  0 <= p <= 31 ->
  Z.land (Z.of_nat (pos (2 ^ p) key j) + 1) (to_unsigned (2 ^ p - 1))
  = Z.of_nat (pos (2 ^ p) key (S j)).
Proof.
  intros Hp. pose proof (pow2_bounds p Hp).
  rewrite to_unsigned_small by lia. rewrite land_mask by lia.
  unfold pos, pos_linear.
  rewrite !Z2Nat.id by (apply Z.mod_pos_bound; lia).
  rewrite Zplus_mod_idemp_l. f_equal.
  rewrite Nat2Z.inj_succ. unfold Z.succ. ring.
Qed.

Lemma shash_first_slot p h key :
  0 <= p <= 31 -> size h = 2 ^ p ->
  shash_slot h key = Z.of_nat (pos (size h) key 0).
Proof.
  intros Hp Hsz. pose proof (pow2_bounds p Hp). unfold shash_slot.
  rewrite Hsz.
  rewrite to_unsigned_small by lia.
  unfold pos, pos_linear, start. change (Z.of_nat 0) with 0.
  rewrite Z.add_0_r.
  rewrite !land_mask by lia. rewrite Zmod_mod.
  rewrite Z2Nat.id by (apply Z.mod_pos_bound; lia). done.
Qed.

(** What a probing loop sees at a step. *)
Lemma shash_probe_step h key (j : nat) :
  forall s, slots h !! pos (size h) key j = Some s ->
  exists k v, get_at (keys h) (Z.of_nat (pos (size h) key j)) = Some k /\
    get_at (values h) (Z.of_nat (pos (size h) key j)) = Some v /\
    s = (fun k' => (k', v)) <$> k /\
    (stops key s = true -> k = Some key \/ k = None) /\
    (stops key s = false -> exists k', k = Some k' /\ k' <> key).
Proof.
  intros s Es. apply shash_slots_lookup_inv in Es as (k & v & Ek & Ev & ->).
  exists k, v. rewrite !get_at_nat.
  split; [done|]. split; [done|]. split; [done|].
  destruct k as [k|]; simpl.
  - split.
    + intros ->%bool_decide_eq_true. auto.
    + intros ?%bool_decide_eq_false. eauto.
  - split; [auto | done].
Qed.

Lemma eqb_refl' (k : string) : String.eqb k k = true.
Proof. apply String.eqb_refl. Qed.

Lemma eqb_ne (k k' : string) : k <> k' -> String.eqb k k' = false.
Proof. by intros ?%String.eqb_neq. Qed.

Lemma shash_put_copy_loop_spec h p key value :
  size h = 2 ^ p -> 0 <= p <= 31 ->
  forall d j fuel,
  first_hit (pos (size h)) (slots h) key (j + d) -> (d < fuel)%nat ->
  exists k v,
    keys h !! pos (size h) key (j + d) = Some k /\
    values h !! pos (size h) key (j + d) = Some v /\
    (k = Some key \/ k = None) /\
    shash_put_copy_loop fuel h key value (Z.of_nat (pos (size h) key j))
    = Some (if k is Some _
            then SHash (size h) (members h)
                   (<[pos (size h) key (j + d) := value]> (values h))
                   (keys h)
            else SHash (size h) (to_unsigned (members h + 1))
                   (<[pos (size h) key (j + d) := value]> (values h))
                   (<[pos (size h) key (j + d) := Some key]> (keys h))).
Proof.
  intros Hsz Hp. induction d as [|d IH]; intros j fuel Hf Hfuel;
    (destruct fuel as [|fuel]; [lia|]); cbn [shash_put_copy_loop].
  - rewrite Nat.add_0_r in *. destruct Hf as [(s & Es & Ss) _].
    destruct (shash_probe_step h key j s Es) as (k & v & Ek & Ev & -> & Hs & _).
    exists k, v. rewrite <- !get_at_nat. rewrite Ek. simpl.
    split; [done|]. split; [done|]. split; [auto|].
    rewrite !set_at_nat.
    destruct (Hs Ss) as [-> | ->]; [|done].
    by rewrite eqb_refl'.
  - pose proof Hf as [_ Hbefore].
    destruct (Hbefore j ltac:(lia)) as (s & Es & Ss).
    destruct (shash_probe_step h key j s Es) as (k & v & Ek & Ev & -> & _ & Hs).
    destruct (Hs Ss) as (k' & -> & Hk').
    rewrite Ek. simpl. rewrite eqb_ne by done.
    rewrite Hsz, shash_next_slot by done. rewrite <- Hsz.
    replace (j + S d)%nat with (S j + d)%nat in * by lia.
    apply IH; [done|lia].
Qed.

Lemma shash_get_loop_spec h p key :
  size h = 2 ^ p -> 0 <= p <= 31 ->
  forall d j fuel,
  first_hit (pos (size h)) (slots h) key (j + d) -> (d < fuel)%nat ->
  exists s, slots h !! pos (size h) key (j + d) = Some s /\
    shash_get_loop fuel h key (Z.of_nat (pos (size h) key j))
    = Some (match s with Some (_, v) => v | None => NULL end).
Proof.
  intros Hsz Hp. induction d as [|d IH]; intros j fuel Hf Hfuel;
    (destruct fuel as [|fuel]; [lia|]); cbn [shash_get_loop].
  - rewrite Nat.add_0_r in *. destruct Hf as [(s & Es & Ss) _].
    destruct (shash_probe_step h key j s Es) as (k & v & Ek & Ev & -> & Hs & _).
    eexists. split; [exact Es|]. rewrite Ek. simpl.
    destruct (Hs Ss) as [-> | ->]; [|done].
    by rewrite eqb_refl'.
  - pose proof Hf as [_ Hbefore].
    destruct (Hbefore j ltac:(lia)) as (s & Es & Ss).
    destruct (shash_probe_step h key j s Es) as (k & v & Ek & Ev & -> & _ & Hs).
    destruct (Hs Ss) as (k' & -> & Hk').
    rewrite Ek. simpl. rewrite eqb_ne by done.
    rewrite Hsz, shash_next_slot by done. rewrite <- Hsz.
    replace (j + S d)%nat with (S j + d)%nat in * by lia.
    apply IH; [done|lia].
Qed.

Lemma shash_wf0_slots_length h : wf0 h -> length (slots h) = Z.to_nat (size h).
Proof. intros (_ & Hk & Hv & _). rewrite shash_slots_length; lia. Qed.

Lemma shash_wf0_covers h :
  wf0 h -> covers (pos (size h)) (length (slots h)).
Proof.
  intros Hwf. rewrite (shash_wf0_slots_length h Hwf).
  destruct Hwf as ((p & Hp & ->) & _).
  apply pos_linear_covers. pose proof (pow2_bounds p Hp). lia.
Qed.

(** With a free slot, probing for any key stops within [size] steps. *)
Lemma shash_wf0_first_hit h key :
  wf0 h -> members h < size h ->
  exists j, (j < Z.to_nat (size h))%nat /\
            first_hit (pos (size h)) (slots h) key j.
Proof.
  intros Hwf Hroom. rewrite <- (shash_wf0_slots_length h Hwf).
  apply first_hit_exists; [by apply shash_wf0_covers|].
  apply occ_lt_empty. rewrite (shash_wf0_slots_length h Hwf).
  destruct Hwf as (_ & _ & _ & Hm & _). lia.
Qed.

(** [shash_put_copy]: the binding is stored where probing stops; the
    other keys keep their values. *)
Lemma shash_insert_spec h key value fuel :
  wf0 h -> members h < size h ->
  (Z.to_nat (size h) <= fuel)%nat ->
  exists h',
    shash_put_copy fuel h key value = Some h' /\
    wf0 h' /\ size h' = size h /\
    members h <= members h' <= members h + 1 /\
    (forall k', lookup (slots h') k'
                = if decide (k' = key) then value else lookup (slots h) k').
Proof.
  intros Hwf Hroom Hfuel.
  destruct (shash_wf0_first_hit h key Hwf Hroom) as (j & Hj & Hf).
  pose proof Hwf as ((p & Hp & Hsz) & Hlk & Hlv & Hm & Hr).
  unfold shash_put_copy. rewrite (shash_first_slot p h key Hp Hsz).
  destruct (shash_put_copy_loop_spec h p key value Hsz Hp j 0%nat fuel)
    as (k & v & Ek & Ev & Hk & E); [done|lia|].
  change (0 + j)%nat with j in *.
  rewrite E. clear E.
  pose proof (pow2_bounds p Hp) as Hb.
  assert (Hs := shash_slots_lookup h _ k v Ek Ev).
  destruct Hk as [-> | ->].
  - eexists. split; [done|].
    assert (Hsl := shash_slots_set_value h _ _ _ value Ek Ev).
    split; [|split; [done|split; [simpl; lia|]]].
    + split; [by exists p|]. simpl. rewrite length_insert.
      split; [done|]. split; [done|]. rewrite Hsl.
      split; [|by apply put_reach].
      by rewrite (occ_insert _ _ _ _ Hs).
    + intros k'. rewrite Hsl. by apply put_lookup.
  - assert (Hsl := shash_slots_set_both h (pos (size h) key j) key value
                     (to_unsigned (members h + 1))).
    simpl in Hs.
    assert (Hocc := occ_insert (slots h) _ (key, value) _ Hs). simpl in Hocc.
    assert (Hmem : to_unsigned (members h + 1) = members h + 1).
    { apply to_unsigned_small. lia. }
    eexists. split; [done|].
    split; [|split; [done|split; [simpl; lia|]]].
    + split; [by exists p|]. simpl. rewrite !length_insert.
      split; [done|]. split; [done|]. rewrite Hsl, Hocc, Hmem.
      split; [lia | by apply put_reach].
    + intros k'. rewrite Hsl. by apply put_lookup.
Qed.

(** [shash_get] returns the value the table holds for the key. *)
Lemma shash_get_spec h key fuel :
  wf0 h -> members h < size h ->
  (Z.to_nat (size h) <= fuel)%nat ->
  shash_get fuel h key = Some (lookup (slots h) key).
Proof.
  intros Hwf Hroom Hfuel.
  destruct (shash_wf0_first_hit h key Hwf Hroom) as (j & Hj & Hf).
  pose proof Hwf as ((p & Hp & Hsz) & Hlk & Hlv & Hm & Hr).
  unfold shash_get. rewrite (shash_first_slot p h key Hp Hsz).
  destruct (shash_get_loop_spec h p key Hsz Hp j 0%nat fuel)
    as (s & Es & E); [done|lia|].
  change (0 + j)%nat with j in *.
  rewrite E. f_equal. symmetry.
  by apply (first_hit_lookup (pos (size h)) _ _ j).
Qed.

Lemma shash_slots_replicate sz m :
  slots (SHash sz m (replicate (Z.to_nat sz) NULL) (replicate (Z.to_nat sz) None))
  = replicate (Z.to_nat sz) None.
Proof.
  unfold slots. simpl. induction (Z.to_nat sz) as [|n IH]; [done|].
  simpl. by rewrite IH.
Qed.

Lemma shash_rehash_body_eq n old i h :
  rehash_body n old i h
  = (k ← get_at (keys old) i;
     match k with
     | Some k' => v ← get_at (values old) i; shash_put_copy n h k' v
     | None => Some h
     end).
Proof. reflexivity. Qed.

Lemma shash_rehash_loop old n :
  wf old -> (2 * Z.to_nat (size old) <= n)%nat ->
  forall c i h,
  (i + c = Z.to_nat (size old))%nat ->
  wf0 h -> size h = 2 * size old ->
  members h <= Z.of_nat (occ (take i (slots old))) ->
  (forall k, lookup (slots h) k = lookup (take i (slots old)) k) ->
  exists h1,
    for_loop c (Z.of_nat i) (rehash_body n old) h = Some h1 /\
    wf0 h1 /\ size h1 = 2 * size old /\
    members h1 <= members old /\
    (forall k, lookup (slots h1) k = lookup (slots old) k).
Proof.
  intros [Hwf Hload] Hn.
  pose proof Hwf as ((p & Hp & Hsz) & Hlk & Hlv & Hm & Hr).
  pose proof (pow2_bounds p Hp) as Hb.
  induction c as [|c IH]; intros i h Hic Hwfh Hszh Hmh Hlh.
  - simpl. exists h. rewrite take_ge in Hmh, Hlh
      by (rewrite (shash_wf0_slots_length old Hwf); lia).
    split; [done|]. split; [done|]. split; [done|]. split; [lia|done].
  - cbn [for_loop].
    destruct (lookup_lt_is_Some_2 (keys old) i) as [k Ek]; [lia|].
    destruct (lookup_lt_is_Some_2 (values old) i) as [v Ev]; [lia|].
    assert (Hs := shash_slots_lookup old i k v Ek Ev).
    assert (Htake : take (S i) (slots old)
                    = take i (slots old) ++ [(fun k' => (k', v)) <$> k])
      by by apply take_S_r.
    rewrite shash_rehash_body_eq, !get_at_nat, Ek. simpl.
    replace (Z.of_nat i + 1) with (Z.of_nat (S i)) by lia.
    destruct k as [k|]; cbn [fmap option_fmap option_map] in Htake, Hs; simpl.
    + rewrite Ev. simpl.
      assert (Hle : Z.of_nat (occ (take i (slots old))) <= members old).
      { rewrite Hm. pose proof (occ_take_le (slots old) i). lia. }
      destruct (shash_insert_spec h k v n Hwfh) as (h' & E & Hwf' & Hsz' & Hm' & Hl');
        [pose proof (half_lt (size old)); lia | lia |].
      rewrite E. simpl.
      apply IH; [lia|done|lia| |].
      * rewrite Htake, occ_app.
        replace (occ [Some (k, v)]) with 1%nat by done. lia.
      * intros k'. rewrite Hl', Htake, lookup_snoc, Hlh.
        destruct (list_find _ (take i (slots old))) as [[q s]|] eqn:Ef.
        -- destruct (decide (k' = k)) as [->|]; [|done].
           exfalso. apply list_find_Some in Ef as (Eq & Hkey & _).
           destruct s as [[k2 v2]|]; [|done]. simpl in Hkey. simplify_eq.
           assert (Hq : (q < i)%nat).
           { apply lookup_lt_Some in Eq. rewrite length_take in Eq. lia. }
           rewrite lookup_take_lt in Eq by done.
           pose proof (reach_key_unique _ _ _ _ _ _ _ Hr Eq Hs). lia.
        -- unfold lookup at 1. rewrite Ef. simpl.
           by destruct (decide (k' = k)) as [->|]; [rewrite decide_True|rewrite decide_False].
    + apply IH; [lia|done|done| |].
      * rewrite Htake, occ_app. simpl. lia.
      * intros k'. rewrite Htake, lookup_snoc, Hlh. unfold lookup. simpl.
        by destruct (list_find _ (take i (slots old))) as [[? ?]|].
Qed.

Lemma shash_put_resize n h key value :
  size h / 2 <= members h ->
  shash_put n h key value
  = (h1 ← rebuilt n h; shash_put_copy n h1 key value).
Proof.
  intros Hle. unfold shash_put.
  by rewrite (proj2 (Z.leb_le (size h / 2) (members h))) by done.
Qed.

Lemma shash_put_noresize n h key value :
  members h < size h / 2 ->
  shash_put n h key value = shash_put_copy n h key value.
Proof.
  intros Hlt. unfold shash_put.
  by rewrite (proj2 (Z.leb_gt (size h / 2) (members h))) by done.
Qed.

(** Rebuilding doubles the size and keeps every binding. *)
Lemma shash_rebuilt_spec n h :
  wf h -> size h < 2 ^ 31 -> (2 * Z.to_nat (size h) <= n)%nat ->
  exists h1, rebuilt n h = Some h1 /\ wf0 h1 /\ size h1 = 2 * size h /\
    members h1 <= members h /\
    (forall k, lookup (slots h1) k = lookup (slots h) k).
Proof.
  intros Hwfl Hlim Hn. pose proof Hwfl as [Hwf Hload].
  pose proof Hwf as ((p & Hp & Hsz) & Hlk & Hlv & Hm & Hr).
  pose proof (pow2_bounds p Hp) as Hb.
  unfold rebuilt, rebuilt_empty.
  rewrite to_int_small, to_unsigned_small by lia.
  set (h0 := SHash (size h * 2) 0 _ _).
  assert (Hp' : p <= 30).
  { destruct (Z.le_gt_cases p 30); [done|].
    assert (2 ^ 31 <= 2 ^ p) by (apply Z.pow_le_mono_r; lia). lia. }
  assert (Hwf0 : wf0 h0).
  { split; [exists (p + 1); split; [lia|]; simpl;
            rewrite Z.pow_add_r by lia; lia|].
    unfold h0. simpl. rewrite !length_replicate.
    split; [done|]. split; [done|].
    rewrite shash_slots_replicate, occ_replicate.
    split; [done | apply reach_replicate]. }
  apply (shash_rehash_loop h n Hwfl Hn (Z.to_nat (size h)) 0%nat h0);
    [lia | done | simpl; lia | simpl; lia |].
  intros k. unfold h0. rewrite shash_slots_replicate, lookup_empty.
  by rewrite take_0.
Qed.

Lemma shash_wf_room h : wf h -> members h < size h.
Proof.
  intros [((p & Hp & Hsz) & _) Hload].
  pose proof (pow2_bounds p Hp). pose proof (half_lt (size h)). lia.
Qed.

Lemma shash_put_spec n h key value :
  wf h -> size h < 2 ^ 31 ->
  (2 * Z.to_nat (size h) <= n)%nat ->
  exists h',
    shash_put n h key value = Some h' /\ wf h' /\
    size h' = (if size h / 2 <=? members h then 2 * size h else size h) /\
    (forall k', lookup (slots h') k'
                = if decide (k' = key) then value else lookup (slots h) k').
Proof.
  intros Hwfl Hlim Hn. pose proof Hwfl as [Hwf Hload].
  pose proof Hwf as ((p & Hp & Hsz) & Hlk & Hlv & Hm & Hr).
  pose proof (pow2_bounds p Hp) as Hb.
  pose proof (half_lt (size h)) as Hhalf.
  destruct (Z.leb_spec (size h / 2) (members h)) as [Hfull|Hfree].
  - rewrite shash_put_resize by done.
    destruct (shash_rebuilt_spec n h Hwfl Hlim ltac:(lia))
      as (h1 & E1 & Hwf1 & Hsz1 & Hm1 & Hl1).
    rewrite E1. simpl.
    destruct (shash_insert_spec h1 key value n Hwf1)
      as (h' & E & Hwf' & Hsz' & Hm' & Hl'); [lia|lia|].
    exists h'. split; [done|]. split; [|split; [lia|]].
    + split; [done|]. rewrite Hsz', Hsz1, Z.mul_comm, Z.div_mul by lia.
      assert (size h / 2 + 1 <= size h); [|lia].
      destruct (Z.eq_dec (size h) 1) as [->|]; [done|].
      pose proof (Z.div_le_upper_bound (size h) 2 (size h - 1)). lia.
    + intros k'. by rewrite Hl', Hl1.
  - rewrite shash_put_noresize by done.
    destruct (shash_insert_spec h key value n Hwf)
      as (h' & E & Hwf' & Hsz' & Hm' & Hl'); [lia|lia|].
    exists h'. split; [done|]. split; [|split; [done|done]].
    split; [done|]. rewrite Hsz'. lia.
Qed.

Lemma shash_put_ok_holds n h key value :
  wf h -> size h < 2 ^ 31 ->
  (2 * Z.to_nat (size h) <= n)%nat ->
  shash_put_ok n h key value.
Proof.
  intros Hwfl Hlim Hn.
  destruct (shash_put_spec n h key value Hwfl Hlim Hn)
    as (h' & E & Hwfl' & Hsz' & Hl').
  pose proof Hwfl as [Hwf Hload]. pose proof Hwfl' as [Hwf' Hload'].
  pose proof (shash_wf_room h Hwfl) as Hroom. pose proof (shash_wf_room h' Hwfl') as Hroom'.
  assert (0 <= members h) as Hm0 by (destruct Hwf as (_ & _ & _ & -> & _); lia).
  assert (Hsz2 : size h' <= 2 * size h).
  { rewrite Hsz'. destruct (_ <=? _); lia. }
  exists h'. split; [done|]. split; [done|]. split; [|split].
  - destruct (Z.leb_spec (size h / 2) (members h)) as [Hfull|Hfree]; [|done].
    split; [done|].
    destruct (shash_rebuilt_spec n h Hwfl Hlim ltac:(lia))
      as (h1 & E1 & Hwf1 & Hsz1 & Hm1 & Hl1).
    exists h1. split; [done|]. split; [done|]. split.
    + intros k.
      rewrite (shash_get_spec h1), (shash_get_spec h); try done; try lia.
      by rewrite Hl1.
    + rewrite shash_put_resize by done. by rewrite E1.
  - rewrite (shash_get_spec h') by (done || lia).
    by rewrite Hl', decide_True.
  - intros k' Hne.
    rewrite (shash_get_spec h'), (shash_get_spec h) by (done || lia).
    by rewrite Hl', decide_False.
Qed.

End Str.

#[local] Existing Instance ChashSpec.sample_util.

Lemma sample_table_str_wf : wf sample_table.
Proof.
  split; [|by vm_compute].
  split; [exists 1; split; [lia | reflexivity]|].
  split; [reflexivity|]. split; [reflexivity|]. split; [reflexivity|].
  apply reach_check_sound. vm_compute. reflexivity.
Qed.

End StrFacts.

(* --------------------------------------------------------------------- *)
(** ** The integer hash refines a map                                    *)
(* --------------------------------------------------------------------- *)

Module IntFacts.
Import Common Hash Hash.Int Probe ProbeFacts SeqFacts IntSpec.
Local Open Scope Z_scope.

Lemma mbind_Some {A B} (f : A -> option B) (x : A) : Some x ≫= f = f x.
Proof. reflexivity. Qed.

(** The mask as bits. *)
Lemma land_bit w b :
  0 <= b -> negb (Z.land w (Z.shiftl 1 b) =? 0) = Z.testbit w b.
Proof.
  intros Hb. rewrite Z.shiftl_1_l.
  destruct (Z.testbit w b) eqn:Eb.
  - apply negb_true_iff, Z.eqb_neq. intros E0.
    assert (Hbit : Z.testbit (Z.land w (2 ^ b)) b = true)
      by by rewrite Z.land_spec, Eb, Z.pow2_bits_true.
    rewrite E0, Z.bits_0 in Hbit. done.
  - apply negb_false_iff, Z.eqb_eq, Z.bits_inj'. intros n Hn.
    rewrite Z.land_spec, Z.bits_0, Z.pow2_bits_eqb by done.
    destruct (Z.eqb_spec b n) as [->|]; [by rewrite Eb | apply andb_false_r].
Qed.

Lemma mask_test_nat mask (i : nat) :
  mask_test mask (Z.of_nat i)
  = (w ← mask !! (i / 64)%nat; Some (Z.testbit w (Z.of_nat (i mod 64)))).
Proof.
  unfold mask_test.
  replace (Z.of_nat i / 64) with (Z.of_nat (i / 64))
    by (by rewrite Nat2Z.inj_div).
  rewrite get_at_nat. destruct (mask !! _); simpl; [|done].
  replace (Z.of_nat i mod 64) with (Z.of_nat (i mod 64))
    by (by rewrite Nat2Z.inj_mod).
  rewrite land_bit by lia. done.
Qed.

Lemma mask_set_nat mask (i : nat) :
  mask_set mask (Z.of_nat i)
  = (w ← mask !! (i / 64)%nat;
     Some (<[(i / 64)%nat := Z.lor w (2 ^ Z.of_nat (i mod 64))]> mask)).
Proof.
  unfold mask_set.
  replace (Z.of_nat i / 64) with (Z.of_nat (i / 64))
    by (by rewrite Nat2Z.inj_div).
  rewrite get_at_nat. destruct (mask !! _); simpl; [|done].
  replace (Z.of_nat i mod 64) with (Z.of_nat (i mod 64))
    by (by rewrite Nat2Z.inj_mod).
  by rewrite set_at_nat, Z.shiftl_1_l.
Qed.

(** Setting the bit of [q] sets that bit and no other. *)
Lemma mask_test_set mask mask' (q i : nat) :
  mask_set mask (Z.of_nat q) = Some mask' ->
  mask_test mask' (Z.of_nat i)
  = if decide (i = q) then Some true else mask_test mask (Z.of_nat i).
Proof.
  rewrite mask_set_nat, !mask_test_nat. intros E.
  destruct (mask !! (q / 64)%nat) as [w|] eqn:Ew; [|done].
  change (Some (<[(q / 64)%nat := Z.lor w (2 ^ Z.of_nat (q mod 64))]> mask)
          = Some mask') in E.
  apply (inj Some) in E. subst mask'.
  destruct (decide (i / 64 = q / 64)%nat) as [Ediv|Ndiv].
  - rewrite Ediv, list_lookup_insert_eq by by eapply lookup_lt_Some.
    rewrite Ew, !mbind_Some.
    rewrite Z.lor_spec, Z.pow2_bits_eqb by lia.
    destruct (decide (i = q)) as [->|Hne].
    + by rewrite Z.eqb_refl, orb_true_r.
    + assert (i mod 64 <> q mod 64)%nat.
      { intros Emod. apply Hne.
        pose proof (Nat.div_mod_eq i 64). pose proof (Nat.div_mod_eq q 64).
        congruence. }
      rewrite (proj2 (Z.eqb_neq (Z.of_nat (q mod 64)) (Z.of_nat (i mod 64))))
        by (intros ?%Nat2Z.inj; congruence).
      by rewrite orb_false_r.
  - rewrite list_lookup_insert_ne by done.
    rewrite decide_False; [done|]. by intros ->.
Qed.

Lemma ihash_slots_length h : length (slots h) = Z.to_nat (size h).
Proof. unfold slots. by rewrite length_fmap, length_seq. Qed.

Lemma ihash_slots_lookup h (i : nat) :
  (i < Z.to_nat (size h))%nat -> slots h !! i = Some (slot_at h i).
Proof.
  intros Hi. unfold slots. by rewrite list_lookup_fmap, lookup_seq_lt.
Qed.

Lemma ihash_slots_lookup_inv h (i : nat) s :
  slots h !! i = Some s -> (i < Z.to_nat (size h))%nat /\ s = slot_at h i.
Proof.
  intros E. assert (Hi : (i < Z.to_nat (size h))%nat).
  { apply lookup_lt_Some in E. by rewrite ihash_slots_length in E. }
  rewrite ihash_slots_lookup in E by done. split; [done|]. by simplify_eq.
Qed.

(** A table that differs from [h] in slot [q] only. *)
Lemma slots_insert h h' (q : nat) s :
  size h' = size h -> slot_at h' q = s ->
  (forall i, i <> q -> slot_at h' i = slot_at h i) ->
  slots h' = <[q := s]> (slots h).
Proof.
  intros Hsz Hq Hother. apply list_eq. intros i.
  destruct (decide (i < Z.to_nat (size h))%nat) as [Hi|Hi].
  - rewrite ihash_slots_lookup by (rewrite Hsz; done).
    destruct (decide (i = q)) as [->|Hne].
    + rewrite list_lookup_insert_eq by (by rewrite ihash_slots_length). by rewrite Hq.
    + rewrite list_lookup_insert_ne by done.
      by rewrite ihash_slots_lookup, Hother.
  - rewrite (lookup_ge_None_2 (slots h')) by (rewrite ihash_slots_length, Hsz; lia).
    symmetry. apply lookup_ge_None_2. rewrite length_insert, ihash_slots_length. lia.
Qed.

Lemma ihash_slots_set_value h (q : nat) k v' ck cv :
  mask_test (mask h) (Z.of_nat q) = Some true -> keys h !! q = Some k ->
  (q < length (values h))%nat ->
  slots (IHash (size h) (members h) (<[q := v']> (values h)) (keys h)
           (mask h) ck cv)
  = <[q := Some (k, v')]> (slots h).
Proof.
  intros Em Ek Hq. apply slots_insert; [done| |].
  - unfold slot_at. simpl. by rewrite Em, Ek, list_lookup_insert_eq.
  - intros i Hne. unfold slot_at. simpl.
    by rewrite list_lookup_insert_ne.
Qed.

Lemma ihash_slots_set_both h (q : nat) k v m mask' ck cv :
  mask_set (mask h) (Z.of_nat q) = Some mask' ->
  (q < length (keys h))%nat -> (q < length (values h))%nat ->
  slots (IHash (size h) m (<[q := v]> (values h)) (<[q := k]> (keys h))
           mask' ck cv)
  = <[q := Some (k, v)]> (slots h).
Proof.
  intros Em Hk Hv. apply slots_insert; [done| |].
  - unfold slot_at. simpl.
    rewrite (mask_test_set _ _ _ _ Em), decide_True by done.
    by rewrite !list_lookup_insert_eq.
  - intros i Hne. unfold slot_at. simpl.
    rewrite (mask_test_set _ _ _ _ Em), decide_False by done.
    by rewrite !list_lookup_insert_ne.
Qed.

(** The next slot of the loops is the next step of the probe sequence. *)
Lemma ihash_next_slot p key (j : nat) :
  0 <= p <= 31 ->
  Z.land (Z.of_nat (pos (2 ^ p) key j) + 1) (to_unsigned (2 ^ p - 1))
  = Z.of_nat (pos (2 ^ p) key (S j)).
Proof.
  intros Hp. pose proof (pow2_bounds p Hp).
  rewrite to_unsigned_small by lia. rewrite land_mask by lia.
  unfold pos, pos_linear.
  rewrite !Z2Nat.id by (apply Z.mod_pos_bound; lia).
  rewrite Zplus_mod_idemp_l. f_equal.
  rewrite Nat2Z.inj_succ. unfold Z.succ. ring.
Qed.

Lemma ihash_first_slot p h key :
  0 <= p <= 31 -> size h = 2 ^ p ->
  ihash_slot h key = Z.of_nat (pos (size h) key 0).
Proof.
  intros Hp Hsz. pose proof (pow2_bounds p Hp).
  change (ihash_slot h key)
    with (Z.land (splitmix key) (to_unsigned (size h - 1))).
  rewrite Hsz. rewrite to_unsigned_small by lia.
  unfold pos, pos_linear, start. change (Z.of_nat 0) with 0.
  rewrite Z.add_0_r.
  rewrite !land_mask by lia. rewrite Zmod_mod.
  rewrite Z2Nat.id by (apply Z.mod_pos_bound; lia). done.
Qed.

Lemma wf0_slot_defined h (q : nat) :
  wf0 h -> (q < Z.to_nat (size h))%nat ->
  exists m k v, mask_test (mask h) (Z.of_nat q) = Some m /\
    keys h !! q = Some k /\ values h !! q = Some v /\
    slot_at h q = (if m then Some (k, v) else None).
Proof.
  intros (_ & Hlk & Hlv & Hlm & _) Hq.
  destruct (lookup_lt_is_Some_2 (keys h) q) as [k Ek]; [lia|].
  destruct (lookup_lt_is_Some_2 (values h) q) as [v Ev]; [lia|].
  destruct (lookup_lt_is_Some_2 (mask h) (q / 64)%nat) as [w Ew].
  { apply Nat.Div0.div_lt_upper_bound. lia. }
  exists (Z.testbit w (Z.of_nat (q mod 64))), k, v.
  assert (Em : mask_test (mask h) (Z.of_nat q)
               = Some (Z.testbit w (Z.of_nat (q mod 64))))
    by by rewrite mask_test_nat, Ew.
  split; [done|]. split; [done|]. split; [done|].
  unfold slot_at. rewrite Em, Ek, Ev. done.
Qed.

(** What a probing loop sees at a step. *)
Lemma ihash_probe_step h key (j : nat) :
  wf0 h ->
  forall s, slots h !! pos (size h) key j = Some s ->
  exists m k v,
    mask_test (mask h) (Z.of_nat (pos (size h) key j)) = Some m /\
    get_at (keys h) (Z.of_nat (pos (size h) key j)) = Some k /\
    get_at (values h) (Z.of_nat (pos (size h) key j)) = Some v /\
    s = (if m then Some (k, v) else None) /\
    (stops key s = true -> m = false \/ k = key) /\
    (stops key s = false -> m = true /\ k <> key).
Proof.
  intros Hwf s Es. apply ihash_slots_lookup_inv in Es as (Hq & ->).
  destruct (wf0_slot_defined h _ Hwf Hq) as (m & k & v & Em & Ek & Ev & Es).
  exists m, k, v. rewrite !get_at_nat.
  split; [done|]. split; [done|]. split; [done|]. split; [done|].
  rewrite Es. destruct m; simpl.
  - split.
    + intros ?%bool_decide_eq_true. auto.
    + intros ?%bool_decide_eq_false. done.
  - split; [auto | done].
Qed.

Lemma ihash_put_loop_spec h p key value :
  wf0 h -> size h = 2 ^ p -> 0 <= p <= 31 ->
  forall d j fuel,
  first_hit (pos (size h)) (slots h) key (j + d) -> (d < fuel)%nat ->
  exists k v,
    slots h !! pos (size h) key (j + d) = Some (slot_at h (pos (size h) key (j + d))) /\
    keys h !! pos (size h) key (j + d) = Some k /\
    values h !! pos (size h) key (j + d) = Some v /\
    ((mask_test (mask h) (Z.of_nat (pos (size h) key (j + d))) = Some true /\
      k = key /\
      ihash_put_loop fuel h key value (Z.of_nat (pos (size h) key j))
      = Some (IHash (size h) (members h)
                (<[pos (size h) key (j + d) := value]> (values h))
                (keys h) (mask h) (cachekey h) (cacheval h))) \/
     (mask_test (mask h) (Z.of_nat (pos (size h) key (j + d))) = Some false /\
      exists mask',
      mask_set (mask h) (Z.of_nat (pos (size h) key (j + d))) = Some mask' /\
      ihash_put_loop fuel h key value (Z.of_nat (pos (size h) key j))
      = Some (IHash (size h) (to_unsigned (members h + 1))
                (<[pos (size h) key (j + d) := value]> (values h))
                (<[pos (size h) key (j + d) := key]> (keys h))
                mask' (cachekey h) (cacheval h)))).
Proof.
  intros Hwf Hsz Hp. induction d as [|d IH]; intros j fuel Hf Hfuel;
    (destruct fuel as [|fuel]; [lia|]); cbn [ihash_put_loop].
  - rewrite Nat.add_0_r in *. destruct Hf as [(s & Es & Ss) _].
    pose proof (ihash_slots_lookup_inv _ _ _ Es) as (Hq & Hsq).
    destruct (ihash_probe_step h key j Hwf s Es)
      as (m & k & v & Em & Ek & Ev & -> & Hs & _).
    exists k, v. split; [by apply ihash_slots_lookup|].
    rewrite <- !get_at_nat. rewrite Em, Ek. rewrite mbind_Some.
    split; [done|]. split; [done|].
    rewrite !set_at_nat.
    destruct m; cbn [negb].
    + left. split; [done|]. destruct (Hs Ss) as [?| ->]; [done|].
      split; [done|]. by rewrite mbind_Some, Z.eqb_refl.
    + right. split; [done|].
      assert (Hset : is_Some (mask_set (mask h) (Z.of_nat (pos (size h) key j)))).
      { unfold mask_test in Em. unfold mask_set.
        destruct (get_at (mask h) _); [by eexists|done]. }
      destruct Hset as [mask' Emask]. exists mask'. split; [done|].
      by rewrite Emask, mbind_Some.
  - pose proof Hf as [_ Hbefore].
    destruct (Hbefore j ltac:(lia)) as (s & Es & Ss).
    destruct (ihash_probe_step h key j Hwf s Es)
      as (m & k & v & Em & Ek & Ev & -> & _ & Hs).
    destruct (Hs Ss) as [-> Hk].
    rewrite Em, Ek, !mbind_Some. cbn [negb].
    rewrite (proj2 (Z.eqb_neq k key)) by done.
    rewrite Hsz, ihash_next_slot by done. rewrite <- Hsz.
    replace (j + S d)%nat with (S j + d)%nat in * by lia.
    apply IH; [done|lia].
Qed.

Lemma ihash_get_loop_spec h p key :
  wf0 h -> size h = 2 ^ p -> 0 <= p <= 31 ->
  forall d j fuel,
  first_hit (pos (size h)) (slots h) key (j + d) -> (d < fuel)%nat ->
  exists s, slots h !! pos (size h) key (j + d) = Some s /\
    ihash_get_loop fuel h key (Z.of_nat (pos (size h) key j))
    = Some (match s with Some (_, v) => v | None => NULL end,
            IHash (size h) (members h) (values h) (keys h) (mask h)
              (cachekey h)
              (match s with Some (_, v) => v | None => NULL end)).
Proof.
  intros Hwf Hsz Hp. induction d as [|d IH]; intros j fuel Hf Hfuel;
    (destruct fuel as [|fuel]; [lia|]); cbn [ihash_get_loop].
  - rewrite Nat.add_0_r in *. destruct Hf as [(s & Es & Ss) _].
    destruct (ihash_probe_step h key j Hwf s Es)
      as (m & k & v & Em & Ek & Ev & -> & Hs & _).
    eexists. split; [exact Es|]. rewrite Em, Ek, !mbind_Some.
    destruct m; cbn [negb]; [|done].
    destruct (Hs Ss) as [?| ->]; [done|].
    by rewrite Z.eqb_refl, Ev, mbind_Some.
  - pose proof Hf as [_ Hbefore].
    destruct (Hbefore j ltac:(lia)) as (s & Es & Ss).
    destruct (ihash_probe_step h key j Hwf s Es)
      as (m & k & v & Em & Ek & Ev & -> & _ & Hs).
    destruct (Hs Ss) as [-> Hk].
    rewrite Em, Ek, !mbind_Some. cbn [negb].
    rewrite (proj2 (Z.eqb_neq k key)) by done.
    rewrite Hsz, ihash_next_slot by done. rewrite <- Hsz.
    replace (j + S d)%nat with (S j + d)%nat in * by lia.
    apply IH; [done|lia].
Qed.

Lemma ihash_wf0_covers h :
  wf0 h -> covers (pos (size h)) (length (slots h)).
Proof.
  intros Hwf. rewrite ihash_slots_length.
  destruct Hwf as ((p & Hp & ->) & _).
  apply pos_linear_covers. pose proof (pow2_bounds p Hp). lia.
Qed.

(** With a free slot, probing for any key stops within [size] steps. *)
Lemma ihash_wf0_first_hit h key :
  wf0 h -> members h < size h ->
  exists j, (j < Z.to_nat (size h))%nat /\
            first_hit (pos (size h)) (slots h) key j.
Proof.
  intros Hwf Hroom. rewrite <- (ihash_slots_length h).
  apply first_hit_exists; [by apply ihash_wf0_covers|].
  apply occ_lt_empty. rewrite ihash_slots_length.
  destruct Hwf as (_ & _ & _ & _ & Hm & _). lia.
Qed.

Lemma mask_set_length mask q mask' :
  mask_set mask q = Some mask' -> length mask' = length mask.
Proof.
  unfold mask_set. destruct (get_at mask _); [|done].
  rewrite mbind_Some. intros E. apply (inj Some) in E. subst mask'.
  unfold set_at. by rewrite length_insert.
Qed.

(** The probing phase of [ihash_put]: the binding is stored where probing
    stops; the other keys keep their values, the cache is not touched. *)
Lemma ihash_insert_spec h key value fuel :
  wf0 h -> members h < size h ->
  (Z.to_nat (size h) <= fuel)%nat ->
  exists h',
    ihash_put_loop fuel h key value (Z.of_nat (pos (size h) key 0)) = Some h' /\
    wf0 h' /\ size h' = size h /\
    members h <= members h' <= members h + 1 /\
    cachekey h' = cachekey h /\ cacheval h' = cacheval h /\
    (forall k', lookup (slots h') k'
                = if decide (k' = key) then value else lookup (slots h) k').
Proof.
  intros Hwf Hroom Hfuel.
  destruct (ihash_wf0_first_hit h key Hwf Hroom) as (j & Hj & Hf).
  pose proof Hwf as ((p & Hp & Hsz) & Hlk & Hlv & Hlm & Hm & Hr).
  destruct (ihash_put_loop_spec h p key value Hwf Hsz Hp j 0%nat fuel)
    as (k & v & Es & Ek & Ev & Hcase); [done|lia|].
  change (0 + j)%nat with j in *.
  pose proof (pow2_bounds p Hp) as Hb.
  assert (Hq : (pos (size h) key j < Z.to_nat (size h))%nat).
  { apply lookup_lt_Some in Es. by rewrite ihash_slots_length in Es. }
  assert (Hslot : slot_at h (pos (size h) key j)
                  = match mask_test (mask h) (Z.of_nat (pos (size h) key j)) with
                    | Some true => Some (k, v) | _ => None end).
  { unfold slot_at. rewrite Ek, Ev. done. }
  destruct Hcase as [(Em & -> & E) | (Em & mask' & Emask & E)];
    rewrite E; clear E; rewrite Em in Hslot; rewrite Hslot in Es.
  - eexists. split; [done|].
    assert (Hsl := ihash_slots_set_value h _ _ value (cachekey h) (cacheval h)
                     Em Ek ltac:(lia)).
    split; [|split; [done|split; [simpl; lia|split; [done|split; [done|]]]]].
    + split; [by exists p|]. simpl. rewrite length_insert.
      split; [done|]. split; [done|]. split; [done|]. rewrite Hsl.
      split; [|by apply put_reach].
      by rewrite (occ_insert _ _ _ _ Es).
    + intros k'. rewrite Hsl. by apply put_lookup.
  - assert (Hsl := ihash_slots_set_both h (pos (size h) key j) key value
                     (to_unsigned (members h + 1)) mask'
                     (cachekey h) (cacheval h) Emask ltac:(lia) ltac:(lia)).
    assert (Hocc := occ_insert (slots h) _ (key, value) _ Es). simpl in Hocc.
    assert (Hmem : to_unsigned (members h + 1) = members h + 1).
    { apply to_unsigned_small. lia. }
    eexists. split; [done|].
    split; [|split; [done|split; [simpl; lia|split; [done|split; [done|]]]]].
    + split; [by exists p|]. simpl. rewrite !length_insert.
      split; [done|]. split; [done|].
      split; [by rewrite (mask_set_length _ _ _ Emask)|].
      rewrite Hsl, Hocc, Hmem.
      split; [lia | by apply put_reach].
    + intros k'. rewrite Hsl. by apply put_lookup.
Qed.

(** [ihash_get] returns the value the table holds for the key, and leaves
    a well-formed table with the same slots. *)
Lemma ihash_get_spec h key fuel :
  wf0 h -> cache_ok h -> members h < size h ->
  (Z.to_nat (size h) <= fuel)%nat ->
  exists h',
    ihash_get fuel h key = Some (lookup (slots h) key, h') /\
    wf0 h' /\ cache_ok h' /\ size h' = size h /\ members h' = members h /\
    slots h' = slots h.
Proof.
  intros Hwf Hcache Hroom Hfuel. unfold ihash_get.
  destruct ((0 <? members h) && (key =? cachekey h)) eqn:Ehit.
  - apply andb_true_iff in Ehit as [Hm%Z.ltb_lt ->%Z.eqb_eq].
    exists h. by rewrite (Hcache Hm).
  - destruct (ihash_wf0_first_hit h key Hwf Hroom) as (j & Hj & Hf).
    pose proof Hwf as ((p & Hp & Hsz) & Hlk & Hlv & Hlm & Hm & Hr).
    set (h0 := IHash _ _ _ _ _ key _).
    change (ihash_slot h0 key) with (ihash_slot h key).
    rewrite (ihash_first_slot p h key Hp Hsz).
    destruct (ihash_get_loop_spec h0 p key Hwf Hsz Hp j 0%nat fuel)
      as (s & Es & E); [done|lia|].
    change (0 + j)%nat with j in *.
    change (size h0) with (size h) in *. change (slots h0) with (slots h) in *.
    rewrite E. clear E.
    assert (El : lookup (slots h) key
                 = match s with Some (_, v) => v | None => NULL end)
      by by apply (first_hit_lookup (pos (size h)) _ _ j).
    rewrite <- El.
    eexists. split; [done|]. split; [exact Hwf|].
    split; [by intros _|]. done.
Qed.

Lemma slot_at_empty sz m n ks vs ck cv i :
  slot_at (IHash sz m vs ks (replicate n 0) ck cv) i = None.
Proof.
  unfold slot_at. rewrite mask_test_nat. simpl mask.
  destruct (replicate n 0 !! (i / 64)%nat) as [w|] eqn:Ew; [|done].
  apply lookup_replicate_1 in Ew as [-> _].
  rewrite mbind_Some. by rewrite Z.bits_0.
Qed.

Lemma slots_empty sz m n ks vs ck cv :
  slots (IHash sz m vs ks (replicate n 0) ck cv)
  = replicate (Z.to_nat sz) None.
Proof.
  apply list_eq. intros i.
  destruct (decide (i < Z.to_nat sz)%nat).
  - rewrite ihash_slots_lookup by done. rewrite slot_at_empty.
    by rewrite lookup_replicate_2.
  - rewrite !(lookup_ge_None_2 _ i); [done| |].
    + rewrite length_replicate. lia.
    + rewrite ihash_slots_length. simpl. lia.
Qed.

Lemma ihash_rehash_body_eq n old i h :
  rehash_body n old i h
  = (m ← mask_test (mask old) i;
     if (m : bool) then
       k ← get_at (keys old) i; v ← get_at (values old) i; ihash_put n h k v
     else Some h).
Proof. reflexivity. Qed.

Lemma ihash_put_noresize n h key value :
  members h < size h / 2 ->
  ihash_put (S n) h key value
  = ihash_put_loop n (with_cache h key value) key value (ihash_slot h key).
Proof.
  intros Hlt. cbn [ihash_put].
  by rewrite (proj2 (Z.leb_gt (size h / 2) (members h))) by done.
Qed.

Lemma ihash_put_resize n h key value :
  size h / 2 <= members h ->
  ihash_put (S n) h key value
  = (h1 ← rebuilt n h;
     ihash_put_loop n (with_cache h1 key value) key value (ihash_slot h1 key)).
Proof.
  intros Hle. cbn [ihash_put].
  by rewrite (proj2 (Z.leb_le (size h / 2) (members h))) by done.
Qed.

(** A put into a table with room, as the reinsertion loop and the last
    phase of [ihash_put] do it. *)
Lemma store_spec h key value fuel :
  wf0 h -> members h < size h ->
  (Z.to_nat (size h) <= fuel)%nat ->
  exists h',
    ihash_put_loop fuel (with_cache h key value) key value (ihash_slot h key)
      = Some h' /\
    wf0 h' /\ cache_ok h' /\ size h' = size h /\
    members h <= members h' <= members h + 1 /\
    (forall k', lookup (slots h') k'
                = if decide (k' = key) then value else lookup (slots h) k').
Proof.
  intros Hwf Hroom Hfuel.
  pose proof Hwf as ((p & Hp & Hsz) & _).
  rewrite (ihash_first_slot p h key Hp Hsz).
  destruct (ihash_insert_spec (with_cache h key value) key value fuel Hwf Hroom Hfuel)
    as (h' & E & Hwf' & Hsz' & Hm' & Hck & Hcv & Hl').
  exists h'. split; [done|]. split; [done|]. split; [|done].
  intros _. rewrite Hck, Hcv. simpl. by rewrite Hl', decide_True.
Qed.

Lemma ihash_rehash_loop old n :
  wf0 old -> members old <= size old / 2 ->
  (2 * Z.to_nat (size old) + 1 <= n)%nat ->
  forall c i h,
  (i + c = Z.to_nat (size old))%nat ->
  wf0 h -> cache_ok h -> size h = 2 * size old ->
  members h <= Z.of_nat (occ (take i (slots old))) ->
  (forall k, lookup (slots h) k = lookup (take i (slots old)) k) ->
  exists h1,
    for_loop c (Z.of_nat i) (rehash_body n old) h = Some h1 /\
    wf0 h1 /\ cache_ok h1 /\ size h1 = 2 * size old /\
    members h1 <= members old /\
    (forall k, lookup (slots h1) k = lookup (slots old) k).
Proof.
  intros Hwf Hload Hn.
  pose proof Hwf as ((p & Hp & Hsz) & Hlk & Hlv & Hlm & Hm & Hr).
  pose proof (pow2_bounds p Hp) as Hb.
  induction c as [|c IH]; intros i h Hic Hwfh Hch Hszh Hmh Hlh.
  - simpl. exists h. rewrite take_ge in Hmh, Hlh
      by (rewrite ihash_slots_length; lia).
    split; [done|]. split; [done|]. split; [done|]. split; [done|].
    split; [lia|done].
  - cbn [for_loop].
    destruct (wf0_slot_defined old i Hwf ltac:(lia))
      as (m & k & v & Em & Ek & Ev & Eslot).
    assert (Hs : slots old !! i = Some (if m then Some (k, v) else None)).
    { rewrite ihash_slots_lookup by lia. by rewrite Eslot. }
    assert (Htake : take (S i) (slots old)
                    = take i (slots old) ++ [if m then Some (k, v) else None])
      by by apply take_S_r.
    rewrite ihash_rehash_body_eq, Em, mbind_Some.
    replace (Z.of_nat i + 1) with (Z.of_nat (S i)) by lia.
    destruct m.
    + rewrite !get_at_nat, Ek, Ev, !mbind_Some.
      assert (Hle : Z.of_nat (occ (take i (slots old))) <= members old).
      { rewrite Hm. pose proof (occ_take_le (slots old) i). lia. }
      destruct n as [|n]; [lia|].
      rewrite ihash_put_noresize
        by (rewrite Hszh, Z.mul_comm, Z.div_mul by lia;
            pose proof (half_lt (size old)); lia).
      destruct (store_spec h k v n Hwfh)
        as (h' & E & Hwf' & Hc' & Hsz' & Hm' & Hl');
        [pose proof (half_lt (size old)); lia | lia |].
      rewrite E, mbind_Some.
      apply IH; [lia|done|done|lia| |].
      * rewrite Htake, occ_app.
        replace (occ [Some (k, v)]) with 1%nat by done. lia.
      * intros k'. rewrite Hl', Htake, lookup_snoc, Hlh.
        destruct (list_find _ (take i (slots old))) as [[q s]|] eqn:Ef.
        -- destruct (decide (k' = k)) as [->|]; [|done].
           exfalso. apply list_find_Some in Ef as (Eq & Hkey & _).
           destruct s as [[k2 v2]|]; [|done]. simpl in Hkey. simplify_eq.
           assert (Hq : (q < i)%nat).
           { apply lookup_lt_Some in Eq. rewrite length_take in Eq. lia. }
           rewrite lookup_take_lt in Eq by done.
           pose proof (reach_key_unique _ _ _ _ _ _ _ Hr Eq Hs). lia.
        -- unfold lookup at 1. rewrite Ef.
           by destruct (decide (k' = k)) as [->|]; [rewrite decide_True|rewrite decide_False].
    + rewrite mbind_Some.
      apply IH; [lia|done|done|done| |].
      * rewrite Htake, occ_app. lia.
      * intros k'. rewrite Htake, lookup_snoc, Hlh. unfold lookup.
        by destruct (list_find _ (take i (slots old))) as [[? ?]|].
Qed.

Lemma mask_words x : 0 <= x -> x <= 64 * (ALIGN_UP x 64 / 64).
Proof.
  intros Hx. unfold ALIGN_UP. rewrite Z.div_mul by lia.
  pose proof (Z.div_mod (x + 64 - 1) 64 ltac:(lia)).
  pose proof (Z.mod_pos_bound (x + 64 - 1) 64 ltac:(lia)). lia.
Qed.

(** Rebuilding doubles the size and keeps every binding. *)
Lemma ihash_rebuilt_spec n h :
  wf0 h -> members h <= size h / 2 -> size h < 2 ^ 31 ->
  (2 * Z.to_nat (size h) + 1 <= n)%nat ->
  exists h1, rebuilt n h = Some h1 /\ wf0 h1 /\ cache_ok h1 /\
    size h1 = 2 * size h /\ members h1 <= members h /\
    (forall k, lookup (slots h1) k = lookup (slots h) k).
Proof.
  intros Hwf Hload Hlim Hn.
  pose proof Hwf as ((p & Hp & Hsz) & Hlk & Hlv & Hlm & Hm & Hr).
  pose proof (pow2_bounds p Hp) as Hb.
  unfold rebuilt, rebuilt_empty.
  rewrite to_int_small, to_unsigned_small by lia.
  set (h0 := IHash (size h * 2) 0 _ _ _ _ _).
  assert (Hp' : p <= 30).
  { destruct (Z.le_gt_cases p 30); [done|].
    assert (2 ^ 31 <= 2 ^ p) by (apply Z.pow_le_mono_r; lia). lia. }
  assert (Hsl0 : slots h0 = replicate (Z.to_nat (size h * 2)) None)
    by apply slots_empty.
  assert (Hwf0 : wf0 h0).
  { split; [exists (p + 1); split; [lia|]; simpl;
            rewrite Z.pow_add_r by lia; lia|].
    rewrite Hsl0. unfold h0. simpl. rewrite !length_replicate.
    split; [done|]. split; [done|].
    split.
    { pose proof (mask_words (size h * 2) ltac:(lia)). lia. }
    rewrite occ_replicate.
    split; [done | apply reach_replicate]. }
  apply (ihash_rehash_loop h n Hwf Hload Hn (Z.to_nat (size h)) 0%nat h0);
    [lia | done | | simpl; lia | simpl; lia |].
  - intros Hpos. simpl in Hpos. lia.
  - intros k. rewrite Hsl0, lookup_empty.
    by rewrite take_0.
Qed.

Lemma ihash_wf_room h : wf h -> members h < size h.
Proof.
  intros (((p & Hp & Hsz) & _) & Hload & _).
  pose proof (pow2_bounds p Hp). pose proof (half_lt (size h)). lia.
Qed.

(** [ihash_put]: the table stays well formed, its size doubles exactly
    when [members] has reached half of it, and afterwards the key maps to
    the value while every other key maps to what it mapped to before. *)
Lemma ihash_put_spec n h key value :
  wf h -> size h < 2 ^ 31 ->
  (2 * Z.to_nat (size h) + 2 <= n)%nat ->
  exists h',
    ihash_put n h key value = Some h' /\ wf h' /\
    size h' = (if size h / 2 <=? members h then 2 * size h else size h) /\
    (forall k', lookup (slots h') k'
                = if decide (k' = key) then value else lookup (slots h) k').
Proof.
  intros Hwfl Hlim Hn. pose proof Hwfl as (Hwf & Hload & Hcache).
  pose proof Hwf as ((p & Hp & Hsz) & Hlk & Hlv & Hlm & Hm & Hr).
  pose proof (pow2_bounds p Hp) as Hb.
  pose proof (half_lt (size h)) as Hhalf.
  destruct n as [|n]; [lia|].
  destruct (Z.leb_spec (size h / 2) (members h)) as [Hfull|Hfree].
  - rewrite ihash_put_resize by done.
    destruct (ihash_rebuilt_spec n h Hwf Hload Hlim ltac:(lia))
      as (h1 & E1 & Hwf1 & Hc1 & Hsz1 & Hm1 & Hl1).
    rewrite E1, mbind_Some.
    destruct (store_spec h1 key value n Hwf1)
      as (h' & E & Hwf' & Hc' & Hsz' & Hm' & Hl'); [lia|lia|].
    exists h'. split; [done|]. split; [|split; [lia|]].
    + split; [done|]. split; [|done].
      rewrite Hsz', Hsz1, Z.mul_comm, Z.div_mul by lia.
      assert (size h / 2 + 1 <= size h); [|lia].
      destruct (Z.eq_dec (size h) 1) as [->|]; [done|].
      pose proof (Z.div_le_upper_bound (size h) 2 (size h - 1)). lia.
    + intros k'. by rewrite Hl', Hl1.
  - rewrite ihash_put_noresize by done.
    destruct (store_spec h key value n Hwf)
      as (h' & E & Hwf' & Hc' & Hsz' & Hm' & Hl'); [lia|lia|].
    exists h'. split; [done|]. split; [|split; [done|done]].
    split; [done|]. split; [|done]. rewrite Hsz'. lia.
Qed.

Lemma ihash_get_fst h key fuel :
  wf0 h -> cache_ok h -> members h < size h ->
  (Z.to_nat (size h) <= fuel)%nat ->
  fst <$> ihash_get fuel h key = Some (lookup (slots h) key).
Proof.
  intros Hwf Hc Hroom Hfuel.
  destruct (ihash_get_spec h key fuel Hwf Hc Hroom Hfuel) as (h' & E & _).
  by rewrite E.
Qed.

Lemma ihash_put_ok_holds n h key value :
  wf h -> size h < 2 ^ 31 ->
  (2 * Z.to_nat (size h) + 2 <= n)%nat ->
  ihash_put_ok n h key value.
Proof.
  intros Hwfl Hlim Hn.
  destruct (ihash_put_spec n h key value Hwfl Hlim Hn)
    as (h' & E & Hwfl' & Hsz' & Hl').
  pose proof Hwfl as (Hwf & Hload & Hc). pose proof Hwfl' as (Hwf' & Hload' & Hc').
  pose proof (ihash_wf_room h Hwfl) as Hroom. pose proof (ihash_wf_room h' Hwfl') as Hroom'.
  assert (0 <= members h) as Hm0
    by (destruct Hwf as (_ & _ & _ & _ & -> & _); lia).
  assert (Hsz2 : size h' <= 2 * size h).
  { rewrite Hsz'. destruct (_ <=? _); lia. }
  exists h'. split; [done|]. split; [done|]. split; [|split].
  - destruct (Z.leb_spec (size h / 2) (members h)) as [Hfull|Hfree]; [|done].
    split; [done|]. destruct n as [|n]; [lia|].
    change (pred (S n)) with n.
    destruct (ihash_rebuilt_spec n h Hwf Hload Hlim ltac:(lia))
      as (h1 & E1 & Hwf1 & Hc1 & Hsz1 & Hm1 & Hl1).
    exists h1. split; [done|]. split; [done|]. split.
    + intros k.
      rewrite (ihash_get_fst h1), (ihash_get_fst h); try done; try lia.
      by rewrite Hl1.
    + rewrite ihash_put_resize by done. by rewrite E1.
  - rewrite (ihash_get_fst h') by (done || lia).
    by rewrite Hl', decide_True.
  - intros k' Hne.
    rewrite (ihash_get_fst h'), (ihash_get_fst h) by (done || lia).
    by rewrite Hl', decide_False.
Qed.

Lemma sample_table_int_wf : wf sample_table.
Proof.
  split; [|split; [by vm_compute | intros _; vm_compute; reflexivity]].
  split; [exists 1; split; [lia | reflexivity]|].
  split; [reflexivity|]. split; [reflexivity|].
  split; [by vm_compute|]. split; [reflexivity|].
  apply reach_check_sound. vm_compute. reflexivity.
Qed.

End IntFacts.

(* --------------------------------------------------------------------- *)
(** ** hash.c: every put rehashes at half load and keeps the bindings     *)
(* --------------------------------------------------------------------- *)

Module HashFacts.
Import Common Hash.
Local Open Scope Z_scope.


#[local] Existing Instance ChashSpec.sample_util.


(** The sample tables are half full: the put doubles them. *)
Example hash_put_sample :
  Ptr.hash_put 10 PtrSpec.sample_table 9 90
  = Some (false, Ptr.Hash 8 3 [0; 90; 0; 0; 0; 50; 130; 0]
                   [0; 9; 0; 0; 0; 5; 13; 0]).
Proof. vm_compute. reflexivity. Qed.

Example shash_put_sample :
  Str.size <$> Str.shash_put 4 StrSpec.sample_table "b" 20 = Some 4 /\
  (h ← Str.shash_put 4 StrSpec.sample_table "b" 20; Str.shash_get 4 h "a")
  = Some 10 /\
  (h ← Str.shash_put 4 StrSpec.sample_table "b" 20; Str.shash_get 4 h "b")
  = Some 20.
Proof. vm_compute. done. Qed.

Example ihash_put_sample :
  Int.size <$> Int.ihash_put 6 IntSpec.sample_table 9 90 = Some 4 /\
  (h ← Int.ihash_put 6 IntSpec.sample_table 9 90; fst <$> Int.ihash_get 6 h 7)
  = Some 70 /\
  (h ← Int.ihash_put 6 IntSpec.sample_table 9 90; fst <$> Int.ihash_get 6 h 9)
  = Some 90.
Proof. vm_compute. done. Qed.

(** Without enough steps the model of a call gives no result. *)
Example hash_put_out_of_steps :
  Ptr.hash_put 1 PtrSpec.sample_table 9 90 = None.
Proof. vm_compute. reflexivity. Qed.

End HashFacts.

(* --------------------------------------------------------------------- *)
(** ** vlog-simp.c: initial values of nets become assignments            *)
(* --------------------------------------------------------------------- *)

Module VlogFacts.
Import Common Vlog VlogSpec.
Local Open Scope nat_scope.

Lemma bind_ret {A B} (a : A) (k : A -> M B) s : bind (ret a) k s = k a s.
Proof. reflexivity. Qed.

Lemma bind_assoc {A B C} (m : M A) (f : A -> M B) (g : B -> M C) s :
  bind (bind m f) g s = bind m (fun x => bind (f x) g) s.
Proof. unfold bind. by destruct (m s) as [[a s']|]. Qed.

Lemma bind_get {B} v o (k : vlog_obj -> M B) s :
  nodes s !! v = Some o -> bind (get_obj v) k s = k o s.
Proof. intros E. unfold bind, get_obj. by rewrite E. Qed.

Lemma bind_update {B} v f o (k : unit -> M B) s :
  nodes s !! v = Some o ->
  bind (update v f) k s = k tt (State (<[v := f o]> (nodes s)) (interned s)).
Proof. intros E. unfold bind, update. by rewrite E. Qed.

Lemma bind_Some {A B} (m : M A) (k : A -> M B) s a s' :
  m s = Some (a, s') -> bind m k s = k a s'.
Proof. intros E. unfold bind. by rewrite E. Qed.

Lemma update_id v f o s :
  nodes s !! v = Some o -> f o = o -> update v f s = Some (tt, s).
Proof.
  intros E Ef. unfold update. rewrite E, Ef. destruct s as [m i]. simpl in *.
  by rewrite insert_id.
Qed.

Lemma set_object_id i o c : get_object i o = Some c -> set_object i (Some c) o = o.
Proof. destruct o, i; simpl; by intros ->. Qed.

Lemma set_array_id i o : set_array i (get_array i o) o = o.
Proof. by destruct o, i. Qed.

Lemma clean_mono b s v : clean b s v -> clean (S b) s v.
Proof.
  revert v. induction b as [|b IH]; intros v; [done|].
  intros (o & E & Hk & Hp & Hd & Hs & Hc). exists o.
  split; [done|]. split; [done|]. split; [lia|]. split; [lia|]. split; [lia|].
  eapply Forall_impl; [exact Hc | exact IH].
Qed.

Lemma clean_le b b' s v : b <= b' -> clean b s v -> clean b' s v.
Proof. induction 1; [done|]. intros. by apply clean_mono, IHle. Qed.

(** A walk over an array of nodes that the walk leaves alone. *)
Lemma rewrite_array_same rec v i o s :
  nodes s !! v = Some o ->
  (forall c, c ∈ get_array i o -> rec c s = Some (c, s)) ->
  forall fuel n, length (get_array i o) < n + fuel -> 0 < fuel ->
  rewrite_array fuel rec v i n s = Some (tt, s).
Proof.
  intros E Hrec. induction fuel as [|fuel IH]; intros n Hlen Hfuel; [lia|].
  cbn [rewrite_array]. rewrite (bind_get _ _ _ _ E).
  destruct (get_array i o !! n) as [c|] eqn:Ec; [|done].
  pose proof (lookup_lt_Some _ _ _ Ec).
  rewrite (bind_Some _ _ _ _ _ (Hrec c ltac:(by eapply list_elem_of_lookup_2))).
  erewrite bind_Some; [|apply (update_id _ _ o); [done|]].
  - apply IH; lia.
  - rewrite list_insert_id by done. apply set_array_id.
Qed.

Lemma rewrite_object_same rec v i o s :
  nodes s !! v = Some o ->
  (forall c, get_object i o = Some c -> rec c s = Some (c, s)) ->
  rewrite_object rec v i s = Some (tt, s).
Proof.
  intros E Hrec. unfold rewrite_object. rewrite (bind_get _ _ _ _ E).
  destruct (get_object i o) as [c|] eqn:Ec; [|done].
  rewrite (bind_Some _ _ _ _ _ (Hrec c eq_refl)).
  apply (update_id _ _ o); [done|]. by apply set_object_id.
Qed.

Lemma bind_new {B} k0 (k : vlog_node_t -> M B) s :
  bind (vlog_new k0) k s
  = k (fresh (dom (nodes s)))
      (State (<[fresh (dom (nodes s)) :=
                  Obj k0 0 None Util.LOC_INVALID None None None None [] [] []]>
                (nodes s)) (interned s)).
Proof. reflexivity. Qed.

Lemma bind_subkind {B} v o (k : Z -> M B) s :
  nodes s !! v = Some o -> bind (vlog_subkind v) k s = k (subkind o) s.
Proof. intros E. unfold vlog_subkind. by rewrite bind_assoc, (bind_get _ _ _ _ E). Qed.

Lemma bind_kind {B} v o (k : vlog_kind_t -> M B) s :
  nodes s !! v = Some o -> bind (vlog_kind v) k s = k (kind o) s.
Proof. intros E. unfold vlog_kind. by rewrite bind_assoc, (bind_get _ _ _ _ E). Qed.

Lemma bind_loc {B} v o (k : Util.loc_t -> M B) s :
  nodes s !! v = Some o -> bind (vlog_loc v) k s = k (loc o) s.
Proof. intros E. unfold vlog_loc. by rewrite bind_assoc, (bind_get _ _ _ _ E). Qed.

Lemma bind_type {B} v o (k : option vlog_node_t -> M B) s :
  nodes s !! v = Some o -> bind (vlog_type v) k s = k (type_ o) s.
Proof. intros E. unfold vlog_type. by rewrite bind_assoc, (bind_get _ _ _ _ E). Qed.

Lemma bind_ident {B} v o id (k : ident_t -> M B) s :
  nodes s !! v = Some o -> ident o = Some id ->
  bind (vlog_ident v) k s = k id s.
Proof.
  intros E Ei. unfold vlog_ident.
  by rewrite bind_assoc, (bind_get _ _ _ _ E), Ei.
Qed.

Lemma bind_value {B} v o x (k : vlog_node_t -> M B) s :
  nodes s !! v = Some o -> value o = Some x ->
  bind (vlog_value v) k s = k x s.
Proof.
  intros E Ei. unfold vlog_value.
  by rewrite bind_assoc, (bind_get _ _ _ _ E), Ei.
Qed.

Lemma bind_has_value {B} v o (k : bool -> M B) s :
  nodes s !! v = Some o ->
  bind (vlog_has_value v) k s = k (if value o is Some _ then true else false) s.
Proof. intros E. unfold vlog_has_value. by rewrite bind_assoc, (bind_get _ _ _ _ E). Qed.

Lemma bind_has_ref {B} v o (k : bool -> M B) s :
  nodes s !! v = Some o ->
  bind (vlog_has_ref v) k s = k (if ref o is Some _ then true else false) s.
Proof. intros E. unfold vlog_has_ref. by rewrite bind_assoc, (bind_get _ _ _ _ E). Qed.

Lemma fresh_None (m : gmap positive vlog_obj) : m !! fresh (dom m) = None.
Proof. apply not_elem_of_dom, is_fresh. Qed.

(** Stepping through a block: the lookups in the store built so far. *)
Ltac look :=
  cbn [nodes interned];
  repeat first [rewrite lookup_insert_eq | rewrite lookup_insert_ne by done];
  first [eassumption | reflexivity].

Ltac strip Hx := repeat (apply lookup_insert_None in Hx as [Hx ?]).

Ltac fresh_node x Hx :=
  rewrite bind_new; cbn [nodes interned];
  match goal with |- context [fresh (dom ?m)] =>
    pose proof (fresh_None m) as Hx;
    set (x := fresh (dom m)) in *; clearbody x; strip Hx
  end.

Ltac upd := erewrite bind_update by look; cbn [nodes interned].

Section Vlog.
Context `{Env}.

Lemma hoist_block_spec decl mod_ s od om v id :
  nodes s !! decl = Some od -> nodes s !! mod_ = Some om -> decl <> mod_ ->
  value od = Some v -> ident od = Some id ->
  exists r a s',
    hoist_block decl mod_ s = Some (tt, s') /\
    nodes s !! r = None /\ nodes s !! a = None /\ r <> a /\
    nodes s' !! decl = Some (with_value None od) /\
    nodes s' !! r = Some (ref_obj id (loc od) decl) /\
    nodes s' !! a
    = Some (assign_obj (uniq (interned s) ("__assign#" ++ id)) (loc od) v r) /\
    nodes s' !! mod_ = Some (with_stmts (stmts om ++ [a]) om) /\
    (forall x, x <> decl -> x <> r -> x <> a -> x <> mod_ ->
       nodes s' !! x = nodes s !! x) /\
    interned s' = uniq (interned s) ("__assign#" ++ id) :: interned s.
Proof.
  intros Ed Em Hne Ev Ei. unfold hoist_block.
  erewrite bind_value by (look || exact Ev).
  unfold vlog_set_value at 1. upd.
  erewrite bind_ident by (look || exact Ei).
  erewrite bind_loc by look. cbn [loc with_value].
  fresh_node r Hr.
  assert (r <> mod_) by (intros ->; congruence).
  unfold vlog_set_ref, vlog_set_ident, vlog_set_loc at 1. upd. upd. upd.
  fresh_node a Ha.
  assert (a <> mod_) by (intros ->; congruence).
  unfold vlog_set_target, vlog_set_value, vlog_set_loc. upd. upd. upd.
  unfold ident_uniq at 1, bind at 1. cbn [nodes interned].
  unfold vlog_set_ident. upd.
  unfold vlog_add_stmt. unfold update. cbn [nodes interned].
  rewrite !lookup_insert_ne, Em by done.
  exists r, a. eexists. split; [reflexivity|].
  split; [done|]. split; [done|]. split; [done|].
  cbn [nodes interned].
  split; [by simplify_map_eq|]. split; [by simplify_map_eq|].
  split; [by simplify_map_eq|]. split; [by simplify_map_eq|].
  split; [|done].
  intros x ? ? ? ?. by rewrite !lookup_insert_ne by done.
Qed.

Lemma gate_block_spec k decl mod_ s od om id :
  nodes s !! decl = Some od -> nodes s !! mod_ = Some om ->
  ident od = Some id ->
  exists g st t s',
    gate_block k decl mod_ s = Some (tt, s') /\
    nodes s !! g = None /\ nodes s !! st = None /\ nodes s !! t = None /\
    g <> st /\ g <> t /\ st <> t /\
    nodes s' !! g
    = Some (gate_obj (if (k =? V_NET_SUPPLY0)%Z then V_GATE_PULLDOWN
                      else V_GATE_PULLUP)
              (id ++ String "#" "pull") (loc od) st t) /\
    nodes s' !! st = Some strength_obj /\
    nodes s' !! t = Some (ref_obj id (loc od) decl) /\
    nodes s' !! mod_ = Some (with_stmts (stmts om ++ [g]) om) /\
    (forall x, x <> g -> x <> st -> x <> t -> x <> mod_ ->
       nodes s' !! x = nodes s !! x) /\
    interned s' = (id ++ String "#" "pull")%string :: "pull"%string :: interned s.
Proof.
  intros Ed Em Ei. unfold gate_block.
  fresh_node g Hg.
  assert (g <> decl) by (intros E; rewrite E in *; congruence).
  assert (g <> mod_) by (intros E; rewrite E in *; congruence).
  erewrite bind_loc by look.
  unfold vlog_set_loc at 1. upd.
  erewrite bind_ident by (look || exact Ei).
  unfold ident_prefix, ident_new, bind at 1 2. cbn [nodes interned].
  unfold vlog_set_ident at 1. upd.
  fresh_node st Hst.
  assert (st <> decl) by (intros E; rewrite E in *; congruence).
  assert (st <> mod_) by (intros E; rewrite E in *; congruence).
  unfold vlog_set_subkind at 1. upd.
  unfold vlog_add_param. upd.
  assert (Hsk : forall B (k' : unit -> M B) s0 o,
            nodes s0 !! g = Some o ->
            bind (if (k =? V_NET_SUPPLY0)%Z then vlog_set_subkind g V_GATE_PULLDOWN
                  else vlog_set_subkind g V_GATE_PULLUP) k' s0
            = k' tt (State (<[g := with_subkind
                                (if (k =? V_NET_SUPPLY0)%Z then V_GATE_PULLDOWN
                                 else V_GATE_PULLUP) o]> (nodes s0))
                       (interned s0))).
  { intros B k' s0 o E. destruct (k =? V_NET_SUPPLY0)%Z;
      unfold vlog_set_subkind; by rewrite (bind_update _ _ _ _ _ E). }
  erewrite Hsk by look. cbn [nodes interned]. clear Hsk.
  fresh_node t Ht.
  assert (t <> decl) by (intros E; rewrite E in *; congruence).
  assert (t <> mod_) by (intros E; rewrite E in *; congruence).
  erewrite bind_loc by look.
  unfold vlog_set_loc, vlog_set_ident, vlog_set_ref, vlog_set_target.
  upd. upd. upd. upd.
  unfold vlog_add_stmt, update. cbn [nodes interned].
  rewrite !lookup_insert_ne, Em by done.
  exists g, st, t. eexists. split; [reflexivity|].
  split; [done|]. split; [done|]. split; [done|].
  split; [done|]. split; [done|]. split; [done|].
  cbn [nodes interned].
  split; [by simplify_map_eq|]. split; [by simplify_map_eq|].
  split; [by simplify_map_eq|]. split; [by simplify_map_eq|].
  split; [|done].
  intros x ? ? ? ?. by rewrite !lookup_insert_ne by done.
Qed.

Lemma simp_port_decl_spec decl mod_ s od om id :
  nodes s !! decl = Some od -> nodes s !! mod_ = Some om -> decl <> mod_ ->
  ident od = Some id ->
  if ref od is Some _ then simp_port_decl decl mod_ s = Some (decl, s)
  else
    exists w s',
      simp_port_decl decl mod_ s = Some (decl, s') /\
      nodes s !! w = None /\
      nodes s' !! w = Some (wire_obj id (loc od) (type_ od)) /\
      nodes s' !! decl = Some (with_ref (Some w) od) /\
      nodes s' !! mod_ = Some (with_decls (decls om ++ [w]) om) /\
      (forall x, x <> decl -> x <> w -> x <> mod_ ->
         nodes s' !! x = nodes s !! x) /\
      interned s' = interned s.
Proof.
  intros Ed Em Hne Ei. unfold simp_port_decl.
  erewrite bind_has_ref by look.
  destruct (ref od) as [r|] eqn:Er; [done|].
  fresh_node w Hw.
  assert (w <> decl) by (intros E; rewrite E in *; congruence).
  assert (w <> mod_) by (intros E; rewrite E in *; congruence).
  unfold vlog_set_subkind at 1. upd.
  erewrite bind_loc by look.
  unfold vlog_set_loc at 1. upd.
  erewrite bind_ident by (look || exact Ei).
  unfold vlog_set_ident at 1. upd.
  erewrite bind_type by look.
  unfold vlog_set_type, vlog_set_ref, vlog_add_decl. upd. upd. upd.
  exists w. eexists. split; [reflexivity|]. split; [done|].
  cbn [nodes interned].
  split; [by simplify_map_eq|]. split; [by simplify_map_eq|].
  split; [by simplify_map_eq|]. split; [|done].
  intros x ? ? ?. by rewrite !lookup_insert_ne by done.
Qed.

Lemma with_nil om : with_decls (decls om ++ []) (with_stmts (stmts om ++ []) om) = om.
Proof. destruct om. unfold with_decls, with_stmts. simpl. by rewrite !app_nil_r. Qed.

Lemma step_refl mod_ d s :
  is_Some (nodes s !! d) -> is_Some (nodes s !! mod_) -> step mod_ d s s.
Proof.
  intros Hd Hm. split; [done|]. split; [done|]. split; [done|]. split; [|split].
  - intros od E. exists od. split; [done|]. repeat split; auto.
  - intros om E. exists [], []. by rewrite with_nil.
  - intros x o' E1 E2. congruence.
Qed.

Lemma step_trans mod_ d s s1 s2 :
  step mod_ d s s1 -> step mod_ d s1 s2 -> step mod_ d s s2.
Proof.
  intros (Hd & Hm & Ha & Hb & Hc & Hn) (Hd1 & Hm1 & Ha1 & Hb1 & Hc1 & Hn1).
  split; [done|]. split; [done|]. split; [|split; [|split]].
  - intros x o E ? ?. apply Ha1; [|done|done]. by apply Ha.
  - intros od E. destruct (Hb od E) as (od1 & E1 & K1 & I1 & T1 & Y1 & P1 & D1 & S1 & V1 & R1).
    destruct (Hb1 od1 E1) as (od2 & E2 & K2 & I2 & T2 & Y2 & P2 & D2 & S2 & V2 & R2).
    exists od2. split; [done|].
    split; [congruence|]. split; [congruence|]. split; [congruence|].
    split; [congruence|]. split; [congruence|]. split; [congruence|].
    split; [congruence|]. split.
    + destruct V2 as [->| ->]; [|by right]. done.
    + destruct R1 as [R1|R1]; [|by right].
      destruct R2 as [R2|R2]; [left; congruence | right; congruence].
  - intros om E. destruct (Hc om E) as (ns1 & nd1 & E1).
    destruct (Hc1 _ E1) as (ns2 & nd2 & E2).
    exists (ns1 ++ ns2), (nd1 ++ nd2). rewrite E2. f_equal.
    unfold with_decls, with_stmts. simpl. by rewrite !app_assoc.
  - intros x o' E E2. destruct (nodes s1 !! x) as [o1|] eqn:E1.
    + assert (x <> d) by (intros ->; destruct Hd; congruence).
      assert (x <> mod_) by (intros ->; destruct Hm; congruence).
      rewrite (Ha1 x o1 E1) in E2 by done. simplify_eq.
      by eapply Hn.
    + by eapply Hn1.
Qed.

(** What a step keeps. *)
Lemma clean_state b s s' v :
  (forall x o, nodes s !! x = Some o -> plain (kind o) = true ->
     nodes s' !! x = Some o) ->
  clean b s v -> clean b s' v.
Proof.
  intros Hp. revert v. induction b as [|b IH]; intros v; [done|].
  intros (o & E & Hk & Hlp & Hld & Hls & Hc). exists o.
  split; [by apply Hp|]. split; [done|]. split; [done|]. split; [done|].
  split; [done|]. eapply Forall_impl; [exact Hc | exact IH].
Qed.

Lemma step_plain mod_ d s s' od om :
  step mod_ d s s' ->
  nodes s !! d = Some od -> plain (kind od) = false ->
  nodes s !! mod_ = Some om -> plain (kind om) = false ->
  forall x o, nodes s !! x = Some o -> plain (kind o) = true ->
  nodes s' !! x = Some o.
Proof.
  intros (_ & _ & Ha & _) Ed Hkd Em Hkm x o E Hk. apply Ha; [done| |].
  - intros ->. congruence.
  - intros ->. congruence.
Qed.

Lemma children_sub o o' :
  target o' = target o -> type_ o' = type_ o -> params o' = params o ->
  decls o' = decls o -> stmts o' = stmts o ->
  value o' = value o \/ value o' = None ->
  children o' ⊆ children o.
Proof.
  intros T Y P D S V. unfold children. rewrite T, Y, P, D, S.
  destruct V as [->| ->]; [done|].
  simpl. intros x Hx. apply elem_of_app. by right.
Qed.


Lemma with_decls_nil l om :
  with_decls (decls om ++ []) (with_stmts l om) = with_stmts l om.
Proof. destruct om. unfold with_decls, with_stmts. simpl. by rewrite app_nil_r. Qed.

Lemma with_stmts_nil l om :
  with_decls l (with_stmts (stmts om ++ []) om) = with_decls l om.
Proof. destruct om. unfold with_decls, with_stmts. simpl. by rewrite app_nil_r. Qed.

Lemma with_value_None od : value od = None -> with_value None od = od.
Proof. destruct od. simpl. by intros ->. Qed.

Lemma simp_net_decl_eq decl mod_ :
  simp_net_decl decl mod_
  = (k <- vlog_subkind decl ;;
     (if ((k =? V_NET_SUPPLY0) || (k =? V_NET_SUPPLY1))%Z
      then gate_block k decl mod_ else ret tt) ;;;
     hv <- vlog_has_value decl ;;
     (if (hv : bool) then hoist_block decl mod_ else ret tt) ;;;
     ret decl).
Proof. reflexivity. Qed.

(** The first block of [simp_net_decl]. *)
Lemma gate_stage (c : bool) k decl mod_ s od om id :
  nodes s !! decl = Some od -> nodes s !! mod_ = Some om -> decl <> mod_ ->
  ident od = Some id ->
  exists s1 ns,
    (if c then gate_block k decl mod_ else ret tt) s = Some (tt, s1) /\
    step mod_ decl s s1 /\
    nodes s1 !! decl = Some od /\
    nodes s1 !! mod_ = Some (with_stmts (stmts om ++ ns) om) /\
    length ns <= 1 /\ Forall (clean 2 s1) ns /\
    Forall (fun x => nodes s !! x = None) ns /\
    (forall x, x ∈ interned s -> x ∈ interned s1) /\
    (idents_interned s -> idents_interned s1).
Proof.
  intros Ed Em Hne Ei. destruct c.
  - destruct (gate_block_spec k decl mod_ s od om id Ed Em Ei)
      as (g & st & t & s1 & E & Hg & Hst & Ht & Hgst & Hgt & Hstt
          & Eg & Est & Et & Emod & Hother & Hint).
    assert (g <> decl) by (intros E0; rewrite E0 in *; congruence).
    assert (st <> decl) by (intros E0; rewrite E0 in *; congruence).
    assert (t <> decl) by (intros E0; rewrite E0 in *; congruence).
    exists s1, [g]. split; [done|]. split; [|split; [|split; [done|]]].
    + split; [by eexists|]. split; [by eexists|]. split; [|split; [|split]].
      * intros x o Ex ? ?. rewrite Hother; [done|..|done].
        all: intros E0; rewrite E0 in *; congruence.
      * intros od0 E0. exists od0. rewrite Hother by done.
        split; [done|]. repeat split; auto.
      * intros om0 E0. exists [g], []. rewrite Emod.
        assert (om0 = om) as -> by congruence. by rewrite with_decls_nil.
      * intros x o' Ex Ex'.
        destruct (decide (x = g)) as [->|]; [left; by simplify_eq|].
        destruct (decide (x = st)) as [->|]; [left; by simplify_eq|].
        destruct (decide (x = t)) as [->|]; [left; by simplify_eq|].
        assert (x <> mod_) by (intros E0; rewrite E0 in *; congruence).
        rewrite Hother in Ex' by done. congruence.
    + by rewrite Hother.
    + split; [simpl; lia|]. split; [|split; [|split]].
      * apply Forall_singleton. eexists. split; [exact Eg|].
        split; [done|]. split; [simpl; lia|]. split; [simpl; lia|].
        split; [simpl; lia|]. unfold children. simpl.
        apply Forall_cons. split.
        { eexists. split; [exact Et|]. repeat split; simpl; auto. }
        apply Forall_singleton.
        eexists. split; [exact Est|]. repeat split; simpl; auto.
      * by apply Forall_singleton.
      * intros x Hx. rewrite Hint. by do 2 apply list_elem_of_further.
      * intros Hii x o i Ex Eid.
        destruct (decide (x = g)) as [->|].
        { rewrite Eg in Ex. simplify_eq. simpl in Eid. simplify_eq.
          rewrite Hint. apply list_elem_of_here. }
        destruct (decide (x = st)) as [->|].
        { rewrite Est in Ex. simplify_eq. }
        destruct (decide (x = t)) as [->|].
        { rewrite Et in Ex. simplify_eq. simpl in Eid. simplify_eq.
          rewrite Hint. do 2 apply list_elem_of_further.
          by apply (Hii decl od). }
        destruct (decide (x = mod_)) as [->|].
        { rewrite Emod in Ex. simplify_eq. simpl in Eid.
          rewrite Hint. do 2 apply list_elem_of_further.
          by apply (Hii mod_ om). }
        rewrite Hother in Ex by done.
        rewrite Hint. do 2 apply list_elem_of_further.
        by apply (Hii x o).
  - exists s, []. split; [done|]. split; [by apply step_refl|].
    split; [done|]. split.
    { rewrite app_nil_r. by destruct om. }
    split; [simpl; lia|]. split; [done|]. split; [done|]. done.
Qed.

(** The second block of [simp_net_decl]. *)
Lemma hoist_stage b decl mod_ s od om id :
  nodes s !! decl = Some od -> nodes s !! mod_ = Some om -> decl <> mod_ ->
  ident od = Some id -> plain (kind od) = false -> is_top (kind om) = true ->
  exists s2 ns,
    (if (if value od is Some _ then true else false)
     then hoist_block decl mod_ else ret tt) s = Some (tt, s2) /\
    step mod_ decl s s2 /\
    nodes s2 !! decl = Some (with_value None od) /\
    nodes s2 !! mod_ = Some (with_stmts (stmts om ++ ns) om) /\
    length ns <= 1 /\
    ((forall v, value od = Some v -> clean b s v) ->
     Forall (clean (S b) s2) ns) /\
    Forall (fun x => nodes s !! x = None) ns /\
    (forall x, x ∈ interned s -> x ∈ interned s2) /\
    (idents_interned s -> idents_interned s2) /\
    (forall v, value od = Some v ->
       exists a r,
         ns = [a] /\ nodes s !! a = None /\ nodes s !! r = None /\
         nodes s2 !! a
         = Some (assign_obj (uniq (interned s) ("__assign#" ++ id))
                   (loc od) v r) /\
         nodes s2 !! r = Some (ref_obj id (loc od) decl) /\
         interned s2 = uniq (interned s) ("__assign#" ++ id) :: interned s /\
         (idents_interned s ->
          forall x o, nodes s2 !! x = Some o ->
            ident o = Some (uniq (interned s) ("__assign#" ++ id)) -> x = a)).
Proof.
  intros Ed Em Hne Ei Hkd Hkm. destruct (value od) as [v|] eqn:Ev.
  - destruct (hoist_block_spec decl mod_ s od om v id Ed Em Hne Ev Ei)
      as (r & a & s2 & E & Hr & Ha & Hra & Ed2 & Er & Ea & Emod & Hother & Hint).
    assert (r <> decl) by (intros E0; rewrite E0 in *; congruence).
    assert (a <> decl) by (intros E0; rewrite E0 in *; congruence).
    assert (Hstep : step mod_ decl s s2).
    { split; [by eexists|]. split; [by eexists|]. split; [|split; [|split]].
      * intros x o Ex ? ?. rewrite Hother; [done|done|..|done].
        all: intros E0; rewrite E0 in *; congruence.
      * intros od0 E0. assert (od0 = od) as -> by congruence.
        exists (with_value None od). split; [done|]. simpl.
        repeat split; auto.
      * intros om0 E0. exists [a], []. rewrite Emod.
        assert (om0 = om) as -> by congruence. by rewrite with_decls_nil.
      * intros x o' Ex Ex'.
        destruct (decide (x = r)) as [->|]; [left; by simplify_eq|].
        destruct (decide (x = a)) as [->|]; [left; by simplify_eq|].
        assert (x <> mod_) by (intros E0; rewrite E0 in *; congruence).
        assert (x <> decl) by (intros E0; rewrite E0 in *; congruence).
        rewrite Hother in Ex' by done. congruence. }
    exists s2, [a]. split; [done|]. split; [done|]. split; [done|].
    split; [done|]. split; [simpl; lia|]. split; [|split; [|split; [|split]]].
    + intros Hv. apply Forall_singleton. eexists. split; [exact Ea|].
      split; [done|]. split; [simpl; lia|]. split; [simpl; lia|].
      split; [simpl; lia|]. unfold children. simpl.
      pose proof (Hv v eq_refl) as Hcv.
      apply Forall_cons. split.
      { apply (clean_state b s); [|done].
        eapply step_plain; eauto. by destruct (kind om). }
      apply Forall_singleton. apply (clean_le 1).
      { destruct b; [done|lia]. }
      eexists. split; [exact Er|]. repeat split; simpl; auto.
    + by apply Forall_singleton.
    + intros x Hx. rewrite Hint. by apply list_elem_of_further.
    + intros Hii x o i Ex Eid. rewrite Hint.
      destruct (decide (x = a)) as [->|].
      { rewrite Ea in Ex. simplify_eq. simpl in Eid. simplify_eq.
        apply list_elem_of_here. }
      apply list_elem_of_further.
      destruct (decide (x = r)) as [->|].
      { rewrite Er in Ex. simplify_eq. simpl in Eid. simplify_eq.
        by apply (Hii decl od). }
      destruct (decide (x = mod_)) as [->|].
      { rewrite Emod in Ex. simplify_eq. simpl in Eid. by apply (Hii mod_ om). }
      destruct (decide (x = decl)) as [->|].
      { rewrite Ed2 in Ex. simplify_eq. simpl in Eid. by apply (Hii decl od). }
      rewrite Hother in Ex by done. by apply (Hii x o).
    + intros v0 [= <-]. exists a, r.
      split; [done|]. split; [done|]. split; [done|]. split; [done|].
      split; [done|]. split; [done|].
      intros Hii x o Ex Eid.
      destruct (decide (x = a)) as [->|Hxa]; [done|]. exfalso.
      apply (uniq_fresh (interned s) ("__assign#" ++ id)).
      destruct (decide (x = r)) as [->|].
      { rewrite Er in Ex. simplify_eq. simpl in Eid. simplify_eq.
        rewrite <- Eid. by apply (Hii decl od). }
      destruct (decide (x = mod_)) as [->|].
      { rewrite Emod in Ex. simplify_eq. simpl in Eid. by apply (Hii mod_ om). }
      destruct (decide (x = decl)) as [->|].
      { rewrite Ed2 in Ex. simplify_eq. simpl in Eid. by apply (Hii decl od). }
      rewrite Hother in Ex by done. by apply (Hii x o).
  - exists s, []. split; [done|]. split; [by apply step_refl|].
    split; [by rewrite with_value_None|]. split.
    { rewrite app_nil_r. by destruct om. }
    split; [simpl; lia|]. split; [done|]. split; [done|]. done.
Qed.

(** [simp_net_decl] on a net declaration: the declaration loses its
    value, the module gets the gate of a supply net and the assignment
    that takes the value, nothing else changes. *)
Lemma simp_net_decl_spec b decl mod_ s od om id :
  nodes s !! decl = Some od -> nodes s !! mod_ = Some om -> decl <> mod_ ->
  ident od = Some id -> plain (kind od) = false -> is_top (kind om) = true ->
  exists s' ns,
    simp_net_decl decl mod_ s = Some (decl, s') /\
    step mod_ decl s s' /\
    nodes s' !! decl = Some (with_value None od) /\
    nodes s' !! mod_ = Some (with_stmts (stmts om ++ ns) om) /\
    length ns <= 2 /\
    ((forall v, value od = Some v -> clean b s v) ->
     Forall (clean (S (S b)) s') ns) /\
    Forall (fun x => nodes s !! x = None) ns /\
    (forall x, x ∈ interned s -> x ∈ interned s') /\
    (idents_interned s -> idents_interned s') /\
    (forall v, value od = Some v ->
       exists a r uid,
         last ns = Some a /\ nodes s !! a = None /\ nodes s !! r = None /\
         nodes s' !! a = Some (assign_obj uid (loc od) v r) /\
         nodes s' !! r = Some (ref_obj id (loc od) decl) /\
         (uid ∉ interned s) /\ uid ∈ interned s' /\
         (idents_interned s ->
          forall x o, nodes s' !! x = Some o -> ident o = Some uid -> x = a)).
Proof.
  intros Ed Em Hne Ei Hkd Hkm. rewrite simp_net_decl_eq.
  erewrite bind_subkind by exact Ed.
  destruct (gate_stage ((subkind od =? V_NET_SUPPLY0)
                        || (subkind od =? V_NET_SUPPLY1))%Z
              (subkind od) decl mod_ s od om id Ed Em Hne Ei)
    as (s1 & ns1 & E1 & Hstep1 & Ed1 & Em1 & Hl1 & Hc1 & Hf1 & Hi1 & Hii1).
  rewrite (bind_Some _ _ _ _ _ E1).
  erewrite bind_has_value by exact Ed1.
  assert (Hp1 : forall x o, nodes s !! x = Some o -> plain (kind o) = true ->
                  nodes s1 !! x = Some o).
  { eapply step_plain; eauto. by destruct (kind om). }
  destruct (hoist_stage b decl mod_ s1 od _ id Ed1 Em1 Hne Ei Hkd Hkm)
    as (s2 & ns2 & E2 & Hstep2 & Ed2 & Em2 & Hl2 & Hc2 & Hf2 & Hi2 & Hii2 & Hval).
  rewrite (bind_Some _ _ _ _ _ E2).
  assert (Hp2 : forall x o, nodes s1 !! x = Some o -> plain (kind o) = true ->
                  nodes s2 !! x = Some o).
  { eapply step_plain; eauto. simpl. by destruct (kind om). }
  exists s2, (ns1 ++ ns2). split; [done|].
  split; [by eapply step_trans|]. split; [done|]. split.
  { rewrite Em2. f_equal. unfold with_stmts. simpl. by rewrite app_assoc. }
  split; [rewrite length_app; lia|]. split; [|split; [|split; [|split]]].
  - intros Hv. apply Forall_app. split.
    + eapply Forall_impl; [exact Hc1|]. intros x Hx.
      apply (clean_le 2); [lia|]. by apply (clean_state 2 s1).
    + eapply Forall_impl; [apply Hc2|].
      * intros v Ev. apply (clean_state b s); [done|]. by apply Hv.
      * intros x Hx. by apply clean_mono.
  - apply Forall_app. split; [done|].
    eapply Forall_impl; [exact Hf2|]. intros x Hx. simpl in Hx.
    destruct (nodes s !! x) as [o|] eqn:Ex; [|done]. exfalso.
    destruct Hstep1 as (_ & _ & Ha & Hb & Hc & _).
    destruct (decide (x = decl)) as [->|]; [congruence|].
    destruct (decide (x = mod_)) as [->|]; [congruence|].
    rewrite (Ha x o Ex) in Hx; done.
  - auto.
  - auto.
  - intros v Ev. destruct (Hval v Ev) as (a & r & -> & Ha & Hr & Ea & Er & Eint & Hu).
    exists a, r, (uniq (interned s1) ("__assign#" ++ id)).
    split; [by rewrite last_snoc|].
    assert (Hold : forall x, nodes s1 !! x = None -> nodes s !! x = None).
    { intros x Hx. destruct (nodes s !! x) as [o|] eqn:Ex; [|done]. exfalso.
      destruct Hstep1 as (_ & _ & Ha1 & Hb1 & Hc1' & _).
      destruct (decide (x = decl)) as [->|]; [congruence|].
      destruct (decide (x = mod_)) as [->|]; [congruence|].
      rewrite (Ha1 x o Ex) in Hx; done. }
    split; [by apply Hold|]. split; [by apply Hold|].
    split; [done|]. split; [done|]. split.
    { intros Hin. by apply (uniq_fresh (interned s1) ("__assign#" ++ id)), Hi1. }
    split; [rewrite Eint; apply list_elem_of_here|].
    intros Hii. apply Hu. by apply Hii1.
Qed.

Lemma vlog_simp_cb_plain v ctx o s :
  nodes s !! v = Some o -> plain (kind o) = true ->
  vlog_simp_cb v ctx s = Some (v, s).
Proof.
  intros E Hk. unfold vlog_simp_cb, vlog_kind.
  rewrite bind_assoc, (bind_get _ _ _ _ E), bind_ret.
  by destruct (kind o).
Qed.

(** The walk leaves a tree of plain nodes as it is. *)
Lemma vlog_rewrite_clean ctx b : forall n v s,
  clean b s v -> 2 * b <= n ->
  vlog_rewrite n vlog_simp_cb ctx v s = Some (v, s).
Proof.
  induction b as [|b IH]; intros n v s Hc Hn; [done|].
  destruct Hc as (o & E & Hk & Hp & Hd & Hs & Hc).
  destruct n as [|n]; [lia|]. cbn [vlog_rewrite].
  unfold children in Hc. rewrite !Forall_app in Hc.
  destruct Hc as (Hv & Ht & Hty & Hps & Hds & Hss).
  assert (Hrec : forall c, clean b s c ->
            vlog_rewrite n vlog_simp_cb ctx c s = Some (c, s))
    by (intros c Hcc; apply IH; [done|lia]).
  assert (Hobj : forall i, rewrite_object (vlog_rewrite n vlog_simp_cb ctx) v i s
                           = Some (tt, s)).
  { intros i. apply (rewrite_object_same _ _ _ o); [done|].
    intros c Ec. apply Hrec.
    destruct i; simpl in Ec; rewrite Ec in *; simpl in *;
      by match goal with Hx : Forall _ [c] |- _ => inversion Hx end. }
  assert (Harr : forall i, rewrite_array n (vlog_rewrite n vlog_simp_cb ctx) v i 0 s
                           = Some (tt, s)).
  { intros i. apply (rewrite_array_same _ _ _ o); [done| | |lia].
    - intros c Hin. apply Hrec.
      destruct i; simpl in Hin;
        match goal with Hx : Forall _ ?l, Hy : c ∈ ?l |- _ =>
          rewrite Forall_forall in Hx; by apply Hx end.
    - destruct i; simpl; lia. }
  rewrite !(bind_Some _ _ _ _ _ (Hobj _)).
  rewrite !(bind_Some _ _ _ _ _ (Harr _)).
  by apply (vlog_simp_cb_plain _ _ o).
Qed.

Lemma idents_interned_check_sound s :
  idents_interned_check s = true -> idents_interned s.
Proof.
  unfold idents_interned_check. rewrite List.forallb_forall.
  intros Hc x o id Ex Ei. specialize (Hc (x, o)). simpl in Hc.
  rewrite Ei in Hc. apply (bool_decide_unpack _). apply Is_true_true, Hc.
  apply list_elem_of_In. by apply elem_of_map_to_list.
Qed.

End Vlog.

Section Tree.
Context `{Env}.

(** More steps do not change the result of a walk. *)
Lemma bind_le {A B} (m m' : M A) (k k' : A -> M B) :
  le_M m m' -> (forall a, le_M (k a) (k' a)) -> le_M (bind m k) (bind m' k').
Proof.
  intros Hm Hk s r. unfold bind. destruct (m s) as [[a s1]|] eqn:E; [|done].
  rewrite (Hm _ _ E). apply Hk.
Qed.

Lemma le_M_refl {A} (m : M A) : le_M m m.
Proof. by intros s r. Qed.

Lemma rewrite_object_le rec rec' v i :
  (forall c, le_M (rec c) (rec' c)) ->
  le_M (rewrite_object rec v i) (rewrite_object rec' v i).
Proof.
  intros Hrec. unfold rewrite_object. apply bind_le; [apply le_M_refl|].
  intros o. destruct (get_object i o) as [c|]; [|apply le_M_refl].
  apply bind_le; [apply Hrec|]. intros c'. apply le_M_refl.
Qed.

Lemma rewrite_array_le rec rec' v i :
  (forall c, le_M (rec c) (rec' c)) ->
  forall fuel fuel' n, fuel <= fuel' ->
  le_M (rewrite_array fuel rec v i n) (rewrite_array fuel' rec' v i n).
Proof.
  intros Hrec. induction fuel as [|fuel IH]; intros fuel' n Hle; [by intros s r|].
  destruct fuel' as [|fuel']; [lia|]. cbn [rewrite_array].
  apply bind_le; [apply le_M_refl|].
  intros o. destruct (get_array i o !! n) as [c|]; [|apply le_M_refl].
  apply bind_le; [apply Hrec|]. intros c'.
  apply bind_le; [apply le_M_refl|]. intros _. apply IH. lia.
Qed.

Lemma vlog_rewrite_le fn ctx : forall n m v, n <= m ->
  le_M (vlog_rewrite n fn ctx v) (vlog_rewrite m fn ctx v).
Proof.
  induction n as [|n IH]; intros m v Hle; [by intros s r|].
  destruct m as [|m]; [lia|]. cbn [vlog_rewrite].
  assert (Hrec : forall c, le_M (vlog_rewrite n fn ctx c) (vlog_rewrite m fn ctx c))
    by (intros c; apply IH; lia).
  repeat (apply bind_le; [first [by apply rewrite_object_le
                                | apply rewrite_array_le; [done|lia]]|intros _]).
  apply le_M_refl.
Qed.

(** The least number with a property. *)
Lemma least_le P : forall B b, P b = true -> least P B <= b.
Proof.
  intros B. revert P. induction B as [|B IH]; intros P b Hb; simpl; [lia|].
  destruct (P 0) eqn:E0; [lia|].
  destruct b as [|b]; [congruence|].
  specialize (IH (fun b => P (S b)) b Hb). lia.
Qed.

Lemma least_true P : forall B b, P b = true -> b <= B -> P (least P B) = true.
Proof.
  intros B. revert P. induction B as [|B IH]; intros P b Hb Hle; simpl.
  - by replace b with 0 in Hb by lia.
  - destruct (P 0) eqn:E0; [done|].
    destruct b as [|b]; [congruence|].
    apply (IH (fun b => P (S b)) b Hb). lia.
Qed.

Lemma tree_raw mod_ B s : forall b v, b <= B ->
  tree mod_ b s v = true -> raw (height mod_ B s) mod_ b s v.
Proof.
  induction b as [|b IH]; intros v Hle Ht; [done|].
  pose proof Ht as Ht0.
  cbn [tree] in Ht. apply andb_prop in Ht as [Hne Ht].
  apply bool_decide_eq_true in Hne.
  destruct (nodes s !! v) as [o|] eqn:E; [|done].
  repeat (apply andb_prop in Ht as [Ht ?]).
  split; [done|]. exists o. split; [done|]. split; [done|].
  split; [by apply Nat.leb_le|]. split; [by apply Nat.leb_le|].
  split; [by apply Nat.leb_le|].
  apply Forall_forall. intros c Hc. split.
  - pose proof (least_true (fun b => tree mod_ b s v) B (S b) Ht0 Hle) as Hh.
    fold (height mod_ B s v) in Hh.
    destruct (height mod_ B s v) as [|h] eqn:Eh; [done|].
    cbn [tree] in Hh. rewrite E in Hh. apply andb_prop in Hh as [_ Hh].
    repeat (apply andb_prop in Hh as [Hh ?]).
    assert (Hch : tree mod_ h s c = true).
    { match goal with Hx : forallb _ (children o) = true |- _ =>
        rewrite List.forallb_forall in Hx; apply Hx end.
      by apply list_elem_of_In. }
    pose proof (least_le (fun b => tree mod_ b s c) B h Hch) as Hl.
    unfold height at 1. lia.
  - apply IH; [lia|].
    match goal with Hx : forallb _ (children o) = true |- _ =>
      rewrite List.forallb_forall in Hx; apply Hx end.
    by apply list_elem_of_In.
Qed.

(** The bounds can be raised. *)
Lemma raw_le rank mod_ s : forall b b' v,
  b <= b' -> raw rank mod_ b s v -> raw rank mod_ b' s v.
Proof.
  induction b as [|b IH]; intros b' v Hle; [done|].
  destruct b' as [|b']; [lia|].
  intros (Hne & o & E & Hi & Hp & Hd & Hs & Hc). split; [done|]. exists o.
  split; [done|]. split; [done|]. split; [lia|]. split; [lia|]. split; [lia|].
  eapply Forall_impl; [exact Hc|]. intros c [Hr Hc']. split; [done|].
  apply (IH b'); [lia|done].
Qed.

Lemma settled_le mod_ s : forall b b' v,
  b <= b' -> settled mod_ b s v -> settled mod_ b' s v.
Proof.
  induction b as [|b IH]; intros b' v Hle; [done|].
  destruct b' as [|b']; [lia|].
  intros (Hne & o & E & Hi & Hdn & Hp & Hd & Hs & Hc). split; [done|]. exists o.
  split; [done|]. split; [done|]. split; [done|].
  split; [lia|]. split; [lia|]. split; [lia|].
  eapply Forall_impl; [exact Hc|]. intros c Hc'. apply (IH b'); [lia|done].
Qed.

Lemma plain_decl_ok o : plain (kind o) = true -> decl_ok o = true /\ nothing_left o.
Proof.
  intros Hp. unfold decl_ok, nothing_left. destruct (kind o); try done.
Qed.

Lemma clean_settled mod_ s om : forall b v,
  nodes s !! mod_ = Some om -> is_top (kind om) = true ->
  clean b s v -> settled mod_ b s v.
Proof.
  intros b v Em Hkm. revert v. induction b as [|b IH]; intros v; [done|].
  intros (o & E & Hk & Hp & Hd & Hs & Hc). split.
  - intros ->. assert (o = om) as -> by congruence.
    by destruct (kind om).
  - exists o. destruct (plain_decl_ok o Hk) as [Hi Hdn].
    repeat (split; [done|]). eapply Forall_impl; [exact Hc | exact IH].
Qed.

(** What is kept. *)
Lemma keeps_refl o : keeps o o.
Proof.
  unfold keeps. repeat (split; [done|]). split; [by left|]. split; [by left|done].
Qed.

Lemma keeps_trans o o1 o2 : keeps o o1 -> keeps o1 o2 -> keeps o o2.
Proof.
  intros (K1 & I1 & T1 & Y1 & P1 & D1 & S1 & V1 & R1 & SK1)
         (K2 & I2 & T2 & Y2 & P2 & D2 & S2 & V2 & R2 & SK2).
  unfold keeps. split; [congruence|]. split; [congruence|].
  split; [congruence|]. split; [congruence|]. split; [congruence|].
  split; [congruence|]. split; [congruence|]. split; [|split; [|congruence]].
  - destruct V2 as [V2|[? V2]]; [|right; split; congruence].
    destruct V1 as [V1|[? V1]]; [left; congruence | right; split; congruence].
  - destruct R2 as [R2|[? R2]]; [|right; split; congruence].
    destruct R1 as [R1|[? R1]]; [left; congruence | right; split; [done|]].
    by rewrite R2.
Qed.

Lemma keeps_children o o' : keeps o o' -> children o' ⊆ children o.
Proof.
  intros (K & I & T & Y & P & D & S & V & R & SK).
  apply children_sub; try done. destruct V as [V|[_ V]]; auto.
Qed.

Lemma keeps_decl_ok o o' : keeps o o' -> decl_ok o = true -> decl_ok o' = true.
Proof.
  intros (K & I & T & Y & P & D & S & V & R & SK). unfold decl_ok.
  rewrite K, I, SK. destruct (kind o); try done.
  - destruct R as [->|[_ [r ->]]]; [done|]. by destruct (ident o).
  - destruct V as [->|[_ ->]]; [done|]. rewrite orb_false_r.
    by destruct ((subkind o =? V_NET_SUPPLY0)%Z || (subkind o =? V_NET_SUPPLY1)%Z).
Qed.

Lemma keeps_nothing_left o o' : keeps o o' -> nothing_left o -> nothing_left o'.
Proof.
  intros (K & I & T & Y & P & D & S & V & R & SK) [Hv Hr]. split.
  - intros Hk. rewrite K in Hk. destruct V as [V|[_ V]]; [|done].
    rewrite V. by apply Hv.
  - intros Hk. rewrite K in Hk. destruct R as [R|[_ R]]; [|done].
    rewrite R. by apply Hr.
Qed.

Lemma kept_refl mod_ s : kept mod_ s s.
Proof. intros x o E _. exists o. split; [done|apply keeps_refl]. Qed.

Lemma kept_trans mod_ s s1 s2 :
  kept mod_ s s1 -> kept mod_ s1 s2 -> kept mod_ s s2.
Proof.
  intros H1 H2 x o E Hne. destruct (H1 x o E Hne) as (o1 & E1 & K1).
  destruct (H2 x o1 E1 Hne) as (o2 & E2 & K2).
  exists o2. split; [done|]. by eapply keeps_trans.
Qed.

Lemma settled_kept mod_ s s' : kept mod_ s s' ->
  forall b v, settled mod_ b s v -> settled mod_ b s' v.
Proof.
  intros Hk. induction b as [|b IH]; intros v; [done|].
  intros (Hne & o & E & Hi & Hdn & Hp & Hd & Hs & Hc).
  destruct (Hk v o E Hne) as (o' & E' & K).
  split; [done|]. exists o'. split; [done|].
  split; [by apply (keeps_decl_ok o o')|].
  split; [by apply (keeps_nothing_left o)|].
  pose proof (keeps_children _ _ K) as Hsub.
  destruct K as (_ & _ & _ & _ & -> & -> & -> & _).
  repeat (split; [done|]).
  apply Forall_forall. intros c Hin. apply IH.
  rewrite Forall_forall in Hc. by apply Hc, Hsub.
Qed.

Lemma raw_kept rank mod_ s s' : kept mod_ s s' ->
  forall b v, raw rank mod_ b s v -> raw rank mod_ b s' v.
Proof.
  intros Hk. induction b as [|b IH]; intros v; [done|].
  intros (Hne & o & E & Hi & Hp & Hd & Hs & Hc).
  destruct (Hk v o E Hne) as (o' & E' & K).
  split; [done|]. exists o'. split; [done|].
  split; [by apply (keeps_decl_ok o o')|].
  pose proof (keeps_children _ _ K) as Hsub.
  destruct K as (_ & _ & _ & _ & -> & -> & -> & _).
  repeat (split; [done|]).
  apply Forall_forall. intros c Hin.
  rewrite Forall_forall in Hc. destruct (Hc c (Hsub c Hin)) as [Hr Hc'].
  split; [done|]. by apply IH.
Qed.

Lemma with_app om ns nd ns' nd' :
  with_decls (decls (with_decls (decls om ++ nd) (with_stmts (stmts om ++ ns) om))
              ++ nd')
    (with_stmts (stmts (with_decls (decls om ++ nd)
                          (with_stmts (stmts om ++ ns) om)) ++ ns')
       (with_decls (decls om ++ nd) (with_stmts (stmts om ++ ns) om)))
  = with_decls (decls om ++ nd ++ nd') (with_stmts (stmts om ++ ns ++ ns') om).
Proof. destruct om. unfold with_decls, with_stmts. simpl. by rewrite !app_assoc. Qed.

Lemma evolves_refl mod_ B s : evolves mod_ B s s.
Proof.
  split; [apply kept_refl|]. intros om E. exists [], [].
  by rewrite with_nil.
Qed.

Lemma evolves_trans mod_ B s s1 s2 :
  evolves mod_ B s s1 -> evolves mod_ B s1 s2 -> evolves mod_ B s s2.
Proof.
  intros [K1 G1] [K2 G2]. split; [by eapply kept_trans|].
  intros om E. destruct (G1 om E) as (ns1 & nd1 & E1 & Hs1 & Hd1).
  destruct (G2 _ E1) as (ns2 & nd2 & E2 & Hs2 & Hd2).
  exists (ns1 ++ ns2), (nd1 ++ nd2). rewrite E2, with_app.
  split; [done|]. split; apply Forall_app; (split; [|done]).
  - eapply Forall_impl; [exact Hs1|]. intros c. by apply settled_kept.
  - eapply Forall_impl; [exact Hd1|]. intros c. by apply settled_kept.
Qed.

Lemma gated_evolves mod_ B s s' om :
  nodes s !! mod_ = Some om -> is_top (kind om) = true -> 2 <= B ->
  gated mod_ s s' -> evolves mod_ B s s'.
Proof.
  intros Em Hkm HB [Hf Hg]. split.
  - intros x o E Hne. exists o. split; [by apply Hf|apply keeps_refl].
  - intros om0 E0. assert (om0 = om) as -> by congruence.
    destruct (Hg om Em) as (ns & E' & Hc). exists ns, [].
    rewrite E', with_decls_nil. split; [done|]. split; [|done].
    eapply Forall_impl; [exact Hc|]. intros c Hcc.
    apply (settled_le _ _ 2); [done|].
    by apply (clean_settled mod_ s' (with_stmts (stmts om ++ ns) om)).
Qed.

Lemma gated_refl mod_ s : gated mod_ s s.
Proof.
  split; [done|]. intros om E. exists []. rewrite app_nil_r.
  split; [by destruct om|done].
Qed.

Lemma gated_plain mod_ s s' om :
  nodes s !! mod_ = Some om -> is_top (kind om) = true -> gated mod_ s s' ->
  forall x o, nodes s !! x = Some o -> plain (kind o) = true ->
  nodes s' !! x = Some o.
Proof.
  intros Em Hkm [Hf _] x o E Hp. apply Hf; [done|].
  intros ->. assert (o = om) as -> by congruence. by destruct (kind om).
Qed.

Lemma gated_trans mod_ s s1 s2 om :
  nodes s !! mod_ = Some om -> is_top (kind om) = true ->
  gated mod_ s s1 -> gated mod_ s1 s2 -> gated mod_ s s2.
Proof.
  intros Em Hkm G1 G2. pose proof G1 as [F1 H1]. pose proof G2 as [F2 H2].
  split.
  - intros x o E Hne. apply F2; [|done]. by apply F1.
  - intros om0 E0. assert (om0 = om) as -> by congruence.
    destruct (H1 om Em) as (ns1 & E1 & Hc1).
    destruct (H2 _ E1) as (ns2 & E2 & Hc2).
    exists (ns1 ++ ns2). rewrite E2. split.
    + f_equal. destruct om. unfold with_stmts. simpl. by rewrite app_assoc.
    + apply Forall_app. split; [|done].
      eapply Forall_impl; [exact Hc1|]. intros c.
      apply clean_state. by apply (gated_plain mod_ s1 s2 _ E1).
Qed.

Lemma above_refl rank mod_ x s : above rank mod_ x s s.
Proof. by intros y o E _ _. Qed.

Lemma above_trans rank mod_ x s s1 s2 :
  above rank mod_ x s s1 -> above rank mod_ x s1 s2 -> above rank mod_ x s s2.
Proof. intros H1 H2 y o E Hne Hr. apply H2; [|done|done]. by apply H1. Qed.

Lemma get_array_grow i om ns nd :
  get_array i (with_decls (decls om ++ nd) (with_stmts (stmts om ++ ns) om))
  = get_array i om ++ grow i ns nd.
Proof. destruct i; simpl; [by rewrite app_nil_r|done|done]. Qed.

Lemma get_object_grow i om ns nd :
  get_object i (with_decls (decls om ++ nd) (with_stmts (stmts om ++ ns) om))
  = get_object i om.
Proof. by destruct i. Qed.

Lemma settled_reach mod_ s : forall b v d o,
  settled mod_ b s v -> reach s v d -> nodes s !! d = Some o ->
  kind o = V_NET_DECL -> value o = None.
Proof.
  intros b v d o Hs Hr. revert b Hs. induction Hr as [v|v c d Ho Hr IH].
  - intros [|b]; [done|]. intros (_ & o' & E & _ & [Hv _] & _) E' Hk.
    assert (o' = o) as -> by congruence. by apply Hv.
  - intros [|b]; [done|]. intros (_ & o' & E & _ & _ & _ & _ & _ & Hc).
    destruct Ho as (o'' & E'' & Hin). assert (o'' = o') as -> by congruence.
    rewrite Forall_forall in Hc. by apply (IH b), Hc.
Qed.


End Tree.

Section Walk.
Context `{Env}.

Lemma in_children_object i o c : get_object i o = Some c -> c ∈ children o.
Proof.
  unfold children. destruct i; simpl; intros ->; simpl;
    rewrite ?elem_of_app; rewrite ?elem_of_cons; auto 6.
Qed.

Lemma in_children_array i o c : c ∈ get_array i o -> c ∈ children o.
Proof.
  unfold children. destruct i; simpl; intros Hin; rewrite !elem_of_app; auto 8.
Qed.

(** The callback on a node whose parts are done. *)
Lemma cb_spec mod_ x s od om b :
  nodes s !! x = Some od -> nodes s !! mod_ = Some om ->
  is_top (kind om) = true -> x <> mod_ -> decl_ok od = true ->
  Forall (settled mod_ b s) (children od) ->
  exists s' o' ns nd,
    vlog_simp_cb x mod_ s = Some (x, s') /\
    nodes s' !! x = Some o' /\ keeps od o' /\ nothing_left o' /\
    nodes s' !! mod_
    = Some (with_decls (decls om ++ nd) (with_stmts (stmts om ++ ns) om)) /\
    (forall y o, nodes s !! y = Some o -> y <> x -> y <> mod_ ->
       nodes s' !! y = Some o) /\
    (forall B, S b <= B -> 2 <= B -> Forall (settled mod_ B s') (ns ++ nd)) /\
    (nothing_left od -> o' = od /\ nd = [] /\ Forall (clean 2 s') ns).
Proof.
  intros Ed Em Hkm Hne Hok Hch.
  assert (Hnop : nothing_left od ->
                 vlog_simp_cb x mod_ s = Some (x, s) ->
                 exists s' o' ns nd,
    vlog_simp_cb x mod_ s = Some (x, s') /\
    nodes s' !! x = Some o' /\ keeps od o' /\ nothing_left o' /\
    nodes s' !! mod_
    = Some (with_decls (decls om ++ nd) (with_stmts (stmts om ++ ns) om)) /\
    (forall y o, nodes s !! y = Some o -> y <> x -> y <> mod_ ->
       nodes s' !! y = Some o) /\
    (forall B, S b <= B -> 2 <= B -> Forall (settled mod_ B s') (ns ++ nd)) /\
    (nothing_left od -> o' = od /\ nd = [] /\ Forall (clean 2 s') ns)).
  { intros Hn E. exists s, od, [], []. split; [done|]. split; [done|].
    split; [apply keeps_refl|]. split; [done|].
    split; [by rewrite with_nil|]. split; [done|]. split; [done|]. done. }
  unfold vlog_simp_cb in *. erewrite bind_kind in * by exact Ed.
  destruct (kind od) eqn:K; try (by apply Hnop; [split; by rewrite K|]).
  - (* a port *)
    destruct (ref od) as [r|] eqn:Er.
    + apply Hnop.
      * split; [by rewrite K|]. intros _. by rewrite Er.
      * unfold simp_port_decl. erewrite bind_has_ref by exact Ed. by rewrite Er.
    + clear Hnop.
      assert (exists id, ident od = Some id) as [id Ei].
      { unfold decl_ok in Hok. rewrite K, Er in Hok.
        destruct (ident od); [by eexists|done]. }
      pose proof (simp_port_decl_spec x mod_ s od om id Ed Em Hne Ei) as Hs.
      rewrite Er in Hs.
      destruct Hs as (w & s' & E & Hw & Ew & Ed' & Em' & Hother & _).
      assert (w <> mod_) by (intros E0; rewrite E0 in *; congruence).
      assert (w <> x) by (intros E0; rewrite E0 in *; congruence).
      assert (Hfr : forall y o, nodes s !! y = Some o -> y <> x -> y <> mod_ ->
                nodes s' !! y = Some o).
      { intros y o Ey ? ?. rewrite Hother; [done|done| |done].
        intros E0; rewrite E0 in *; congruence. }
      assert (Hkeep : keeps od (with_ref (Some w) od)).
      { unfold keeps. simpl. repeat (split; [done|]). split; [by left|].
        split; [|done]. right. split; [done|]. by eexists. }
      exists s', (with_ref (Some w) od), [], [w].
      split; [done|]. split; [done|]. split; [done|]. split.
      { split; simpl; [by rewrite K|]. intros _. by eexists. }
      split; [by rewrite Em', with_stmts_nil|]. split; [done|]. split.
      * intros B HB1 HB2. apply Forall_singleton.
        apply (settled_le _ _ (S b)); [done|]. split; [done|].
        eexists. split; [exact Ew|]. split.
        { unfold decl_ok. simpl. by destruct (_ || _). }
        split; [by split|]. simpl. split; [lia|]. split; [lia|]. split; [lia|].
        unfold children. simpl. rewrite !app_nil_r.
        apply Forall_forall. intros t Ht.
        apply (settled_kept mod_ s).
        { intros y o Ey Hym. destruct (decide (y = x)) as [->|Hyx].
          - exists (with_ref (Some w) od). split; [done|]. congruence.
          - exists o. split; [by apply Hfr|apply keeps_refl]. }
        rewrite Forall_forall in Hch. apply Hch.
        apply (in_children_object I_TYPE). simpl.
        destruct (type_ od); simpl in Ht; [|by apply elem_of_nil in Ht].
        apply list_elem_of_singleton in Ht. by subst.
      * intros [_ Hr]. destruct (Hr K) as [? ?]. congruence.
  - (* a net *)
    rewrite simp_net_decl_eq in *.
    erewrite bind_subkind in * by exact Ed.
    destruct (ident od) as [id|] eqn:Ei; cycle 1.
    { unfold decl_ok in Hok. rewrite K, Ei in Hok.
      destruct ((subkind od =? V_NET_SUPPLY0) || (subkind od =? V_NET_SUPPLY1))%Z;
        [done|].
      destruct (value od) as [v|] eqn:Ev; [done|].
      apply Hnop; [split; [done|by rewrite K]|].
      rewrite bind_ret. erewrite bind_has_value by exact Ed. by rewrite Ev. }
    clear Hnop.
    assert (Hkd : plain (kind od) = false) by (by rewrite K).
    destruct (gate_stage ((subkind od =? V_NET_SUPPLY0)
                          || (subkind od =? V_NET_SUPPLY1))%Z
                (subkind od) x mod_ s od om id Ed Em Hne Ei)
      as (s1 & ns1 & E1 & Hstep1 & Ed1 & Em1 & Hl1 & Hc1 & Hf1 & _ & _).
    rewrite (bind_Some _ _ _ _ _ E1).
    erewrite bind_has_value by exact Ed1.
    destruct (hoist_stage 1 x mod_ s1 od _ id Ed1 Em1 Hne Ei Hkd Hkm)
      as (s2 & ns2 & E2 & Hstep2 & Ed2 & Em2 & Hl2 & Hc2 & Hf2 & _ & _ & Hval).
    rewrite (bind_Some _ _ _ _ _ E2).
    assert (Hfr : forall y o, nodes s !! y = Some o -> y <> x -> y <> mod_ ->
              nodes s2 !! y = Some o).
    { intros y o Ey ? ?.
      destruct Hstep1 as (_ & _ & Ha1 & _). destruct Hstep2 as (_ & _ & Ha2 & _).
      apply Ha2; [|done|done]. by apply Ha1. }
    assert (Hkeep : keeps od (with_value None od)).
    { unfold keeps. simpl. repeat (split; [done|]). split; [|by split; [left|]].
      right. by split. }
    assert (Hkept : kept mod_ s s2).
    { intros y o Ey Hym. destruct (decide (y = x)) as [->|Hyx].
      - exists (with_value None od). split; [done|]. congruence.
      - exists o. split; [by apply Hfr|apply keeps_refl]. }
    assert (Hp2 : forall y o, nodes s1 !! y = Some o -> plain (kind o) = true ->
                    nodes s2 !! y = Some o).
    { eapply step_plain; eauto. simpl. by destruct (kind om). }
    assert (Hm2 : nodes s2 !! mod_
                  = Some (with_decls (decls om ++ [])
                            (with_stmts (stmts om ++ ns1 ++ ns2) om))).
    { rewrite Em2, with_decls_nil. f_equal. unfold with_stmts. simpl.
      by rewrite app_assoc. }
    assert (Hg1 : Forall (clean 2 s2) ns1).
    { eapply Forall_impl; [exact Hc1|]. intros c. by apply clean_state. }
    exists s2, (with_value None od), (ns1 ++ ns2), [].
    split; [done|]. split; [done|]. split; [done|]. split.
    { split; simpl; [done|]. by rewrite K. }
    split; [done|]. split; [done|]. split.
    + intros B HB1 HB2. rewrite app_nil_r. apply Forall_app. split.
      * eapply Forall_impl; [exact Hg1|]. intros c Hc.
        apply (settled_le _ _ 2); [done|].
        by eapply clean_settled.
      * destruct (value od) as [v|] eqn:Ev.
        -- destruct (Hval v eq_refl) as (a & r & -> & Ha & Hr & Ea & Er & _).
           assert (a <> mod_) by (intros E0; rewrite E0 in *; congruence).
           assert (r <> mod_) by (intros E0; rewrite E0 in *; congruence).
           assert (Hv : settled mod_ b s2 v).
           { apply (settled_kept mod_ s); [done|].
             rewrite Forall_forall in Hch. apply Hch.
             by apply (in_children_object I_VALUE). }
           apply Forall_singleton. apply (settled_le _ _ (S b)); [done|].
           split; [done|]. eexists. split; [exact Ea|]. split; [done|].
           split; [by split|]. simpl. split; [lia|]. split; [lia|]. split; [lia|].
           unfold children. simpl. apply Forall_cons. split; [done|].
           apply Forall_singleton. apply (settled_le _ _ 1).
           { destruct b; [done|lia]. }
           split; [done|]. eexists. split; [exact Er|]. split; [done|].
           split; [by split|]. simpl. repeat (split; [lia|]). done.
        -- eapply Forall_impl; [by apply Hc2|]. intros c Hc.
           apply (settled_le _ _ 2); [done|]. by eapply clean_settled.
    + intros [Hv _]. specialize (Hv K). split; [by apply with_value_None|].
      split; [done|]. apply Forall_app. split; [done|].
      apply Hc2. intros v Ev. congruence.
Qed.

(** The walk of a slot and of an array of a node, when the walk of an
    entry keeps [J] and changes the store as [R] allows. *)
Section Generic.
Variables (R : state -> state -> Prop) (J : state -> Prop)
          (P : vlog_node_t -> state -> Prop).
Hypothesis R_refl : forall s, R s s.
Hypothesis R_trans : forall s s1 s2, J s -> R s s1 -> R s1 s2 -> R s s2.
Hypothesis P_stable : forall s s' c, J s -> R s s' -> P c s -> P c s'.

Lemma walk_object rec v i oc :
  (forall s, J s -> exists o, nodes s !! v = Some o /\ get_object i o = oc) ->
  (forall s c, J s -> oc = Some c ->
     exists s', rec c s = Some (c, s') /\ R s s' /\ J s' /\ P c s') ->
  forall s, J s ->
  exists s', rewrite_object rec v i s = Some (tt, s') /\ R s s' /\ J s' /\
             Forall (fun c => P c s') (option_list oc).
Proof using Type*.
  intros Hobj Hstep s HJ. unfold rewrite_object.
  destruct (Hobj s HJ) as (o & E & Eo). rewrite (bind_get _ _ _ _ E), Eo.
  destruct oc as [c|].
  - destruct (Hstep s c HJ eq_refl) as (s' & Er & HR & HJ' & HP).
    rewrite (bind_Some _ _ _ _ _ Er).
    destruct (Hobj s' HJ') as (o' & E' & Eo').
    exists s'. split.
    + apply (update_id _ _ o'); [done|]. by apply set_object_id.
    + split; [done|]. split; [done|]. by apply Forall_singleton.
  - exists s. split; [done|]. split; [apply R_refl|]. split; [done|].
    apply Forall_nil_2.
Qed.

Lemma walk_array rec v i arr :
  (forall s, J s -> exists o, nodes s !! v = Some o /\ get_array i o = arr) ->
  (forall s c, J s -> c ∈ arr ->
     exists s', rec c s = Some (c, s') /\ R s s' /\ J s' /\ P c s') ->
  forall fuel n s, length arr < n + fuel -> 0 < fuel -> J s ->
  Forall (fun c => P c s) (take n arr) ->
  exists s', rewrite_array fuel rec v i n s = Some (tt, s') /\ R s s' /\ J s' /\
             Forall (fun c => P c s') arr.
Proof using Type*.
  intros Hobj Hstep. induction fuel as [|fuel IH]; intros n s Hlen Hfuel HJ HP;
    [lia|].
  - cbn [rewrite_array].
    destruct (Hobj s HJ) as (o & E & Eo). rewrite (bind_get _ _ _ _ E), Eo.
    destruct (arr !! n) as [c|] eqn:Ec.
    + pose proof (lookup_lt_Some _ _ _ Ec).
      destruct (Hstep s c HJ ltac:(by eapply list_elem_of_lookup_2))
        as (s1 & Er & HR & HJ1 & HP1).
      rewrite (bind_Some _ _ _ _ _ Er).
      destruct (Hobj s1 HJ1) as (o1 & E1 & Eo1).
      erewrite bind_Some; [|apply (update_id _ _ o1); [done|]].
      * destruct (IH (S n) s1) as (s' & Ew & HR' & HJ' & HP'); [lia|lia|done| |].
        { rewrite (take_S_r _ _ c) by done. apply Forall_app. split.
          - eapply Forall_impl; [exact HP|]. intros d. by apply P_stable.
          - by apply Forall_singleton. }
        exists s'. split; [done|]. split; [by eapply R_trans|]. done.
      * rewrite Eo1, list_insert_id by done. rewrite <- Eo1. apply set_array_id.
    + exists s. split; [done|]. split; [apply R_refl|]. split; [done|].
      apply lookup_ge_None in Ec. by rewrite take_ge in HP by lia.
Qed.

(** The walk of what a node owns, up to the callback on the node. *)
Lemma walk_children fn ctx n v o :
  (forall s, J s -> exists o', nodes s !! v = Some o' /\
     (forall i, get_object i o' = get_object i o) /\
     (forall i, get_array i o' = get_array i o)) ->
  length (params o) < n -> length (decls o) < n -> length (stmts o) < n ->
  (forall s c, J s -> c ∈ children o ->
     exists s', vlog_rewrite n fn ctx c s = Some (c, s') /\ R s s' /\ J s' /\
                P c s') ->
  forall s, J s ->
  exists s', vlog_rewrite (S n) fn ctx v s = fn v ctx s' /\ R s s' /\ J s' /\
             Forall (fun c => P c s') (children o).
Proof using Type*.
  intros Hobj Hp Hd Hs Hstep s HJ. cbn [vlog_rewrite].
  assert (Ho : forall i s0, J s0 ->
            exists s', rewrite_object (vlog_rewrite n fn ctx) v i s0 = Some (tt, s')
                       /\ R s0 s' /\ J s' /\
                       Forall (fun c => P c s') (option_list (get_object i o))).
  { intros i s0 HJ0. apply walk_object; [| |done].
    - intros s1 HJ1. destruct (Hobj s1 HJ1) as (o' & E & Eo & _).
      exists o'. split; [done|apply Eo].
    - intros s1 c HJ1 Ec. apply Hstep; [done|].
      by apply (in_children_object i). }
  assert (Ha : forall i s0, J s0 ->
            exists s', rewrite_array n (vlog_rewrite n fn ctx) v i 0 s0 = Some (tt, s')
                       /\ R s0 s' /\ J s' /\
                       Forall (fun c => P c s') (get_array i o)).
  { intros i s0 HJ0. apply walk_array; [| | |lia|done|by apply Forall_nil_2].
    - intros s1 HJ1. destruct (Hobj s1 HJ1) as (o' & E & _ & Eo).
      exists o'. split; [done|apply Eo].
    - intros s1 c HJ1 Ec. apply Hstep; [done|].
      by apply (in_children_array i).
    - destruct i; simpl; lia. }
  destruct (Ho I_VALUE s HJ) as (s1 & E1 & R1 & J1 & P1).
  destruct (Ho I_TARGET s1 J1) as (s2 & E2 & R2 & J2 & P2).
  destruct (Ho I_TYPE s2 J2) as (s3 & E3 & R3 & J3 & P3).
  destruct (Ha I_PARAMS s3 J3) as (s4 & E4 & R4 & J4 & P4).
  destruct (Ha I_DECLS s4 J4) as (s5 & E5 & R5 & J5 & P5).
  destruct (Ha I_STMTS s5 J5) as (s6 & E6 & R6 & J6 & P6).
  rewrite (bind_Some _ _ _ _ _ E1), (bind_Some _ _ _ _ _ E2),
    (bind_Some _ _ _ _ _ E3), (bind_Some _ _ _ _ _ E4),
    (bind_Some _ _ _ _ _ E5), (bind_Some _ _ _ _ _ E6).
  assert (R12 : R s s2) by (by eapply R_trans).
  assert (R13 : R s s3) by (by eapply R_trans).
  assert (R14 : R s s4) by (by eapply R_trans).
  assert (R15 : R s s5) by (by eapply R_trans).
  assert (R16 : R s s6) by (by eapply R_trans).
  assert (R26 : R s1 s6).
  { eapply R_trans; [done| |exact R6]. eapply R_trans; [done| |exact R5].
    eapply R_trans; [done| |exact R4]. eapply R_trans; [done|exact R2|exact R3]. }
  assert (R36 : R s2 s6).
  { eapply R_trans; [done| |exact R6]. eapply R_trans; [done| |exact R5].
    eapply R_trans; [done|exact R3|exact R4]. }
  assert (R46 : R s3 s6).
  { eapply R_trans; [done| |exact R6]. eapply R_trans; [done|exact R4|exact R5]. }
  assert (R56 : R s4 s6) by (by eapply R_trans).
  exists s6. split; [done|]. split; [done|]. split; [done|].
  unfold children. simpl in *. rewrite !Forall_app.
  split; [eapply Forall_impl; [exact P1|]; intros c; by apply P_stable|].
  split; [eapply Forall_impl; [exact P2|]; intros c; by apply P_stable|].
  split; [eapply Forall_impl; [exact P3|]; intros c; by apply P_stable|].
  split; [eapply Forall_impl; [exact P4|]; intros c; by apply P_stable|].
  split; [eapply Forall_impl; [exact P5|]; intros c; by apply P_stable|].
  done.
Qed.

End Generic.

(** The walk of a tree on which nothing is left to do adds the gates of
    its supply nets and changes nothing else. *)
Lemma settled_walk mod_ : forall b x s om,
  nodes s !! mod_ = Some om -> is_top (kind om) = true ->
  settled mod_ b s x ->
  exists s', vlog_rewrite (S b) vlog_simp_cb mod_ x s = Some (x, s') /\
             gated mod_ s s'.
Proof.
  induction b as [|b IH]; intros x s om Em Hkm; [done|].
  intros (Hne & o & E & Hok & Hdn & Hp & Hd & Hs & Hc).
  set (J := fun s0 : state =>
              (exists om0, nodes s0 !! mod_ = Some om0 /\ is_top (kind om0) = true) /\
              nodes s0 !! x = Some o /\
              Forall (settled mod_ b s0) (children o)).
  assert (Hkept : forall s0 s1, gated mod_ s0 s1 -> kept mod_ s0 s1).
  { intros s0 s1 [Hf _] y oy Ey Hy. exists oy. split; [by apply Hf|apply keeps_refl]. }
  assert (HJs : forall s0 s1, J s0 -> gated mod_ s0 s1 -> J s1).
  { intros s0 s1 ((om0 & Em0 & Hk0) & E0 & Hc0) Hg. split; [|split].
    - destruct Hg as [_ Hg]. destruct (Hg om0 Em0) as (ns & Em1 & _).
      eexists. split; [exact Em1|done].
    - destruct Hg as [Hf _]. by apply Hf.
    - eapply Forall_impl; [exact Hc0|]. intros c. apply settled_kept. by apply Hkept. }
  destruct (walk_children (gated mod_) J (fun _ _ => True)
              (gated_refl mod_)) with (fn := vlog_simp_cb) (ctx := mod_)
              (n := S b) (v := x) (o := o) (s := s)
    as (s6 & Ew & R6 & J6 & _).
  - intros s0 s1 s2 ((om0 & Em0 & Hk0) & _) G1 G2. by eapply gated_trans.
  - done.
  - intros s0 (_ & E0 & _). exists o. done.
  - lia.
  - lia.
  - lia.
  - intros s0 c HJ0 Hin. pose proof HJ0 as ((om0 & Em0 & Hk0) & E0 & Hc0).
    rewrite Forall_forall in Hc0.
    destruct (IH c s0 om0 Em0 Hk0 (Hc0 c Hin)) as (s1 & Er & Hg).
    exists s1. split; [done|]. split; [done|]. split; [|done].
    by apply (HJs s0).
  - split; [by eexists|]. done.
  - destruct J6 as ((om6 & Em6 & Hk6) & E6 & Hc6).
    destruct (cb_spec mod_ x s6 o om6 b E6 Em6 Hk6 Hne Hok Hc6)
      as (s' & o' & ns & nd & Ecb & Ex' & _ & _ & Em' & Hfr & _ & Hdone).
    destruct (Hdone Hdn) as (-> & -> & Hcl).
    exists s'. split; [by rewrite Ew|].
    apply (gated_trans mod_ s s6 s' om); [done|done|done|].
    split.
    + intros y oy Ey Hy. destruct (decide (y = x)) as [->|Hyx]; [congruence|].
      by apply Hfr.
    + intros om0 E0. assert (om0 = om6) as -> by congruence.
      exists ns. by rewrite Em', with_decls_nil.
Qed.

(** The walk of a tree: afterwards nothing is left to do on it; the
    nodes above its root stay as they are. *)
Lemma raw_walk rank mod_ B : 2 <= B -> forall b x s om,
  nodes s !! mod_ = Some om -> is_top (kind om) = true ->
  raw rank mod_ b s x -> b <= B ->
  exists s', vlog_rewrite (S b) vlog_simp_cb mod_ x s = Some (x, s') /\
             evolves mod_ B s s' /\ settled mod_ b s' x /\
             (forall y o, nodes s !! y = Some o -> y <> mod_ -> y <> x ->
                rank x <= rank y -> nodes s' !! y = Some o).
Proof.
  intros HB. induction b as [|b IH]; intros x s om Em Hkm; [done|].
  intros (Hne & o & E & Hok & Hp & Hd & Hs & Hc) Hle.
  set (J := fun s0 : state =>
              (exists om0, nodes s0 !! mod_ = Some om0 /\ is_top (kind om0) = true) /\
              nodes s0 !! x = Some o /\
              Forall (fun c => rank c < rank x /\ raw rank mod_ b s0 c) (children o)).
  set (R := fun s0 s1 : state => evolves mod_ B s0 s1 /\ above rank mod_ x s0 s1).
  destruct (walk_children R J (fun c s0 => settled mod_ b s0 c))
    with (fn := vlog_simp_cb) (ctx := mod_) (n := S b) (v := x) (o := o) (s := s)
    as (s6 & Ew & [R6 A6] & J6 & P6).
  - intros s0. split; [apply evolves_refl|apply above_refl].
  - intros s0 s1 s2 _ [E1 A1] [E2 A2].
    split; [by eapply evolves_trans|by eapply above_trans].
  - intros s0 s1 c _ [[K1 _] _]. by apply settled_kept.
  - intros s0 (_ & E0 & _). exists o. done.
  - lia.
  - lia.
  - lia.
  - intros s0 c HJ0 Hin. pose proof HJ0 as ((om0 & Em0 & Hk0) & E0 & Hc0).
    rewrite Forall_forall in Hc0. destruct (Hc0 c Hin) as [Hrk Hraw].
    destruct (IH c s0 om0 Em0 Hk0 Hraw ltac:(lia)) as (s1 & Er & Hev & Hst & Hab).
    assert (Hx1 : nodes s1 !! x = Some o).
    { apply Hab; [done|done| |lia]. intros ->. lia. }
    exists s1. split; [done|]. split; [|split; [|done]].
    + split; [done|]. intros y oy Ey Hy Hr. apply Hab; [done|done| |lia].
      intros ->. lia.
    + split; [|split; [done|]].
      * destruct Hev as [_ Hg]. destruct (Hg om0 Em0) as (ns & nd & Em1 & _).
        eexists. split; [exact Em1|done].
      * apply Forall_forall. intros d Hd'. destruct (Hc0 d Hd') as [? ?].
        split; [done|]. destruct Hev as [Hk _]. by apply (raw_kept rank mod_ s0).
  - split; [by eexists|]. done.
  - destruct J6 as ((om6 & Em6 & Hk6) & E6 & Hc6).
    destruct (cb_spec mod_ x s6 o om6 b E6 Em6 Hk6 Hne Hok P6)
      as (s' & o' & ns & nd & Ecb & Ex' & Hkeep & Hdone & Em' & Hfr & Hnew & _).
    assert (Hkept : kept mod_ s6 s').
    { intros y oy Ey Hy. destruct (decide (y = x)) as [->|Hyx].
      - exists o'. split; [done|]. congruence.
      - exists oy. split; [by apply Hfr|apply keeps_refl]. }
    exists s'. split; [by rewrite Ew|]. split; [|split].
    + apply (evolves_trans _ _ _ s6); [done|]. split; [done|].
      intros om0 E0. assert (om0 = om6) as -> by congruence.
      exists ns, nd. split; [done|].
      specialize (Hnew B ltac:(lia) HB). by apply Forall_app in Hnew.
    + split; [done|]. exists o'. split; [done|].
      split; [by apply (keeps_decl_ok o o')|]. split; [done|].
      pose proof (keeps_children _ _ Hkeep) as Hsub.
      destruct Hkeep as (_ & _ & _ & _ & -> & -> & -> & _).
      repeat (split; [done|]).
      apply Forall_forall. intros c Hin. apply (settled_kept mod_ s6); [done|].
      rewrite Forall_forall in P6. by apply P6, Hsub.
    + intros y oy Ey Hy Hyx Hr. apply Hfr; [|done|done]. by apply A6.
Qed.

End Walk.

Section Root.
Context `{Env}.
Variables (rank : vlog_node_t -> nat) (mod_ : vlog_node_t) (B : nat).
Hypothesis HB : 2 <= B.

Lemma drop_cons_lookup {A} (l : list A) k x t :
  drop k l = x :: t -> l !! k = Some x /\ drop (S k) l = t.
Proof.
  intros E. assert (Ex : l !! k = Some x).
  { rewrite <- (Nat.add_0_r k), <- lookup_drop, E. done. }
  split; [done|]. rewrite (drop_S _ _ _ Ex) in E. congruence.
Qed.

Lemma get_array_stmts i om ns :
  get_array i (with_stmts (stmts om ++ ns) om) = get_array i om ++ grow i ns [].
Proof. destruct i; simpl; by rewrite ?app_nil_r. Qed.

(** The walk of the rest of an array of the module, when the rest is
    plain. *)
Lemma root_clean i : forall Cl k s om,
  nodes s !! mod_ = Some om -> drop k (get_array i om) = Cl ->
  Forall (clean B s) Cl ->
  forall fuel n, length Cl < fuel -> 2 * B <= n ->
  rewrite_array fuel (vlog_rewrite n vlog_simp_cb mod_) mod_ i k s = Some (tt, s).
Proof using HB.
  induction Cl as [|c Cl IH]; intros k s om Em Hdrop Hcl fuel n Hfuel Hn.
  - destruct fuel as [|fuel]; [simpl in Hfuel; lia|]. cbn [rewrite_array].
    rewrite (bind_get _ _ _ _ Em).
    assert (get_array i om !! k = None) as ->; [|done].
    apply lookup_ge_None. apply (f_equal length) in Hdrop.
    rewrite length_drop in Hdrop. simpl in Hdrop. lia.
  - destruct fuel as [|fuel]; [simpl in Hfuel; lia|]. cbn [rewrite_array].
    rewrite (bind_get _ _ _ _ Em).
    destruct (drop_cons_lookup _ _ _ _ Hdrop) as [Ec Hdrop'].
    rewrite Ec. apply Forall_cons in Hcl as [Hc Hcl].
    rewrite (bind_Some _ _ _ _ _ (vlog_rewrite_clean mod_ B n c s Hc Hn)).
    erewrite bind_Some; [|apply (update_id _ _ om); [done|]].
    + apply (IH (S k) s om); [done|done|done| |done]. simpl in Hfuel. lia.
    + rewrite list_insert_id by done. apply set_array_id.
Qed.

(** The rest holds trees on which nothing is left to do, then plain
    trees: the walk adds gates at the end. *)
Lemma root_settled i : forall A Cl k s om,
  nodes s !! mod_ = Some om -> is_top (kind om) = true ->
  drop k (get_array i om) = A ++ Cl ->
  Forall (settled mod_ B s) A -> Forall (clean B s) Cl ->
  exists s' F,
    (forall fuel n, F <= fuel -> 2 * B <= n ->
       rewrite_array fuel (vlog_rewrite n vlog_simp_cb mod_) mod_ i k s
       = Some (tt, s')) /\
    gated mod_ s s'.
Proof using HB.
  induction A as [|x A IH]; intros Cl k s om Em Hkm Hdrop HA HCl.
  - exists s, (S (length Cl)). split; [|apply gated_refl].
    intros fuel n HF Hn. apply (root_clean i Cl k s om); [done|done|done|lia|done].
  - apply Forall_cons in HA as [Hx HA].
    destruct (settled_walk mod_ B x s om Em Hkm Hx) as (s1 & Er & Hg).
    pose proof Hg as [Hf Hgm]. destruct (Hgm om Em) as (ns & Em1 & Hns).
    simpl in Hdrop. destruct (drop_cons_lookup _ _ _ _ Hdrop) as [Ex Hdrop'].
    pose proof (lookup_lt_Some _ _ _ Ex) as Hlt.
    assert (Hkept : kept mod_ s s1).
    { intros y oy Ey Hy. exists oy. split; [by apply Hf|apply keeps_refl]. }
    destruct (IH (Cl ++ grow i ns []) (S k) s1 (with_stmts (stmts om ++ ns) om))
      as (s' & F & Hrun & Hg').
    + done.
    + done.
    + rewrite get_array_stmts, drop_app_le by lia. by rewrite Hdrop', app_assoc.
    + eapply Forall_impl; [exact HA|]. intros c. by apply settled_kept.
    + apply Forall_app. split.
      * eapply Forall_impl; [exact HCl|]. intros c. apply clean_state.
        by apply (gated_plain mod_ s s1 om).
      * destruct i; simpl; try done.
        eapply Forall_impl; [exact Hns|]. intros c. by apply clean_le.
    + exists s', (S F). split; [|by apply (gated_trans mod_ s s1 s' om)].
      intros fuel n HF Hn. destruct fuel as [|fuel]; [lia|]. cbn [rewrite_array].
      rewrite (bind_get _ _ _ _ Em), Ex.
      erewrite bind_Some;
        [|apply (vlog_rewrite_le vlog_simp_cb mod_ (S B) n x); [lia|exact Er]].
      erewrite bind_Some; [|apply (update_id _ _ _ _ Em1)].
      * apply Hrun; [lia|done].
      * rewrite list_insert_id; [apply set_array_id|].
        rewrite get_array_stmts. by apply lookup_app_l_Some.
Qed.

(** The rest holds trees, then trees on which nothing is left to do:
    the walk adds such trees at the end. *)
Lemma root_raw i : forall Rw St k s om,
  nodes s !! mod_ = Some om -> is_top (kind om) = true ->
  drop k (get_array i om) = Rw ++ St ->
  Forall (raw rank mod_ B s) Rw -> Forall (settled mod_ B s) St ->
  exists s' F,
    (forall fuel n, F <= fuel -> 2 * B <= n ->
       rewrite_array fuel (vlog_rewrite n vlog_simp_cb mod_) mod_ i k s
       = Some (tt, s')) /\
    evolves mod_ B s s' /\ Forall (settled mod_ B s') Rw.
Proof using HB.
  induction Rw as [|x Rw IH]; intros St k s om Em Hkm Hdrop HR HS.
  - destruct (root_settled i St [] k s om) as (s' & F & Hrun & Hg);
      [done|done|by rewrite app_nil_r|done|done|].
    exists s', F. split; [done|]. split; [|done].
    by apply (gated_evolves mod_ B s s' om).
  - apply Forall_cons in HR as [Hx HR].
    destruct (raw_walk rank mod_ B HB B x s om Em Hkm Hx (le_n _))
      as (s1 & Er & Hev & Hst & _).
    pose proof Hev as [Hk Hgm]. destruct (Hgm om Em) as (ns & nd & Em1 & Hns & Hnd).
    simpl in Hdrop. destruct (drop_cons_lookup _ _ _ _ Hdrop) as [Ex Hdrop'].
    pose proof (lookup_lt_Some _ _ _ Ex) as Hlt.
    destruct (IH (St ++ grow i ns nd) (S k) s1
                (with_decls (decls om ++ nd) (with_stmts (stmts om ++ ns) om)))
      as (s' & F & Hrun & Hev' & Hst').
    + done.
    + done.
    + rewrite get_array_grow, drop_app_le by lia. by rewrite Hdrop', app_assoc.
    + eapply Forall_impl; [exact HR|]. intros c. by apply raw_kept.
    + apply Forall_app. split.
      * eapply Forall_impl; [exact HS|]. intros c. by apply settled_kept.
      * by destruct i.
    + exists s', (S F). split; [|split].
      * intros fuel n HF Hn. destruct fuel as [|fuel]; [lia|]. cbn [rewrite_array].
        rewrite (bind_get _ _ _ _ Em), Ex.
        erewrite bind_Some;
          [|apply (vlog_rewrite_le vlog_simp_cb mod_ (S B) n x); [lia|exact Er]].
        erewrite bind_Some; [|apply (update_id _ _ _ _ Em1)].
        -- apply Hrun; [lia|done].
        -- rewrite list_insert_id; [apply set_array_id|].
           rewrite get_array_grow. by apply lookup_app_l_Some.
      * by apply (evolves_trans _ _ _ s1).
      * apply Forall_cons. split; [|done].
        destruct Hev' as [Hk' _]. by apply (settled_kept mod_ s1).
Qed.

(** A slot of the module. *)
Lemma root_object i s om :
  nodes s !! mod_ = Some om -> is_top (kind om) = true ->
  Forall (raw rank mod_ B s) (option_list (get_object i om)) ->
  exists s',
    (forall n, 2 * B <= n ->
       rewrite_object (vlog_rewrite n vlog_simp_cb mod_) mod_ i s = Some (tt, s')) /\
    evolves mod_ B s s' /\
    Forall (settled mod_ B s') (option_list (get_object i om)).
Proof using HB.
  intros Em Hkm HR. destruct (get_object i om) as [c|] eqn:Eo.
  - simpl in HR. rewrite Forall_singleton in HR.
    destruct (raw_walk rank mod_ B HB B c s om Em Hkm HR (le_n _))
      as (s1 & Er & Hev & Hst & _).
    pose proof Hev as [Hk Hgm]. destruct (Hgm om Em) as (ns & nd & Em1 & Hns & Hnd).
    exists s1. split; [|split; [done|by apply Forall_singleton]].
    intros n Hn. unfold rewrite_object. rewrite (bind_get _ _ _ _ Em), Eo.
    erewrite bind_Some;
      [|apply (vlog_rewrite_le vlog_simp_cb mod_ (S B) n c); [lia|exact Er]].
    apply (update_id _ _ _ _ Em1). apply set_object_id.
    by rewrite get_object_grow.
  - exists s. split; [|split; [apply evolves_refl|done]].
    intros n Hn. unfold rewrite_object. by rewrite (bind_get _ _ _ _ Em), Eo.
Qed.

(** The pass on a module all of whose parts are trees. *)
Lemma vlog_simp_raw s om :
  nodes s !! mod_ = Some om -> is_top (kind om) = true ->
  Forall (raw rank mod_ B s) (children om) ->
  exists N s' ns nd,
    (forall n, N <= n -> vlog_simp n mod_ s = Some (tt, s')) /\
    nodes s' !! mod_
    = Some (with_decls (decls om ++ nd) (with_stmts (stmts om ++ ns) om)) /\
    Forall (settled mod_ B s')
      (children (with_decls (decls om ++ nd) (with_stmts (stmts om ++ ns) om))).
Proof using HB.
  intros Em Hkm HR. unfold children in HR. rewrite !Forall_app in HR.
  destruct HR as (Rv & Rt & Ry & Rp & Rd & Rs).
  assert (Hkeep : forall sj l, evolves mod_ B s sj ->
            Forall (raw rank mod_ B s) l -> Forall (raw rank mod_ B sj) l).
  { intros sj l [Hk _] Hl. eapply Forall_impl; [exact Hl|].
    intros c. by apply raw_kept. }
  assert (Hstay : forall sj sk l, evolves mod_ B sj sk ->
            Forall (settled mod_ B sj) l -> Forall (settled mod_ B sk) l).
  { intros sj sk l [Hk _] Hl. eapply Forall_impl; [exact Hl|].
    intros c. by apply settled_kept. }
  (* the slots *)
  destruct (root_object I_VALUE s om Em Hkm Rv) as (s1 & Run1 & Ev1 & P1).
  pose proof Ev1 as [_ G1]. destruct (G1 om Em) as (ns1 & nd1 & Em1 & _ & _).
  destruct (root_object I_TARGET s1 _ Em1 Hkm) as (s2 & Run2 & Ev2 & P2).
  { rewrite get_object_grow. by apply Hkeep. }
  rewrite get_object_grow in P2.
  assert (Ev02 : evolves mod_ B s s2) by (by apply (evolves_trans _ _ _ s1)).
  pose proof Ev02 as [_ G2]. destruct (G2 om Em) as (ns2 & nd2 & Em2 & _ & _).
  destruct (root_object I_TYPE s2 _ Em2 Hkm) as (s3 & Run3 & Ev3 & P3).
  { rewrite get_object_grow. by apply Hkeep. }
  rewrite get_object_grow in P3.
  assert (Ev03 : evolves mod_ B s s3) by (by apply (evolves_trans _ _ _ s2)).
  pose proof Ev03 as [_ G3]. destruct (G3 om Em) as (ns3 & nd3 & Em3 & _ & _).
  (* the arrays *)
  destruct (root_raw I_PARAMS (params om) [] 0 s3 _ Em3 Hkm)
    as (s4 & F4 & Run4 & Ev4 & P4).
  { simpl. by rewrite app_nil_r. }
  { by apply Hkeep. }
  { done. }
  assert (Ev04 : evolves mod_ B s s4) by (by apply (evolves_trans _ _ _ s3)).
  pose proof Ev04 as [_ G4]. destruct (G4 om Em) as (ns4 & nd4 & Em4 & _ & Hnd4).
  destruct (root_raw I_DECLS (decls om) nd4 0 s4 _ Em4 Hkm)
    as (s5 & F5 & Run5 & Ev5 & P5).
  { done. }
  { by apply Hkeep. }
  { done. }
  assert (Ev05 : evolves mod_ B s s5) by (by apply (evolves_trans _ _ _ s4)).
  pose proof Ev05 as [_ G5]. destruct (G5 om Em) as (ns5 & nd5 & Em5 & Hns5 & _).
  destruct (root_raw I_STMTS (stmts om) ns5 0 s5 _ Em5 Hkm)
    as (s6 & F6 & Run6 & Ev6 & P6).
  { done. }
  { by apply Hkeep. }
  { done. }
  assert (Ev06 : evolves mod_ B s s6) by (by apply (evolves_trans _ _ _ s5)).
  pose proof Ev06 as [_ G6]. destruct (G6 om Em) as (ns6 & nd6 & Em6 & Hns6 & Hnd6).
  assert (Ev56 := Ev6).
  assert (Ev46 : evolves mod_ B s4 s6) by (by apply (evolves_trans _ _ _ s5)).
  assert (Ev36 : evolves mod_ B s3 s6) by (by apply (evolves_trans _ _ _ s4)).
  assert (Ev26 : evolves mod_ B s2 s6) by (by apply (evolves_trans _ _ _ s3)).
  assert (Ev16 : evolves mod_ B s1 s6) by (by apply (evolves_trans _ _ _ s2)).
  exists (S (2 * B + F4 + F5 + F6)), s6, ns6, nd6. split; [|split; [done|]].
  - intros n Hn. destruct n as [|n]; [lia|].
    unfold vlog_simp, is_top_level.
    rewrite bind_assoc. erewrite bind_kind by exact Em. rewrite bind_ret.
    change (match kind om with V_MODULE | V_PRIMITIVE => true | _ => false end)
      with (is_top (kind om)). rewrite Hkm.
    cbn [vlog_rewrite]. rewrite !bind_assoc.
    rewrite (bind_Some _ _ _ _ _ (Run1 n ltac:(lia))). rewrite !bind_assoc.
    rewrite (bind_Some _ _ _ _ _ (Run2 n ltac:(lia))). rewrite !bind_assoc.
    rewrite (bind_Some _ _ _ _ _ (Run3 n ltac:(lia))). rewrite !bind_assoc.
    rewrite (bind_Some _ _ _ _ _ (Run4 n n ltac:(lia) ltac:(lia))).
    rewrite !bind_assoc.
    rewrite (bind_Some _ _ _ _ _ (Run5 n n ltac:(lia) ltac:(lia))).
    rewrite !bind_assoc.
    rewrite (bind_Some _ _ _ _ _ (Run6 n n ltac:(lia) ltac:(lia))).
    unfold vlog_simp_cb. rewrite !bind_assoc. erewrite bind_kind by exact Em6.
    cbn [kind with_decls with_stmts]. by destruct (kind om).
  - unfold children. cbn [value target type_ params decls stmts with_decls with_stmts].
    rewrite !Forall_app.
    split; [by apply (Hstay s1)|]. split; [by apply (Hstay s2)|].
    split; [by apply (Hstay s3)|]. split; [by apply (Hstay s4)|].
    split; [split; [by apply (Hstay s5)|done]|]. done.
Qed.

End Root.

(** The pass on a module whose parts are trees: afterwards no net
    declaration below the module has an initial value. *)
Lemma vlog_simp_tree `{Env} b mod_ s om :
  nodes s !! mod_ = Some om -> is_top (kind om) = true ->
  forallb (tree mod_ b s) (children om) = true ->
  exists N s' om',
    (forall n, N <= n -> vlog_simp n mod_ s = Some (tt, s')) /\
    nodes s' !! mod_ = Some om' /\
    decls om `prefix_of` decls om' /\ stmts om `prefix_of` stmts om' /\
    forall d o, reach s' mod_ d -> nodes s' !! d = Some o ->
      kind o = V_NET_DECL -> value o = None.
Proof.
  intros Em Hkm Ht.
  set (B := Nat.max b 2).
  destruct (vlog_simp_raw (height mod_ B s) mod_ B ltac:(lia) s om Em Hkm)
    as (N & s' & ns & nd & Hrun & Em' & Hst).
  { apply Forall_forall. intros c Hc.
    apply (raw_le _ _ _ b); [lia|]. apply tree_raw; [lia|].
    rewrite List.forallb_forall in Ht. apply Ht. by apply list_elem_of_In. }
  exists N, s', (with_decls (decls om ++ nd) (with_stmts (stmts om ++ ns) om)).
  split; [done|]. split; [done|]. split; [by exists nd|]. split; [by exists ns|].
  intros d o Hr Ed Hk. inversion Hr as [v|v c d' Ho Hr']; subst.
  - rewrite Em' in Ed. simplify_eq. simpl in Hk. by rewrite Hk in Hkm.
  - destruct Ho as (o' & E' & Hin). rewrite Em' in E'. simplify_eq.
    rewrite Forall_forall in Hst.
    by apply (settled_reach mod_ s' B c d o (Hst c Hin)).
Qed.


(** C10: on a net declaration [decl] with an initial value [v], in a
    store whose identifiers all came from the interner, [simp_net_decl]
    returns [decl] after it set the value of [decl] to NULL and appended
    to the statements of the module a new assignment [a] whose value is
    [v] and whose target is a new reference to [decl]; the identifier of
    [a] was not in use before and no other node has it.  On a module
    whose parts are trees of nodes of the store, of any depth [b], that
    do not hold the module and in which the pass finds the identifiers
    it reads (of a supply net, of a net with an initial value, of a port
    without a wire), [vlog_simp] returns once the number [n] that bounds
    the walk is large enough; it keeps the declarations and the
    statements of the module as prefixes of what the module has
    afterwards; and afterwards no net declaration of the module, at any
    depth below it, has an initial value. *)
Theorem vlog_simp_hoists_initializers `{Env} :
  (forall decl mod_ s od om id v,
     nodes s !! decl = Some od -> nodes s !! mod_ = Some om ->
     kind od = V_NET_DECL -> is_top (kind om) = true ->
     ident od = Some id -> value od = Some v -> idents_interned s ->
     exists s' a r uid ns,
       simp_net_decl decl mod_ s = Some (decl, s') /\
       nodes s' !! decl = Some (with_value None od) /\
       nodes s' !! mod_ = Some (with_stmts (stmts om ++ ns) om) /\
       last ns = Some a /\
       nodes s !! a = None /\ nodes s !! r = None /\
       nodes s' !! a = Some (assign_obj uid (loc od) v r) /\
       nodes s' !! r = Some (ref_obj id (loc od) decl) /\
       (uid ∉ interned s) /\
       (forall x o, nodes s' !! x = Some o -> ident o = Some uid -> x = a)) /\
  (forall b mod_ s om,
     nodes s !! mod_ = Some om -> is_top (kind om) = true ->
     forallb (tree mod_ b s) (children om) = true ->
     exists N s' om',
       (forall n, N <= n -> vlog_simp n mod_ s = Some (tt, s')) /\
       nodes s' !! mod_ = Some om' /\
       decls om `prefix_of` decls om' /\ stmts om `prefix_of` stmts om' /\
       forall d o, reach s' mod_ d -> nodes s' !! d = Some o ->
         kind o = V_NET_DECL -> value o = None).
Proof.
  split.
  - intros decl mod_ s od om id v Ed Em Hkd Hkm Ei Ev Hii.
    assert (Hne : decl <> mod_).
    { intros ->. assert (od = om) as -> by congruence. by rewrite Hkd in Hkm. }
    destruct (simp_net_decl_spec 0 decl mod_ s od om id Ed Em Hne Ei)
      as (s' & ns & E & _ & Ed' & Em' & _ & _ & _ & _ & _ & Hval);
      [by rewrite Hkd | done |].
    destruct (Hval v Ev) as (a & r & uid & Hl & Ha & Hr & Ea & Er & Hu & _ & Huniq).
    exists s', a, r, uid, ns. repeat (split; [done|]). by apply Huniq.
  - intros b mod_ s om. apply vlog_simp_tree.
Qed.

#[local] Existing Instance sample_env.

Lemma vlog_simp_hoists_initializers_witness :
  (exists s' a r uid ns,
     simp_net_decl 2 1 sample_store = Some (2%positive, s') /\
     nodes s' !! 2%positive = Some (with_value None sample_net) /\
     nodes s' !! 1%positive
     = Some (with_stmts (stmts sample_module ++ ns) sample_module) /\
     last ns = Some a /\
     nodes sample_store !! a = None /\ nodes sample_store !! r = None /\
     nodes s' !! a = Some (assign_obj uid (loc sample_net) 4 r) /\
     nodes s' !! r = Some (ref_obj "w" (loc sample_net) 2) /\
     (uid ∉ interned sample_store) /\
     (forall x o, nodes s' !! x = Some o -> ident o = Some uid -> x = a)) /\
  (exists N s' om',
     (forall n, N <= n -> vlog_simp n 1 nested_store = Some (tt, s')) /\
     nodes s' !! 1%positive = Some om' /\
     decls nested_module `prefix_of` decls om' /\
     stmts nested_module `prefix_of` stmts om' /\
     forall d o, reach s' 1 d -> nodes s' !! d = Some o ->
       kind o = V_NET_DECL -> value o = None).
Proof.
  destruct vlog_simp_hoists_initializers as [Hnet Hsimp]. split.
  - apply (Hnet 2%positive 1%positive sample_store sample_net sample_module
             "w"%string 4%positive); try reflexivity.
    apply idents_interned_check_sound. vm_compute. reflexivity.
  - apply (Hsimp 4 1%positive nested_store nested_module).
    + reflexivity.
    + reflexivity.
    + vm_compute. reflexivity.
Defined.

(** The sample module after [vlog_simp]: the port got the wire 7, the
    value 4 of the net 2 went to the assignment 6, whose target is the
    reference 5. *)
Example vlog_simp_sample :
  (r ← vlog_simp 16 1 sample_store;
   om ← nodes r.2 !! 1%positive;
   net ← nodes r.2 !! 2%positive;
   a ← nodes r.2 !! 6%positive;
   Some (decls om, stmts om, value net, kind a, value a, target a, ident a))
  = Some ([2; 3; 7]%positive, [6%positive], None, V_ASSIGN, Some 4%positive,
          Some 5%positive, Some "__assign#w__"%string).
Proof. vm_compute. reflexivity. Qed.

(** The module with a net in the initial value of a net: the walk
    reaches the inner net 5 first, so that its value 6 goes to the
    assignment 8 and the value 4 of the outer net 2, the expression that
    holds the inner net, goes to the assignment 10; the port got the
    wire 11. *)
Example vlog_simp_nested :
  (r ← vlog_simp 6 1 nested_store;
   om ← nodes r.2 !! 1%positive;
   outer ← nodes r.2 !! 2%positive;
   inner ← nodes r.2 !! 5%positive;
   a1 ← nodes r.2 !! 8%positive;
   a2 ← nodes r.2 !! 10%positive;
   Some (decls om, stmts om, value outer, value inner,
         (kind a1, value a1), (kind a2, value a2)))
  = Some ([2; 3; 11]%positive, [8; 10]%positive, None, None,
          (V_ASSIGN, Some 6%positive), (V_ASSIGN, Some 4%positive)).
Proof. vm_compute. reflexivity. Qed.

(** A supply net gets its gate first. *)
Example simp_net_decl_supply :
  (r ← simp_net_decl 2 1
         (State (<[2%positive := with_subkind 1 sample_net]>
                   (nodes sample_store)) (interned sample_store));
   om ← nodes r.2 !! 1%positive;
   g ← nodes r.2 !! 5%positive;
   Some (stmts om, kind g, ident g, interned r.2))
  = Some ([5; 9]%positive, V_GATE_INST, Some "w#pull"%string,
          ["__assign#w_______"; "w#pull"; "pull"; "m"; "w"; "p"]%string).
Proof. vm_compute. reflexivity. Qed.

(** Without enough steps the model of the walk gives no result. *)
Example vlog_simp_out_of_steps : vlog_simp 1 1 sample_store = None.
Proof. vm_compute. reflexivity. Qed.

End VlogFacts.

(* --------------------------------------------------------------------- *)
(** ** The integer helpers of util.c                                     *)
(* --------------------------------------------------------------------- *)

Module UtilNumFacts.
Import Common UtilNum UtilNumSpec.
Local Open Scope Z_scope.

Lemma smear_step x k w :
  0 <= w ->
  0 <= k ->
  (forall i, k < i -> Z.testbit x i = false) ->
  (forall i, 0 <= i -> k - w < i <= k -> Z.testbit x i = true) ->
  (forall i, k < i -> Z.testbit (Z.lor x (Z.shiftr x w)) i = false) /\
  (forall i, 0 <= i -> k - 2 * w < i <= k ->
     Z.testbit (Z.lor x (Z.shiftr x w)) i = true).
Proof.
  intros Hw Hk Hhi Hlo. split.
  - intros i Hi. rewrite Z.lor_spec, Z.shiftr_spec by lia.
    rewrite !Hhi by lia. done.
  - intros i Hi0 Hi. rewrite Z.lor_spec, Z.shiftr_spec by lia.
    destruct (Z.le_gt_cases i (k - w)).
    + rewrite (Hlo (i + w)) by lia. apply orb_true_r.
    + rewrite (Hlo i) by lia. done.
Qed.

Lemma smear_ones m :
  0 < m < 2 ^ 31 ->
  let n := Z.lor m (Z.shiftr m 1) in
  let n := Z.lor n (Z.shiftr n 2) in
  let n := Z.lor n (Z.shiftr n 4) in
  let n := Z.lor n (Z.shiftr n 8) in
  let n := Z.lor n (Z.shiftr n 16) in
  n = 2 ^ (Z.log2 m + 1) - 1.
Proof.
  intros Hm. set (k := Z.log2 m).
  assert (Hk : 0 <= k < 31).
  { split; [apply Z.log2_nonneg|]. apply Z.log2_lt_pow2; lia. }
  assert (H0 : (forall i, k < i -> Z.testbit m i = false) /\
               (forall i, 0 <= i -> k - 1 < i <= k -> Z.testbit m i = true)).
  { split.
    - intros i Hi. apply Z.bits_above_log2; lia.
    - intros i _ Hi. replace i with k by lia. apply Z.bit_log2. lia. }
  destruct H0 as [Hh Hl].
  destruct (smear_step _ k 1 ltac:(lia) ltac:(lia) Hh Hl) as [Hh1 Hl1].
  destruct (smear_step _ k 2 ltac:(lia) ltac:(lia) Hh1 Hl1) as [Hh2 Hl2].
  destruct (smear_step _ k 4 ltac:(lia) ltac:(lia) Hh2 Hl2) as [Hh3 Hl3].
  destruct (smear_step _ k 8 ltac:(lia) ltac:(lia) Hh3 Hl3) as [Hh4 Hl4].
  destruct (smear_step _ k 16 ltac:(lia) ltac:(lia) Hh4 Hl4) as [Hh5 Hl5].
  cbv zeta. fold k.
  replace (2 ^ (k + 1) - 1) with (Z.ones (k + 1))
    by (rewrite Z.ones_equiv; lia).
  apply Z.bits_inj'. intros i Hi.
  destruct (Z.le_gt_cases i k).
  - rewrite Hl5 by lia. rewrite Z.ones_spec_low by lia. done.
  - rewrite Hh5 by lia. rewrite Z.ones_spec_high by lia. done.
Qed.

Lemma to_int_id x : - 2 ^ 31 <= x < 2 ^ 31 -> to_int x = x.
Proof.
  intros Hx. unfold to_int.
  destruct (Z.le_gt_cases 0 x).
  - rewrite Z.mod_small by lia. destruct (Z.ltb_spec x (2 ^ 31)); lia.
  - replace (x mod 2 ^ 32) with (x + 2 ^ 32).
    + destruct (Z.ltb_spec (x + 2 ^ 32) (2 ^ 31)); lia.
    + apply (Z.mod_unique _ _ (-1)); lia.
Qed.

Lemma smear_neg_step x t w :
  0 <= w ->
  (forall i, 0 <= i -> t <= i -> Z.testbit x i = true) ->
  (forall i, 0 <= i -> t - w <= i -> Z.testbit (Z.lor x (Z.shiftr x w)) i = true).
Proof.
  intros Hw Hx i Hi Ht. rewrite Z.lor_spec, Z.shiftr_spec by lia.
  rewrite (Hx (i + w)) by lia. apply orb_true_r.
Qed.

Lemma smear_negative m :
  - 2 ^ 31 <= m < 0 ->
  let n := Z.lor m (Z.shiftr m 1) in
  let n := Z.lor n (Z.shiftr n 2) in
  let n := Z.lor n (Z.shiftr n 4) in
  let n := Z.lor n (Z.shiftr n 8) in
  let n := Z.lor n (Z.shiftr n 16) in
  n = -1.
Proof.
  intros Hm.
  assert (H0 : forall i, 0 <= i -> 31 <= i -> Z.testbit m i = true).
  { intros i _ Hi. apply Z.bits_above_log2_neg; [lia|].
    destruct (Z.eq_dec m (-1)) as [->|]; [simpl; lia|].
    assert (Z.log2 (Z.pred (- m)) < 31); [|lia].
    apply Z.log2_lt_pow2; lia. }
  pose proof (smear_neg_step _ 31 1 ltac:(lia) H0) as H1.
  pose proof (smear_neg_step _ _ 2 ltac:(lia) H1) as H2.
  pose proof (smear_neg_step _ _ 4 ltac:(lia) H2) as H3.
  pose proof (smear_neg_step _ _ 8 ltac:(lia) H3) as H4.
  pose proof (smear_neg_step _ _ 16 ltac:(lia) H4) as H5.
  cbv zeta. apply Z.bits_inj'. intros i Hi.
  rewrite H5 by lia. by rewrite Z.bits_m1.
Qed.

Lemma pow2_round_up n :
  1 <= n <= 2 ^ 30 -> next_power_of_2 n = 2 ^ Z.log2_up n.
Proof.
  intros Hn. unfold next_power_of_2.
  rewrite (to_int_id (n - 1)) by lia.
  destruct (Z.eq_dec n 1) as [->|Hn1]; [reflexivity|].
  rewrite (smear_ones (n - 1)) by lia.
  replace (2 ^ (Z.log2 (n - 1) + 1) - 1 + 1) with (2 ^ (Z.log2 (n - 1) + 1)) by lia.
  rewrite Z.log2_up_eqn by lia. unfold Z.pred, Z.succ.
  replace (n + -1) with (n - 1) by lia.
  apply to_int_id.
  assert (Z.log2 (n - 1) < 30).
  { apply Z.log2_lt_pow2; lia. }
  assert (0 <= Z.log2 (n - 1)) by apply Z.log2_nonneg.
  split.
  - pose proof (Z.pow_pos_nonneg 2 (Z.log2 (n - 1) + 1)). lia.
  - apply Z.pow_lt_mono_r; lia.
Qed.

(** X1: for an argument between 1 and 2^30 [next_power_of_2] returns the
    least power of two that is not below it (a power of two is returned
    unchanged); for an argument that is zero or negative it returns 0. *)
Theorem next_power_of_2_spec n :
  - 2 ^ 31 < n <= 2 ^ 30 ->
  next_power_of_2 n = if n <=? 0 then 0 else 2 ^ Z.log2_up n.
Proof.
  intros Hn. destruct (Z.leb_spec n 0) as [Hle|Hpos].
  - unfold next_power_of_2. rewrite (to_int_id (n - 1)) by lia.
    by rewrite (smear_negative (n - 1)) by lia.
  - apply pow2_round_up. lia.
Qed.

Lemma ilog2_loop_spec n fuel : forall r,
  2 <= n <= 2 ^ 62 -> 0 <= r <= 62 -> (r = 0 \/ 2 ^ (r - 1) < n) ->
  (63 <= fuel + Z.to_nat r)%nat ->
  ilog2_loop fuel n r (2 ^ r) = Some (Z.log2_up n).
Proof.
  induction fuel as [|fuel IH]; intros r Hn Hr Hlow Hfuel; [lia|].
  cbn [ilog2_loop].
  assert (Hpos : 0 < 2 ^ r) by (apply Z.pow_pos_nonneg; lia).
  destruct (Z.ltb_spec (2 ^ r) n) as [Hlt|Hge].
  - assert (r < 62).
    { destruct (Z.eq_dec r 62) as [->|]; lia. }
    assert (2 ^ (r + 1) <= 2 ^ 62) by (apply Z.pow_le_mono_r; lia).
    assert (E : 2 ^ r * 2 = 2 ^ (r + 1)) by (rewrite Z.pow_add_r; lia).
    rewrite to_int_id by lia.
    replace (to_int64 (2 ^ r * 2)) with (2 ^ (r + 1)).
    + apply IH; [done|lia| |lia]. right. by replace (r + 1 - 1) with r by lia.
    + rewrite E. unfold to_int64. rewrite Z.mod_small by lia.
      destruct (Z.ltb_spec (2 ^ (r + 1)) (2 ^ 63)); lia.
  - f_equal. symmetry. destruct Hlow as [->|Hlow]; [simpl in Hge; lia|].
    apply Z.log2_up_unique.
    { destruct (Z.eq_dec r 0) as [->|]; [simpl in Hge|]; lia. }
    by replace (Z.pred r) with (r - 1) by lia.
Qed.

(** X2: [ilog2] returns 1 for every argument up to 1, and for an argument
    between 2 and 2^62 the least [r] with [n <= 2^r], after at most 63
    turns of its loop. *)
Theorem ilog2_spec fuel n :
  n <= 2 ^ 62 -> (63 <= fuel)%nat ->
  ilog2 fuel n = Some (if n <=? 1 then 1 else Z.log2_up n).
Proof.
  intros Hn Hfuel. unfold ilog2.
  destruct (Z.leb_spec n 1); [done|].
  apply (ilog2_loop_spec n fuel 0); [lia|lia|by left|lia].
Qed.

Lemma to_int64_eqm a : eqm (to_int64 a) a.
Proof.
  unfold eqm, to_int64. destruct (_ <? _).
  - apply Z.mod_mod. lia.
  - replace (a mod 2 ^ 64 - 2 ^ 64) with (a mod 2 ^ 64 + (-1) * 2 ^ 64) by lia.
    rewrite Z.mod_add by lia. apply Z.mod_mod. lia.
Qed.

Lemma to_int64_proper a b : eqm a b -> to_int64 a = to_int64 b.
Proof. unfold eqm, to_int64. by intros ->. Qed.

Lemma eqm_mul a a' b b' : eqm a a' -> eqm b b' -> eqm (a * b) (a' * b').
Proof.
  unfold eqm. intros Ha Hb.
  rewrite (Z.mul_mod a b), (Z.mul_mod a' b') by lia. by rewrite Ha, Hb.
Qed.

Lemma eqm_pow a a' k : 0 <= k -> eqm a a' -> eqm (a ^ k) (a' ^ k).
Proof.
  intros Hk Ha. revert k Hk. apply natlike_ind; [done|].
  intros k Hk IH. rewrite !Z.pow_succ_r by done. by apply eqm_mul.
Qed.

Lemma land_1 y : Z.land y 1 = y mod 2.
Proof. change 1 with (Z.ones 1). by rewrite Z.land_ones by lia. Qed.

Lemma ipow_loop_S fuel x y r :
  ipow_loop (S fuel) x y r
  = if y =? 0 then Some r
    else ipow_loop fuel (to_int64 (x * x)) (Z.shiftr y 1)
           (if negb (Z.land y 1 =? 0) then to_int64 (r * x) else r).
Proof. reflexivity. Qed.

Lemma ipow_loop_spec fuel : forall x y r,
  0 <= y < 2 ^ Z.of_nat fuel -> to_int64 r = r ->
  ipow_loop (S fuel) x y r = Some (to_int64 (r * x ^ y)).
Proof.
  induction fuel as [|fuel IH]; intros x y r Hy Hr.
  - replace y with 0 by (simpl in Hy; lia). simpl.
    by rewrite Z.mul_1_r, Hr.
  - rewrite ipow_loop_S. destruct (Z.eqb_spec y 0) as [->|Hy0].
    { by rewrite Z.pow_0_r, Z.mul_1_r, Hr. }
    rewrite land_1, Z.shiftr_div_pow2 by lia.
    change (2 ^ 1) with 2.
    assert (Hdiv : 0 <= y / 2 < 2 ^ Z.of_nat fuel).
    { rewrite Nat2Z.inj_succ, Z.pow_succ_r in Hy by lia.
      split; [apply Z.div_pos; lia|]. apply Z.div_lt_upper_bound; lia. }
    rewrite IH; [|done|].
    + f_equal. apply to_int64_proper.
      pose proof (Z.div_mod y 2 ltac:(lia)) as Ey.
      pose proof (Z.mod_pos_bound y 2 ltac:(lia)) as Hm.
      assert (Ex : eqm (to_int64 (x * x) ^ (y / 2)) (x ^ (2 * (y / 2)))).
      { rewrite (Z.pow_mul_r x 2) by lia. rewrite Z.pow_2_r.
        apply eqm_pow; [lia|]. apply to_int64_eqm. }
      destruct (Z.eqb_spec (y mod 2) 0) as [E0|E1]; simpl.
      * rewrite Ey at 2. rewrite E0, Z.add_0_r. by apply eqm_mul.
      * assert (y mod 2 = 1) as E by lia.
        rewrite Ey at 2. rewrite E, Z.pow_add_r, Z.pow_1_r by lia.
        rewrite (Z.mul_comm (x ^ _) x), Z.mul_assoc.
        apply eqm_mul; [apply to_int64_eqm | done].
    + destruct (negb _); [|done].
      apply to_int64_proper, to_int64_eqm.
Qed.

(** X3: for an exponent that is not negative [ipow] returns the power
    [x^y] reduced to 64 bits, after at most 64 turns of its loop. *)
Theorem ipow_spec fuel x y :
  0 <= y < 2 ^ 63 -> (64 <= fuel)%nat ->
  ipow fuel x y = Some (to_int64 (x ^ y)).
Proof.
  intros Hy Hfuel. unfold ipow.
  destruct fuel as [|fuel]; [lia|].
  rewrite ipow_loop_spec; [by rewrite Z.mul_1_l| |done].
  split; [lia|]. eapply Z.lt_le_trans; [apply Hy|].
  apply Z.pow_le_mono_r; lia.
Qed.

(** X4: with a negative exponent the loop of [ipow] never ends: the
    exponent is shifted right arithmetically and stays negative. *)
Theorem ipow_negative_exponent fuel x y :
  y < 0 -> ipow fuel x y = None.
Proof.
  unfold ipow. generalize 1 as r. revert x y.
  induction fuel as [|fuel IH]; intros x y r Hy; [done|].
  cbn [ipow_loop]. rewrite (proj2 (Z.eqb_neq y 0)) by lia.
  apply IH. rewrite Z.shiftr_div_pow2 by lia.
  apply Z.div_lt_upper_bound; lia.
Qed.

Lemma next_power_of_2_spec_witness :
  next_power_of_2 5 = (if 5 <=? 0 then 0 else 2 ^ Z.log2_up 5).
Proof. apply (next_power_of_2_spec 5). lia. Defined.

Lemma ilog2_spec_witness :
  ilog2 63 1000 = Some (if 1000 <=? 1 then 1 else Z.log2_up 1000).
Proof. apply (ilog2_spec 63 1000); lia. Defined.

Lemma ipow_spec_witness : ipow 64 3 5 = Some (to_int64 (3 ^ 5)).
Proof. apply (ipow_spec 64 3 5); lia. Defined.

Lemma ipow_negative_exponent_witness : ipow 100 2 (-1) = None.
Proof. apply (ipow_negative_exponent 100 2 (-1)). lia. Defined.

End UtilNumFacts.

(* --------------------------------------------------------------------- *)
(** ** The pointer hash: results, iteration, creation                    *)
(* --------------------------------------------------------------------- *)

Module PtrMoreFacts.
Import Common Hash Hash.Ptr Probe ProbeFacts SeqFacts PtrSpec PtrFacts PtrMore.
Local Open Scope Z_scope.

Section Lists.
Context {A : Type} (P : A -> Prop) `{forall x, Decision (P x)}.

Lemma list_find_cons_eq (y : A) (l : list A) :
  list_find P (y :: l)
  = if decide (P y) then Some (0%nat, y)
    else prod_map S id <$> list_find P l.
Proof. reflexivity. Qed.

Lemma filter_find_Some (l : list A) i x :
  list_find P l = Some (i, x) -> filter P l = x :: filter P (drop (S i) l).
Proof.
  revert i. induction l as [|y l IH]; intros i E; [done|].
  rewrite list_find_cons_eq in E. rewrite filter_cons.
  destruct (decide (P y)) as [Hy|Hy].
  - by simplify_eq.
  - destruct (list_find P l) as [[j z]|]; [|done]. simpl in E. simplify_eq.
    simpl. by apply IH.
Qed.

Lemma filter_find_None (l : list A) : list_find P l = None -> filter P l = [].
Proof.
  induction l as [|y l IH]; intros E; [done|].
  rewrite list_find_cons_eq in E. rewrite filter_cons.
  destruct (decide (P y)); [done|].
  destruct (list_find P l) as [[j z]|]; [done|]. by apply IH.
Qed.

End Lists.

Section Keys.
Context {K : Type} `{EqDecision K}.
Implicit Types tab : list (option (K * Z)).

Lemma has_key_insert tab q k v s k' :
  tab !! q = Some s -> (s = None \/ exists v0, s = Some (k, v0)) ->
  has_key (<[q := Some (k, v)]> tab) k' <-> k' = k \/ has_key tab k'.
Proof.
  intros Es Hs. assert (Hq : (q < length tab)%nat) by by eapply lookup_lt_Some.
  split.
  - intros (q' & v' & E). destruct (decide (q' = q)) as [->|Hne].
    + rewrite list_lookup_insert_eq in E by done. left. by simplify_eq.
    + rewrite list_lookup_insert_ne in E by done. right. by exists q', v'.
  - intros [->|(q' & v' & E)].
    + exists q, v. by rewrite list_lookup_insert_eq.
    + destruct (decide (q' = q)) as [->|Hne].
      * rewrite Es in E. destruct Hs as [->|[v0 ->]]; [done|]. simplify_eq.
        exists q, v. by rewrite list_lookup_insert_eq.
      * exists q', v'. by rewrite list_lookup_insert_ne.
Qed.

Lemma has_key_take_S tab i s k :
  tab !! i = Some s ->
  has_key (take (S i) tab) k <->
  has_key (take i tab) k \/ exists v, s = Some (k, v).
Proof.
  intros Es. rewrite (take_S_r _ _ _ Es). split.
  - intros (q & v & E). apply lookup_app_Some in E as [E|[Hq E]].
    + left. by exists q, v.
    + right. destruct (q - length (take i tab))%nat; [|done].
      simpl in E. exists v. by simplify_eq.
  - intros [(q & v & E)|[v ->]].
    + exists q, v. by apply lookup_app_l_Some.
    + exists (length (take i tab)), v.
      rewrite lookup_app_r by lia. by rewrite Nat.sub_diag.
Qed.

Lemma has_key_replicate n (k : K) : ~ has_key (replicate n None) k.
Proof. intros (q & v & E). apply lookup_replicate in E as [? _]. done. Qed.

End Keys.

Section Ptr.
Context `{Util}.

Lemma has_key_keys h key :
  key <> NULL -> length (keys h) = length (values h) ->
  has_key (slots h) key <-> exists q, keys h !! q = Some key.
Proof.
  intros Hkey Hlen. split.
  - intros (q & v & E). exists q.
    apply slots_lookup_inv in E as (k' & v' & Ek & Ev & Es).
    destruct (k' =? NULL); [done|]. by simplify_eq.
  - intros [q Ek].
    destruct (lookup_lt_is_Some_2 (values h) q) as [v Ev].
    { apply lookup_lt_Some in Ek. lia. }
    exists q, v. rewrite (slots_lookup h q key v Ek Ev).
    by rewrite (proj2 (Z.eqb_neq key NULL)).
Qed.

(** The probing phase of [hash_put], with its result and the count. *)
Lemma insert_full h key value fuel :
  wf0 h -> members h < size h -> key <> NULL ->
  (Z.to_nat (size h) <= fuel)%nat ->
  exists b h',
    hash_put_loop fuel h key value (Z.of_nat (pos (size h) key 0)) 1
      = Some (b, h') /\
    wf0 h' /\ size h' = size h /\
    (b = true <-> has_key (slots h) key) /\
    members h' = members h + (if b then 0 else 1) /\
    (forall k', has_key (slots h') k' <-> k' = key \/ has_key (slots h) k').
Proof.
  intros Hwf Hroom Hkey Hfuel.
  destruct (wf0_first_hit h key Hwf Hroom) as (j & Hj & Hf).
  pose proof Hwf as ((p & Hp & Hsz) & Hlk & Hlv & Hm & Hr).
  destruct (hash_put_loop_spec h p key value Hsz Hp Hkey j 0%nat fuel)
    as (k & v & Ek & Ev & Hk & E); [done|lia|].
  change (Z.of_nat 0 + 1) with 1 in E. change (0 + j)%nat with j in *.
  rewrite E. clear E.
  pose proof (pow2_bounds p Hp) as Hb.
  assert (Hs : slots h !! pos (size h) key j
               = Some (if k =? NULL then None else Some (k, v)))
    by by apply slots_lookup.
  destruct (Z.eqb_spec k key) as [->|Hne].
  - eexists _, _. split; [done|].
    assert (Hsl := slots_set_value h _ _ _ value Ek Ev Hkey).
    rewrite (proj2 (Z.eqb_neq key NULL)) in Hs by done.
    split; [|split; [done|split; [|split; [simpl; lia|]]]].
    + split; [by exists p|]. simpl. rewrite length_insert.
      split; [done|]. split; [done|]. rewrite Hsl.
      split; [|by apply put_reach].
      by rewrite (occ_insert _ _ _ _ Hs).
    + split; [|done]. intros _. by eexists _, _.
    + intros k'. rewrite Hsl. apply (has_key_insert _ _ _ _ _ _ Hs). eauto.
  - destruct Hk as [?| ->]; [done|].
    assert (Hsl := slots_set_both h (pos (size h) key j) key value
                     (to_unsigned (members h + 1)) Hkey).
    simpl in Hs.
    assert (Hocc := occ_insert (slots h) _ (key, value) _ Hs). simpl in Hocc.
    assert (Hmem : to_unsigned (members h + 1) = members h + 1).
    { apply to_unsigned_small. lia. }
    eexists _, _. split; [done|].
    split; [|split; [done|split; [|split; [done|]]]].
    + split; [by exists p|]. simpl. rewrite !length_insert.
      split; [done|]. split; [done|]. rewrite Hsl, Hocc, Hmem.
      split; [lia | by apply put_reach].
    + split; [done|]. intros (q & v' & Eq). exfalso.
      destruct (Hr _ _ _ Eq) as (j2 & F2 & Hq).
      rewrite (first_hit_unique _ _ _ _ _ F2 Hf) in Hq. subst q.
      rewrite Hs in Eq. done.
    + intros k'. rewrite Hsl. apply (has_key_insert _ _ _ _ _ _ Hs). eauto.
Qed.

(** The reinsertion loop keeps the keys and counts them again. *)
Lemma rehash_loop_full old n :
  wf old -> (2 * Z.to_nat (size old) + 1 <= n)%nat ->
  forall c i h,
  (i + c = Z.to_nat (size old))%nat ->
  wf0 h -> size h = 2 * size old ->
  members h = Z.of_nat (occ (take i (slots old))) ->
  (forall k, has_key (slots h) k <-> has_key (take i (slots old)) k) ->
  exists h1,
    for_loop c (Z.of_nat i) (rehash_body n old) h = Some h1 /\
    members h1 = members old /\
    (forall k, has_key (slots h1) k <-> has_key (slots old) k).
Proof.
  intros [Hwf Hload] Hn.
  pose proof Hwf as ((p & Hp & Hsz) & Hlk & Hlv & Hm & Hr).
  pose proof (pow2_bounds p Hp) as Hb.
  induction c as [|c IH]; intros i h Hic Hwfh Hszh Hmh Hkh.
  - simpl. exists h. rewrite take_ge in Hmh
      by (rewrite (wf0_slots_length old Hwf); lia).
    split; [done|]. split; [lia|]. intros k. rewrite Hkh.
    by rewrite take_ge by (rewrite (wf0_slots_length old Hwf); lia).
  - cbn [for_loop].
    destruct (lookup_lt_is_Some_2 (keys old) i) as [k Ek]; [lia|].
    destruct (lookup_lt_is_Some_2 (values old) i) as [v Ev]; [lia|].
    assert (Hs := slots_lookup old i k v Ek Ev).
    assert (Htake : take (S i) (slots old)
                    = take i (slots old)
                      ++ [if k =? NULL then None else Some (k, v)])
      by by apply take_S_r.
    rewrite rehash_body_eq, !get_at_nat, Ek. simpl.
    replace (Z.of_nat i + 1) with (Z.of_nat (S i)) by lia.
    destruct (Z.eqb_spec k NULL) as [->|Hk]; simpl.
    + apply IH; [lia|done|done| |].
      * rewrite Htake, occ_app. replace (occ [None]) with 0%nat by done. lia.
      * intros k'. rewrite Hkh, (has_key_take_S _ _ _ _ Hs).
        split; [auto|]. by intros [?|[? ?]].
    + rewrite Ev. simpl.
      assert (Hle : Z.of_nat (occ (take i (slots old))) <= members old).
      { rewrite Hm. pose proof (occ_take_le (slots old) i). lia. }
      destruct n as [|n]; [lia|].
      rewrite hash_put_noresize
        by (rewrite Hszh, Z.mul_comm, Z.div_mul by lia;
            pose proof (half_lt (size old)); lia).
      rewrite (hash_slot_spec h k Hwfh Hk). simpl.
      destruct (insert_full h k v n Hwfh)
        as (b & h' & E & Hwf' & Hsz' & Hb' & Hm' & Hk');
        [pose proof (half_lt (size old)); lia | done | lia |].
      rewrite E. simpl.
      assert (b = false) as ->.
      { destruct b; [|done]. exfalso.
        pose proof (proj1 Hb' eq_refl) as Hhas.
        apply Hkh in Hhas as (q & v' & Eq).
        assert (Hq : (q < i)%nat).
        { apply lookup_lt_Some in Eq. rewrite length_take in Eq. lia. }
        rewrite lookup_take_lt in Eq by done.
        pose proof (reach_key_unique _ _ _ _ _ _ _ Hr Eq Hs). lia. }
      apply IH; [lia|done|lia| |].
      * rewrite Htake, occ_app.
        replace (occ [Some (k, v)]) with 1%nat by done. lia.
      * intros k'. rewrite Hk', Hkh, (has_key_take_S _ _ _ _ Hs).
        split.
        -- intros [->|Hin]; [right; by exists v | by left].
        -- intros [Hin|[v' Ev']]; [by right | left; by simplify_eq].
Qed.

Lemma rebuilt_full n h :
  wf h -> size h < 2 ^ 31 -> (2 * Z.to_nat (size h) + 1 <= n)%nat ->
  exists h1, rebuilt n h = Some h1 /\ wf0 h1 /\ size h1 = 2 * size h /\
    members h1 = members h /\
    (forall k, has_key (slots h1) k <-> has_key (slots h) k).
Proof.
  intros Hwfl Hlim Hn.
  destruct (rebuilt_spec n h Hwfl Hlim Hn) as (h1 & E & Hwf1 & Hsz1 & _ & _).
  exists h1. split; [done|]. split; [done|]. split; [done|].
  pose proof Hwfl as [Hwf Hload].
  pose proof Hwf as ((p & Hp & Hsz) & Hlk & Hlv & Hm & Hr).
  pose proof (pow2_bounds p Hp) as Hb.
  unfold rebuilt, rebuilt_empty in E.
  rewrite to_int_small, to_unsigned_small in E by lia.
  assert (Hp' : p <= 30).
  { destruct (Z.le_gt_cases p 30); [done|].
    assert (2 ^ 31 <= 2 ^ p) by (apply Z.pow_le_mono_r; lia). lia. }
  destruct (rehash_loop_full h n Hwfl Hn (Z.to_nat (size h)) 0%nat
              (Hash (size h * 2) 0 (replicate (Z.to_nat (size h * 2)) NULL)
                 (replicate (Z.to_nat (size h * 2)) NULL)))
    as (h2 & E2 & Hm2 & Hk2).
  - lia.
  - split; [exists (p + 1); split; [lia|]; simpl;
            rewrite Z.pow_add_r by lia; lia|].
    simpl. rewrite !length_replicate.
    split; [done|]. split; [done|].
    rewrite slots_replicate, occ_replicate.
    split; [done | apply reach_replicate].
  - simpl; lia.
  - by rewrite take_0.
  - intros k. rewrite slots_replicate, take_0. split.
    + by intros ?%has_key_replicate.
    + by intros (q & v & ?).
  - change (Z.of_nat 0) with 0 in E2. rewrite E in E2. by simplify_eq.
Qed.


(** One call of [hash_iter] finds the next live slot. *)
Lemma hash_iter_loop_spec h :
  length (keys h) = Z.to_nat (size h) -> length (values h) = Z.to_nat (size h) ->
  0 <= size h < 2 ^ 32 - 1 ->
  forall c now fuel,
  (now + c = Z.to_nat (size h))%nat -> (c < fuel)%nat ->
  hash_iter_loop fuel h (Z.of_nat now)
  = Some (match list_find live (drop now (zip (keys h) (values h))) with
          | Some (i, kv) => (true, Z.of_nat (now + i + 1), Some kv)
          | None => (false, HASH_END, None)
          end).
Proof.
  intros Hlk Hlv Hsz. induction c as [|c IH]; intros now fuel Hc Hfuel;
    (destruct fuel as [|fuel]; [lia|]); cbn [hash_iter_loop].
  - rewrite (proj2 (Z.ltb_ge _ _)) by lia.
    rewrite drop_ge by (rewrite length_zip; lia). done.
  - rewrite (proj2 (Z.ltb_lt _ _)) by lia.
    destruct (lookup_lt_is_Some_2 (keys h) now) as [k Ek]; [lia|].
    destruct (lookup_lt_is_Some_2 (values h) now) as [v Ev]; [lia|].
    rewrite !get_at_nat, Ek, Ev. simpl.
    assert (Ez : zip (keys h) (values h) !! now = Some (k, v)).
    { by rewrite lookup_zip_with, Ek, Ev. }
    rewrite (drop_S _ _ _ Ez), list_find_cons_eq.
    rewrite to_unsigned_small by lia.
    replace (Z.of_nat now + 1) with (Z.of_nat (S now)) by lia.
    destruct (decide (live (k, v))) as [[Hk Hv]|Hn]; simpl in *.
    + rewrite (proj2 (Z.eqb_neq k NULL)), (proj2 (Z.eqb_neq v NULL)) by done.
      simpl. do 3 f_equal. lia.
    + assert (negb (k =? NULL) && negb (v =? NULL) = false) as ->.
      { destruct (Z.eqb_spec k NULL); [done|].
        destruct (Z.eqb_spec v NULL); [done|]. exfalso. apply Hn. by split. }
      rewrite IH by lia.
      destruct (list_find _ _) as [[i kv]|]; simpl; [|done].
      do 3 f_equal. lia.
Qed.

Lemma hash_iter_all_spec h :
  length (keys h) = Z.to_nat (size h) -> length (values h) = Z.to_nat (size h) ->
  0 <= size h < 2 ^ 32 - 1 ->
  forall c now fuel,
  (now + c = Z.to_nat (size h))%nat -> (c < fuel)%nat ->
  hash_iter_all fuel h (Z.of_nat now)
  = Some (filter live (drop now (zip (keys h) (values h))), HASH_END).
Proof.
  intros Hlk Hlv Hsz c. induction (lt_wf c) as [c _ IH].
  intros now fuel Hc Hfuel. destruct fuel as [|fuel]; [lia|].
  cbn [hash_iter_all]. unfold hash_iter.
  rewrite (proj2 (Z.eqb_neq _ _)); [|unfold HASH_END, UINT_MAX; lia].
  rewrite (hash_iter_loop_spec h Hlk Hlv Hsz c now) by lia.
  simpl.
  destruct (list_find _ _) as [[i kv]|] eqn:Ef.
  - pose proof (filter_find_Some _ _ _ _ Ef) as Efil.
    pose proof Ef as (Ei & _)%list_find_Some.
    apply lookup_lt_Some in Ei. rewrite length_drop, length_zip in Ei.
    rewrite (IH (c - i - 1)%nat) by lia. simpl.
    rewrite Efil, drop_drop.
    by replace (now + S i)%nat with (now + i + 1)%nat by lia.
  - by rewrite (filter_find_None _ _ Ef).
Qed.

Lemma lookup_nonzero {K} `{EqDecision K} (tab : list (option (K * Z))) k :
  lookup tab k <> 0 -> exists q, tab !! q = Some (Some (k, lookup tab k)).
Proof.
  unfold lookup. destruct (list_find _ tab) as [[q [[k' v]|]]|] eqn:Ef; try done.
  intros _. apply list_find_Some in Ef as (E & Hk & _). simpl in Hk.
  exists q. by simplify_eq.
Qed.

Lemma live_entries_elem h k v :
  (k, v) ∈ live_entries h <->
  k <> NULL /\ v <> NULL /\ exists q, slots h !! q = Some (Some (k, v)).
Proof.
  unfold live_entries. rewrite list_elem_of_filter, list_elem_of_lookup.
  unfold live. simpl. split.
  - intros [[Hk Hv] [q Eq]]. split; [done|]. split; [done|]. exists q.
    rewrite lookup_zip_with in Eq.
    destruct (keys h !! q) as [k'|] eqn:Ek; [simpl in Eq|done].
    destruct (values h !! q) as [v'|] eqn:Ev; [simpl in Eq|done]. simplify_eq.
    rewrite (slots_lookup h q k v Ek Ev).
    by rewrite (proj2 (Z.eqb_neq k NULL)).
  - intros (Hk & Hv & q & Eq). split; [done|]. exists q.
    apply slots_lookup_inv in Eq as (k' & v' & Ek & Ev & Es).
    destruct (k' =? NULL); [done|]. simplify_eq.
    by rewrite lookup_zip_with, Ek, Ev.
Qed.

Lemma NoDup_filter_keys (l : list (Z * Z)) :
  (forall i j k v v', l !! i = Some (k, v) -> l !! j = Some (k, v') ->
     k <> NULL -> i = j) ->
  NoDup (filter live l).*1.
Proof.
  induction l as [|[k v] l IH]; intros Hu; [constructor|].
  assert (Hrec : NoDup (filter live l).*1).
  { apply IH. intros i j k' v1 v2 Ei Ej Hk.
    assert (S i = S j) by (by eapply (Hu (S i) (S j))). lia. }
  rewrite filter_cons. destruct (decide (live (k, v))) as [[Hk Hv]|]; [|done].
  simpl in *. constructor; [|done].
  intros ([k' v'] & Ek & Hin)%list_elem_of_fmap. simpl in Ek. subst k'.
  apply list_elem_of_filter in Hin as [_ Hin].
  apply list_elem_of_lookup in Hin as [j Ej].
  assert (0%nat = S j) by (by eapply (Hu 0%nat (S j) k v v')). lia.
Qed.

(** X5: calling [hash_iter] from [HASH_BEGIN] until it returns false hands
    out the slots whose key and value are not NULL, in slot order, and
    leaves [HASH_END] in the iterator; every key comes once, and the
    pairs are those of a key with the non-NULL value [hash_get] returns
    for it. *)
Theorem hash_iter_enumerates n fuel h :
  wf h -> (Z.to_nat (size h) <= n)%nat -> (Z.to_nat (size h) < fuel)%nat ->
  hash_iter_all fuel h HASH_BEGIN = Some (live_entries h, HASH_END) /\
  NoDup (live_entries h).*1 /\
  (forall k v, (k, v) ∈ live_entries h <->
     k <> NULL /\ v <> NULL /\ hash_get n h k = Some v).
Proof.
  intros Hwfl Hn Hfuel. pose proof Hwfl as [Hwf Hload].
  pose proof (wf_room h Hwfl) as Hroom.
  pose proof Hwf as ((p & Hp & Hsz) & Hlk & Hlv & Hm & Hr).
  pose proof (pow2_bounds p Hp) as Hb.
  split; [|split].
  - change HASH_BEGIN with (Z.of_nat 0).
    rewrite (hash_iter_all_spec h Hlk Hlv ltac:(lia) (Z.to_nat (size h)) 0)
      by lia.
    done.
  - apply NoDup_filter_keys. intros i j k v v' Ei Ej Hk.
    rewrite lookup_zip_with in Ei, Ej.
    destruct (keys h !! i) as [ki|] eqn:Eki; [simpl in Ei|done].
    destruct (values h !! i) as [vi|] eqn:Evi; [simpl in Ei|done].
    destruct (keys h !! j) as [kj|] eqn:Ekj; [simpl in Ej|done].
    destruct (values h !! j) as [vj|] eqn:Evj; [simpl in Ej|done].
    simplify_eq.
    pose proof (slots_lookup h i k v Eki Evi) as Si.
    pose proof (slots_lookup h j k v' Ekj Evj) as Sj.
    rewrite (proj2 (Z.eqb_neq k NULL)) in Si, Sj by done.
    by destruct (reach_key_unique _ _ _ _ _ _ _ Hr Si Sj).
  - intros k v. rewrite live_entries_elem. split.
    + intros (Hk & Hv & q & Eq). split; [done|]. split; [done|].
      rewrite (hash_get_spec h k n Hwf Hroom Hk Hn). f_equal.
      by apply (lookup_content (pos (size h)) _ q).
    + intros (Hk & Hv & Eg). split; [done|]. split; [done|].
      rewrite (hash_get_spec h k n Hwf Hroom Hk Hn) in Eg.
      apply (inj Some) in Eg. subst v. by apply lookup_nonzero.
Qed.

(** X6: [hash_get] returns NULL for a key that is in no slot of the
    table. *)
Theorem hash_get_missing n h key :
  wf h -> key <> NULL -> (forall q, keys h !! q <> Some key) ->
  (Z.to_nat (size h) <= n)%nat ->
  hash_get n h key = Some NULL.
Proof.
  intros Hwfl Hkey Hno Hn. pose proof Hwfl as [Hwf Hload].
  rewrite (hash_get_spec h key n Hwf (wf_room h Hwfl) Hkey Hn). f_equal.
  apply lookup_absent. intros q v Eq.
  apply slots_lookup_inv in Eq as (k' & v' & Ek & Ev & Es).
  destruct (k' =? NULL); [done|]. simplify_eq. by apply (Hno q).
Qed.

(** X8: with [next_power_of_2] as util.c defines it, [hash_new] of a size
    between 1 and 2^30 makes a well-formed table whose size is the least
    power of two not below the requested one, with no members: [hash_get]
    returns NULL and [hash_iter] ends at once. *)
Theorem hash_new_empty sz n key :
  (forall m, next_power_of_2 m = UtilNum.next_power_of_2 m) ->
  1 <= sz <= 2 ^ 30 -> key <> NULL -> (2 * Z.to_nat sz <= n)%nat ->
  wf (hash_new sz) /\
  size (hash_new sz) = 2 ^ Z.log2_up sz /\
  sz <= size (hash_new sz) < 2 * sz /\
  hash_members (hash_new sz) = 0 /\
  hash_get n (hash_new sz) key = Some NULL /\
  hash_iter (hash_new sz) HASH_BEGIN = Some (false, HASH_END, None).
Proof.
  intros Hnp Hsz Hkey Hn. unfold hash_new.
  rewrite Hnp, (UtilNumFacts.pow2_round_up sz) by lia.
  set (p := Z.log2_up sz).
  assert (Hp : 0 <= p <= 30).
  { split; [apply Z.log2_up_nonneg|].
    destruct (Z.eq_dec sz 1) as [->|]; [done|].
    apply Z.log2_up_le_pow2; lia. }
  assert (Hb : sz <= 2 ^ p < 2 * sz).
  { destruct (Z.eq_dec sz 1) as [->|]; [done|].
    pose proof (Z.log2_up_spec sz ltac:(lia)) as [Hlo Hhi]. fold p in Hlo, Hhi.
    split; [done|].
    replace p with (Z.succ (Z.pred p)) by lia.
    rewrite Z.pow_succ_r; [lia|]. 
    assert (0 < p); [|lia]. apply Z.log2_up_pos. lia. }
  set (h := Hash _ _ _ _).
  assert (Hwf : wf h).
  { split; [|simpl; apply Z.div_pos; lia].
    split; [exists p; split; [lia|done]|].
    unfold h. simpl. rewrite !length_replicate.
    split; [done|]. split; [done|].
    rewrite slots_replicate, occ_replicate.
    split; [done | apply reach_replicate]. }
  split; [done|]. split; [done|]. split; [done|]. split; [done|]. split.
  - destruct Hwf as [Hwf0 ?].
    rewrite (hash_get_spec h key n Hwf0); [|simpl; lia|done|simpl; lia].
    unfold h. by rewrite slots_replicate, lookup_empty.
  - unfold hash_iter. change (HASH_BEGIN =? HASH_END) with false. cbv iota.
    change HASH_BEGIN with (Z.of_nat 0).
    rewrite (hash_iter_loop_spec h) with (c := Z.to_nat (2 ^ p));
      [|by simpl; rewrite length_replicate..|simpl; lia|simpl; lia|simpl; lia].
    replace (list_find _ _) with (@None (nat * (Z * Z))); [done|].
    symmetry. apply list_find_None, Forall_lookup_2. intros i [k v] E [Hk _].
    rewrite drop_0, lookup_zip_with in E. simpl in E.
    destruct (replicate _ _ !! i) as [k'|] eqn:Ek; [simpl in E|done].
    apply lookup_replicate in Ek as [-> _]. by simplify_eq.
Qed.

End Ptr.

#[local] Existing Instance ChashSpec.sample_util.

Lemma hash_iter_enumerates_witness :
  hash_iter_all 5 sample_table HASH_BEGIN
    = Some (live_entries sample_table, HASH_END) /\
  NoDup (live_entries sample_table).*1 /\
  (forall k v, (k, v) ∈ live_entries sample_table <->
     k <> NULL /\ v <> NULL /\ hash_get 4 sample_table k = Some v).
Proof.
  apply (hash_iter_enumerates 4 5 sample_table sample_table_wf).
  - vm_compute. lia.
  - vm_compute. lia.
Defined.

Lemma hash_get_missing_witness : hash_get 4 sample_table 7 = Some NULL.
Proof.
  apply (hash_get_missing 4 sample_table 7 sample_table_wf).
  - vm_compute. discriminate.
  - intros [|[|[|[|q]]]]; vm_compute; discriminate.
  - vm_compute. lia.
Defined.


Lemma hash_new_empty_witness :
  @wf util_c (@hash_new util_c 5) /\
  size (@hash_new util_c 5) = 2 ^ Z.log2_up 5 /\
  5 <= size (@hash_new util_c 5) < 2 * 5 /\
  hash_members (@hash_new util_c 5) = 0 /\
  @hash_get util_c 10 (@hash_new util_c 5) 7 = Some NULL /\
  hash_iter (@hash_new util_c 5) HASH_BEGIN = Some (false, HASH_END, None).
Proof.
  apply (@hash_new_empty util_c 5 10 7).
  - intros m. reflexivity.
  - lia.
  - vm_compute. discriminate.
  - vm_compute. lia.
Defined.

End PtrMoreFacts.

(* --------------------------------------------------------------------- *)
(** ** The identifier codes of the VCD writer                            *)
(* --------------------------------------------------------------------- *)

Module VcdKeyFacts.
Import VcdKey VcdKeySpec.
Local Open Scope Z_scope.

Lemma vcd_key_fmt_S fuel key :
  vcd_key_fmt (S fuel) key
  = if 0 <? Z.quot key 93
    then (33 + Z.rem key 93 ::.) <$> vcd_key_fmt fuel (Z.quot key 93)
    else Some [33 + Z.rem key 93].
Proof. reflexivity. Qed.

Lemma vcd_key_fmt_digits fuel : forall key,
  0 <= key < 93 ^ Z.of_nat (S fuel) ->
  exists s, vcd_key_fmt (S fuel) key = Some s /\
    (1 <= length s <= S fuel)%nat /\
    Forall (fun c => 33 <= c <= 125) s /\
    vcd_key_decode s = key.
Proof.
  induction fuel as [|fuel IH]; intros key Hkey;
    rewrite vcd_key_fmt_S;
    rewrite Z.rem_mod_nonneg, Z.quot_div_nonneg by lia;
    pose proof (Z.mod_pos_bound key 93 ltac:(lia)) as Hm;
    pose proof (Z.div_mod key 93 ltac:(lia)) as Ed;
    destruct (Z.ltb_spec 0 (key / 93)) as [Hq|Hq].
  - exfalso. change (93 ^ Z.of_nat 1) with 93 in Hkey.
    rewrite Z.div_small in Hq by lia. lia.
  - assert (key / 93 = 0) as E0 by (pose proof (Z.div_pos key 93); lia).
    eexists. split; [done|]. simpl. split; [lia|].
    split; [repeat constructor; lia|]. lia.
  - destruct (IH (key / 93)) as (s & E & Hl & Hc & Hd).
    { split; [lia|]. apply Z.div_lt_upper_bound; [lia|].
      rewrite (Nat2Z.inj_succ (S fuel)), Z.pow_succ_r in Hkey by lia. lia. }
    rewrite E. simpl. eexists. split; [done|]. simpl.
    split; [lia|]. split; [constructor; [lia|done]|]. rewrite Hd. lia.
  - assert (key / 93 = 0) as E0 by (pose proof (Z.div_pos key 93); lia).
    eexists. split; [done|]. simpl. split; [lia|].
    split; [repeat constructor; lia|]. lia.
Qed.

Lemma vcd_key_fmt_more fuel : forall key s n,
  vcd_key_fmt fuel key = Some s -> vcd_key_fmt (fuel + n) key = Some s.
Proof.
  induction fuel as [|fuel IH]; intros key s n E; [done|].
  cbn [vcd_key_fmt Nat.add] in *.
  destruct (0 <? Z.quot key (126 - 33)); [|done].
  destruct (vcd_key_fmt fuel _) as [s'|] eqn:E'; [|done].
  by rewrite (IH _ _ n E').
Qed.

(** X9: for a key that is not negative [vcd_key_fmt] writes between one
    and five characters, all printable and none a blank (codes 33 to
    125); they are the digits of the key in base 93, least first, so two
    keys never get the same identifier code. *)
Theorem vcd_key_fmt_round_trip fuel key :
  0 <= key < 2 ^ 31 -> (5 <= fuel)%nat ->
  exists s, vcd_key_fmt fuel key = Some s /\
    (1 <= length s <= 5)%nat /\
    Forall (fun c => 33 <= c <= 125) s /\
    vcd_key_decode s = key /\
    (forall key', 0 <= key' < 2 ^ 31 -> vcd_key_fmt fuel key' = Some s ->
       key' = key).
Proof.
  intros Hkey Hfuel.
  assert (Hfive : forall k, 0 <= k < 2 ^ 31 ->
            exists s, vcd_key_fmt fuel k = Some s /\
              (1 <= length s <= 5)%nat /\
              Forall (fun c => 33 <= c <= 125) s /\ vcd_key_decode s = k).
  { intros k Hk. destruct (vcd_key_fmt_digits 4 k) as (s & E & Hl & Hc & Hd).
    { change (93 ^ Z.of_nat 5) with 6956883693. lia. }
    exists s. split; [|done].
    replace fuel with (5 + (fuel - 5))%nat by lia.
    by apply vcd_key_fmt_more. }
  destruct (Hfive key Hkey) as (s & E & Hl & Hc & Hd).
  exists s. split; [done|]. split; [done|]. split; [done|]. split; [done|].
  intros key' Hkey' E'.
  destruct (Hfive key' Hkey') as (s' & Es' & _ & _ & Hd').
  rewrite E' in Es'. by simplify_eq.
Qed.

Lemma vcd_key_fmt_round_trip_witness :
  exists s, vcd_key_fmt 5 100 = Some s /\
    (1 <= length s <= 5)%nat /\
    Forall (fun c => 33 <= c <= 125) s /\
    vcd_key_decode s = 100 /\
    (forall key', 0 <= key' < 2 ^ 31 -> vcd_key_fmt 5 key' = Some s ->
       key' = 100).
Proof. apply (vcd_key_fmt_round_trip 5 100); lia. Defined.

End VcdKeyFacts.

(* --------------------------------------------------------------------- *)
(** ** Warnings and notes                                                 *)
(* --------------------------------------------------------------------- *)

Module DiagMoreFacts.
Import Util DiagSpec DiagFacts DiagMore.
Local Open Scope Z_scope.

Lemma catch_in_unit_test_trace prefix l msg s u :
  unit_test s u ->
  catch_in_unit_test (fun m => emit (EvPrint prefix m)) l msg s
  = Return tt (with_trace s (trace s ++ report_trace s u prefix msg (loc_or_invalid l))).
Proof.
  intros Hu. unfold catch_in_unit_test, bind at 1.
  rewrite (opt_get_int_spec _ _ Hu). unfold report_trace.
  destruct (u =? 0); simpl.
  - unfold msg_at, msg_trace, with_trace.
    destruct s as [ef ms os hs ne ins tr]. destruct ms; msimpl;
      by rewrite <- app_assoc.
  - apply call_error_fn_spec.
Qed.

(** The common shape of [warn_at] and [note_at]. *)
Lemma report_spec prefix n l msg s u :
  inside s = false -> unit_test s u -> 0 <= n_errors s < 2^32 ->
  (length (hints s) + 4 <= n)%nat ->
  exists s',
    (catch_in_unit_test (fun m => emit (EvPrint prefix m)) l msg ;;;
     show_hint n ;;;
     u <- opt_get_int "unit-test" ;;
     if negb (u =? 0) then incr_n_errors else ret tt) s = Return tt s' /\
    hints s' = [] /\
    n_errors s' =
      (n_errors s + (if u =? 0 then 0 else 1 + count_default (hints s)))
        mod 2^32 /\
    (exists tl, trace s' = trace s ++
       report_trace s u prefix msg (loc_or_invalid l) ++ tl) /\
    inside s' = false /\ error_fn s' = error_fn s /\ options s' = options s.
Proof.
  intros Hi Hu Hr Hn.
  rewrite (bind_Return _ _ _ _ _ (catch_in_unit_test_trace _ _ _ _ _ Hu));
    cbv beta.
  destruct n as [|n]; [lia|].
  set (tr := trace s ++ report_trace s u prefix msg (loc_or_invalid l)).
  destruct (show_hint_loop_spec (hints s) n
     (State (error_fn s) (message_style s) (options s) (hints s) (n_errors s)
        true tr) u)
     as (s' & E' & H1 & H2 & H3 & H4 & H5 & [tl' H6] & Hne);
    [reflexivity | reflexivity | by destruct Hu as (it & ? & ? & ?); exists it
    | simpl; lia | lia |].
  erewrite bind_Return; cycle 1.
  { cbn [show_hint]. unfold bind at 1, get at 1. cbn [inside with_trace].
    rewrite Hi. erewrite bind_Return; [|reflexivity]. cbv beta.
    erewrite bind_Return; [|exact E']. reflexivity. }
  cbv beta.
  set (s1 := State (error_fn s') (message_style s') (options s') (hints s')
               (n_errors s') false (trace s')).
  assert (Hu1 : unit_test s1 u).
  { destruct Hu as (it & ? & ? & ?). exists it. simpl in *. by rewrite H3. }
  rewrite (bind_Return _ _ _ _ _ (opt_get_int_spec _ _ Hu1)); cbv beta.
  simpl in *.
  destruct (Z.eqb_spec u 0) as [->|Hu0]; simpl.
  - eexists. split; [reflexivity|]. simpl.
    split; [done|]. split; [by rewrite Hne|]. split; [|done].
    exists tl'. unfold tr in H6. by rewrite <- app_assoc in H6.
  - eexists. split; [reflexivity|]. simpl.
    split; [done|]. split; [|split; [|done]].
    + rewrite Hne. rewrite Zplus_mod_idemp_l. f_equal. lia.
    + exists tl'. unfold tr in H6. by rewrite <- app_assoc in H6.
Qed.



End DiagMoreFacts.

(* --------------------------------------------------------------------- *)
(** ** Text buffers                                                       *)
(* --------------------------------------------------------------------- *)

Module TextBufFacts.
Import Common TextBuf TextBufSpec SeqFacts.
Local Open Scope Z_scope.

Lemma to_uint64_small x : 0 <= x < 2 ^ 64 -> to_uint64 x = x.
Proof. intros Hx. unfold to_uint64. by apply Z.mod_small. Qed.

Lemma store_middle pre x post c :
  store (pre ++ x :: post) (Z.of_nat (length pre)) c
  = Some (pre ++ Some c :: post).
Proof.
  unfold store. rewrite length_app. simpl.
  rewrite (proj2 (Z.leb_le _ _)), (proj2 (Z.ltb_lt _ _)) by lia. simpl.
  f_equal. rewrite set_at_nat.
  rewrite insert_app_r_alt by lia. by rewrite Nat.sub_diag.
Qed.

Lemma store_all_middle l : forall pre mid post,
  length mid = length l ->
  store_all (pre ++ mid ++ post) (Z.of_nat (length pre)) l
  = Some (pre ++ (Some <$> l) ++ post).
Proof.
  induction l as [|c l IH]; intros pre mid post Hl.
  - destruct mid; [done|simpl in Hl; lia].
  - destruct mid as [|x mid]; [simpl in Hl; lia|].
    cbn [store_all]. change ((x :: mid) ++ post) with (x :: mid ++ post).
    rewrite store_middle. simpl.
    replace (pre ++ Some c :: mid ++ post)
      with ((pre ++ [Some c]) ++ mid ++ post) by by rewrite <- app_assoc.
    replace (Z.of_nat (length pre) + 1)
      with (Z.of_nat (length (pre ++ [Some c])))
      by (rewrite length_app; simpl; lia).
    rewrite IH by (simpl in Hl; lia). by rewrite <- app_assoc.
Qed.

Lemma c_string_text text rest :
  Forall (fun c => c <> 0) text ->
  c_string ((Some <$> text) ++ Some 0 :: rest) = Some text.
Proof.
  induction 1 as [|c text Hc _ IH]; [done|].
  rewrite fmap_cons. change ((Some c :: (Some <$> text)) ++ Some 0 :: rest)
    with (Some c :: ((Some <$> text) ++ Some 0 :: rest)).
  cbn [c_string]. rewrite (proj2 (Z.eqb_neq c 0)) by done. by rewrite IH.
Qed.

(** The loop of [tb_printf], from a buffer whose bytes behind the text
    hold anything. *)
Lemma tb_printf_loop s fuel : forall b al text junk,
  b = (Some <$> text) ++ junk ->
  al = Z.of_nat (length b) -> junk <> [] ->
  Forall (fun c => c <> 0) text -> Forall (fun c => c <> 0) s ->
  al <= 2 ^ 30 -> Z.of_nat (length text) + Z.of_nat (length s) < 2 ^ 29 ->
  (length s < length junk + fuel - 1)%nat -> (0 < fuel)%nat ->
  exists tb',
    tb_printf fuel (TB b al (Z.of_nat (length text))) s = Some tb' /\
    tb_ok tb' (text ++ s) /\
    al <= alloc tb' /\
    alloc tb' <= Z.max al (2 * (Z.of_nat (length text) + Z.of_nat (length s))).
Proof.
  induction fuel as [|fuel IH];
    intros b al text junk Hb Hal Hjunk Htext Hs Hlim Hlen Hfuel Hpos; [lia|].
  cbn [tb_printf alloc len buf].
  assert (Hlb : length b = (length text + length junk)%nat).
  { by rewrite Hb, length_app, length_fmap. }
  assert (Hj : (0 < length junk)%nat) by (destruct junk; [done|simpl; lia]).
  assert (Hav : to_int (to_uint64 (al - Z.of_nat (length text)))
                = Z.of_nat (length junk)).
  { rewrite to_uint64_small, to_int_small by lia. lia. }
  rewrite Hav. unfold vsnprintf.
  rewrite (proj2 (Z.eqb_neq _ 0)), (proj2 (Z.ltb_ge _ 0)) by lia.
  rewrite to_int_small by lia.
  replace (Z.to_nat (Z.of_nat (length junk) - 1)) with (length junk - 1)%nat
    by lia.
  destruct (Z.lt_ge_cases (Z.of_nat (length s)) (Z.of_nat (length junk)))
    as [Hfit|Hnofit].
  - (* the text fits *)
    rewrite take_ge by lia.
    assert (Hst := store_all_middle (s ++ [0]) (Some <$> text)
                     (take (length s + 1) junk) (drop (length s + 1) junk)).
    rewrite take_drop, length_fmap, <- Hb in Hst.
    rewrite Hst by (rewrite length_take, length_app; simpl; lia).
    simpl. rewrite (proj2 (Z.ltb_lt _ _)) by done. eexists. split; [done|]. split; [|simpl; lia].
    split; [|split; [|split]]; simpl.
    + rewrite !length_app, !length_fmap, length_app, length_drop. simpl. lia.
    + rewrite to_uint64_small, length_app by lia. lia.
    + by apply Forall_app.
    + exists (drop (length s + 1) junk).
      rewrite !fmap_app, <- !app_assoc.
      done.
  - (* truncated: the block is doubled and the call repeated *)
    assert (Hst := store_all_middle (take (length junk - 1) s ++ [0])
                     (Some <$> text) junk []).
    rewrite !app_nil_r, length_fmap, <- Hb in Hst.
    rewrite Hst by (rewrite length_app, length_take; simpl; lia).
    simpl. rewrite (proj2 (Z.ltb_ge _ _)) by done.
    rewrite to_uint64_small by lia.
    set (junk1 := Some <$> take (length junk - 1) s ++ [0]).
    assert (Hl1 : length junk1 = length junk).
    { unfold junk1. rewrite length_fmap, length_app, length_take. simpl. lia. }
    set (b1 := (Some <$> text) ++ junk1).
    assert (Hlb1 : length b1 = length b).
    { unfold b1. rewrite length_app, length_fmap. lia. }
    assert (Hre : xrealloc b1 (al * 2)
                  = (Some <$> text) ++ junk1 ++ replicate (length b) None).
    { unfold xrealloc. rewrite take_ge by lia.
      replace (Z.to_nat (al * 2) - length b1)%nat with (length b) by lia.
      unfold b1. by rewrite <- app_assoc. }
    rewrite Hre.
    destruct (IH _ (al * 2) text (junk1 ++ replicate (length b) None) eq_refl)
      as (tb' & E & Hok & Hlo & Hhi).
    + rewrite !length_app, ?length_fmap, ?length_replicate. lia.
    + destruct junk1; [simpl in Hl1; lia|done].
    + done.
    + done.
    + lia.
    + done.
    + rewrite length_app, length_replicate. lia.
    + lia.
    + exists tb'. split; [done|]. split; [done|]. split; lia.
Qed.

(** One call: the buffer holds the text the call leaves, and the block
    grows only as far as the text needs. *)
Lemma tb_ops_ok tb text :
  tb_ok tb text -> alloc tb <= 2 ^ 30 ->
  tb_get tb = Some text /\
  (forall ch, ch <> 0 ->
     exists tb', tb_append tb ch = Some tb' /\ tb_ok tb' (text ++ [ch]) /\
       alloc tb <= alloc tb' <=
         Z.max (alloc tb) (2 * (Z.of_nat (length text) + 1))) /\
  (forall fuel s, Forall (fun c => c <> 0) s ->
     Z.of_nat (length text) + Z.of_nat (length s) < 2 ^ 29 ->
     (length s < fuel)%nat ->
     exists tb', tb_printf fuel tb s = Some tb' /\ tb_ok tb' (text ++ s) /\
       alloc tb <= alloc tb' <=
         Z.max (alloc tb) (2 * (Z.of_nat (length text) + Z.of_nat (length s)))) /\
  (forall n, 0 <= n ->
     exists tb', tb_backup tb n = Some tb' /\
       tb_ok tb' (take (length text - Z.to_nat n) text) /\
       alloc tb' = alloc tb) /\
  (exists tb', tb_rewind tb = Some tb' /\ tb_ok tb' [] /\ alloc tb' = alloc tb).
Proof.
  intros (Hal & Hlen & Htext & rest & Hbuf) Hlim.
  destruct tb as [b al ln]. simpl in *. subst ln.
  assert (Hlb : length b = (length text + S (length rest))%nat).
  { by rewrite Hbuf, length_app, length_fmap. }
  split; [|split; [|split; [|split]]].
  - unfold tb_get. simpl. rewrite Hbuf. by apply c_string_text.
  - intros ch Hch. unfold tb_append. cbn [alloc len buf].
    rewrite (to_uint64_small (_ + 1)) by lia.
    assert (Hstep : forall b1 al1 r0 rest1,
              b1 = (Some <$> text) ++ Some 0 :: r0 :: rest1 ->
              al1 = Z.of_nat (length b1) ->
              exists tb',
                (b' ← store b1 (Z.of_nat (length text)) ch;
                 b'' ← store b' (Z.of_nat (length text) + 1) 0;
                 Some (TB b'' al1 (Z.of_nat (length text) + 1))) = Some tb' /\
                tb_ok tb' (text ++ [ch]) /\ alloc tb' = al1).
    { intros b1 al1 r0 rest1 -> ->.
      assert (E1 : store ((Some <$> text) ++ Some 0 :: r0 :: rest1)
                     (Z.of_nat (length text)) ch
                   = Some ((Some <$> text) ++ Some ch :: r0 :: rest1)).
      { pose proof (store_middle (Some <$> text) (Some 0) (r0 :: rest1) ch) as E.
        by rewrite length_fmap in E. }
      assert (E2 : store ((Some <$> text) ++ Some ch :: r0 :: rest1)
                     (Z.of_nat (length text) + 1) 0
                   = Some ((Some <$> text) ++ Some ch :: Some 0 :: rest1)).
      { pose proof (store_middle ((Some <$> text) ++ [Some ch]) r0 rest1 0) as E.
        rewrite length_app, length_fmap, <- !app_assoc in E. simpl in E.
        by rewrite Nat2Z.inj_add in E. }
      rewrite E1. simpl. rewrite E2. simpl. eexists. split; [done|].
      split; [|done]. split; [|split; [|split]]; simpl.
      - rewrite !length_app. simpl. lia.
      - rewrite length_app. simpl. lia.
      - apply Forall_app. split; [done|]. by constructor.
      - exists rest1. by rewrite fmap_app, <- app_assoc. }
    destruct (Z.leb_spec al (Z.of_nat (length text) + 1)) as [Hfull|Hroom].
    + cbn [alloc len buf]. rewrite to_uint64_small by lia.
      assert (Hrest : rest = []).
      { destruct rest; [done|]. simpl in Hlb. lia. }
      subst rest.
      assert (Hre : xrealloc b (al * 2)
                    = (Some <$> text) ++ Some 0 :: replicate (length b) None).
      { unfold xrealloc. rewrite take_ge by lia.
        replace (Z.to_nat (al * 2) - length b)%nat with (length b) by lia.
        rewrite Hbuf at 1. by rewrite <- app_assoc. }
      rewrite Hre.
      destruct (length b) as [|nb] eqn:Enb; [lia|]. simpl replicate.
      destruct (Hstep _ (al * 2) None (replicate nb None) eq_refl)
        as (tb' & E & Hok & Ha).
      { rewrite length_app, length_fmap. simpl. rewrite length_replicate. lia. }
      exists tb'. rewrite !(to_uint64_small (Z.of_nat (length text) + 1)) by lia.
      split; [done|]. split; [done|]. lia.
    + cbn [alloc len buf].
      destruct rest as [|r0 rest1]; [simpl in Hlb; lia|].
      destruct (Hstep b al r0 rest1 Hbuf Hal) as (tb' & E & Hok & Ha).
      exists tb'. rewrite !(to_uint64_small (Z.of_nat (length text) + 1)) by lia.
      split; [done|]. split; [done|]. lia.
  - intros fuel s Hs Hsum Hfuel.
    destruct (tb_printf_loop s fuel b al text (Some 0 :: rest) Hbuf Hal)
      as (tb' & E & Hok & Hlo & Hhi); try done; try (simpl; lia).
    exists tb'. split; [done|]. split; [done|]. lia.
  - intros n Hn. unfold tb_backup. cbn [alloc len buf].
    set (keep := (length text - Z.to_nat n)%nat).
    assert (Hlen' : (if Z.of_nat (length text) <? n then 0
                     else to_uint64 (Z.of_nat (length text) - n))
                    = Z.of_nat keep).
    { unfold keep. destruct (Z.ltb_spec (Z.of_nat (length text)) n); [lia|].
      rewrite to_uint64_small by lia. lia. }
    rewrite Hlen'.
    assert (Hk : length (Some <$> take keep text) = keep).
    { rewrite length_fmap, length_take. unfold keep. lia. }
    assert (Hsplit : exists x post, b = (Some <$> take keep text) ++ x :: post).
    { destruct ((Some <$> drop keep text) ++ Some 0 :: rest) as [|x post] eqn:Ep.
      { destruct (drop keep text); done. }
      exists x, post. rewrite <- Ep, app_assoc, <- fmap_app, take_drop. done. }
    destruct Hsplit as (x & post & Hsplit).
    pose proof (store_middle (Some <$> take keep text) x post 0) as Est.
    rewrite Hk, <- Hsplit in Est. rewrite Est. simpl.
    eexists. split; [done|]. split; [|done].
    split; [|split; [|split]]; simpl.
    + rewrite Hal, Hsplit. by rewrite !length_app.
    + rewrite length_take. unfold keep. lia.
    + by apply Forall_take.
    + by exists post.
  - unfold tb_rewind. cbn [alloc len buf].
    assert (Hsplit : exists x post, b = [] ++ x :: post).
    { rewrite Hbuf. destruct text; simpl; eauto. }
    destruct Hsplit as (x & post & Hsplit).
    pose proof (store_middle [] x post 0) as Est.
    rewrite <- Hsplit in Est. change (Z.of_nat (length [])) with 0 in Est.
    rewrite Est. simpl.
    eexists. split; [done|]. split; [|done].
    split; [|split; [|split]]; simpl.
    + by rewrite Hal, Hsplit.
    + done.
    + constructor.
    + by exists post.
Qed.

(** [tb_new] makes an empty buffer. *)
Lemma tb_new_ok : exists tb, tb_new = Some tb /\ tb_ok tb [] /\ alloc tb = 256.
Proof.
  eexists. split; [reflexivity|]. split; [|done].
  split; [done|]. split; [done|]. split; [constructor|].
  by eexists.
Qed.

Lemma tb_run_ok fuel ops : forall tb text used,
  tb_ok tb text -> Forall op_ok ops ->
  Z.of_nat (length text) <= used ->
  alloc tb <= Z.max 256 (2 * used) ->
  used + ops_size ops < 2 ^ 29 ->
  (Z.to_nat (ops_size ops) < fuel)%nat ->
  exists tb', tb_run fuel ops tb = Some tb' /\
    tb_ok tb' (text_run ops text) /\
    alloc tb' <= Z.max 256 (2 * (used + ops_size ops)).
Proof.
  induction ops as [|op ops IH]; intros tb text used Hok Hops Hused Hal Hsum Hfuel.
  { exists tb. simpl. rewrite Z.add_0_r. done. }
  apply Forall_cons in Hops as [Hop Hops]. cbn [ops_size] in *.
  assert (Hsz : 0 <= ops_size ops).
  { clear. induction ops as [|[] ops IH]; simpl; lia. }
  assert (Hop0 : 0 <= op_size op) by (destruct op; simpl; lia).
  destruct (tb_ops_ok tb text Hok ltac:(lia)) as (_ & Ha & Hp & Hb & Hr).
  cbn [tb_run text_run].
  destruct op as [ch|s|n|]; cbn [tb_apply text_after op_size op_ok] in *.
  - destruct (Ha ch Hop) as (tb' & E & Hok' & Hal').
    rewrite E. simpl.
    destruct (IH tb' (text ++ [ch]) (used + 1)) as (tb2 & E2 & Hok2 & Hal2);
      try done; try lia.
    { rewrite length_app. simpl. lia. }
    exists tb2. split; [done|]. split; [done|]. lia.
  - destruct (Hp fuel s Hop) as (tb' & E & Hok' & Hal'); [lia|lia|].
    rewrite E. simpl.
    destruct (IH tb' (text ++ s) (used + Z.of_nat (length s)))
      as (tb2 & E2 & Hok2 & Hal2); try done; try lia.
    { rewrite length_app. lia. }
    exists tb2. split; [done|]. split; [done|]. lia.
  - destruct (Hb n Hop) as (tb' & E & Hok' & Hal').
    rewrite E. simpl.
    destruct (IH tb' (take (length text - Z.to_nat n) text) used)
      as (tb2 & E2 & Hok2 & Hal2); try done; try lia.
    { rewrite length_take. lia. }
    exists tb2. split; [done|]. split; [done|]. lia.
  - destruct Hr as (tb' & E & Hok' & Hal').
    rewrite E. simpl.
    destruct (IH tb' [] used) as (tb2 & E2 & Hok2 & Hal2); try done; try lia.
    { simpl. lia. }
    exists tb2. split; [done|]. split; [done|]. lia.
Qed.

(** X12: a text buffer made by [tb_new] and driven by any calls of
    [tb_append], [tb_printf], [tb_backup] and [tb_rewind] (characters
    other than NUL, less than 2^29 of them) never stores outside its
    block, and [tb_get] reads the text the calls describe: appended and
    formatted text at the end, [tb_backup n] dropping the last [n]
    characters (all of them when there are fewer), [tb_rewind] dropping
    all.  The block grows to at most twice the characters added. *)
Theorem text_buf_refines fuel ops :
  Forall op_ok ops -> ops_size ops < 2 ^ 29 ->
  (Z.to_nat (ops_size ops) < fuel)%nat ->
  exists tb0 tb,
    tb_new = Some tb0 /\ tb_run fuel ops tb0 = Some tb /\
    tb_get tb = Some (text_run ops []) /\
    0 <= len tb < alloc tb /\
    alloc tb <= Z.max 256 (2 * ops_size ops).
Proof.
  intros Hops Hsum Hfuel.
  destruct tb_new_ok as (tb0 & E0 & Hok0 & Hal0).
  destruct (tb_run_ok fuel ops tb0 [] 0 Hok0 Hops) as (tb & E & Hok & Hal);
    [simpl; lia|lia|lia|done|].
  exists tb0, tb. split; [done|]. split; [done|].
  assert (alloc tb <= 2 ^ 30) by lia.
  destruct (tb_ops_ok tb _ Hok ltac:(done)) as (Hget & _).
  split; [done|]. split; [|done].
  destruct Hok as (Ha & Hl & _ & rest & Hb).
  rewrite Ha, Hl, Hb, length_app, length_fmap. simpl. lia.
Qed.

Lemma text_buf_refines_witness :
  exists tb0 tb,
    tb_new = Some tb0 /\
    tb_run 10 [Append 104; Printf [105; 33; 33]; Backup 1; Append 63] tb0
      = Some tb /\
    tb_get tb
      = Some (text_run [Append 104; Printf [105; 33; 33]; Backup 1; Append 63] []) /\
    0 <= len tb < alloc tb /\
    alloc tb <= Z.max 256
      (2 * ops_size [Append 104; Printf [105; 33; 33]; Backup 1; Append 63]).
Proof.
  apply (text_buf_refines 10
           [Append 104; Printf [105; 33; 33]; Backup 1; Append 63]).
  - repeat constructor; simpl; lia.
  - vm_compute. reflexivity.
  - vm_compute. lia.
Defined.

End TextBufFacts.

(* --------------------------------------------------------------------- *)
(** ** Type equality: symmetry, subtypes                                  *)
(* --------------------------------------------------------------------- *)

Module TypeMoreFacts.
Import Type_ TypeSpec TypeFacts.

Lemma params_all_sym cmp la : forall lb,
  length la = length lb -> (forall x y, cmp x y = cmp y x) ->
  params_all cmp la lb = params_all cmp lb la.
Proof.
  induction la as [|x la IH]; intros [|y lb] Hlen Hcmp; simpl in *; try done.
  rewrite (Hcmp y x). destruct (cmp x y) as [[]|]; simpl; [|done..].
  apply IH; [lia|done].
Qed.

Lemma bool_decide_sym {A} `{EqDecision A} (x y : A) :
  bool_decide (x = y) = bool_decide (y = x).
Proof. apply bool_decide_ext. split; congruence. Qed.

Lemma bind_comm {A B C} (x : option A) (y : option B) (f : A -> B -> option C) :
  (a ← x; b ← y; f a b) = (b ← y; a ← x; f a b).
Proof. by destruct x, y. Qed.

Lemma type_params_length H t o x :
  H !! t = Some o -> type_params H t = Some x -> x = length (ptypes o).
Proof.
  intros E. unfold type_params, lookup_item. rewrite E. simpl.
  destruct (has _ _); simpl; congruence.
Qed.

Lemma type_eq_sym n : forall H a b, type_eq n H a b = type_eq n H b a.
Proof.
  induction n as [|n IH]; intros H a b; [done|].
  cbn [type_eq].
  rewrite (bool_decide_sym b a).
  destruct (bool_decide (a = b)); [done|].
  rewrite (bind_comm (type_base_recur n H b)).
  destruct (type_base_recur n H a) as [a'|]; [|done].
  destruct (type_base_recur n H b) as [b'|]; [|done].
  cbn [mbind option_bind].
  rewrite (bind_comm (H !! b')).
  destruct (H !! a') as [oa|] eqn:Ea; [|done].
  destruct (H !! b') as [ob|] eqn:Eb; [|done].
  cbn [mbind option_bind].
  rewrite (bind_comm (type_has_ident H b')).
  rewrite (bind_comm (type_access n H b')).
  rewrite (bind_comm (type_elem n H b')).
  rewrite (bind_comm (type_dims H b')).
  rewrite (bind_comm (type_result H b')).
  rewrite (bind_comm (type_params H b')).
  rewrite (bool_decide_sym (kind ob) (kind oa)).
  rewrite (bool_decide_sym (ident ob) (ident oa)).
  assert (Hacc : (type_access n H a' ≫= λ xa, type_access n H b' ≫= λ xb, type_eq n H xa xb)
                 = (type_access n H a' ≫= λ b0, type_access n H b' ≫= λ a0, type_eq n H a0 b0)).
  { destruct (type_access n H a'), (type_access n H b'); simpl; try done; apply IH. }
  assert (Helem : (type_elem n H a' ≫= λ xa, type_elem n H b' ≫= λ xb, type_eq n H xa xb)
                 = (type_elem n H a' ≫= λ b0, type_elem n H b' ≫= λ a0, type_eq n H a0 b0)).
  { destruct (type_elem n H a'), (type_elem n H b'); simpl; try done; apply IH. }
  rewrite Hacc, Helem. clear Hacc Helem.
  rewrite (andb_comm (bool_decide (kind ob = T_CARRAY))).
  rewrite (andb_comm (bool_decide (kind ob = T_UARRAY))).
  rewrite (orb_comm (bool_decide (kind oa = T_UARRAY) && _)).
  rewrite (orb_comm (bool_decide (kind ob = T_INCOMPLETE))).
  destruct (type_has_ident H a') as [ia|]; [|done].
  destruct (type_has_ident H b') as [ib|]; [|done].
  cbn [mbind option_bind]. rewrite (andb_comm ib ia).
  destruct (decide (kind oa = kind ob)) as [Ek|Ek].
  - rewrite <- Ek.
    repeat match goal with
    | |- (if ?c then _ else _) = (if ?c then _ else _) => destruct c; [done|]
    | |- (if ?c then _ else _) = (if ?c then _ else _) => destruct c; [|done]
    end.
    replace (type_dims H a' ≫= λ b0, type_dims H b' ≫= λ a0,
               Some (bool_decide (a0 = b0)))
      with (type_dims H a' ≫= λ x, type_dims H b' ≫= λ y,
              Some (bool_decide (x = y))); cycle 1.
    { destruct (type_dims H a'), (type_dims H b'); simpl; try done.
      by rewrite bool_decide_sym. }
    destruct (if has (kind oa) I_DIMS then _ else _) as [da|]; [|done].
    cbn [mbind option_bind]. destruct (negb da); [done|].
    replace (type_result H a' ≫= λ b0, type_result H b' ≫= λ a0,
               type_eq n H a0 b0)
      with (type_result H a' ≫= λ x, type_result H b' ≫= λ y,
              type_eq n H x y); cycle 1.
    { destruct (type_result H a'), (type_result H b'); simpl; try done;
        apply IH. }
    destruct (if bool_decide (kind oa = T_FUNC) then _ else _) as [ra|]; [|done].
    cbn [mbind option_bind]. destruct (negb ra); [done|].
    destruct (has (kind oa) I_PTYPES); [|done].
    destruct (type_params H a') as [x|] eqn:Ex; [|done].
    destruct (type_params H b') as [y|] eqn:Ey; [|done].
    cbn [mbind option_bind]. rewrite (bool_decide_sym y x).
    case_bool_decide as Exy; [|done]. cbn [negb].
    apply params_all_sym; [|apply IH].
    rewrite <- (type_params_length _ _ _ _ Ea Ex).
    by rewrite <- (type_params_length _ _ _ _ Eb Ey).
  - rewrite (bool_decide_eq_false_2 _ Ek). cbn [negb andb].
    repeat match goal with
    | |- (if ?c then _ else _) = (if ?c then _ else _) => destruct c eqn:?; [done|]
    end.
    rewrite andb_true_r in Heqb0. apply negb_false_iff in Heqb0.
    rewrite Heqb0.
    assert (bool_decide (kind oa = T_ACCESS) = false
            /\ bool_decide (kind ob = T_ACCESS) = false) as [-> ->]; [|done].
    apply orb_true_iff in Heqb0
      as [[E1 E2]%andb_true_iff|[E1 E2]%andb_true_iff];
      apply bool_decide_eq_true in E1, E2; rewrite E1, E2; done.
Qed.

Lemma type_strict_eq_sym n :
  forall H a b, type_strict_eq n H a b = type_strict_eq n H b a.
Proof.
  induction n as [|n IH]; intros H a b; [done|].
  cbn [type_strict_eq].
  rewrite (bool_decide_sym b a).
  destruct (bool_decide (a = b)); [done|].
  rewrite (bind_comm (H !! b)).
  destruct (H !! a) as [oa|] eqn:Ea; [|done].
  destruct (H !! b) as [ob|] eqn:Eb; [|done].
  cbn [mbind option_bind].
  rewrite (bind_comm (type_has_ident H b)).
  rewrite (bind_comm (type_access n H b)).
  rewrite (bind_comm (type_elem n H b)).
  rewrite (bind_comm (type_dims H b)).
  rewrite (bind_comm (type_result H b)).
  rewrite (bind_comm (type_params H b)).
  rewrite (bool_decide_sym (kind ob) (kind oa)).
  rewrite (bool_decide_sym (ident ob) (ident oa)).
  case_bool_decide as Ek; [|done]. cbn [negb]. rewrite <- Ek.
  destruct (type_has_ident H a) as [ia|]; [|done].
  destruct (type_has_ident H b) as [ib|]; [|done].
  cbn [mbind option_bind]. rewrite (andb_comm ib ia).
  destruct (ia && ib && _); [done|].
  destruct (bool_decide (kind oa = T_ACCESS)).
  { destruct (type_access n H a), (type_access n H b); simpl; try done;
      apply type_eq_sym. }
  destruct (has (kind oa) I_ELEM).
  { destruct (type_elem n H a), (type_elem n H b); simpl; try done;
      apply IH. }
  replace (type_dims H a ≫= λ b0, type_dims H b ≫= λ a0,
             Some (bool_decide (a0 = b0)))
    with (type_dims H a ≫= λ x, type_dims H b ≫= λ y,
            Some (bool_decide (x = y))); cycle 1.
  { destruct (type_dims H a), (type_dims H b); simpl; try done.
    by rewrite bool_decide_sym. }
  destruct (if has (kind oa) I_DIMS then _ else _) as [da|]; [|done].
  cbn [mbind option_bind]. destruct (negb da); [done|].
  replace (type_result H a ≫= λ b0, type_result H b ≫= λ a0,
             type_strict_eq n H a0 b0)
    with (type_result H a ≫= λ x, type_result H b ≫= λ y,
            type_strict_eq n H x y); cycle 1.
  { destruct (type_result H a), (type_result H b); simpl; try done;
      apply IH. }
  destruct (if bool_decide (kind oa = T_FUNC) then _ else _) as [ra|]; [|done].
  cbn [mbind option_bind]. destruct (negb ra); [done|].
  destruct (has (kind oa) I_PTYPES); [|done].
  destruct (type_params H a) as [x|] eqn:Ex; [|done].
  destruct (type_params H b) as [y|] eqn:Ey; [|done].
  cbn [mbind option_bind]. rewrite (bool_decide_sym y x).
  case_bool_decide as Exy; [|done]. cbn [negb].
  apply params_all_sym; [|apply IH].
  rewrite <- (type_params_length _ _ _ _ Ea Ex).
  by rewrite <- (type_params_length _ _ _ _ Eb Ey).
Qed.

(** X13: [type_eq] and [type_strict_eq] are symmetric: swapping the
    arguments gives the same answer, and fails on the same pairs. *)
Theorem type_eq_symmetric n H a b :
  type_eq n H a b = type_eq n H b a /\
  type_strict_eq n H a b = type_strict_eq n H b a.
Proof. split; [apply type_eq_sym | apply type_strict_eq_sym]. Qed.

Lemma type_base_recur_kind n : forall H t c oc,
  type_base_recur n H t = Some c -> H !! c = Some oc -> kind oc <> T_SUBTYPE.
Proof.
  induction n as [|n IH]; intros H t c oc E Ec; [done|].
  cbn [type_base_recur] in E.
  destruct (H !! t) as [o|] eqn:Et; [simpl in E|done].
  destruct (kind o) eqn:Ek;
    try (assert (c = t) by congruence; subst;
         assert (o = oc) by congruence; subst; congruence).
  destruct (type_base H t) as [b|]; [simpl in E|done]. by eapply IH.
Qed.

Lemma type_eq_refl n H a : type_eq (S n) H a a = Some true.
Proof. cbn [type_eq]. by rewrite bool_decide_eq_true_2. Qed.

Lemma params_all_refl n H l : params_all (type_eq (S n) H) l l = Some true.
Proof.
  induction l as [|x l IH]; [done|]. cbn [params_all].
  rewrite type_eq_refl. done.
Qed.

(** X14: two types whose chains of subtypes end in the same type are
    [type_eq], whatever their constraints and names; so a subtype is
    [type_eq] to its base type.  (The pointee of an access type and the
    result of a function type must be set.) *)
Theorem type_eq_same_base n H a b c oc :
  type_base_recur (S n) H a = Some c -> type_base_recur (S n) H b = Some c ->
  H !! c = Some oc ->
  (kind oc = T_ACCESS -> access oc <> None) ->
  (kind oc = T_FUNC -> result oc <> None) ->
  type_eq (S (S n)) H a b = Some true.
Proof.
  intros Ea Eb Ec Hacc Hres.
  pose proof (type_base_recur_kind _ _ _ _ _ Ea Ec) as Hsub.
  remember (S n) as m eqn:Em.
  cbn [type_eq]. case_bool_decide; [done|].
  rewrite Ea, Eb. cbn [mbind option_bind]. rewrite Ec. cbn [mbind option_bind].
  rewrite (bool_decide_eq_true_2 (kind oc = kind oc)) by done. cbn [negb andb].
  unfold type_has_ident. rewrite (lookup_item_ident H c oc Ec).
  cbn [mbind option_bind].
  rewrite (bool_decide_eq_true_2 (ident oc = ident oc)) by done.
  rewrite andb_false_r.
  destruct (bool_decide (kind oc = T_INCOMPLETE) || _); [done|].
  assert (Hitem : forall i, has (kind oc) i = true -> lookup_item H c i = Some oc).
  { intros i Hi. unfold lookup_item. rewrite Ec. simpl. by rewrite Hi. }
  case_bool_decide as Hk.
  { assert (type_access m H c = access oc) as ->.
    { rewrite Em. cbn [type_access]. rewrite Ec. simpl.
      rewrite Hk. rewrite Hitem by (by rewrite Hk). done. }
    destruct (access oc) as [x|]; [|by destruct (Hacc Hk)].
    simpl. rewrite Em. apply type_eq_refl. }
  assert (Hcu : bool_decide (kind oc = T_CARRAY) && bool_decide (kind oc = T_UARRAY)
                || bool_decide (kind oc = T_UARRAY) && bool_decide (kind oc = T_CARRAY)
                = false).
  { repeat case_bool_decide; try done; congruence. }
  rewrite Hcu. clear Hcu.
  assert (Hd : (if has (kind oc) I_DIMS
                then x ← type_dims H c; y ← type_dims H c;
                     Some (bool_decide (x = y))
                else Some true) = Some true).
  { destruct (has (kind oc) I_DIMS) eqn:Hh; [|done].
    unfold type_dims. rewrite (Hitem _ Hh). simpl.
    by rewrite bool_decide_eq_true_2. }
  rewrite Hd. cbn [mbind option_bind negb].
  assert (Hr : (if bool_decide (kind oc = T_FUNC)
                then x ← type_result H c; y ← type_result H c;
                     type_eq m H x y
                else Some true) = Some true).
  { destruct (bool_decide (kind oc = T_FUNC)) eqn:Hf; [|done].
    apply bool_decide_eq_true in Hf.
    unfold type_result. rewrite Hitem by (by rewrite Hf). simpl.
    destruct (result oc) as [x|]; [|by destruct (Hres Hf)].
    simpl. rewrite Em. apply type_eq_refl. }
  rewrite Hr. cbn [mbind option_bind negb].
  destruct (has (kind oc) I_PTYPES) eqn:Hp; [|done].
  unfold type_params. rewrite (Hitem _ Hp). simpl.
  rewrite bool_decide_eq_true_2 by done. simpl.
  rewrite Em. apply params_all_refl.
Qed.

Lemma type_eq_same_base_witness :
  type_eq 3 conv_heap 3 2 = Some true.
Proof.
  apply (type_eq_same_base 1 conv_heap 3 2 2
           (TypeObj T_INTEGER (Some "STD.STANDARD.INTEGER"%string) None
              None None [2%positive] None [] [] None None [] None)).
  - reflexivity.
  - reflexivity.
  - reflexivity.
  - discriminate.
  - discriminate.
Defined.

End TypeMoreFacts.

(* --------------------------------------------------------------------- *)
(** ** Signal layouts are packed                                          *)
(* --------------------------------------------------------------------- *)

Module LayoutSigFacts.
Import Common Type_ Layout LayoutSpec LayoutSig LayoutSigSpec LayoutFacts.
Local Open Scope Z_scope.

Lemma ALIGN_UP_multiple p : (8 | p) -> ALIGN_UP p 8 = p.
Proof.
  intros [q ->]. unfold ALIGN_UP.
  replace (q * 8 + 8 - 1) with (7 + q * 8) by lia.
  rewrite Z.div_add by lia. change (7 / 8) with 0. lia.
Qed.

Lemma to_unsigned_divide x : (8 | x) -> (8 | to_unsigned x).
Proof.
  intros [q ->]. unfold to_unsigned.
  exists (q mod 2^29). change (2^32) with (2^29 * 8).
  by rewrite Zmult_mod_distr_r.
Qed.

Lemma to_int_divide x : (8 | x) -> (8 | to_int x).
Proof.
  intros Hx. unfold to_int.
  pose proof (to_unsigned_divide x Hx) as Hu. unfold to_unsigned in Hu.
  destruct (_ <? _); [done|].
  apply Z.divide_sub_r; [done|]. by exists (2^29).
Qed.

Lemma to_int_in_range x : int_range x -> to_int x = x.
Proof.
  unfold int_range, to_int. intros Hx.
  destruct (Z.lt_ge_cases x 0) as [Hneg|Hpos].
  - assert (E : x mod 2^32 = x + 2^32)
      by (symmetry; apply (Z.mod_unique _ _ (-1)); lia).
    rewrite E. destruct (Z.ltb_spec (x + 2^32) (2^31)); lia.
  - rewrite Z.mod_small by lia. destruct (Z.ltb_spec x (2^31)); lia.
Qed.

Lemma packed_snoc ps : forall off fin p,
  packed off ps fin -> offset p = fin ->
  packed off (ps ++ [p]) (fin + psize p * repeat p).
Proof.
  induction ps as [|q ps IH]; intros off fin p Hp Ho; simpl in *.
  - by subst.
  - destruct Hp as [Hq Hp]. split; [done|]. by apply IH.
Qed.

Lemma sig_cache_ok_insert c t l :
  sig_cache_ok c -> sig_ok l -> sig_cache_ok (<[t := l]> c).
Proof.
  intros Hc Hl t' l' E. destruct (decide (t' = t)) as [->|Hne].
  - rewrite lookup_insert_eq in E. by simplify_eq.
  - rewrite lookup_insert_ne in E by done. by eapply Hc.
Qed.

(** The parts before the bounds: 8 or 16 bytes. *)
Lemma pointer_parts_ok b ps sz :
  pointer_parts b = (ps, sz) ->
  sz = (if b then 16 else 8) /\ packed 0 ps sz /\
  Forall (fun p => palign p = 8 /\ (8 | psize p)) ps /\
  Z.of_nat (length ps) = 1 + (if b then 1 else 0).
Proof.
  destruct b; vm_compute; intros E; simplify_eq.
  - split; [done|]. split; [done|]. split; [|done].
    repeat constructor; by exists 1.
  - split; [done|]. split; [done|]. split; [|done].
    repeat constructor; by exists 1.
Qed.

(** The loop over the fields of a record, for a field layout function
    that returns signal layouts. *)
Lemma record_loop_packed `{Env} lay field :
  (forall c t l c', sig_cache_ok c -> lay c t = Some (l, c') ->
                    sig_ok l /\ sig_cache_ok c') ->
  forall k i off c ps off' ps' c',
  sig_cache_ok c -> (8 | off) -> int_range off ->
  record_loop lay field k i off c ps = Some (off', ps', c') ->
  (8 | off') /\ int_range off' /\ sig_cache_ok c' /\
  exists qs, ps' = ps ++ qs /\ length qs = k /\
    Forall (fun p => palign p = 8 /\ (8 | psize p)) qs /\
    (Forall (fun p => offset p + psize p * repeat p < 2^31) qs -> 0 <= off ->
     packed off qs off').
Proof.
  intros Hlay. induction k as [|k IH];
    intros i off c ps off' ps' c' Hc Hoff Hr E.
  - simpl in E. simplify_eq. split; [done|]. split; [done|]. split; [done|].
    exists []. by rewrite app_nil_r.
  - simpl in E. destruct (field i) as [f|]; [|done]. simpl in E.
    destruct (lay c (tree_type f)) as [[fl c1]|] eqn:El; [|done]. simpl in E.
    destruct (Hlay _ _ _ _ Hc El) as [((Hal & Hsz & _) & Hrs & _) Hc1].
    rewrite Hal, (ALIGN_UP_multiple off Hoff), (to_int_in_range off Hr) in E.
    set (p := Part (to_unsigned off) (to_unsigned (size fl)) 1 (to_unsigned 8)
                LC_DATA) in *.
    assert (Hoff1 : (8 | to_int (off + size fl)))
      by (apply to_int_divide; by apply Z.divide_add_r).
    destruct (IH _ _ _ _ _ _ _ Hc1 Hoff1 (to_int_range _) E)
      as (Hoff' & Hr' & Hc' & qs & -> & Hlen & Hqs & Hpk).
    split; [done|]. split; [done|]. split; [done|].
    exists (p :: qs). split; [by rewrite <- app_assoc|].
    split; [simpl; lia|]. split.
    { apply Forall_cons. split; [|done]. split; [done|].
      by apply to_unsigned_divide. }
    intros Hin Hpos. apply Forall_cons in Hin as [Hend Hin].
    simpl in Hend. rewrite Z.mul_1_r in Hend.
    pose proof (to_unsigned_range off) as Hro.
    pose proof (to_unsigned_range (size fl)) as Hrsz.
    destruct (to_unsigned_int off Hr) as [_ Hoeq]; [lia|].
    destruct (to_unsigned_int (size fl)) as [Hspos Hseq]; [done | lia |].
    rewrite Hoeq, Hseq in Hend.
    simpl. rewrite Z.mul_1_r, Hoeq, Hseq. split; [done|].
    rewrite <- (to_int_nonneg (off + size fl)) by lia.
    apply Hpk; [done|]. rewrite to_int_nonneg by lia. lia.
Qed.

(** X15: every layout [signal_layout_of] returns, from any cache built by
    earlier calls, is pointer aligned, has a size that is a multiple of 8
    and is made of parts aligned to 8 whose sizes are multiples of 8.
    When no part ends at 2^31 or beyond (the sizes and offsets are [int]
    and wrap around), the parts fill the layout from offset 0 to its size
    without a gap (no padding between the parts or behind them); [nparts]
    is the number of parts unless it is negative, and the cache stays
    so. *)
Theorem signal_layout_of_packed `{Env} `{SigEnv} n hp c t l c' :
  sig_cache_ok c -> signal_layout_of n hp c t = Some (l, c') ->
  sig_aligned l /\
  (sig_in_int l -> packed 0 (parts l) (size l)) /\
  (0 <= nparts l -> nparts l = Z.of_nat (length (parts l))) /\
  sig_cache_ok c'.
Proof.
  enough (Hgen : forall n hp c t l c',
            sig_cache_ok c -> signal_layout_of n hp c t = Some (l, c') ->
            sig_ok l /\ sig_cache_ok c').
  { intros Hc E. destruct (Hgen _ _ _ _ _ _ Hc E) as [(? & _ & ? & ?) ?].
    done. }
  clear. intros n.
  induction n as [|n IH]; intros hp c t l c' Hc E; [done|].
  cbn [signal_layout_of] in E.
  destruct (c !! t) as [l0|] eqn:Ec.
  { simplify_eq. split; [by eapply Hc | done]. }
  destruct (type_is_scalar n hp t) as [[]|]; simpl in E; [| |done].
  { simplify_eq.
    assert (Hl : sig_ok (JitLayout 16 8 2
                   [Part 0 sizeof_ptr 1 sizeof_ptr LC_EXTERNAL;
                    Part 8 8 1 8 LC_OFFSET])).
    { split; [|split; [done|]; split; [done|done]].
      split; [done|]. split; [by exists 2|].
      repeat constructor; by exists 1. }
    split; [done | by apply sig_cache_ok_insert]. }
  destruct (type_is_record n hp t) as [[]|]; simpl in E; [| |done].
  { destruct (type_fields n hp t) as [nf|]; [simpl in E|done].
    destruct (record_loop _ _ _ _ _ _ _) as [[[off ps] c1]|] eqn:El;
      [simpl in E|done].
    simplify_eq.
    apply (record_loop_packed _ _ (IH hp)) in El
      as (Hoff & Hr & Hc1 & qs & Hqs & Hlen & Ha & Hpk);
      [|done|by exists 0|done].
    simpl in Hqs. subst qs.
    assert (Hl : sig_ok (JitLayout off sizeof_ptr (to_int (Z.of_nat nf)) ps)).
    { split; [done|]. split; [done|]. split.
      - intros Hin. by apply Hpk.
      - simpl. intros Hnn. rewrite Hlen. lia. }
    split; [done | by apply sig_cache_ok_insert]. }
  destruct (type_const_bounds hp t).
  { destruct (pointer_parts _) as [ps sz] eqn:Ep. simplify_eq.
    apply pointer_parts_ok in Ep as (Hsz & Hp & Ha & Hlen).
    assert (Hl : sig_ok (JitLayout sz sizeof_ptr
                   (1 + (if type_is_homogeneous hp t then 1 else 0)) ps)).
    { split; [|split; [|split]].
      - split; [done|]. split; [|done].
        rewrite Hsz. destruct (type_is_homogeneous hp t); [by exists 2|by exists 1].
      - simpl. rewrite Hsz. destruct (type_is_homogeneous hp t); lia.
      - done.
      - simpl. lia. }
    split; [done | by apply sig_cache_ok_insert]. }
  destruct (type_kind hp t) as [k|]; [simpl in E|done].
  case_bool_decide.
  { destruct (type_base_recur n hp t) as [base|]; [simpl in E|done].
    by eapply IH. }
  destruct (pointer_parts _) as [ps sz] eqn:Ep. simplify_eq.
  apply pointer_parts_ok in Ep as (Hsz & Hp & Ha & Hlen).
  assert (Hoffset : to_unsigned (to_int (ALIGN_UP sz 8)) = sz).
  { rewrite Hsz. by destruct (type_is_homogeneous hp t). }
  rewrite Hoffset.
  set (r := to_unsigned (to_int (to_int (dimension_of hp t) * 2))).
  set (p := Part sz 8 r 8 LC_BOUNDS).
  assert (Hszr : 0 <= sz <= 16)
    by (rewrite Hsz; destruct (type_is_homogeneous hp t); lia).
  assert (Hl : sig_ok (JitLayout (add_part sz p) sizeof_ptr
                 (2 + (if type_is_homogeneous hp t then 1 else 0))
                 (ps ++ [p]))).
  { split; [|split; [|split]].
    - split; [done|]. split.
      + unfold add_part. apply to_int_divide, to_unsigned_divide.
        apply Z.divide_add_r; apply to_unsigned_divide.
        * rewrite Hsz. destruct (type_is_homogeneous hp t); [by exists 2|by exists 1].
        * unfold p. cbn [psize repeat]. exists r. lia.
      + simpl. apply Forall_app. split; [done|]. repeat constructor. by exists 1.
    - apply to_int_range.
    - unfold sig_in_int. cbn [parts size]. intros Hin.
      apply Forall_app in Hin as [_ Hin]. rewrite Forall_singleton in Hin.
      unfold p in Hin. cbn [offset psize repeat] in Hin. pose proof (to_unsigned_range (to_int (to_int (dimension_of hp t) * 2))) as Hrr.
      fold r in Hrr.
      assert (Ea : add_part sz p = sz + psize p * repeat p).
      { unfold add_part, p. cbn [psize repeat].
        rewrite (to_unsigned_fits sz), (to_unsigned_fits (8 * r)) by lia.
        rewrite to_unsigned_fits by lia. apply to_int_nonneg. lia. }
      rewrite Ea. by apply packed_snoc.
    - simpl. rewrite length_app. simpl. lia. }
  split; [done | by apply sig_cache_ok_insert].
Qed.

Lemma sig_cache_ok_empty : sig_cache_ok ∅.
Proof. intros t l. by rewrite lookup_empty. Qed.

Lemma signal_layout_of_packed_witness :
  exists l c',
    @signal_layout_of sample_env sample_sig_env 8 sample_heap ∅ 7
      = Some (l, c') /\
    sig_aligned l /\ packed 0 (parts l) (size l) /\
    nparts l = Z.of_nat (length (parts l)) /\ sig_cache_ok c'.
Proof.
  destruct (@signal_layout_of sample_env sample_sig_env 8 sample_heap ∅ 7)
    as [[l c']|] eqn:E; [|vm_compute in E; discriminate].
  exists l, c'. split; [reflexivity|].
  destruct (@signal_layout_of_packed sample_env sample_sig_env 8 sample_heap ∅ 7
              l c' sig_cache_ok_empty E) as (Ha & Hp & Hn & Hc).
  vm_compute in E. injection E as <- _.
  split; [exact Ha|]. split; [|split; [|exact Hc]].
  - apply Hp. repeat (apply Forall_cons_2; [vm_compute; reflexivity|]).
    apply Forall_nil_2.
  - apply Hn. vm_compute. discriminate.
Defined.

End LayoutSigFacts.
Module ChashMoreFacts.
Import Common Hash Hash.Conc ChashSpec ChashFacts SeqFacts ChashMore.
Local Open Scope Z_scope.

Lemma chash_get_chain nodes_s l : forall fuel s hd k,
  nodes s = nodes_s -> chain_rep nodes_s hd l -> (length l < fuel)%nat ->
  chash_get_loop fuel s hd k = Some (chain_value nodes_s l k).
Proof.
  induction l as [|a l IH]; intros fuel s hd k Hs C Hf;
    (destruct fuel as [|fuel]; [simpl in Hf; lia|]);
    inversion C as [|a' nd l' E C']; subst; simpl; [done|].
  rewrite E. simpl. destruct (key nd =? k); [done|].
  apply IH; [done|done|simpl in Hf; lia].
Qed.

Lemma chain_length_le nodes hd l :
  chain_rep nodes hd l -> (length l <= base.size nodes)%nat.
Proof.
  intros C. pose proof (chain_rep_NoDup _ _ _ C) as Hnd.
  rewrite <- (size_dom (D := gset positive) nodes).
  rewrite <- (size_list_to_set (C := gset positive) l Hnd).
  apply subseteq_size. intros a Ha. apply elem_of_list_to_set in Ha.
  apply elem_of_dom. by eapply chain_rep_lookup.
Qed.

Lemma size_alter {A} (f : A -> A) (m : gmap positive A) i :
  base.size (alter f i m) = base.size m.
Proof. rewrite <- !(size_dom (D := gset positive)). by rewrite dom_alter_L. Qed.

(** The slot of a key is inside the table. *)
Lemma chash_slot `{Util} s k :
  chash_wf s -> k <> NULL ->
  exists i hd l, hash_slot (size s) k = Some (Z.of_nat i) /\
    slots s !! i = Some hd /\ chain_rep (nodes s) hd l.
Proof.
  intros ((p & Hp & Hsz) & Hlen & Hch & _) Hk. unfold hash_slot.
  rewrite (proj2 (Z.eqb_neq k NULL)) by done. rewrite Hsz.
  pose proof (pow2_bounds p Hp) as Hb.
  rewrite to_unsigned_small by lia. rewrite land_mask by lia.
  pose proof (Z.mod_pos_bound (mix_bits_64 k) (2 ^ p) ltac:(lia)) as Hm.
  set (i := Z.to_nat (mix_bits_64 k mod 2 ^ p)).
  destruct (lookup_lt_is_Some_2 (slots s) i) as [hd Ehd]; [lia|].
  destruct (Hch _ _ Ehd) as [l C].
  exists i, hd, l. split; [|done]. f_equal. lia.
Qed.

(** The walk of [chash_put] stops at the first node that holds the key. *)
Lemma chash_put_walk_found l1 : forall fuel s p k hd a nd l2,
  load_acquire s p = Some hd -> chain_rep (nodes s) hd (l1 ++ a :: l2) ->
  key_absent s l1 k -> nodes s !! a = Some nd -> key nd = k ->
  (length l1 < fuel)%nat ->
  chash_put_walk fuel s p k = Some (inr a).
Proof.
  induction l1 as [|b l1 IH]; intros fuel s p k hd a nd l2 Hld C Hk Ea Hka Hf;
    (destruct fuel as [|fuel]; [simpl in Hf; lia|]); simpl; rewrite Hld; simpl;
    inversion C as [|a' nd' l' E C']; subst.
  - rewrite Ea. simpl. by rewrite Z.eqb_refl.
  - rewrite E. simpl.
    assert (key nd' <> key nd) as Hne by (eapply Hk; [left|done]).
    apply Z.eqb_neq in Hne. rewrite Hne.
    apply (IH _ _ _ _ (chain nd') a nd l2); simpl; try done.
    + by rewrite E.
    + intros c ndc Hc. apply Hk. by right.
    + simpl in Hf. lia.
Qed.

(** A chain holds the key at a first node, or not at all. *)
Lemma chain_find s hd l k :
  chain_rep (nodes s) hd l ->
  key_absent s l k \/
  exists l1 a nd l2, l = l1 ++ a :: l2 /\ key_absent s l1 k /\
    nodes s !! a = Some nd /\ key nd = k.
Proof.
  induction 1 as [|a nd l E C IH].
  - left. intros a nd Ha. by apply elem_of_nil in Ha.
  - destruct (decide (key nd = k)) as [Hk|Hk].
    + right. exists [], a, nd, l. split; [done|]. split; [|done].
      intros b ndb Hb. by apply elem_of_nil in Hb.
    + destruct IH as [Habs|(l1 & b & ndb & l2 & -> & Habs & Eb & Hkb)].
      * left. intros b ndb [->|Hb]%elem_of_cons Eb; [by simplify_eq|].
        by eapply Habs.
      * right. exists (a :: l1), b, ndb, l2. split; [done|]. split; [|done].
        intros c ndc [->|Hc]%elem_of_cons Ec; [by simplify_eq|].
        by eapply Habs.
Qed.

Lemma chain_value_absent s l k :
  key_absent s l k -> chain_value (nodes s) l k = NULL.
Proof.
  induction l as [|a l IH]; intros Habs; [done|]. simpl.
  destruct (nodes s !! a) as [nd|] eqn:E; [|done].
  rewrite (proj2 (Z.eqb_neq (key nd) k)) by (eapply Habs; [left|done]).
  apply IH. intros b ndb Hb. apply Habs. by right.
Qed.

(** Replacing the value of a node that holds [k]. *)
Section StoreValue.
Context (nodes : gmap positive chash_node_t) (it : node_p) (ndi : chash_node_t).
Context (v : Z) (Eit : nodes !! it = Some ndi).
Let nodes' := alter (fun nd => Node (chain nd) (key nd) v) it nodes.

Lemma store_value_chain hd l : chain_rep nodes hd l -> chain_rep nodes' hd l.
Proof.
  induction 1 as [|a nd l E C IH]; [constructor|].
  destruct (decide (a = it)) as [->|Hne].
  - econstructor; [unfold nodes'; by rewrite lookup_alter_eq, E|]. done.
  - econstructor; [unfold nodes'; by rewrite lookup_alter_ne, E|]. done.
Qed.

Lemma store_value_other l k' :
  k' <> key ndi -> chain_value nodes' l k' = chain_value nodes l k'.
Proof using Eit.
  intros Hk. induction l as [|a l IH]; [done|]. simpl.
  destruct (decide (a = it)) as [->|Hne].
  - unfold nodes'. rewrite lookup_alter_eq, Eit. simpl.
    rewrite (proj2 (Z.eqb_neq (key ndi) k')) by done. apply IH.
  - unfold nodes'. rewrite lookup_alter_ne by done. fold nodes'.
    destruct (nodes !! a) as [nd|]; [|done]. by rewrite IH.
Qed.

Lemma store_value_first l1 l2 :
  (forall b ndb, b ∈ l1 -> nodes !! b = Some ndb -> key ndb <> key ndi) ->
  (forall b, b ∈ l1 -> is_Some (nodes !! b)) ->
  chain_value nodes' (l1 ++ it :: l2) (key ndi) = v.
Proof using Eit.
  induction l1 as [|a l1 IH]; intros Habs Hsome; simpl.
  - unfold nodes'. rewrite lookup_alter_eq, Eit. simpl. by rewrite Z.eqb_refl.
  - destruct (Hsome a) as [nd E]; [by left|].
    assert (Hk : key nd <> key ndi) by (eapply Habs; [left|done]).
    assert (a <> it) by (intros ->; rewrite Eit in E; by simplify_eq).
    unfold nodes'. rewrite lookup_alter_ne, E by done. fold nodes'.
    rewrite (proj2 (Z.eqb_neq _ _) Hk). apply IH.
    + intros b ndb Hb. apply Habs. by right.
    + intros b Hb. apply Hsome. by right.
Qed.

End StoreValue.

(** Linking a fresh node that holds [k] behind a node that ended a chain,
    or into an empty slot. *)
Section Link.
Context (nodes : gmap positive chash_node_t) (new : node_p) (k v : Z).
Context (Hfresh : nodes !! new = None).
Let nodes1 := <[new := Node None k v]> nodes.

Lemma link_chain_plain hd l : chain_rep nodes hd l -> chain_rep nodes1 hd l.
Proof using Hfresh.
  intros C. apply (chain_rep_ext nodes); [done|]. intros a Ha.
  unfold nodes1. apply lookup_insert_ne. intros <-.
  destruct (chain_rep_lookup _ _ _ _ C Ha) as [nd E]. congruence.
Qed.

Lemma link_value_plain hd l k' :
  chain_rep nodes hd l -> chain_value nodes1 l k' = chain_value nodes l k'.
Proof using Hfresh.
  induction 1 as [|a nd l E C IH]; [done|]. simpl.
  assert (a <> new) by congruence.
  unfold nodes1. rewrite lookup_insert_ne by done. fold nodes1.
  rewrite E. by rewrite IH.
Qed.

Context (c : node_p) (ndc : chash_node_t).
Context (Ec : nodes !! c = Some ndc) (Hend : chain ndc = None).
Let nodes2 := alter (fun nd => Node (Some new) (key nd) (value nd)) c nodes1.

Lemma link_chain hd l :
  chain_rep nodes hd l ->
  exists l', chain_rep nodes2 hd l' /\ (length l' <= S (length l))%nat /\
    (forall k', k' <> k -> chain_value nodes2 l' k' = chain_value nodes l k') /\
    ((forall b ndb, b ∈ l -> nodes !! b = Some ndb -> key ndb <> k) ->
     c ∈ l -> chain_value nodes2 l' k = v).
Proof using Ec Hend Hfresh.
  assert (Hcn : c <> new) by congruence.
  assert (Enew : nodes2 !! new = Some (Node None k v)).
  { unfold nodes2, nodes1. by rewrite lookup_alter_ne, lookup_insert_eq. }
  induction 1 as [|a nd l E C IH].
  - exists []. split; [constructor|]. split; [simpl; lia|].
    split; [done|]. intros _ Hin. by apply elem_of_nil in Hin.
  - assert (Han : a <> new) by congruence.
    destruct (decide (a = c)) as [->|Hac].
    + assert (nd = ndc) by congruence. subst nd.
      rewrite Hend in C. inversion C; subst.
      exists [c; new]. split.
      { econstructor.
        - unfold nodes2, nodes1.
          by rewrite lookup_alter_eq, lookup_insert_ne, Ec.
        - simpl. econstructor; [exact Enew|]. constructor. }
      split; [simpl; lia|]. split.
      * intros k' Hk'. simpl. unfold nodes2 at 1, nodes1.
        rewrite lookup_alter_eq, lookup_insert_ne, Ec by done. simpl.
        destruct (key ndc =? k'); [done|].
        rewrite Enew. simpl. by rewrite (proj2 (Z.eqb_neq k k')).
      * intros Habs _. simpl. unfold nodes2 at 1, nodes1.
        rewrite lookup_alter_eq, lookup_insert_ne, Ec by done. simpl.
        rewrite (proj2 (Z.eqb_neq (key ndc) k))
          by (eapply Habs; [left|done]).
        rewrite Enew. simpl. by rewrite Z.eqb_refl.
    + destruct IH as (l' & C' & Hlen & Hval & Hk).
      assert (Ea : nodes2 !! a = Some nd).
      { unfold nodes2, nodes1. by rewrite lookup_alter_ne, lookup_insert_ne. }
      exists (a :: l'). split; [by econstructor|].
      split; [simpl; lia|]. split.
      * intros k' Hk'. simpl. rewrite Ea, E. by rewrite Hval.
      * intros Habs [?|Hin]%elem_of_cons; [done|]. simpl. rewrite Ea.
        rewrite (proj2 (Z.eqb_neq (key nd) k)) by (eapply Habs; [left|done]).
        apply Hk; [|done]. intros b ndb Hb. apply Habs. by right.
Qed.

End Link.

Lemma chash_get_via `{Util} n s k i hd l :
  hash_slot (size s) k = Some (Z.of_nat i) -> slots s !! i = Some hd ->
  chain_rep (nodes s) hd l -> (length l < n)%nat ->
  chash_get n s k = Some (chain_value (nodes s) l k).
Proof.
  intros Es Eh C Hn. unfold chash_get. rewrite Es. simpl.
  rewrite get_at_nat, Eh. simpl. by apply (chash_get_chain (nodes s) l).
Qed.

Lemma chain_end s l : forall p hd c,
  load_acquire s p = Some hd -> chain_rep (nodes s) hd l ->
  last_link p l = ChainLink c ->
  exists ndc, nodes s !! c = Some ndc /\ chain ndc = None.
Proof.
  intros p hd c Hld C Hc.
  pose proof (last_link_load s l p hd Hld C) as Hl. rewrite Hc in Hl.
  simpl in Hl. destruct (nodes s !! c) as [ndc|]; [|done].
  exists ndc. split; [done|]. simpl in Hl. by simplify_eq.
Qed.

Lemma last_link_slot i l :
  (l = [] /\ last_link (SlotLink i) l = SlotLink i) \/
  (exists c, last_link (SlotLink i) l = ChainLink c /\ c ∈ l).
Proof.
  destruct l as [|a l]; [by left|]. right. simpl. apply last_link_in.
Qed.

(** X16: with no interference from another thread, [chash_put] on a
    well-formed table with a key other than NULL returns, keeps the table
    well formed, and afterwards [chash_get] returns the stored value for
    the key and what it returned before for every other key.  One node is
    allocated exactly when the result is false (the key was not in its
    chain); the size and [members] are never changed. *)
Theorem chash_put_then_get `{Util} n s k v :
  chash_wf s -> k <> NULL -> (base.size (nodes s) + 3 <= n)%nat ->
  exists b s',
    chash_put n [] s k v = Some (b, s') /\ chash_wf s' /\
    chash_get n s' k = Some v /\
    (forall k', k' <> NULL -> k' <> k -> chash_get n s' k' = chash_get n s k') /\
    base.size (nodes s') = (base.size (nodes s) + (if b then 0 else 1))%nat /\
    size s' = size s /\ members s' = members s.
Proof.
  intros Hwf Hk Hn.
  destruct (chash_slot s k Hwf Hk) as (i & hd & l & Eslot & Ehd & C).
  pose proof (chain_length_le _ _ _ C) as Hlen.
  pose proof Hwf as (Hsz & Hsl & Hch & Hfresh).
  assert (Hld : load_acquire s (SlotLink (Z.of_nat i)) = Some hd).
  { simpl. by rewrite get_at_nat. }
  assert (Hget : forall s', size s' = size s ->
            (forall j hd' l', slots s !! j = Some hd' ->
               chain_rep (nodes s) hd' l' ->
               exists hd2 l2, slots s' !! j = Some hd2 /\
                 chain_rep (nodes s') hd2 l2 /\
                 (length l2 <= S (length l'))%nat /\
                 (forall k', k' <> k ->
                    chain_value (nodes s') l2 k' = chain_value (nodes s) l' k') /\
                 (j = i -> chain_value (nodes s') l2 k = v)) ->
            chash_get n s' k = Some v /\
            (forall k', k' <> NULL -> k' <> k ->
               chash_get n s' k' = chash_get n s k')).
  { intros s' Hsize Hrel. split.
    - destruct (Hrel i hd l Ehd C) as (hd2 & l2 & E2 & C2 & Hl2 & _ & Hv).
      rewrite (chash_get_via n s' k i hd2 l2); [by rewrite Hv| |done|done|lia].
      by rewrite Hsize.
    - intros k' Hk' Hne.
      destruct (chash_slot s k' Hwf Hk') as (j & hdj & lj & Ej & Ehj & Cj).
      pose proof (chain_length_le _ _ _ Cj).
      destruct (Hrel j hdj lj Ehj Cj) as (hd2 & l2 & E2 & C2 & Hl2 & Hv & _).
      rewrite (chash_get_via n s' k' j hd2 l2); [| |done|done|lia].
      + rewrite (chash_get_via n s k' j hdj lj) by (done || lia).
        by rewrite Hv.
      + by rewrite Hsize. }
  destruct n as [|n]; [lia|]. cbn [chash_put]. rewrite Eslot. simpl.
  destruct (chain_find s hd l k C)
    as [Habs|(l1 & a & nd & l2 & -> & Habs & Ea & Hka)].
  - (* a new key *)
    rewrite (chash_put_walk_absent l n s _ k hd Hld C Habs) by lia. simpl.
    set (new := next_new s).
    assert (Hnew : nodes s !! new = None).
    { destruct (nodes s !! new) eqn:E; [|done].
      assert (new < new)%positive by (apply Hfresh; eauto). lia. }
    set (s1 := State (size s) (members s) (slots s)
                 (<[new := Node None k v]> (nodes s)) (Pos.succ new) (n_cas s)).
    assert (C1 : chain_rep (nodes s1) hd l) by by apply link_chain_plain.
    rewrite (last_link_load s1 l (SlotLink (Z.of_nat i)) hd) by done. simpl.
    eexists _, _. split; [reflexivity|].
    assert (Hdom : forall nodes' : gmap positive chash_node_t,
              (forall a, is_Some (nodes' !! a) <->
                         a = new \/ is_Some (nodes s !! a)) ->
              forall a, is_Some (nodes' !! a) -> (a < Pos.succ new)%positive).
    { intros nodes' Hd a' [->|Ha']%Hd; [lia|].
      apply Hfresh in Ha'. unfold new. lia. }
    destruct (last_link_slot (Z.of_nat i) l) as [[-> Hp]|(c & Hp & Hc)];
      rewrite Hp.
    + (* into the empty slot *)
      inversion C; subst. cbn [store_link count_cas].
      set (s' := State _ _ _ _ _ _).
      assert (Hrel : forall j hd' l', slots s !! j = Some hd' ->
               chain_rep (nodes s) hd' l' ->
               exists hd2 l2, slots s' !! j = Some hd2 /\
                 chain_rep (nodes s') hd2 l2 /\
                 (length l2 <= S (length l'))%nat /\
                 (forall k', k' <> k ->
                    chain_value (nodes s') l2 k' = chain_value (nodes s) l' k') /\
                 (j = i -> chain_value (nodes s') l2 k = v)).
      { intros j hd' l' Ej Cj. unfold s'. cbn [slots nodes]. rewrite set_at_nat.
        destruct (decide (j = i)) as [->|Hji].
        - rewrite Ehd in Ej. simplify_eq. inversion Cj; subst.
          exists (Some new), [new].
          rewrite list_lookup_insert_eq by (by eapply lookup_lt_Some).
          split; [done|]. split.
          { econstructor; [apply lookup_insert_eq|]. constructor. }
          split; [simpl; lia|]. simpl. rewrite lookup_insert_eq. simpl. split.
          + intros k' Hk'. by rewrite (proj2 (Z.eqb_neq k k')).
          + intros _. by rewrite Z.eqb_refl.
        - exists hd', l'. rewrite list_lookup_insert_ne by done.
          split; [done|]. split; [by apply link_chain_plain|].
          split; [lia|]. split; [|done].
          intros k' _. by apply (link_value_plain _ _ _ _ Hnew hd'). }
      split; [|split; [|split; [|split; [|done]]]].
      * split; [done|]. split.
        { unfold s'. cbn [slots size]. by rewrite set_at_nat, length_insert. }
        split.
        { intros j hd2 E2.
          destruct (lookup_lt_is_Some_2 (slots s) j) as [hdj Ehj].
          { apply lookup_lt_Some in E2. unfold s' in E2. cbn [slots] in E2.
            by rewrite set_at_nat, length_insert in E2. }
          destruct (Hch _ _ Ehj) as [lj Cj].
          destruct (Hrel j hdj lj Ehj Cj) as (hd3 & l3 & E3 & C3 & _).
          rewrite E2 in E3. simplify_eq. by exists l3. }
        apply Hdom. intros a'. unfold s', s1. simpl.
        rewrite lookup_insert_is_Some. split.
        { intros [->|[_ ?]]; auto. }
        { intros [->|?]; [by left|].
          destruct (decide (new = a')); [by left|by right]. }
      * by apply (proj1 (Hget s' eq_refl Hrel)).
      * by apply (proj2 (Hget s' eq_refl Hrel)).
      * unfold s', s1. simpl. rewrite map_size_insert_None by done. lia.
    + (* behind the last node of the chain *)
      destruct (chain_end s l _ hd c Hld C Hp) as (ndc & Ec & Hend).
      cbn [store_link count_cas nodes slots size members next_new n_cas s1].
      set (s' := State _ _ _ _ _ _).
      assert (Hrel : forall j hd' l', slots s !! j = Some hd' ->
               chain_rep (nodes s) hd' l' ->
               exists hd2 l2, slots s' !! j = Some hd2 /\
                 chain_rep (nodes s') hd2 l2 /\
                 (length l2 <= S (length l'))%nat /\
                 (forall k', k' <> k ->
                    chain_value (nodes s') l2 k' = chain_value (nodes s) l' k') /\
                 (j = i -> chain_value (nodes s') l2 k = v)).
      { intros j hd' l' Ej Cj.
        destruct (link_chain (nodes s) new k v Hnew c ndc Ec Hend hd' l' Cj)
          as (l2 & C2 & Hl2 & Hv2 & Hk2).
        exists hd', l2. split; [done|]. split; [done|]. split; [done|].
        split; [done|]. intros ->. rewrite Ehd in Ej. simplify_eq.
        rewrite (chain_rep_fun _ _ _ _ Cj C) in *. by apply Hk2. }
      split; [|split; [|split; [|split; [|done]]]].
      * split; [done|]. split; [done|]. split.
        { intros j hd2 E2. destruct (Hch _ _ E2) as [lj Cj].
          destruct (Hrel j hd2 lj E2 Cj) as (hd3 & l3 & E3 & C3 & _).
          assert (hd3 = hd2) as -> by (unfold s', s1 in *; simpl in *; congruence).
          by exists l3. }
        apply Hdom. intros a'. unfold s', s1. simpl.
        rewrite lookup_alter_is_Some, lookup_insert_is_Some. split.
        { intros [->|[_ ?]]; auto. }
        { intros [->|?]; [by left|].
          destruct (decide (new = a')); [by left|by right]. }
      * by apply (proj1 (Hget s' eq_refl Hrel)).
      * by apply (proj2 (Hget s' eq_refl Hrel)).
      * unfold s', s1. simpl.
        rewrite size_alter, map_size_insert_None by done. lia.
  - (* the key is in the chain *)
    subst k.
    rewrite (chash_put_walk_found l1 n s _ (key nd) hd a nd l2 Hld C Habs Ea)
      by (done || rewrite length_app in Hlen; lia).
    eexists _, _. split; [reflexivity|].
    set (s' := store_value s a v).
    assert (Hrel : forall j hd' l', slots s !! j = Some hd' ->
             chain_rep (nodes s) hd' l' ->
             exists hd2 l2, slots s' !! j = Some hd2 /\
               chain_rep (nodes s') hd2 l2 /\
               (length l2 <= S (length l'))%nat /\
               (forall k', k' <> key nd ->
                  chain_value (nodes s') l2 k' = chain_value (nodes s) l' k') /\
               (j = i -> chain_value (nodes s') l2 (key nd) = v)).
    { intros j hd' l' Ej Cj. exists hd', l'. split; [done|].
      split; [by apply store_value_chain|]. split; [lia|]. split.
      - intros k' Hk'. by apply (store_value_other _ _ nd).
      - intros ->. rewrite Ehd in Ej. simplify_eq.
        rewrite (chain_rep_fun _ _ _ _ Cj C).
        apply (store_value_first _ _ nd); [done| |].
        + intros b ndb Hb Eb. by eapply Habs.
        + intros b Hb. eapply chain_rep_lookup; [exact C|].
          apply elem_of_app. by left. }
    split; [|split; [|split; [|split; [|done]]]].
    + split; [done|]. split; [done|]. split.
      { intros j hd2 E2. destruct (Hch _ _ E2) as [lj Cj].
        destruct (Hrel j hd2 lj E2 Cj) as (hd3 & l3 & E3 & C3 & _).
        assert (hd3 = hd2) as -> by (unfold s' in *; simpl in *; congruence).
        by exists l3. }
      intros a'. unfold s'. cbn [nodes store_value next_new].
      rewrite lookup_alter_is_Some. apply Hfresh.
    + by apply (proj1 (Hget s' eq_refl Hrel)).
    + by apply (proj2 (Hget s' eq_refl Hrel)).
    + unfold s'. cbn [nodes store_value]. rewrite size_alter. lia.
Qed.

Lemma chash_wf_one_key : chash_wf one_key.
Proof.
  split; [exists 0; split; [lia|done]|]. split; [done|]. split.
  - intros [|i] hd Hi; simpl in Hi; [|done]. simplify_eq.
    exists [1%positive]. eapply chain_cons; [done|]. simpl. constructor.
  - intros a [nd Ha]. simpl in *.
    apply lookup_singleton_Some in Ha as [<- _]. done.
Qed.

Lemma chash_put_then_get_witness :
  exists b s',
    @chash_put sample_util 4 [] one_key 32 200 = Some (b, s') /\ chash_wf s' /\
    @chash_get sample_util 4 s' 32 = Some 200 /\
    (forall k', k' <> NULL -> k' <> 32 ->
       @chash_get sample_util 4 s' k' = @chash_get sample_util 4 one_key k') /\
    base.size (nodes s') = (base.size (nodes one_key) + (if b then 0 else 1))%nat /\
    size s' = size one_key /\ members s' = members one_key.
Proof.
  apply (@chash_put_then_get sample_util 4 one_key 32 200).
  - exact chash_wf_one_key.
  - unfold NULL. lia.
  - vm_compute. lia.
Defined.

End ChashMoreFacts.

(* --------------------------------------------------------------------- *)
(** ** The set of pointers is a set                                       *)
(* --------------------------------------------------------------------- *)

Module HsetFacts.
Import Common Hash Hset Probe ProbeFacts SeqFacts PtrMore HsetSpec.
Local Open Scope Z_scope.

Lemma has_key_occ {K} (tab : list (option (K * Z))) k :
  has_key tab k -> (0 < occ tab)%nat.
Proof.
  intros (q & v & E). unfold occ.
  assert (Hin : Some (k, v) ∈ filter (fun s => is_Some s) tab).
  { apply list_elem_of_filter. split; [eauto|]. by eapply list_elem_of_lookup_2. }
  destruct (filter _ tab); [by apply elem_of_nil in Hin|simpl; lia].
Qed.

Section Hset.
Context `{Util}.

Lemma hset_slots_lookup h q k :
  keys h !! q = Some k ->
  slots h !! q = Some (if k =? NULL then None else Some (k, 0)).
Proof. intros E. unfold slots. by rewrite list_lookup_fmap, E. Qed.

Lemma hset_slots_lookup_inv h q s :
  slots h !! q = Some s ->
  exists k, keys h !! q = Some k /\
            s = if k =? NULL then None else Some (k, 0).
Proof.
  unfold slots. rewrite list_lookup_fmap. intros E.
  destruct (keys h !! q) as [k|]; [|done].
  exists k. simpl in E. by simplify_eq.
Qed.

Lemma hset_slots_length h : length (slots h) = length (keys h).
Proof. unfold slots. by rewrite length_fmap. Qed.

Lemma hset_slots_set h q k m :
  k <> NULL ->
  slots (HSet (size h) m (<[q := k]> (keys h))) = <[q := Some (k, 0)]> (slots h).
Proof.
  intros Hk. unfold slots. simpl. rewrite list_fmap_insert.
  by rewrite (proj2 (Z.eqb_neq k NULL)).
Qed.

Lemma hset_slots_replicate sz m :
  slots (HSet sz m (replicate (Z.to_nat sz) NULL)) = replicate (Z.to_nat sz) None.
Proof. unfold slots. simpl. by rewrite fmap_replicate. Qed.

(** The next slot of the loops is the next step of the probe sequence. *)
Lemma hset_next_slot p key (j : nat) :
  0 <= p <= 31 ->
  Z.land (Z.of_nat (pos (2 ^ p) key j) + 1) (to_unsigned (2 ^ p - 1))
  = Z.of_nat (pos (2 ^ p) key (S j)).
Proof.
  intros Hp. pose proof (pow2_bounds p Hp).
  rewrite to_unsigned_small by lia. rewrite land_mask by lia.
  unfold pos, pos_linear.
  rewrite !Z2Nat.id by (apply Z.mod_pos_bound; lia).
  rewrite Zplus_mod_idemp_l. f_equal.
  rewrite Nat2Z.inj_succ. unfold Z.succ. ring.
Qed.

Lemma hset_slot_spec h key :
  wf0 h -> key <> NULL ->
  hash_slot (size h) key = Some (Z.of_nat (pos (size h) key 0)).
Proof.
  intros ((p & Hp & Hsz) & _) Hkey. unfold hash_slot.
  rewrite (proj2 (Z.eqb_neq key NULL)) by done. f_equal.
  pose proof (pow2_bounds p Hp). rewrite Hsz.
  rewrite to_unsigned_small by lia.
  unfold pos, pos_linear, start. change (Z.of_nat 0) with 0.
  rewrite Z.add_0_r.
  rewrite !land_mask by lia. rewrite Zmod_mod.
  rewrite Z2Nat.id by (apply Z.mod_pos_bound; lia). done.
Qed.

(** What a probing loop sees at a step. *)
Lemma hset_probe_step h key (j : nat) :
  key <> NULL ->
  forall s, slots h !! pos (size h) key j = Some s ->
  exists k, get_at (keys h) (Z.of_nat (pos (size h) key j)) = Some k /\
    s = (if k =? NULL then None else Some (k, 0)) /\
    (stops key s = true -> k = key \/ k = NULL) /\
    (stops key s = false -> k <> key /\ k <> NULL).
Proof.
  intros Hkey s Es. apply hset_slots_lookup_inv in Es as (k & Ek & ->).
  exists k. rewrite !get_at_nat.
  split; [done|]. split; [done|].
  destruct (Z.eqb_spec k NULL) as [->|Hk]; simpl.
  - split; [auto | done].
  - split.
    + intros ?%bool_decide_eq_true. auto.
    + intros ?%bool_decide_eq_false. done.
Qed.

Lemma hset_insert_loop_spec h p key :
  size h = 2 ^ p -> 0 <= p <= 31 -> key <> NULL ->
  forall d j fuel,
  first_hit (pos (size h)) (slots h) key (j + d) -> (d < fuel)%nat ->
  exists k,
    keys h !! pos (size h) key (j + d) = Some k /\
    (k = key \/ k = NULL) /\
    hset_insert_loop fuel h key (Z.of_nat (pos (size h) key j))
    = Some (if k =? key then h
            else HSet (size h) (to_unsigned (members h + 1))
                   (<[pos (size h) key (j + d) := key]> (keys h))).
Proof.
  intros Hsz Hp Hkey. induction d as [|d IH]; intros j fuel Hf Hfuel;
    (destruct fuel as [|fuel]; [lia|]); cbn [hset_insert_loop].
  - rewrite Nat.add_0_r in *. destruct Hf as [(s & Es & Ss) _].
    destruct (hset_probe_step h key j Hkey s Es) as (k & Ek & -> & Hs & _).
    exists k. rewrite <- !get_at_nat. rewrite Ek. simpl.
    split; [done|]. split; [auto|].
    rewrite !set_at_nat.
    destruct (Z.eqb_spec k key); [done|].
    destruct (Hs Ss) as [?| ->]; [done|]. done.
  - pose proof Hf as [_ Hbefore].
    destruct (Hbefore j ltac:(lia)) as (s & Es & Ss).
    destruct (hset_probe_step h key j Hkey s Es) as (k & Ek & -> & _ & Hs).
    destruct (Hs Ss) as [Hk1 Hk2].
    rewrite Ek. simpl.
    rewrite (proj2 (Z.eqb_neq k key)) by done.
    rewrite (proj2 (Z.eqb_neq k NULL)) by done.
    rewrite Hsz, hset_next_slot by done. rewrite <- Hsz.
    replace (j + S d)%nat with (S j + d)%nat in * by lia.
    apply IH; [done|lia].
Qed.

Lemma hset_contains_loop_spec h p key :
  size h = 2 ^ p -> 0 <= p <= 31 -> key <> NULL ->
  forall d j fuel,
  first_hit (pos (size h)) (slots h) key (j + d) -> (d < fuel)%nat ->
  exists k,
    keys h !! pos (size h) key (j + d) = Some k /\
    (k = key \/ k = NULL) /\
    hset_contains_loop fuel h key (Z.of_nat (pos (size h) key j))
    = Some (k =? key).
Proof.
  intros Hsz Hp Hkey. induction d as [|d IH]; intros j fuel Hf Hfuel;
    (destruct fuel as [|fuel]; [lia|]); cbn [hset_contains_loop].
  - rewrite Nat.add_0_r in *. destruct Hf as [(s & Es & Ss) _].
    destruct (hset_probe_step h key j Hkey s Es) as (k & Ek & -> & Hs & _).
    exists k. rewrite <- !get_at_nat. rewrite Ek. simpl.
    split; [done|]. split; [auto|].
    destruct (Z.eqb_spec k key); [done|].
    destruct (Hs Ss) as [?| ->]; [done|]. done.
  - pose proof Hf as [_ Hbefore].
    destruct (Hbefore j ltac:(lia)) as (s & Es & Ss).
    destruct (hset_probe_step h key j Hkey s Es) as (k & Ek & -> & _ & Hs).
    destruct (Hs Ss) as [Hk1 Hk2].
    rewrite Ek. simpl.
    rewrite (proj2 (Z.eqb_neq k key)) by done.
    rewrite (proj2 (Z.eqb_neq k NULL)) by done.
    rewrite Hsz, hset_next_slot by done. rewrite <- Hsz.
    replace (j + S d)%nat with (S j + d)%nat in * by lia.
    apply IH; [done|lia].
Qed.

Lemma hset_wf0_slots_length h : wf0 h -> length (slots h) = Z.to_nat (size h).
Proof. intros (_ & Hk & _). by rewrite hset_slots_length. Qed.

Lemma hset_wf0_covers h :
  wf0 h -> covers (pos (size h)) (length (slots h)).
Proof.
  intros Hwf. rewrite (hset_wf0_slots_length h Hwf).
  destruct Hwf as ((p & Hp & ->) & _).
  apply pos_linear_covers. pose proof (pow2_bounds p Hp). lia.
Qed.

(** With a free slot, probing for any key stops within [size] steps. *)
Lemma hset_wf0_first_hit h key :
  wf0 h -> members h < size h ->
  exists j, (j < Z.to_nat (size h))%nat /\
            first_hit (pos (size h)) (slots h) key j.
Proof.
  intros Hwf Hroom. rewrite <- (hset_wf0_slots_length h Hwf).
  apply first_hit_exists; [by apply hset_wf0_covers|].
  apply occ_lt_empty. rewrite (hset_wf0_slots_length h Hwf).
  destruct Hwf as (_ & _ & Hm & _). lia.
Qed.

(** A key is found exactly where probing for it stops. *)
Lemma first_hit_has_key h key j k :
  wf0 h -> key <> NULL -> first_hit (pos (size h)) (slots h) key j ->
  keys h !! pos (size h) key j = Some k ->
  (k = key <-> has_key (slots h) key).
Proof.
  intros Hwf Hkey Hf Ek. pose proof Hwf as (_ & _ & _ & Hr).
  pose proof (hset_slots_lookup h _ _ Ek) as Es. split.
  - intros ->. rewrite (proj2 (Z.eqb_neq key NULL)) in Es by done.
    by eexists _, _.
  - intros (q & v & Eq). destruct (Hr _ _ _ Eq) as (j2 & F2 & Hq).
    rewrite (first_hit_unique _ _ _ _ _ F2 Hf) in Hq. subst q.
    rewrite Es in Eq. destruct (k =? NULL); [done|]. by simplify_eq.
Qed.

(** [hset_contains] tells whether the key occupies a slot. *)
Lemma hset_contains_spec h key fuel :
  wf0 h -> members h < size h -> key <> NULL ->
  (Z.to_nat (size h) <= fuel)%nat ->
  exists b, hset_contains fuel h key = Some b /\
            (b = true <-> has_key (slots h) key).
Proof.
  intros Hwf Hroom Hkey Hfuel.
  destruct (hset_wf0_first_hit h key Hwf Hroom) as (j & Hj & Hf).
  pose proof Hwf as ((p & Hp & Hsz) & Hlk & Hm & Hr).
  unfold hset_contains. rewrite (hset_slot_spec h key Hwf Hkey). simpl.
  destruct (hset_contains_loop_spec h p key Hsz Hp Hkey j 0%nat fuel)
    as (k & Ek & Hk & E); [done|lia|].
  change (0 + j)%nat with j in *. rewrite E.
  eexists. split; [done|].
  rewrite <- (first_hit_has_key h key j k Hwf Hkey Hf Ek).
  apply Z.eqb_eq.
Qed.

(** The probing phase of [hset_insert]. *)
Lemma hset_insert_full h key fuel :
  wf0 h -> members h < size h -> key <> NULL ->
  (Z.to_nat (size h) <= fuel)%nat ->
  exists b h',
    hset_insert_loop fuel h key (Z.of_nat (pos (size h) key 0)) = Some h' /\
    wf0 h' /\ size h' = size h /\
    (b = true <-> has_key (slots h) key) /\
    members h' = members h + (if b then 0 else 1) /\
    (forall k', has_key (slots h') k' <-> k' = key \/ has_key (slots h) k').
Proof.
  intros Hwf Hroom Hkey Hfuel.
  destruct (hset_wf0_first_hit h key Hwf Hroom) as (j & Hj & Hf).
  pose proof Hwf as ((p & Hp & Hsz) & Hlk & Hm & Hr).
  destruct (hset_insert_loop_spec h p key Hsz Hp Hkey j 0%nat fuel)
    as (k & Ek & Hk & E); [done|lia|].
  change (0 + j)%nat with j in *.
  rewrite E. clear E.
  pose proof (pow2_bounds p Hp) as Hb.
  pose proof (first_hit_has_key h key j k Hwf Hkey Hf Ek) as Hhas.
  assert (Hs := hset_slots_lookup h _ _ Ek).
  destruct (Z.eqb_spec k key) as [->|Hne].
  - exists true, h. split; [done|]. split; [done|]. split; [done|].
    split; [by rewrite <- Hhas|]. split; [lia|].
    intros k'. split; [auto|]. intros [->|?]; [by apply Hhas | done].
  - destruct Hk as [?| ->]; [done|].
    assert (Hsl := hset_slots_set h (pos (size h) key j) key
                     (to_unsigned (members h + 1)) Hkey).
    simpl in Hs.
    assert (Hocc := occ_insert (slots h) _ (key, 0) _ Hs). simpl in Hocc.
    assert (Hmem : to_unsigned (members h + 1) = members h + 1).
    { apply to_unsigned_small. lia. }
    exists false. eexists. split; [done|].
    split; [|split; [done|split; [|split; [done|]]]].
    + split; [by exists p|]. simpl. rewrite !length_insert.
      split; [done|]. rewrite Hsl, Hocc, Hmem.
      split; [lia | by apply put_reach].
    + split; [done|]. intros Hin. by apply Hhas in Hin.
    + intros k'. rewrite Hsl.
      apply (PtrMoreFacts.has_key_insert _ _ _ _ _ _ Hs). eauto.
Qed.

Lemma hset_rehash_body_eq n old i h :
  rehash_body n old i h
  = (k ← get_at (keys old) i;
     if negb (k =? NULL) then hset_insert n h k else Some h).
Proof. reflexivity. Qed.

Lemma hset_insert_noresize n h key :
  members h < size h / 2 ->
  hset_insert (S n) h key
  = (slot ← hash_slot (size h) key; hset_insert_loop n h key slot).
Proof.
  intros Hlt. cbn [hset_insert].
  by rewrite (proj2 (Z.leb_gt (size h / 2) (members h))) by done.
Qed.

Lemma hset_insert_resize n h key :
  size h / 2 <= members h ->
  hset_insert (S n) h key
  = (h1 ← rebuilt n h; slot ← hash_slot (size h1) key;
     hset_insert_loop n h1 key slot).
Proof.
  intros Hle. cbn [hset_insert].
  by rewrite (proj2 (Z.leb_le (size h / 2) (members h))) by done.
Qed.

(** The reinsertion loop keeps the keys and counts them again. *)
Lemma hset_rehash_loop old n :
  wf old -> (2 * Z.to_nat (size old) + 1 <= n)%nat ->
  forall c i h,
  (i + c = Z.to_nat (size old))%nat ->
  wf0 h -> size h = 2 * size old ->
  members h = Z.of_nat (occ (take i (slots old))) ->
  (forall k, has_key (slots h) k <-> has_key (take i (slots old)) k) ->
  exists h1,
    for_loop c (Z.of_nat i) (rehash_body n old) h = Some h1 /\
    wf0 h1 /\ size h1 = 2 * size old /\
    members h1 = members old /\
    (forall k, has_key (slots h1) k <-> has_key (slots old) k).
Proof.
  intros [Hwf Hload] Hn.
  pose proof Hwf as ((p & Hp & Hsz) & Hlk & Hm & Hr).
  pose proof (pow2_bounds p Hp) as Hb.
  induction c as [|c IH]; intros i h Hic Hwfh Hszh Hmh Hkh.
  - simpl. exists h. rewrite take_ge in Hmh
      by (rewrite (hset_wf0_slots_length old Hwf); lia).
    split; [done|]. split; [done|]. split; [done|]. split; [lia|].
    intros k. rewrite Hkh.
    by rewrite take_ge by (rewrite (hset_wf0_slots_length old Hwf); lia).
  - cbn [for_loop].
    destruct (lookup_lt_is_Some_2 (keys old) i) as [k Ek]; [lia|].
    assert (Hs := hset_slots_lookup old i k Ek).
    assert (Htake : take (S i) (slots old)
                    = take i (slots old)
                      ++ [if k =? NULL then None else Some (k, 0)])
      by by apply take_S_r.
    rewrite hset_rehash_body_eq, !get_at_nat, Ek. simpl.
    replace (Z.of_nat i + 1) with (Z.of_nat (S i)) by lia.
    destruct (Z.eqb_spec k NULL) as [->|Hk]; simpl.
    + apply IH; [lia|done|done| |].
      * rewrite Htake, occ_app. replace (occ [None]) with 0%nat by done. lia.
      * intros k'. rewrite Hkh, (PtrMoreFacts.has_key_take_S _ _ _ _ Hs).
        split; [auto|]. by intros [?|[? ?]].
    + assert (Hle : Z.of_nat (occ (take i (slots old))) <= members old).
      { rewrite Hm. pose proof (occ_take_le (slots old) i). lia. }
      destruct n as [|n]; [lia|].
      rewrite hset_insert_noresize
        by (rewrite Hszh, Z.mul_comm, Z.div_mul by lia;
            pose proof (half_lt (size old)); lia).
      rewrite (hset_slot_spec h k Hwfh Hk). simpl.
      destruct (hset_insert_full h k n Hwfh)
        as (b & h' & E & Hwf' & Hsz' & Hb' & Hm' & Hk');
        [pose proof (half_lt (size old)); lia | done | lia |].
      rewrite E. simpl.
      assert (b = false) as ->.
      { destruct b; [|done]. exfalso.
        pose proof (proj1 Hb' eq_refl) as Hhas.
        apply Hkh in Hhas as (q & v' & Eq).
        assert (Hq : (q < i)%nat).
        { apply lookup_lt_Some in Eq. rewrite length_take in Eq. lia. }
        rewrite lookup_take_lt in Eq by done.
        pose proof (reach_key_unique _ _ _ _ _ _ _ Hr Eq Hs). lia. }
      apply IH; [lia|done|lia| |].
      * rewrite Htake, occ_app.
        replace (occ [Some (k, 0)]) with 1%nat by done. lia.
      * intros k'. rewrite Hk', Hkh, (PtrMoreFacts.has_key_take_S _ _ _ _ Hs).
        split.
        -- intros [->|Hin]; [right; by exists 0 | by left].
        -- intros [Hin|[v' Ev']]; [by right | left; by simplify_eq].
Qed.

(** Rebuilding doubles the size and keeps every key. *)
Lemma hset_rebuilt_spec n h :
  wf h -> size h < 2 ^ 31 -> (2 * Z.to_nat (size h) + 1 <= n)%nat ->
  exists h1, rebuilt n h = Some h1 /\ wf0 h1 /\ size h1 = 2 * size h /\
    members h1 = members h /\
    (forall k, has_key (slots h1) k <-> has_key (slots h) k).
Proof.
  intros Hwfl Hlim Hn. pose proof Hwfl as [Hwf Hload].
  pose proof Hwf as ((p & Hp & Hsz) & Hlk & Hm & Hr).
  pose proof (pow2_bounds p Hp) as Hb.
  unfold rebuilt, rebuilt_empty.
  rewrite to_int_small, to_unsigned_small by lia.
  set (h0 := HSet (size h * 2) 0 _).
  assert (Hp' : p <= 30).
  { destruct (Z.le_gt_cases p 30); [done|].
    assert (2 ^ 31 <= 2 ^ p) by (apply Z.pow_le_mono_r; lia). lia. }
  assert (Hsl0 : slots h0 = replicate (Z.to_nat (size h * 2)) None)
    by apply hset_slots_replicate.
  assert (Hwf0 : wf0 h0).
  { split; [exists (p + 1); split; [lia|]; simpl;
            rewrite Z.pow_add_r by lia; lia|].
    rewrite Hsl0. unfold h0. simpl. rewrite !length_replicate.
    split; [done|]. rewrite occ_replicate.
    split; [done | apply reach_replicate]. }
  apply (hset_rehash_loop h n Hwfl Hn (Z.to_nat (size h)) 0%nat h0);
    [lia | done | simpl; lia | by rewrite take_0 |].
  intros k. rewrite Hsl0, take_0. split.
  - by intros ?%PtrMoreFacts.has_key_replicate.
  - by intros (q & v & ?).
Qed.

(** One call of [hset_insert]. *)
Lemma hset_insert_step n h key :
  wf h -> size h < 2 ^ 31 -> key <> NULL ->
  (2 * Z.to_nat (size h) + 2 <= n)%nat ->
  exists b h',
    hset_insert n h key = Some h' /\ wf h' /\
    (b = true <-> has_key (slots h) key) /\
    members h' = members h + (if b then 0 else 1) /\
    (forall k', has_key (slots h') k' <-> k' = key \/ has_key (slots h) k') /\
    size h <= size h' <= Z.max (size h) (4 * members h').
Proof.
  intros Hwfl Hlim Hkey Hn. pose proof Hwfl as [Hwf Hload].
  pose proof Hwf as ((p & Hp & Hsz) & Hlk & Hm & Hr).
  pose proof (pow2_bounds p Hp) as Hb.
  pose proof (half_lt (size h)) as Hhalf.
  destruct n as [|n]; [lia|].
  destruct (Z.leb_spec (size h / 2) (members h)) as [Hfull|Hfree].
  - rewrite hset_insert_resize by done.
    destruct (hset_rebuilt_spec n h Hwfl Hlim ltac:(lia))
      as (h1 & E1 & Hwf1 & Hsz1 & Hm1 & Hk1).
    rewrite E1. simpl.
    rewrite (hset_slot_spec h1 key Hwf1 Hkey). simpl.
    destruct (hset_insert_full h1 key n Hwf1)
      as (b & h' & E & Hwf' & Hsz' & Hb' & Hm' & Hk'); [lia|done|lia|].
    exists b, h'. split; [done|].
    assert (Hdiv : size h' / 2 = size h).
    { rewrite Hsz', Hsz1, Z.mul_comm, Z.div_mul; lia. }
    split; [split; [done|]; destruct b; lia|].
    split; [by rewrite Hb', Hk1|]. split; [lia|].
    split; [intros k'; by rewrite Hk', Hk1|].
    split; [lia|].
    destruct (Z.eq_dec p 0) as [->|Hp0].
    + change (2 ^ 0) with 1 in Hsz.
      assert (b = false) as ->.
      { destruct b; [|done]. exfalso.
        pose proof (proj1 Hb' eq_refl) as Hhas.
        apply Hk1, has_key_occ in Hhas.
        rewrite Hsz in Hload. change (1 / 2) with 0 in Hload. lia. }
      lia.
    + assert (size h = 2 * (size h / 2)).
      { rewrite Hsz. replace p with (1 + (p - 1)) by lia.
        rewrite Z.pow_add_r by lia. change (2 ^ 1) with 2.
        by rewrite Z.mul_comm, Z.div_mul, Z.mul_comm by lia. }
      destruct b; lia.
  - rewrite hset_insert_noresize by done.
    rewrite (hset_slot_spec h key Hwf Hkey). simpl.
    destruct (hset_insert_full h key n Hwf)
      as (b & h' & E & Hwf' & Hsz' & Hb' & Hm' & Hk'); [lia|done|lia|].
    exists b, h'. split; [done|].
    split; [split; [done|]; rewrite Hsz'; destruct b; lia|].
    split; [done|]. split; [done|]. split; [done|]. lia.
Qed.

(** Inserting a list of keys into a table that holds the set [X]. *)
Lemma hset_insert_all_spec s0 n ks : forall h (X : gset Z),
  wf h -> size h <= Z.max s0 (4 * members h) ->
  members h = Z.of_nat (base.size X) ->
  (forall k, has_key (slots h) k <-> k ∈ X) ->
  Forall (fun k => k <> NULL) ks ->
  Z.max s0 (4 * (members h + Z.of_nat (length ks))) < 2 ^ 31 ->
  (2 * Z.to_nat (Z.max s0 (4 * (members h + Z.of_nat (length ks)))) + 2 <= n)%nat ->
  exists h',
    hset_insert_all n h ks = Some h' /\ wf h' /\
    size h' <= Z.max s0 (4 * (members h + Z.of_nat (length ks))) /\
    members h' = Z.of_nat (base.size (X ∪ list_to_set ks)) /\
    (forall k, has_key (slots h') k <-> k ∈ X ∪ list_to_set ks).
Proof.
  induction ks as [|key ks IH]; intros h X Hwf Hsz Hm Hk Hks Hlim Hn.
  - exists h. simpl in *. split; [done|]. split; [done|]. split; [lia|].
    rewrite (right_id_L ∅ (∪)). done.
  - apply Forall_cons in Hks as [Hkey Hks]. cbn [hset_insert_all].
    simpl length in *.
    destruct (hset_insert_step n h key Hwf ltac:(lia) Hkey ltac:(lia))
      as (b & h1 & E & Hwf1 & Hb & Hm1 & Hk1 & Hsz1).
    rewrite E. simpl.
    assert (HX : members h1 = Z.of_nat (base.size (X ∪ {[key]}))).
    { destruct b.
      - assert (key ∈ X) by (by apply Hk, Hb).
        replace (X ∪ {[key]}) with X by set_solver. lia.
      - assert (key ∉ X).
        { intros Hin. apply Hk, Hb in Hin. done. }
        rewrite size_union by set_solver. rewrite size_singleton. lia. }
    destruct (IH h1 (X ∪ {[key]})) as (h' & E' & Hwf' & Hsz' & Hm' & Hk');
      [done|destruct b; lia|done| |done|destruct b; lia|destruct b; lia|].
    { intros k. rewrite Hk1, Hk. set_solver. }
    exists h'. split; [done|]. split; [done|]. split; [destruct b; lia|].
    cbn [list_to_set foldr]. rewrite (assoc_L (∪)). by split.
Qed.

(** X17: with [next_power_of_2] as util.c defines it, take the set made by
    [hset_new] of a size between 1 and 2^30 and insert fewer than 2^29
    keys other than NULL with [hset_insert], in any order and with any
    repetitions.  Every call returns; in the end [members] is the number
    of distinct keys inserted, and [hset_contains] is true exactly for the
    keys that were inserted. *)
Theorem hset_is_a_set sz ks n :
  (forall m, next_power_of_2 m = UtilNum.next_power_of_2 m) ->
  1 <= sz <= 2 ^ 30 -> Forall (fun k => k <> NULL) ks ->
  Z.of_nat (length ks) < 2 ^ 29 ->
  (2 * Z.to_nat (Z.max (2 * sz) (4 * Z.of_nat (length ks))) + 2 <= n)%nat ->
  exists h,
    hset_insert_all n (hset_new sz) ks = Some h /\
    members h = Z.of_nat (base.size (list_to_set ks : gset Z)) /\
    (forall k, k <> NULL -> hset_contains n h k = Some (bool_decide (k ∈ ks))).
Proof.
  intros Hnp Hsz Hks Hlen Hn.
  set (p := Z.log2_up sz).
  assert (Hp : 0 <= p <= 30).
  { split; [apply Z.log2_up_nonneg|].
    destruct (Z.eq_dec sz 1) as [->|]; [done|].
    apply Z.log2_up_le_pow2; lia. }
  assert (Hb : sz <= 2 ^ p < 2 * sz).
  { destruct (Z.eq_dec sz 1) as [->|]; [done|].
    pose proof (Z.log2_up_spec sz ltac:(lia)) as [Hlo Hhi]. fold p in Hlo, Hhi.
    split; [done|].
    replace p with (Z.succ (Z.pred p)) by lia.
    rewrite Z.pow_succ_r; [lia|].
    assert (0 < p); [|lia]. apply Z.log2_up_pos. lia. }
  assert (Hnew : hset_new sz = HSet (2 ^ p) 0 (replicate (Z.to_nat (2 ^ p)) NULL)).
  { unfold hset_new. by rewrite Hnp, (UtilNumFacts.pow2_round_up sz) by lia. }
  rewrite Hnew. set (h0 := HSet _ _ _).
  assert (Hsl0 : slots h0 = replicate (Z.to_nat (2 ^ p)) None)
    by apply hset_slots_replicate.
  assert (Hwf0 : wf h0).
  { split; [|simpl; apply Z.div_pos; lia].
    split; [exists p; split; [lia|done]|].
    rewrite Hsl0. unfold h0. simpl. rewrite !length_replicate.
    split; [done|]. rewrite occ_replicate.
    split; [done | apply reach_replicate]. }
  assert (Hp30 : 2 ^ p <= 2 ^ 30) by (apply Z.pow_le_mono_r; lia).
  destruct (hset_insert_all_spec (2 ^ p) n ks h0 ∅)
    as (h & E & Hwf & Hsize & Hm & Hk); [done|simpl; lia|done| |done|simpl; lia|simpl; lia|].
  { intros k. rewrite Hsl0. split.
    - by intros ?%PtrMoreFacts.has_key_replicate.
    - set_solver. }
  exists h. split; [done|].
  rewrite (left_id_L ∅ (∪)) in Hm, Hk. split; [done|].
  intros k Hkn. destruct Hwf as [Hwf Hload].
  pose proof Hwf as ((q & Hq & Hsq) & _). pose proof (pow2_bounds q Hq).
  pose proof (half_lt (size h)).
  destruct (hset_contains_spec h k n Hwf) as (b & Eb & Hbk);
    [lia|done|simpl in Hsize; lia|].
  rewrite Eb. f_equal. rewrite Hk, elem_of_list_to_set in Hbk.
  destruct b; symmetry.
  - apply bool_decide_eq_true. by apply Hbk.
  - apply bool_decide_eq_false. intros Hin. by apply Hbk in Hin.
Qed.

End Hset.

Lemma hset_is_a_set_witness :
  exists h,
    @hset_insert_all util_c 26 (@hset_new util_c 2) [16; 32; 16] = Some h /\
    members h = Z.of_nat (base.size (list_to_set [16; 32; 16] : gset Z)) /\
    (forall k, k <> NULL ->
       @hset_contains util_c 26 h k = Some (bool_decide (k ∈ [16; 32; 16]))).
Proof.
  apply (@hset_is_a_set util_c 2 [16; 32; 16] 26).
  - intros m. reflexivity.
  - lia.
  - repeat constructor; unfold NULL; lia.
  - simpl. lia.
  - simpl. lia.
Defined.

End HsetFacts.
(* --------------------------------------------------------------------- *)
(** ** The generic hash table keeps every key it is given                 *)
(* --------------------------------------------------------------------- *)

Module GhashFacts.
Import Common Hash Ghash Probe SeqFacts GhashSpec.
Local Open Scope Z_scope.

Lemma live_app l1 l2 : live (l1 ++ l2) = live l1 ++ live l2.
Proof. unfold live. by rewrite filter_app. Qed.

Lemma live_replicate n : live (replicate n NULL) = [].
Proof.
  unfold live. induction n as [|n IH]; [done|]. simpl.
  by rewrite filter_cons_False by (by intros ?).
Qed.

Lemma live_cons k l :
  live (k :: l) = if decide (k <> NULL) then k :: live l else live l.
Proof. unfold live. by rewrite filter_cons. Qed.

(** Filling an empty slot adds the key to the stored keys. *)
Lemma live_insert keys q key :
  keys !! q = Some NULL -> key <> NULL ->
  live (<[q := key]> keys) ≡ₚ key :: live keys.
Proof.
  intros E Hkey.
  rewrite insert_take_drop by by eapply lookup_lt_Some.
  rewrite <- (take_drop_middle keys q NULL E) at 3.
  rewrite !live_app, !live_cons.
  rewrite decide_True by done. rewrite decide_False by (by intros ?).
  symmetry. apply Permutation_middle.
Qed.

Lemma live_take_S keys i k :
  keys !! i = Some k ->
  live (take (S i) keys)
  = live (take i keys) ++ (if decide (k <> NULL) then [k] else []).
Proof.
  intros E. rewrite (take_S_r _ _ _ E), live_app, live_cons.
  by destruct (decide (k <> NULL)).
Qed.

Lemma live_take_le keys i :
  (length (live (take i keys)) <= length (live keys))%nat.
Proof.
  rewrite <- (take_drop i keys) at 2. rewrite live_app, length_app. lia.
Qed.

Lemma live_lt_empty keys :
  (length (live keys) < length keys)%nat -> exists q, keys !! q = Some NULL.
Proof.
  induction keys as [|k keys IH]; simpl; [lia|].
  rewrite live_cons. destruct (decide (k <> NULL)) as [Hk|Hk].
  - simpl. intros Hlt. destruct IH as [q Eq]; [lia|]. by exists (S q).
  - intros _. exists 0%nat. simpl. f_equal.
    by destruct (decide (k = NULL)).
Qed.

(** A probe sequence that covers the table meets its empty slot. *)
Lemma first_empty_search (pos : nat -> nat) keys :
  (forall j, (pos j < length keys)%nat) ->
  forall d n,
  (forall j', (j' < n)%nat -> exists k, keys !! pos j' = Some k /\ k <> NULL) ->
  keys !! pos (n + d)%nat = Some NULL ->
  exists j, (n <= j <= n + d)%nat /\ first_empty pos keys j.
Proof.
  intros Hin. induction d as [|d IH]; intros n Hbefore Hd.
  - exists n. rewrite Nat.add_0_r in Hd. split; [lia|]. by split.
  - destruct (lookup_lt_is_Some_2 keys (pos n) (Hin n)) as [k E].
    destruct (decide (k = NULL)) as [->|Hk].
    + exists n. split; [lia|]. by split.
    + destruct (IH (S n)) as (j & Hj & Hf).
      * intros j' Hj'. destruct (decide (j' = n)) as [->|]; [eauto|].
        apply Hbefore. lia.
      * by replace (S n + d)%nat with (n + S d)%nat by lia.
      * exists j. split; [lia|done].
Qed.

Section Ghash.
Context `{Util}.

Lemma ghash_next_slot h p key (j : nat) :
  size h = 2 ^ p -> 0 <= p <= 31 ->
  Z.land (Z.of_nat (pos h key j) + (Z.of_nat j + 1))
    (to_unsigned (size h - 1))
  = Z.of_nat (pos h key (S j)).
Proof.
  intros Hsz Hp. pose proof (pow2_bounds p Hp).
  rewrite Hsz, to_unsigned_small by lia. rewrite land_mask by lia.
  unfold pos, pos_quadratic. rewrite Hsz.
  rewrite !Z2Nat.id by (apply Z.mod_pos_bound; lia).
  rewrite Zplus_mod_idemp_l. f_equal.
  rewrite Nat2Z.inj_succ, <- Z.add_1_r, tri_succ. lia.
Qed.

Lemma ghash_slot_spec h key :
  wf0 h -> key <> NULL ->
  ghash_slot h key = Some (Z.of_nat (pos h key 0)).
Proof.
  intros ((p & Hp & Hsz) & _) Hkey. unfold ghash_slot.
  rewrite (proj2 (Z.eqb_neq key NULL)) by done. f_equal.
  pose proof (pow2_bounds p Hp). rewrite Hsz.
  rewrite to_unsigned_small by lia.
  unfold pos, pos_quadratic, start. change (Z.of_nat 0) with 0.
  rewrite tri_0, Z.add_0_r, Hsz.
  rewrite !land_mask by lia. rewrite Zmod_mod.
  rewrite Z2Nat.id by (apply Z.mod_pos_bound; lia). done.
Qed.

Lemma ghash_covers h :
  wf0 h -> covers (pos h) (length (keys h)).
Proof.
  intros ((p & Hp & Hsz) & Hlk & _). rewrite Hlk. unfold pos. rewrite Hsz.
  apply pos_quadratic_covers. lia.
Qed.

(** With a free slot, probing for any key meets an empty slot within
    [size] steps. *)
Lemma ghash_first_empty h key :
  wf0 h -> members h < size h ->
  exists j, (j < Z.to_nat (size h))%nat /\
            first_empty (pos h key) (keys h) j.
Proof.
  intros Hwf Hroom. pose proof (ghash_covers h Hwf) as [Hin Hall].
  destruct Hwf as (_ & Hlk & _ & Hm).
  destruct (live_lt_empty (keys h)) as [q Eq]; [lia|].
  destruct (Hall key q) as (j0 & Hj0 & Hq); [by eapply lookup_lt_Some|].
  destruct (first_empty_search (pos h key) (keys h) (Hin key) j0 0%nat)
    as (j & Hj & Hf); [lia|by rewrite Nat.add_0_l, Hq|].
  exists j. split; [lia|done].
Qed.

(** The loop of [ghash_put] runs to the first empty slot of the probe
    sequence and stores the key there; on its way it writes the value
    into every slot whose key compares equal. *)
Lemma ghash_put_loop_spec p key value :
  0 <= p <= 31 -> key <> NULL ->
  forall d j fuel h,
  size h = 2 ^ p ->
  first_empty (pos h key) (keys h) (j + d) -> (d < fuel)%nat ->
  exists vs,
    ghash_put_loop fuel h key value (Z.of_nat (pos h key j)) (Z.of_nat j + 1)
    = Some (GHash (size h) (to_unsigned (members h + 1)) (hash_fn h) (cmp_fn h)
              vs (<[pos h key (j + d) := key]> (keys h))) /\
    length vs = length (values h) /\
    (pos h key (j + d) < length (values h) ->
     vs !! pos h key (j + d) = Some value)%nat /\
    (forall j' k, (j <= j' < j + d)%nat -> keys h !! pos h key j' = Some k ->
       (pos h key j' < length (values h))%nat ->
       (k =? key) || cmp_fn h k key = true ->
       vs !! pos h key j' = Some value) /\
    (forall q, values h !! q = Some value -> vs !! q = Some value).
Proof.
  intros Hp Hkey. induction d as [|d IH]; intros j fuel h Hsz Hf Hfuel;
    (destruct fuel as [|fuel]; [lia|]); cbn [ghash_put_loop].
  - rewrite Nat.add_0_r in *. destruct Hf as [E _].
    rewrite get_at_nat, E. simpl. rewrite !set_at_nat.
    eexists. split; [done|]. rewrite length_insert. split; [done|].
    split; [intros Hlt; by rewrite list_lookup_insert_eq|].
    split; [intros j' k Hj'; lia|].
    intros q Eq. destruct (decide (q = pos h key j)) as [->|Hne].
    + rewrite list_lookup_insert_eq; [done|]. by eapply lookup_lt_Some.
    + by rewrite list_lookup_insert_ne.
  - pose proof Hf as [_ Hbefore].
    destruct (Hbefore j ltac:(lia)) as (k & Ek & Hk).
    rewrite get_at_nat, Ek. simpl.
    rewrite (proj2 (Z.eqb_neq k NULL)) by done.
    set (h1 := if (k =? key) || cmp_fn h k key then _ else h).
    assert (Hh1 : size h1 = size h /\ members h1 = members h /\
                  hash_fn h1 = hash_fn h /\ cmp_fn h1 = cmp_fn h /\
                  keys h1 = keys h /\
                  length (values h1) = length (values h) /\
                  (forall q, values h !! q = Some value ->
                             values h1 !! q = Some value) /\
                  ((pos h key j < length (values h))%nat ->
                   (k =? key) || cmp_fn h k key = true ->
                   values h1 !! pos h key j = Some value)).
    { unfold h1. destruct ((k =? key) || cmp_fn h k key); simpl.
      - rewrite set_at_nat, length_insert. repeat (split; [done|]). split.
        + intros q Eq. destruct (decide (q = pos h key j)) as [->|Hne].
          * rewrite list_lookup_insert_eq; [done|]. by eapply lookup_lt_Some.
          * by rewrite list_lookup_insert_ne.
        + intros Hlt _. by rewrite list_lookup_insert_eq.
      - repeat (split; [done|]). by intros _ [=]. }
    destruct Hh1 as (Hs1 & Hm1 & Hhf & Hcf & Hk1 & Hl1 & Hkeep & Hhere).
    assert (Hpos : pos h1 key = pos h key).
    { unfold pos, start. by rewrite Hs1, Hhf. }
    replace (size h) with (size h1) by done.
    rewrite <- Hpos.
    rewrite (ghash_next_slot h1 p) by (done || congruence).
    replace (Z.of_nat j + 1 + 1) with (Z.of_nat (S j) + 1) by lia.
    destruct (IH (S j) fuel h1) as (vs & E & Hlen & Hlast & Hmid & Hkeep');
      [congruence| |lia|].
    { rewrite Hpos, Hk1. by replace (S j + d)%nat with (j + S d)%nat by lia. }
    rewrite E. exists vs.
    replace (S j + d)%nat with (j + S d)%nat in * by lia.
    rewrite Hs1, Hm1, Hhf, Hcf, Hk1, Hpos, Hl1 in *.
    split; [done|]. split; [done|]. split; [done|]. split.
    + intros j' k' Hj' Ek' Hlt Hmatch.
      destruct (decide (j' = j)) as [->|Hne].
      * assert (k' = k) as -> by congruence. apply Hkeep'. by apply Hhere.
      * eapply Hmid; [|done|done|done]. lia.
    + intros q Eq. by apply Hkeep', Hkeep.
Qed.

(** [ghash_get] on a probe sequence whose matching slots all hold the
    same value before the key itself is met. *)
Lemma ghash_get_loop_spec p key value h :
  size h = 2 ^ p -> 0 <= p <= 31 -> key <> NULL ->
  forall d j fuel,
  (forall j', (j <= j' < j + d)%nat ->
     exists k, keys h !! pos h key j' = Some k /\ k <> NULL /\
       ((k =? key) || cmp_fn h k key = true ->
        values h !! pos h key j' = Some value)) ->
  keys h !! pos h key (j + d) = Some key ->
  values h !! pos h key (j + d) = Some value ->
  (d < fuel)%nat ->
  ghash_get_loop fuel h key (Z.of_nat (pos h key j)) (Z.of_nat j + 1)
  = Some value.
Proof.
  intros Hsz Hp Hkey. induction d as [|d IH]; intros j fuel Hmid Ek Ev Hfuel;
    (destruct fuel as [|fuel]; [lia|]); cbn [ghash_get_loop].
  - rewrite Nat.add_0_r in *. rewrite !get_at_nat, Ek. simpl.
    rewrite (proj2 (Z.eqb_neq key NULL)) by done.
    by rewrite Z.eqb_refl.
  - destruct (Hmid j ltac:(lia)) as (k & Ekj & Hk & Hv).
    rewrite !get_at_nat, Ekj. simpl.
    rewrite (proj2 (Z.eqb_neq k NULL)) by done.
    destruct ((k =? key) || cmp_fn h k key) eqn:Em; [by apply Hv|].
    rewrite (ghash_next_slot h p) by done.
    replace (Z.of_nat j + 1 + 1) with (Z.of_nat (S j) + 1) by lia.
    replace (j + S d)%nat with (S j + d)%nat in * by lia.
    apply IH; [|done|done|lia]. intros j' Hj'. apply Hmid. lia.
Qed.

(** The probing phase of [ghash_put]. *)
Lemma ghash_insert_full h key value fuel :
  wf0 h -> members h < size h -> key <> NULL ->
  (Z.to_nat (size h) <= fuel)%nat ->
  exists h',
    ghash_put_loop fuel h key value (Z.of_nat (pos h key 0)) 1 = Some h' /\
    wf0 h' /\ size h' = size h /\
    hash_fn h' = hash_fn h /\ cmp_fn h' = cmp_fn h /\
    members h' = members h + 1 /\
    live (keys h') ≡ₚ key :: live (keys h) /\
    (forall fuel', (Z.to_nat (size h) <= fuel')%nat ->
       ghash_get_loop fuel' h' key (Z.of_nat (pos h' key 0)) 1 = Some value).
Proof.
  intros Hwf Hroom Hkey Hfuel.
  destruct (ghash_first_empty h key Hwf Hroom) as (j & Hj & Hf).
  pose proof Hwf as ((p & Hp & Hsz) & Hlk & Hlv & Hm).
  pose proof (pow2_bounds p Hp) as Hb.
  pose proof (ghash_covers h Hwf) as [Hin _].
  destruct (ghash_put_loop_spec p key value Hp Hkey j 0%nat fuel h Hsz)
    as (vs & E & Hlen & Hlast & Hmid & _); [done|lia|].
  change (Z.of_nat 0 + 1) with 1 in E. change (0 + j)%nat with j in *.
  rewrite E. clear E. eexists. split; [done|].
  pose proof Hf as [Ee Hbefore].
  assert (Hperm := live_insert (keys h) _ key Ee Hkey).
  assert (Hmem : to_unsigned (members h + 1) = members h + 1).
  { apply to_unsigned_small. lia. }
  split; [|split; [done|split; [done|split; [done|split; [done|split; [done|]]]]]].
  - split; [by exists p|]. simpl. rewrite length_insert.
    split; [done|]. split; [lia|].
    rewrite Hmem, Hperm, Hm. simpl. lia.
  - intros fuel' Hfuel'. set (h' := GHash _ _ _ _ _ _).
    assert (Hpos : pos h' key = pos h key) by done.
    rewrite Hpos.
    apply (ghash_get_loop_spec p key value h' Hsz Hp Hkey j 0%nat fuel');
      rewrite ?Hpos; change (0 + j)%nat with j; simpl.
    + intros j' Hj'. destruct (Hbefore j' ltac:(lia)) as (k & Ek & Hk).
      exists k. split; [|split; [done|]].
      * rewrite list_lookup_insert_ne; [done|]. intros Heq.
        rewrite Heq in Ee. congruence.
      * intros Hmatch. apply (Hmid j' k); [lia|done| |done].
        rewrite Hlv, <- Hlk. apply Hin.
    + apply list_lookup_insert_eq. rewrite Hlk, <- Hlk. apply Hin.
    + apply Hlast. rewrite Hlv, <- Hlk. apply Hin.
    + lia.
Qed.

Lemma ghash_rehash_body_eq n old i h :
  rehash_body n old i h
  = (k ← get_at (keys old) i;
     if negb (k =? NULL) then
       v ← get_at (values old) i; ghash_put n h k v
     else Some h).
Proof. reflexivity. Qed.

Lemma ghash_put_noresize n h key value :
  members h < size h / 2 ->
  ghash_put (S n) h key value
  = (slot ← ghash_slot h key; ghash_put_loop n h key value slot 1).
Proof.
  intros Hlt. cbn [ghash_put].
  by rewrite (proj2 (Z.leb_gt (size h / 2) (members h))) by done.
Qed.

Lemma ghash_put_resize n h key value :
  size h / 2 <= members h ->
  ghash_put (S n) h key value
  = (h1 ← rebuilt n h; slot ← ghash_slot h1 key;
     ghash_put_loop n h1 key value slot 1).
Proof.
  intros Hle. cbn [ghash_put].
  by rewrite (proj2 (Z.leb_le (size h / 2) (members h))) by done.
Qed.

(** The reinsertion loop stores every key of the old table again. *)
Lemma ghash_rehash_loop old n :
  wf old -> (2 * Z.to_nat (size old) + 1 <= n)%nat ->
  forall c i h,
  (i + c = Z.to_nat (size old))%nat ->
  wf0 h -> size h = 2 * size old ->
  hash_fn h = hash_fn old -> cmp_fn h = cmp_fn old ->
  live (keys h) ≡ₚ live (take i (keys old)) ->
  exists h1,
    for_loop c (Z.of_nat i) (rehash_body n old) h = Some h1 /\
    wf0 h1 /\ size h1 = 2 * size old /\
    hash_fn h1 = hash_fn old /\ cmp_fn h1 = cmp_fn old /\
    live (keys h1) ≡ₚ live (keys old).
Proof.
  intros [Hwf Hload] Hn.
  pose proof Hwf as ((p & Hp & Hsz) & Hlk & Hlv & Hm).
  pose proof (pow2_bounds p Hp) as Hb.
  induction c as [|c IH]; intros i h Hic Hwfh Hszh Hhf Hcf Hkh.
  - simpl. exists h. rewrite take_ge in Hkh by lia. by split_and!.
  - cbn [for_loop].
    destruct (lookup_lt_is_Some_2 (keys old) i) as [k Ek]; [lia|].
    destruct (lookup_lt_is_Some_2 (values old) i) as [v Ev]; [lia|].
    rewrite ghash_rehash_body_eq, !get_at_nat, Ek. simpl.
    replace (Z.of_nat i + 1) with (Z.of_nat (S i)) by lia.
    pose proof (live_take_S _ _ _ Ek) as Htake.
    destruct (Z.eqb_spec k NULL) as [->|Hk]; simpl.
    + apply IH; [lia|done|done|done|done|].
      rewrite Htake, decide_False by (by intros ?). by rewrite app_nil_r.
    + rewrite Ev. simpl.
      assert (Hle : members h <= members old).
      { destruct Hwfh as (_ & _ & _ & ->). rewrite Hkh, Hm.
        pose proof (live_take_le (keys old) i). lia. }
      destruct n as [|n]; [lia|].
      rewrite ghash_put_noresize
        by (rewrite Hszh, Z.mul_comm, Z.div_mul by lia;
            pose proof (half_lt (size old)); lia).
      rewrite (ghash_slot_spec h k Hwfh Hk). simpl.
      destruct (ghash_insert_full h k v n Hwfh)
        as (h' & E & Hwf' & Hsz' & Hhf' & Hcf' & Hm' & Hk' & _);
        [pose proof (half_lt (size old)); lia | done | lia |].
      rewrite E.
      apply IH; [lia|done|lia|congruence|congruence|].
      rewrite Hk', Hkh, Htake, decide_True by done.
      apply Permutation_cons_append.
Qed.

(** Rebuilding doubles the size and keeps every stored key, repeated as
    often as before. *)
Lemma ghash_rebuilt_spec n h :
  wf h -> size h < 2 ^ 31 -> (2 * Z.to_nat (size h) + 1 <= n)%nat ->
  exists h1, rebuilt n h = Some h1 /\ wf0 h1 /\ size h1 = 2 * size h /\
    hash_fn h1 = hash_fn h /\ cmp_fn h1 = cmp_fn h /\
    live (keys h1) ≡ₚ live (keys h).
Proof.
  intros Hwfl Hlim Hn. pose proof Hwfl as [Hwf Hload].
  pose proof Hwf as ((p & Hp & Hsz) & Hlk & Hlv & Hm).
  pose proof (pow2_bounds p Hp) as Hb.
  unfold rebuilt, rebuilt_empty.
  rewrite to_int_small, to_unsigned_small by lia.
  set (h0 := GHash (size h * 2) 0 _ _ _ _).
  assert (Hp' : p <= 30).
  { destruct (Z.le_gt_cases p 30); [done|].
    assert (2 ^ 31 <= 2 ^ p) by (apply Z.pow_le_mono_r; lia). lia. }
  assert (Hwf0 : wf0 h0).
  { split; [exists (p + 1); split; [lia|]; simpl;
            rewrite Z.pow_add_r by lia; lia|].
    unfold h0. simpl. rewrite !length_replicate, live_replicate.
    by split_and!. }
  apply (ghash_rehash_loop h n Hwfl Hn (Z.to_nat (size h)) 0%nat h0);
    [lia | done | simpl; lia | done | done |].
  unfold h0. simpl. by rewrite live_replicate, take_0.
Qed.


End Ghash.

Lemma sample_ghash_wf : wf sample_ghash.
Proof.
  split; [|done]. split; [exists 2; split; [lia|done]|]. by split_and!.
Qed.


End GhashFacts.
(* --------------------------------------------------------------------- *)
(** ** Messages without colour                                           *)
(* --------------------------------------------------------------------- *)

Module ColorFacts.
Import Common TextBuf Color ColorSpec SeqFacts.
Local Open Scope Z_scope.

(** A message without ['$'] is kept as it is. *)
Lemma strip_no_dollar str :
  has_dollar str = false -> strip false str = str.
Proof.
  induction str as [|c r IH]; [done|]. simpl.
  intros [Hc Hr]%orb_false_elim. rewrite Hc. by rewrite IH.
Qed.

Lemma fc_loop_plain wc fp str :
  wc && negb fp = false -> Forall (fun c => c <> 0) str ->
  forall rest idx s out,
  drop idx str = rest -> (idx + length rest = length str)%nat ->
  fc_inv str idx rest s out ->
  exists s' out',
    fc_loop wc fp str (Z.of_nat (2 * length str)) rest idx s = Some s' /\
    fc_inv str (length str) [] s' out'.
Proof.
  intros Hplain Hstr. induction rest as [|c rest IH];
    intros idx s out Hdrop Hlen Hinv.
  - simpl in *. exists s, out. split; [done|].
    by replace (length str) with idx by lia.
  - cbn [fc_loop]. simpl in Hlen.
    assert (Hidx : str !! idx = Some c).
    { pose proof (lookup_drop str idx 0) as E.
      rewrite Hdrop, Nat.add_0_r in E. done. }
    assert (Hrest : drop (S idx) str = rest).
    { rewrite (drop_S _ _ _ Hidx) in Hdrop. by simplify_eq. }
    assert (Hc0 : c <> 0).
    { apply (proj1 (Forall_forall _ _) Hstr).
      by apply (list_elem_of_lookup_2 _ idx). }
    destruct Hinv as ([junk Hcopy] & Hsize & Hp & Hout & Hesc).
    unfold fc_step. destruct (Z.eqb_spec c DOLLAR) as [->|Hc].
    + destruct (escape_start s) as [es|] eqn:Ees.
      * rewrite Hplain. destruct Hesc as (Hes & Hle & Hd & Hstrip).
        simpl. apply (IH (S idx) _ out); [done|lia|].
        split; [by exists junk|]. split; [done|]. split; [done|].
        split; [done|]. simpl. split; [lia|].
        rewrite Hstrip. simpl. done.
      * destruct Hesc as (Hle & Hstrip).
        simpl. apply (IH (S idx) _ out); [done|lia|].
        split; [by exists junk|]. split; [done|]. split; [done|].
        split; [done|]. simpl. split; [lia|]. split; [lia|]. split; [done|].
        rewrite Hstrip. simpl. rewrite Hdrop. done.
    + destruct (escape_start s) as [es|] eqn:Ees.
      * destruct Hesc as (Hes & Hle & Hd & Hstrip).
        simpl. apply (IH (S idx) s out); [done|lia|].
        split; [by exists junk|]. split; [done|]. split; [done|].
        split; [done|]. rewrite Ees. split; [lia|]. split; [done|].
        split; [done|]. rewrite Hstrip. simpl.
        by rewrite (proj2 (Z.eqb_neq c DOLLAR)) by done.
      * destruct Hesc as (Hle & Hstrip).
        destruct junk as [|x junk].
        { exfalso. rewrite Hcopy, app_nil_r, length_fmap in Hsize. lia. }
        rewrite Hcopy, Hp.
        replace (length out) with (length (Some <$> out))
          by by rewrite length_fmap.
        rewrite TextBufFacts.store_middle. simpl.
        apply (IH (S idx) _ (out ++ [c])); [done|lia|].
        split.
        { exists junk. simpl. by rewrite fmap_app, <- app_assoc. }
        simpl. split.
        { rewrite Hcopy, !length_app in Hsize. rewrite !length_app.
          simpl in *. lia. }
        split; [rewrite length_fmap, length_app; simpl; lia|].
        split; [apply Forall_app; split; [done|by constructor]|].
        split; [rewrite length_app; simpl; lia|].
        rewrite Hstrip. simpl.
        rewrite (proj2 (Z.eqb_neq c DOLLAR)) by done.
        by rewrite <- app_assoc.
Qed.

Lemma filter_color_plain_general wc fp str :
  wc && negb fp = false -> Forall (fun c => c <> 0) str ->
  Z.of_nat (length str) < 2 ^ 63 ->
  str <> [] -> str <> [DOLLAR] ->
  exists b, filter_color wc str fp = Some b /\
    length b = (2 * length str)%nat /\
    c_string b = Some (strip false str).
Proof.
  intros Hplain Hstr Hlen Hne Hnd. unfold filter_color.
  rewrite TextBufFacts.to_uint64_small by lia.
  replace (Z.of_nat (length str) * 2) with (Z.of_nat (2 * length str)) by lia.
  destruct (fc_loop_plain wc fp str Hplain Hstr str 0%nat
              (FC (xmalloc (Z.of_nat (2 * length str))) 0 None) [])
    as (s & out & E & Hinv).
  { done. } { lia. }
  { split; [by eexists|]. unfold xmalloc. simpl.
    rewrite Nat2Z.id, length_replicate. split; [lia|]. split; [done|].
    split; [done|]. split; [lia|done]. }
  rewrite E. cbn [mbind option_bind].
  assert (Hpos : (0 < length str)%nat) by (destruct str; [done|simpl; lia]).
  destruct Hinv as ([junk Hcopy] & Hsize & Hp & Hout & Hesc).
  assert (Hjunk : (length out + length junk = 2 * length str)%nat).
  { by rewrite Hcopy, length_app, length_fmap in Hsize. }
  destruct (escape_start s) as [es|] eqn:Ees.
  - destruct Hesc as (Hes & Hle & Hd & Hstrip). simpl in Hstrip.
    assert (Hlen2 : (2 <= length str)%nat).
    { destruct str as [|c [|c2 r]]; [done| |simpl; lia].
      exfalso. destruct es; [|simpl in Hes; lia]. simpl in Hd.
      by simplify_eq. }
    set (tail := drop es str) in *.
    assert (Htl : length tail = (length str - es)%nat)
      by (unfold tail; by rewrite length_drop).
    unfold strncpy. rewrite take_ge by lia.
    replace (length str - es + 1 - length tail)%nat with 1%nat by lia.
    change (replicate 1 0) with [0].
    rewrite Hcopy, Hp.
    rewrite <- (take_drop (length (tail ++ [0])) junk).
    pose proof (TextBufFacts.store_all_middle (tail ++ [0]) (Some <$> out)
                  (take (length (tail ++ [0])) junk)
                  (drop (length (tail ++ [0])) junk)) as E1.
    rewrite length_fmap in E1. rewrite E1
      by (rewrite length_take, !length_app; simpl; lia).
    clear E1. cbn [mbind option_bind copy p].
    destruct (drop (length (tail ++ [0])) junk) as [|x post] eqn:Epost.
    { exfalso. apply (f_equal length) in Epost.
      rewrite length_drop, length_app in Epost. simpl in Epost. lia. }
    rewrite app_assoc.
    replace (Z.of_nat (length out) + Z.of_nat (length str - es + 1))
      with (Z.of_nat (length ((Some <$> out) ++ (Some <$> tail ++ [0]))))
      by (rewrite length_app, !length_fmap, length_app; simpl; lia).
    rewrite TextBufFacts.store_middle.
    eexists. split; [done|]. split.
    + apply (f_equal length) in Epost.
      rewrite length_drop, length_app in Epost. simpl in Epost.
      rewrite !length_app, !length_fmap, length_app. simpl. lia.
    + rewrite Hstrip, fmap_app, <- !app_assoc. simpl.
      rewrite app_assoc, <- fmap_app.
      apply TextBufFacts.c_string_text.
      apply Forall_app. split; [done|]. by apply Forall_drop.
  - destruct Hesc as (Hle & Hstrip). simpl in Hstrip.
    rewrite app_nil_r in Hstrip. cbn [mbind option_bind copy p].
    destruct junk as [|x junk]; [simpl in Hjunk; lia|].
    rewrite Hcopy, Hp.
    pose proof (TextBufFacts.store_middle (Some <$> out) x junk 0) as E1.
    rewrite length_fmap in E1. rewrite E1. clear E1.
    eexists. split; [done|]. split.
    + rewrite length_app, length_fmap. simpl in *. lia.
    + rewrite Hstrip. by apply TextBufFacts.c_string_text.
Qed.

(** X19: in plain mode ([want_color] false or [force_plain] true)
    [filter_color] returns its block of twice the length of the message,
    holding as a C string the message without its escapes: the text from
    a ['$'] to the next one is dropped, a ['$'] that is not closed is kept
    with what follows.  The two exceptions are the empty message and the
    message ["$"]: for these the final NUL is stored outside the block. *)
Theorem filter_color_plain wc fp str :
  wc && negb fp = false -> Forall (fun c => c <> 0) str ->
  Z.of_nat (length str) < 2 ^ 63 ->
  match filter_color wc str fp with
  | Some b =>
      str <> [] /\ str <> [DOLLAR] /\
      length b = (2 * length str)%nat /\
      c_string b = Some (strip false str)
  | None => str = [] \/ str = [DOLLAR]
  end.
Proof.
  intros Hplain Hstr Hlen.
  destruct (decide (str = [])) as [->|Hne]; [by left|].
  destruct (decide (str = [DOLLAR])) as [->|Hnd]; [by right|].
  destruct (filter_color_plain_general wc fp str Hplain Hstr Hlen Hne Hnd)
    as (b & -> & Hb & Hc).
  done.
Qed.

Lemma filter_color_plain_witness :
  match filter_color true (chars "$red$hi") true with
  | Some b =>
      chars "$red$hi" <> [] /\ chars "$red$hi" <> [DOLLAR] /\
      length b = (2 * length (chars "$red$hi"))%nat /\
      c_string b = Some (strip false (chars "$red$hi"))
  | None => chars "$red$hi" = [] \/ chars "$red$hi" = [DOLLAR]
  end.
Proof.
  apply (filter_color_plain true true (chars "$red$hi")).
  - reflexivity.
  - vm_compute. repeat (apply Forall_cons_2; [lia|]). apply Forall_nil_2.
  - simpl. lia.
Defined.

End ColorFacts.
(* --------------------------------------------------------------------- *)
(** ** The base of a chain of subtypes                                    *)
(* --------------------------------------------------------------------- *)

Module TypeBaseFacts.
Import Common Type_ TypeBaseSpec.
Local Open Scope Z_scope.

(** X20: when [type_base_recur] returns, its result is not a subtype, its
    kind is what [type_base_kind] returns for the type, and
    [type_base_recur] of the result is the result itself.  A type for
    which [type_is_unconstrained] is true ends in an unconstrained array
    type, so [type_is_array] is true for it. *)
Theorem type_base_recur_spec n H t b :
  type_base_recur n H t = Some b ->
  (exists k, type_kind H b = Some k /\ k <> T_SUBTYPE /\
             type_base_kind n H t = Some k) /\
  type_base_recur n H b = Some b /\
  (type_is_unconstrained n H t = Some true ->
   type_kind H b = Some T_UARRAY /\ type_is_array n H t = Some true).
Proof.
  revert t. induction n as [|n IH]; intros t E; [done|].
  assert (Hend : forall o, H !! b = Some o -> kind o <> T_SUBTYPE ->
            type_base_recur (S n) H b = Some b).
  { intros o Eo Hk. cbn [type_base_recur]. rewrite Eo. simpl.
    by destruct (kind o). }
  unfold type_is_array.
  cbn [type_base_recur type_base_kind type_is_unconstrained] in *.
  destruct (H !! t) as [o|] eqn:Et; [simpl in *|done].
  destruct (kind o) eqn:Ek;
    try (assert (b = t) by congruence; subst b;
         unfold type_kind; rewrite Et; simpl; rewrite Ek;
         split; [eexists; split; [done|]; split; [congruence|done]|];
         split; [done|];
         intros Hu; by simplify_eq/=).
  destruct (type_base H t) as [c|] eqn:Eb; [simpl in *|done].
  destruct (IH c E) as ((k & Hk & Hns & Hbk) & Hid & Hun).
  split; [by exists k|]. split.
  - unfold type_kind in Hk. destruct (H !! b) as [ob|] eqn:Eob; [|done].
    apply (Hend ob); [done|]. simpl in Hk. congruence.
  - destruct (type_has_constraint H t) as [[|]|]; simpl; [done| |done].
    intros Hu. destruct (Hun Hu) as [Hua Harr]. split; [done|].
    rewrite Hbk. simpl. rewrite Hk in Hua. by simplify_eq.
Qed.

Lemma type_base_recur_spec_witness :
  (exists k, type_kind uarray_heap 1 = Some k /\ k <> T_SUBTYPE /\
             type_base_kind 3 uarray_heap 3 = Some k) /\
  type_base_recur 3 uarray_heap 1 = Some 1%positive /\
  (type_is_unconstrained 3 uarray_heap 3 = Some true ->
   type_kind uarray_heap 1 = Some T_UARRAY /\
   type_is_array 3 uarray_heap 3 = Some true).
Proof.
  apply (type_base_recur_spec 3 uarray_heap 3 1). reflexivity.
Defined.

End TypeBaseFacts.
(* --------------------------------------------------------------------- *)
(** ** vlog-simp.c: ports and supply nets                                 *)
(* --------------------------------------------------------------------- *)

Module VlogMoreFacts.
Import Common Vlog VlogSpec VlogFacts VlogMoreSpec.
Local Open Scope nat_scope.

Section VlogMore.
Context `{Env}.

(** X21: [simp_port_decl] leaves a port that has a reference as it is.
    For a port without one it declares a wire with the identifier, the
    location and the type of the port, makes it the reference of the
    port and appends it to the declarations of the module, and changes
    nothing else; a second call then changes nothing. *)
Theorem simp_port_decl_wires_once decl mod_ s od om id :
  nodes s !! decl = Some od -> nodes s !! mod_ = Some om -> decl <> mod_ ->
  ident od = Some id ->
  exists s',
    simp_port_decl decl mod_ s = Some (decl, s') /\
    simp_port_decl decl mod_ s' = Some (decl, s') /\
    match ref od with
    | Some _ => s' = s
    | None =>
        exists w,
          nodes s !! w = None /\
          nodes s' !! w = Some (wire_obj id (loc od) (type_ od)) /\
          nodes s' !! decl = Some (with_ref (Some w) od) /\
          nodes s' !! mod_ = Some (with_decls (decls om ++ [w]) om) /\
          (forall x, x <> decl -> x <> w -> x <> mod_ ->
             nodes s' !! x = nodes s !! x) /\
          interned s' = interned s
    end.
Proof.
  intros Ed Em Hne Ei.
  pose proof (simp_port_decl_spec decl mod_ s od om id Ed Em Hne Ei) as Hs.
  destruct (ref od) as [r|] eqn:Er.
  - exists s. by rewrite Hs.
  - destruct Hs as (w & s' & E & Hw & Ew & Ed' & Em' & Hother & Hint).
    exists s'. split; [done|]. split; [|by exists w].
    by apply (simp_port_decl_spec decl mod_ s' (with_ref (Some w) od)
                (with_decls (decls om ++ [w]) om) id Ed' Em' Hne).
Qed.

(** X22: on a net without an initial value [simp_net_decl] does nothing
    unless the net is a supply net.  For a supply net it appends to the
    statements of the module one new gate instance, a pull-down for
    [supply0] and a pull-up for [supply1], named after the net with
    ["#pull"] added, whose only parameter is a new strength node of
    subkind [ST_SUPPLY] and whose target is a new reference to the net;
    the net and every other node stay as they are. *)
Theorem simp_net_decl_supply_gate decl mod_ s od om id :
  nodes s !! decl = Some od -> nodes s !! mod_ = Some om -> decl <> mod_ ->
  ident od = Some id -> value od = None ->
  if ((subkind od =? V_NET_SUPPLY0) || (subkind od =? V_NET_SUPPLY1))%Z then
    exists g st t s',
      simp_net_decl decl mod_ s = Some (decl, s') /\
      nodes s !! g = None /\ nodes s !! st = None /\ nodes s !! t = None /\
      nodes s' !! g
      = Some (gate_obj (if (subkind od =? V_NET_SUPPLY0)%Z
                        then V_GATE_PULLDOWN else V_GATE_PULLUP)
                (id ++ String "#" "pull") (loc od) st t) /\
      nodes s' !! st = Some strength_obj /\
      nodes s' !! t = Some (ref_obj id (loc od) decl) /\
      nodes s' !! mod_ = Some (with_stmts (stmts om ++ [g]) om) /\
      (forall x, x <> g -> x <> st -> x <> t -> x <> mod_ ->
         nodes s' !! x = nodes s !! x)
  else simp_net_decl decl mod_ s = Some (decl, s).
Proof.
  intros Ed Em Hne Ei Ev. rewrite simp_net_decl_eq.
  erewrite bind_subkind by exact Ed.
  destruct ((subkind od =? V_NET_SUPPLY0) || (subkind od =? V_NET_SUPPLY1))%Z.
  - destruct (gate_block_spec (subkind od) decl mod_ s od om id Ed Em Ei)
      as (g & st & t & s1 & E & Hg & Hst & Ht & Hgst & Hgt & Hstt
          & Eg & Est & Et & Emod & Hother & Hint).
    assert (g <> decl) by (intros E0; rewrite E0 in *; congruence).
    assert (st <> decl) by (intros E0; rewrite E0 in *; congruence).
    assert (t <> decl) by (intros E0; rewrite E0 in *; congruence).
    assert (Ed1 : nodes s1 !! decl = Some od) by (by rewrite Hother).
    exists g, st, t, s1. split.
    + unfold bind at 1. rewrite E.
      erewrite bind_has_value by exact Ed1. by rewrite Ev.
    + by repeat (split; [done|]).
  - unfold bind at 1. unfold ret at 1.
    erewrite bind_has_value by exact Ed. by rewrite Ev.
Qed.

End VlogMore.

Lemma simp_port_decl_wires_once_witness :
  exists s',
    @simp_port_decl sample_env 3 1 sample_store = Some (3%positive, s') /\
    @simp_port_decl sample_env 3 1 s' = Some (3%positive, s') /\
    exists w,
      nodes sample_store !! w = None /\
      nodes s' !! w
      = Some (@wire_obj sample_env "p" (loc sample_port) (type_ sample_port)) /\
      nodes s' !! 3%positive = Some (with_ref (Some w) sample_port) /\
      nodes s' !! 1%positive
      = Some (with_decls (decls sample_module ++ [w]) sample_module) /\
      (forall x, x <> 3%positive -> x <> w -> x <> 1%positive ->
         nodes s' !! x = nodes sample_store !! x) /\
      interned s' = interned sample_store.
Proof.
  apply (@simp_port_decl_wires_once sample_env 3 1 sample_store sample_port
           sample_module "p"); reflexivity || discriminate.
Defined.

Lemma simp_net_decl_supply_gate_witness :
  exists g st t s',
    @simp_net_decl sample_env 2 1 supply_store = Some (2%positive, s') /\
    nodes supply_store !! g = None /\ nodes supply_store !! st = None /\
    nodes supply_store !! t = None /\
    nodes s' !! g
    = Some (gate_obj (@V_GATE_PULLUP sample_env) "vdd#pull"
              (loc supply_net) st t) /\
    nodes s' !! st = Some (@strength_obj sample_env) /\
    nodes s' !! t = Some (ref_obj "vdd" (loc supply_net) 2) /\
    nodes s' !! 1%positive
    = Some (with_stmts (stmts supply_module ++ [g]) supply_module) /\
    (forall x, x <> g -> x <> st -> x <> t -> x <> 1%positive ->
       nodes s' !! x = nodes supply_store !! x).
Proof.
  apply (@simp_net_decl_supply_gate sample_env 2 1 supply_store supply_net
           supply_module "vdd"); reflexivity || discriminate.
Defined.

End VlogMoreFacts.
(* --------------------------------------------------------------------- *)
(** ** Breaking a message into lines keeps its words                      *)
(* --------------------------------------------------------------------- *)

Module PaginateFacts.
Import Common TextBuf Color ColorSpec Paginate PaginateSpec.
Local Open Scope Z_scope.

Lemma visible_app l1 l2 : visible (l1 ++ l2) = visible l1 ++ visible l2.
Proof. unfold visible. by rewrite filter_app. Qed.

Lemma visible_spaces n : visible (replicate n 32) = [].
Proof.
  unfold visible. induction n as [|n IH]; [done|]. simpl.
  by rewrite filter_cons_False by done.
Qed.

Lemma visible_one c :
  visible [c] = if isspace c then [] else [c].
Proof.
  unfold visible. rewrite filter_cons.
  by destruct (isspace c) eqn:E; [rewrite decide_False|rewrite decide_True].
Qed.

(** A step writes the character, or a line break in place of a white
    space character. *)
Lemma pg_step_visible left right s c :
  visible (stderr (pg_step left right s c)) = visible (stderr s) ++ visible [c].
Proof.
  unfold pg_step.
  destruct ((c =? 10) || (c =? 13) || (isspace c && (right <=? col s)))
    eqn:Eb.
  - assert (Hsp : isspace c = true).
    { apply orb_true_iff in Eb as [Eb|Eb].
      - apply orb_true_iff in Eb as [->%Z.eqb_eq| ->%Z.eqb_eq]; done.
      - by apply andb_true_iff in Eb as [? _]. }
    rewrite (visible_one c), Hsp, app_nil_r.
    destruct (c =? 13); cbn [stderr fputc indent col escape].
    + by rewrite visible_app, app_nil_r.
    + by rewrite !visible_app, visible_spaces, !app_nil_r.
  - cbn [stderr fputc col escape].
    destruct (c =? 27); [cbn [stderr]; by rewrite visible_app|].
    destruct (escape s); [destruct (c =? 109)|];
      cbn [stderr fputc]; by rewrite visible_app.
Qed.

Lemma pg_loop_visible left right text : forall s,
  visible (stderr (fold_left (pg_step left right) text s))
  = visible (stderr s) ++ visible text.
Proof.
  induction text as [|c text IH]; intros s; simpl; [by rewrite app_nil_r|].
  rewrite IH, pg_step_visible.
  change (c :: text) with ([c] ++ text).
  by rewrite (visible_app [c] text), app_assoc.
Qed.

(** A text without white space is written as it is. *)
Lemma pg_loop_word left right text : forall s,
  Forall (fun c => isspace c = false) text ->
  stderr (fold_left (pg_step left right) text s) = stderr s ++ text.
Proof.
  induction text as [|c text IH]; intros s Hw; simpl; [by rewrite app_nil_r|].
  apply Forall_cons in Hw as [Hc Hw]. rewrite IH by done.
  assert (E : stderr (pg_step left right s c) = stderr s ++ [c]).
  { unfold pg_step.
    assert ((c =? 10) = false) as -> by (apply Z.eqb_neq; by intros ->).
    assert ((c =? 13) = false) as -> by (apply Z.eqb_neq; by intros ->).
    rewrite Hc. cbn [orb andb stderr fputc col escape].
    destruct (c =? 27); [done|].
    by destruct (escape s); [destruct (c =? 109)|]. }
  rewrite E. by rewrite <- app_assoc.
Qed.

(** X23: without colour, [paginate_msg] writes the message without its
    escapes and then a newline, and breaks lines only at white space: the
    characters written that are not white space are those of the message,
    in order, and a message without white space is written unchanged,
    however long it is.  (The message is not empty and not ["$"], see
    [filter_color].) *)
Theorem paginate_msg_plain str start left right :
  Forall (fun c => c <> 0) str -> Z.of_nat (length str) < 2 ^ 63 ->
  str <> [] -> str <> [DOLLAR] ->
  exists out,
    paginate_msg false str start left right = Some (out ++ [10]) /\
    visible out = visible (strip false str) /\
    (Forall (fun c => isspace c = false) (strip false str) ->
     out = strip false str).
Proof.
  intros Hstr Hlen Hne Hnd. unfold paginate_msg.
  destruct (ColorFacts.filter_color_plain_general false false str)
    as (b & Eb & _ & Ec); [done..|].
  rewrite Eb. cbn [mbind option_bind]. rewrite Ec. cbn [mbind option_bind].
  eexists. split; [done|]. split.
  - by rewrite pg_loop_visible.
  - intros Hw. by rewrite pg_loop_word.
Qed.

Lemma paginate_msg_plain_witness :
  exists out,
    paginate_msg false (chars "a $red$bc") 7 10 72 = Some (out ++ [10]) /\
    visible out = visible (strip false (chars "a $red$bc")) /\
    (Forall (fun c => isspace c = false) (strip false (chars "a $red$bc")) ->
     out = strip false (chars "a $red$bc")).
Proof.
  apply (paginate_msg_plain (chars "a $red$bc") 7 10 72).
  - vm_compute. repeat (apply Forall_cons_2; [lia|]). apply Forall_nil_2.
  - simpl. lia.
  - vm_compute. discriminate.
  - vm_compute. discriminate.
Defined.

End PaginateFacts.
(* --------------------------------------------------------------------- *)
(** ** The static format buffers                                         *)
(* --------------------------------------------------------------------- *)

Module FmtBufFacts.
Import Common TextBuf FmtBuf FmtBufSpec SeqFacts.
Local Open Scope Z_scope.

Lemma xrealloc_grow b n :
  Z.of_nat (length b) <= n ->
  b `prefix_of` xrealloc b n /\ Z.of_nat (length (xrealloc b n)) = n.
Proof.
  intros Hn. unfold xrealloc. rewrite take_ge by lia. split.
  - by apply prefix_app_r.
  - rewrite length_app, length_replicate. lia.
Qed.

(** The loop doubles a length that is not zero until it is enough. *)
Lemma grow_spec len : forall fuel k b,
  0 <= k -> 2 ^ k <= Z.of_nat (length b) < 2 ^ 64 -> len <= 2 ^ 63 ->
  (64 <= fuel + Z.to_nat k)%nat ->
  exists b',
    grow fuel len b (Z.of_nat (length b))
    = inl (Some (b', Z.of_nat (length b'))) /\
    b `prefix_of` b' /\ len <= Z.of_nat (length b') < 2 ^ 64 /\
    (len <= Z.of_nat (length b) -> b' = b).
Proof.
  induction fuel as [|fuel IH]; intros k b Hk Hb Hlen Hfuel.
  - exfalso. assert (64 <= k) by lia.
    assert (2 ^ 64 <= 2 ^ k) by (apply Z.pow_le_mono_r; lia). lia.
  - cbn [grow]. destruct (Z.ltb_spec (Z.of_nat (length b)) len) as [Hlt|Hge].
    + rewrite TextBufFacts.to_uint64_small by lia.
      rewrite (proj2 (Z.eqb_neq _ 0)) by lia.
      destruct (xrealloc_grow b (Z.of_nat (length b) * 2)) as [Hpre Hl]; [lia|].
      set (b2 := xrealloc b (Z.of_nat (length b) * 2)) in *.
      rewrite <- Hl.
      destruct (IH (k + 1) b2) as (b' & E & Hpre' & Hb' & _); [lia| |done|lia|].
      { rewrite Hl, Z.pow_add_r by lia. lia. }
      exists b'. split; [done|]. split; [by etrans|]. split; [done|]. lia.
    + exists b. split; [done|]. split; [done|]. split; [lia|done].
Qed.


(** X25: a call with the length 0 on a buffer that is NULL returns an
    empty block and records the length 0.  When the turn comes back to
    that buffer, a call with a length above 0 ends the process: the loop
    doubles 0 and asks [xrealloc] for 0 bytes, which is fatal ("memory
    exhausted"), where [realloc] of a block to the size 0 gives NULL. *)
Theorem get_fmt_buf_zero_length s :
  fb_ok s -> buf_set s !! Z.to_nat (next_buf s) = Some None ->
  exists s1,
    get_fmt_buf 1 0 s = Buffer (next_buf s) s1 /\
    buf_set s1 !! Z.to_nat (next_buf s) = Some (Some []) /\
    buflen s1 !! Z.to_nat (next_buf s) = Some 0 /\
    (forall s2 fuel len,
       next_buf s2 = next_buf s ->
       buf_set s2 !! Z.to_nat (next_buf s) = Some (Some []) ->
       buflen s2 !! Z.to_nat (next_buf s) = Some 0 ->
       0 < len ->
       get_fmt_buf (S fuel) len s2 = Fatal "memory exhausted (realloc 0)").
Proof.
  intros (Hlb & Hll & Hnext & Hbufs) Ebuf. unfold get_fmt_buf.
  set (i := Z.to_nat (next_buf s)) in *.
  assert (Hi : next_buf s = Z.of_nat i) by lia.
  assert (Hi32 : (i < 32)%nat) by (unfold MAX_FMT_BUFS in *; lia).
  rewrite Hi, !get_at_nat, Ebuf.
  destruct (lookup_lt_is_Some_2 (buflen s) i) as [blen Elen];
    [unfold MAX_FMT_BUFS in *; lia|].
  rewrite Elen. cbn. rewrite !set_at_nat.
  eexists. split; [done|]. cbn [buf_set buflen].
  split; [apply list_lookup_insert_eq; lia|].
  split; [apply list_lookup_insert_eq; lia|].
  intros s2 fuel len Hn2 Eb2 El2 Hlen.
  rewrite Hn2, !get_at_nat, Eb2, El2. cbn [grow].
  by rewrite (proj2 (Z.ltb_lt 0 len)) by done.
Qed.

Lemma fb_ok_initial : fb_ok initial.
Proof.
  split; [done|]. split; [done|]. split; [done|].
  intros i b Hi. apply lookup_replicate in Hi as [? _]. done.
Qed.


Lemma get_fmt_buf_zero_length_witness :
  exists s1,
    get_fmt_buf 1 0 initial = Buffer (next_buf initial) s1 /\
    buf_set s1 !! Z.to_nat (next_buf initial) = Some (Some []) /\
    buflen s1 !! Z.to_nat (next_buf initial) = Some 0 /\
    (forall s2 fuel len,
       next_buf s2 = next_buf initial ->
       buf_set s2 !! Z.to_nat (next_buf initial) = Some (Some []) ->
       buflen s2 !! Z.to_nat (next_buf initial) = Some 0 ->
       0 < len ->
       get_fmt_buf (S fuel) len s2 = Fatal "memory exhausted (realloc 0)").
Proof.
  apply (get_fmt_buf_zero_length initial).
  - exact fb_ok_initial.
  - reflexivity.
Defined.

End FmtBufFacts.
(* --------------------------------------------------------------------- *)
(** ** The text of a value in the VCD file                                *)
(* --------------------------------------------------------------------- *)

Module VcdFmtFacts.
Import Common TextBuf VcdFmt VcdFmtSpec SeqFacts.
Local Open Scope Z_scope.

(** Printing one character behind a text, with room for it and a NUL. *)
Lemma vsnprintf_char text x y rest c avail :
  2 <= avail ->
  vsnprintf ((Some <$> text) ++ x :: y :: rest) (Z.of_nat (length text))
    avail [c]
  = Some ((Some <$> (text ++ [c])) ++ Some 0 :: rest, 1).
Proof.
  intros Hav. unfold vsnprintf.
  rewrite (proj2 (Z.eqb_neq avail 0)), (proj2 (Z.ltb_ge avail 0)) by lia.
  rewrite take_ge by (simpl; lia).
  pose proof (TextBufFacts.store_all_middle [c; 0] (Some <$> text) [x; y] rest)
    as E.
  rewrite length_fmap in E. simpl in E. simpl. rewrite E by done. clear E.
  by rewrite fmap_app, <- app_assoc.
Qed.

Lemma fmt_one_spec arg vals i v text junk :
  vals !! i = Some v -> 0 <= v < Z.of_nat (length arg) ->
  (2 <= length junk)%nat ->
  (length text + length junk = Z.to_nat MAX_TEXT_WIDTH)%nat ->
  fmt_one arg vals (Z.of_nat i) ((Some <$> text) ++ junk, Z.of_nat (length text))
  = Some ((Some <$> (text ++ chars_of arg [v])) ++ Some 0 :: drop 2 junk,
          Z.of_nat (length (text ++ chars_of arg [v]))).
Proof.
  intros Ev Hv Hj Hlen. unfold fmt_one, vcd_fmt_enum.
  rewrite get_at_nat, Ev. cbn [mbind option_bind].
  destruct (lookup_lt_is_Some_2 arg (Z.to_nat v)) as [c Ec]; [lia|].
  replace v with (Z.of_nat (Z.to_nat v)) at 1 by lia.
  rewrite get_at_nat, (lookup_app_l_Some _ _ _ _ Ec). cbn [mbind option_bind].
  destruct junk as [|x [|y rest]]; [simpl in Hj; lia..|].
  rewrite vsnprintf_char by (unfold MAX_TEXT_WIDTH in *; simpl in Hlen; lia).
  cbn [mbind option_bind fst snd]. unfold chars_of. simpl. rewrite Ec. simpl.
  do 2 f_equal. rewrite length_app. simpl. lia.
Qed.

(** The loop over an ascending range. *)
Lemma up_loop_spec arg vals : forall c i text junk,
  (i + c <= length vals)%nat -> in_range arg (take c (drop i vals)) ->
  (c + 2 <= length junk)%nat ->
  (length text + length junk = Z.to_nat MAX_TEXT_WIDTH)%nat ->
  exists junk',
    for_loop c (Z.of_nat i) (fmt_one arg vals)
      ((Some <$> text) ++ junk, Z.of_nat (length text))
    = Some ((Some <$> (text ++ chars_of arg (take c (drop i vals)))) ++ junk',
            Z.of_nat (length (text ++ chars_of arg (take c (drop i vals))))) /\
    (length junk' + c = length junk)%nat.
Proof.
  induction c as [|c IH]; intros i text junk Hi Hr Hj Hlen.
  - exists junk. simpl. unfold chars_of. simpl. by rewrite app_nil_r.
  - cbn [for_loop].
    destruct (lookup_lt_is_Some_2 vals i) as [v Ev]; [lia|].
    rewrite (drop_S _ _ _ Ev) in *. rewrite firstn_cons in *.
    apply Forall_cons in Hr as [Hv Hr].
    rewrite (fmt_one_spec arg vals i v text junk Ev Hv) by (done || lia).
    cbn [mbind option_bind].
    replace (Z.of_nat i + 1) with (Z.of_nat (S i)) by lia.
    destruct (IH (S i) (text ++ chars_of arg [v]) (Some 0 :: drop 2 junk))
      as (junk' & E & Hl); [lia|done| | |].
    { simpl. rewrite length_drop. lia. }
    { rewrite length_app. simpl. rewrite length_drop. lia. }
    exists junk'. rewrite E.
    replace (chars_of arg (v :: take c (drop (S i) vals)))
      with (chars_of arg [v] ++ chars_of arg (take c (drop (S i) vals)))
      by done.
    rewrite <- !app_assoc. split; [done|].
    simpl in Hl. rewrite length_drop in Hl. lia.
Qed.

(** The loop over a descending range. *)
Lemma down_loop_spec arg vals : forall c text junk,
  (c <= length vals)%nat -> in_range arg (take c vals) ->
  (c + 2 <= length junk)%nat ->
  (length text + length junk = Z.to_nat MAX_TEXT_WIDTH)%nat ->
  exists junk',
    down_loop c (fmt_one arg vals)
      ((Some <$> text) ++ junk, Z.of_nat (length text))
    = Some ((Some <$> (text ++ chars_of arg (reverse (take c vals)))) ++ junk',
            Z.of_nat (length (text ++ chars_of arg (reverse (take c vals))))) /\
    (length junk' + c = length junk)%nat.
Proof.
  induction c as [|c IH]; intros text junk Hc Hr Hj Hlen.
  - exists junk. simpl. unfold chars_of. simpl. by rewrite app_nil_r.
  - cbn [down_loop].
    destruct (lookup_lt_is_Some_2 vals c) as [v Ev]; [lia|].
    rewrite (take_S_r _ _ _ Ev) in *.
    apply Forall_app in Hr as [Hr Hv]. rewrite Forall_singleton in Hv.
    rewrite (fmt_one_spec arg vals c v text junk Ev Hv) by (done || lia).
    cbn [mbind option_bind].
    destruct (IH (text ++ chars_of arg [v]) (Some 0 :: drop 2 junk))
      as (junk' & E & Hl); [lia|done| | |].
    { simpl. rewrite length_drop. lia. }
    { rewrite length_app. simpl. rewrite length_drop. lia. }
    exists junk'. rewrite E. rewrite reverse_app. simpl.
    replace (chars_of arg (v :: reverse (take c vals)))
      with (chars_of arg [v] ++ chars_of arg (reverse (take c vals)))
      by done.
    rewrite <- !app_assoc. split; [done|].
    simpl in Hl. rewrite length_drop in Hl. lia.
Qed.

Lemma chars_of_nonzero arg vals :
  Forall (fun c => c <> 0) arg -> in_range arg vals ->
  Forall (fun c => c <> 0) (chars_of arg vals).
Proof.
  intros Harg Hr. unfold chars_of. apply Forall_fmap.
  eapply Forall_impl; [exact Hr|]. intros v Hv. simpl in *.
  destruct (lookup_lt_is_Some_2 arg (Z.to_nat v)) as [c Ec]; [lia|].
  rewrite Ec. simpl.
  apply (proj1 (Forall_forall _ _) Harg). by eapply list_elem_of_lookup_2.
Qed.

(** X26: [vcd_value_fmt] for a signal of at most [MAX_VAR_WIDTH] values
    that index the string [arg].  For an array the static buffer ends up
    holding ["b"], the characters of the values and a space, the values
    taken from the last to the first when the range is [downto] and from
    the first to the last otherwise; for a scalar it holds the character
    of the first value.  Nothing is cut off and nothing is left from the
    call before. *)
Theorem vcd_value_fmt_spec buf arg vals w downto :
  length buf = Z.to_nat MAX_TEXT_WIDTH -> 0 <= w <= MAX_VAR_WIDTH ->
  w <= Z.of_nat (length vals) ->
  Forall (fun c => c <> 0) arg -> in_range arg (take (Z.to_nat w) vals) ->
  (exists b,
     vcd_value_fmt buf arg vals w true downto = Some b /\
     length b = Z.to_nat MAX_TEXT_WIDTH /\
     c_string b
     = Some ([98] ++ chars_of arg (if downto
                                   then reverse (take (Z.to_nat w) vals)
                                   else take (Z.to_nat w) vals) ++ [32])) /\
  (1 <= w ->
   exists b,
     vcd_value_fmt buf arg vals w false downto = Some b /\
     length b = Z.to_nat MAX_TEXT_WIDTH /\
     c_string b = Some (chars_of arg (take 1 vals))).
Proof.
  intros Hbuf Hw Hvals Harg Hr.
  assert (Hbuf' : length buf = 512%nat) by done.
  assert (Hw' : 0 <= w <= 256) by done. clear Hbuf Hw.
  destruct buf as [|x [|y rest]]; [simpl in Hbuf'; lia..|].
  split.
  - unfold vcd_value_fmt.
    assert (E0 : vsnprintf (x :: y :: rest) 0 (MAX_TEXT_WIDTH - 0) [98]
                 = Some (Some 98 :: Some 0 :: rest, 1))
      by (apply (vsnprintf_char [] x y rest 98); unfold MAX_TEXT_WIDTH; lia).
    rewrite E0. clear E0.
    cbn [mbind option_bind fst snd].
    change (0 + 1) with (Z.of_nat (length [98])).
    change (Some 98 :: Some 0 :: rest) with ((Some <$> [98]) ++ Some 0 :: rest).
    set (vs := if downto then reverse (take (Z.to_nat w) vals)
               else take (Z.to_nat w) vals).
    assert (Hloop : exists junk',
      (if downto
       then down_loop (Z.to_nat w) (fmt_one arg vals)
              ((Some <$> [98]) ++ Some 0 :: rest, Z.of_nat (length [98]))
       else for_loop (Z.to_nat w) 0 (fmt_one arg vals)
              ((Some <$> [98]) ++ Some 0 :: rest, Z.of_nat (length [98])))
      = Some ((Some <$> ([98] ++ chars_of arg vs)) ++ junk',
              Z.of_nat (length ([98] ++ chars_of arg vs))) /\
      (length junk' + Z.to_nat w = S (length rest))%nat).
    { unfold vs. destruct downto.
      - apply down_loop_spec; [lia|done|simpl in *; lia|done].
      - destruct (up_loop_spec arg vals (Z.to_nat w) 0 [98] (Some 0 :: rest))
          as (junk' & E & Hl'); [lia|by rewrite drop_0|simpl in *; lia|done|].
        rewrite drop_0 in E. by exists junk'. }
    destruct Hloop as (junk' & -> & Hl). cbn [mbind option_bind fst snd].
    assert (Hvs : length vs = Z.to_nat w).
    { unfold vs. destruct downto; rewrite ?length_reverse, length_take; lia. }
    destruct junk' as [|x' [|y' rest']]; [simpl in *; lia..|].
    rewrite vsnprintf_char.
    2:{ rewrite length_app. unfold chars_of. rewrite length_fmap, Hvs.
        simpl. unfold MAX_TEXT_WIDTH. lia. }
    cbn [mbind option_bind fst]. eexists. split; [done|]. split.
    + rewrite length_app, length_fmap, !length_app. unfold chars_of.
      rewrite length_fmap, Hvs. unfold MAX_TEXT_WIDTH. simpl in *. lia.
    + rewrite <- app_assoc. apply TextBufFacts.c_string_text.
      apply Forall_app. split; [by constructor|]. apply Forall_app.
      split; [|by constructor].
      apply chars_of_nonzero; [done|]. unfold vs.
      destruct downto; [by apply Forall_reverse|done].
  - intros Hw1. unfold vcd_value_fmt.
    destruct vals as [|v vals]; [simpl in Hvals; lia|].
    change (get_at (v :: vals) 0) with (Some v). cbn [mbind option_bind].
    assert (Hv : 0 <= v < Z.of_nat (length arg)).
    { replace (Z.to_nat w) with (S (Z.to_nat w - 1)) in Hr by lia.
      rewrite firstn_cons in Hr. by apply Forall_cons in Hr as [? _]. }
    unfold vcd_fmt_enum.
    destruct (lookup_lt_is_Some_2 arg (Z.to_nat v)) as [c Ec]; [lia|].
    assert (Eg : get_at (arg ++ [0]) v = Some c).
    { replace v with (Z.of_nat (Z.to_nat v)) by lia. rewrite get_at_nat.
      by apply lookup_app_l_Some. }
    rewrite Eg. cbn [mbind option_bind].
    assert (E0 : vsnprintf (x :: y :: rest) 0 MAX_TEXT_WIDTH [c]
                 = Some (Some c :: Some 0 :: rest, 1))
      by (apply (vsnprintf_char [] x y rest c); unfold MAX_TEXT_WIDTH; lia).
    rewrite E0. clear E0.
    cbn [mbind option_bind fst]. eexists. split; [done|]. split; [done|].
    unfold chars_of. simpl. rewrite Ec. simpl.
    apply (TextBufFacts.c_string_text [c] rest). constructor; [|done].
    apply (proj1 (Forall_forall _ _) Harg). by eapply list_elem_of_lookup_2.
Qed.

Lemma vcd_value_fmt_spec_witness :
  (exists b,
     vcd_value_fmt (replicate 512 None) [48; 49; 120; 122] [1; 0; 1; 1] 4
       true true = Some b /\
     length b = Z.to_nat MAX_TEXT_WIDTH /\
     c_string b
     = Some ([98] ++ chars_of [48; 49; 120; 122]
                       (reverse (take (Z.to_nat 4) [1; 0; 1; 1])) ++ [32])) /\
  (1 <= 4 ->
   exists b,
     vcd_value_fmt (replicate 512 None) [48; 49; 120; 122] [1; 0; 1; 1] 4
       false true = Some b /\
     length b = Z.to_nat MAX_TEXT_WIDTH /\
     c_string b = Some (chars_of [48; 49; 120; 122] (take 1 [1; 0; 1; 1]))).
Proof.
  apply (vcd_value_fmt_spec (replicate 512 None) [48; 49; 120; 122]
           [1; 0; 1; 1] 4 true).
  - reflexivity.
  - unfold MAX_VAR_WIDTH. lia.
  - simpl. lia.
  - repeat (apply Forall_cons_2; [lia|]). apply Forall_nil_2.
  - unfold in_range. simpl.
    repeat (apply Forall_cons_2; [lia|]). apply Forall_nil_2.
Defined.

End VcdFmtFacts.
(* --------------------------------------------------------------------- *)
(** ** The pointer hash is a finite map                                   *)
(* --------------------------------------------------------------------- *)

Module HashRunFacts.
Import Common Hash Hash.Ptr Probe ProbeFacts SeqFacts PtrSpec PtrFacts HashRun.
Local Open Scope Z_scope.

Section Run.
Context `{Util}.

(** One call of [hash_put], with the growth of the table. *)
Lemma hash_put_step n h key value :
  wf h -> size h < 2 ^ 31 -> key <> NULL ->
  (2 * Z.to_nat (size h) + 2 <= n)%nat ->
  exists b h',
    hash_put n h key value = Some (b, h') /\ wf h' /\
    size h' = (if size h / 2 <=? members h then 2 * size h else size h) /\
    members h' <= members h + 1 /\
    (forall k', lookup (slots h') k'
                = if decide (k' = key) then value else lookup (slots h) k').
Proof.
  intros Hwfl Hlim Hkey Hn. pose proof Hwfl as [Hwf Hload].
  pose proof Hwf as ((p & Hp & Hsz) & Hlk & Hlv & Hm & Hr).
  pose proof (pow2_bounds p Hp) as Hb.
  pose proof (half_lt (size h)) as Hhalf.
  destruct n as [|n]; [lia|].
  destruct (Z.leb_spec (size h / 2) (members h)) as [Hfull|Hfree].
  - rewrite hash_put_resize by done.
    destruct (rebuilt_spec n h Hwfl Hlim ltac:(lia))
      as (h1 & E1 & Hwf1 & Hsz1 & Hm1 & Hl1).
    rewrite E1. simpl.
    rewrite (hash_slot_spec h1 key Hwf1 Hkey). simpl.
    destruct (insert_spec h1 key value n Hwf1)
      as (b & h' & E & Hwf' & Hsz' & Hm' & Hl'); [lia|done|lia|].
    exists b, h'. split; [done|]. split; [|split; [lia|split; [lia|]]].
    + split; [done|]. rewrite Hsz', Hsz1, Z.mul_comm, Z.div_mul by lia.
      assert (size h / 2 + 1 <= size h); [|lia].
      destruct (Z.eq_dec (size h) 1) as [->|]; [done|].
      pose proof (Z.div_le_upper_bound (size h) 2 (size h - 1)). lia.
    + intros k'. by rewrite Hl', Hl1.
  - rewrite hash_put_noresize by done.
    rewrite (hash_slot_spec h key Hwf Hkey). simpl.
    destruct (insert_spec h key value n Hwf)
      as (b & h' & E & Hwf' & Hsz' & Hm' & Hl'); [lia|done|lia|].
    exists b, h'. split; [done|]. split; [|split; [done|split; [lia|done]]].
    split; [done|]. rewrite Hsz'. lia.
Qed.

Lemma hash_apply_holds s0 c n h m op :
  holds s0 c h m -> op_ok op -> 0 <= c -> 1 <= s0 ->
  Z.max s0 (4 * c) < 2 ^ 31 ->
  (2 * Z.to_nat (Z.max s0 (4 * c)) + 2 <= n)%nat ->
  exists h', hash_apply n h op = Some h' /\
             holds s0 (c + 1) h' (map_apply m op).
Proof.
  intros (Hwf & Hm & Hsz & Hl) Hop Hc Hs0 Hlim Hn.
  pose proof Hwf as [Hwf0 Hload].
  pose proof Hwf0 as ((p & Hp & Hp2) & _).
  pose proof (pow2_bounds p Hp) as Hb.
  destruct op as [key value|key]; simpl in Hop; cbn [hash_apply map_apply].
  - destruct (hash_put_step n h key value Hwf ltac:(lia) Hop ltac:(lia))
      as (b & h' & E & Hwf' & Hsz' & Hm' & Hl').
    rewrite E. exists h'. split; [done|].
    split; [done|]. split; [lia|]. split.
    + rewrite Hsz'. destruct (Z.leb_spec (size h / 2) (members h)); [|lia].
      destruct (Z.eq_dec p 0) as [->|Hp0].
      * change (2 ^ 0) with 1 in Hp2. lia.
      * assert (size h = 2 * (size h / 2)); [|lia].
        rewrite Hp2. replace p with (1 + (p - 1)) by lia.
        rewrite Z.pow_add_r by lia. change (2 ^ 1) with 2.
        by rewrite Z.mul_comm, Z.div_mul, Z.mul_comm by lia.
    + intros k Hk. rewrite Hl'.
      destruct (decide (k = key)) as [->|Hne].
      * by rewrite lookup_insert_eq.
      * rewrite lookup_insert_ne by done. by apply Hl.
  - destruct (hash_delete_spec h key n Hwf0 (wf_room h Hwf) Hop ltac:(lia))
      as (h' & E & Hwf' & Hsz' & Hm' & _ & _ & Hl').
    rewrite E. exists h'. split; [done|].
    split; [split; [done|]; rewrite Hsz', Hm'; done|].
    split; [lia|]. split; [lia|].
    intros k Hk. rewrite Hl'.
    destruct (decide (k = key)) as [->|Hne].
    + by rewrite lookup_delete_eq.
    + rewrite lookup_delete_ne by done. by apply Hl.
Qed.

Lemma hash_run_holds s0 n ops : forall c h m,
  holds s0 c h m -> Forall op_ok ops -> 0 <= c -> 1 <= s0 ->
  Z.max s0 (4 * (c + Z.of_nat (length ops))) < 2 ^ 31 ->
  (2 * Z.to_nat (Z.max s0 (4 * (c + Z.of_nat (length ops)))) + 2 <= n)%nat ->
  exists h', hash_run n ops h = Some h' /\
             holds s0 (c + Z.of_nat (length ops)) h' (map_run ops m).
Proof.
  induction ops as [|op ops IH]; intros c h m Hh Hops Hc Hs0 Hlim Hn.
  - exists h. simpl. rewrite Z.add_0_r. done.
  - apply Forall_cons in Hops as [Hop Hops]. cbn [hash_run].
    simpl length in *.
    destruct (hash_apply_holds s0 c n h m op Hh Hop Hc Hs0) as (h1 & E & Hh1);
      [lia|lia|].
    rewrite E. cbn [mbind option_bind].
    destruct (IH (c + 1) h1 (map_apply m op) Hh1 Hops) as (h' & E' & Hh');
      [lia|done| | |].
    { replace (c + 1 + Z.of_nat (length ops))
        with (c + Z.of_nat (S (length ops))) by lia. done. }
    { replace (c + 1 + Z.of_nat (length ops))
        with (c + Z.of_nat (S (length ops))) by lia. done. }
    exists h'. split; [done|].
    replace (c + Z.of_nat (S (length ops)))
      with (c + 1 + Z.of_nat (length ops)) by lia.
    done.
Qed.

(** X27: the pointer hash is a finite map.  With [next_power_of_2] as
    util.c defines it, after any sequence of fewer than 2^29 calls of
    [hash_put] and [hash_delete], with keys other than NULL, on a table
    made by [hash_new] of a size between 1 and 2^30, every call has
    returned and [hash_get] returns for every key what the same sequence
    of insertions and deletions leaves in a map, NULL where the map has
    nothing. *)
Theorem hash_is_a_map sz ops n :
  (forall m, next_power_of_2 m = UtilNum.next_power_of_2 m) ->
  1 <= sz <= 2 ^ 30 -> Forall op_ok ops ->
  Z.of_nat (length ops) < 2 ^ 29 ->
  (2 * Z.to_nat (Z.max (2 * sz) (4 * Z.of_nat (length ops))) + 2 <= n)%nat ->
  exists h,
    hash_run n ops (hash_new sz) = Some h /\
    (forall k, k <> NULL ->
       hash_get n h k = Some (default NULL (map_run ops ∅ !! k))).
Proof.
  intros Hnp Hsz Hops Hlen Hn. unfold hash_new.
  rewrite Hnp, (UtilNumFacts.pow2_round_up sz) by lia.
  set (p := Z.log2_up sz).
  assert (Hp : 0 <= p <= 30).
  { split; [apply Z.log2_up_nonneg|].
    destruct (Z.eq_dec sz 1) as [->|]; [done|].
    apply Z.log2_up_le_pow2; lia. }
  assert (Hb : sz <= 2 ^ p < 2 * sz).
  { destruct (Z.eq_dec sz 1) as [->|]; [done|].
    pose proof (Z.log2_up_spec sz ltac:(lia)) as [Hlo Hhi]. fold p in Hlo, Hhi.
    split; [done|].
    replace p with (Z.succ (Z.pred p)) by lia.
    rewrite Z.pow_succ_r; [lia|].
    assert (0 < p); [|lia]. apply Z.log2_up_pos. lia. }
  set (h0 := Hash _ _ _ _).
  assert (Hh0 : holds (2 ^ p) 0 h0 ∅).
  { split; [|split; [done|split; [simpl; lia|]]].
    - split; [|simpl; apply Z.div_pos; lia].
      split; [exists p; split; [lia|done]|].
      unfold h0. simpl. rewrite !length_replicate.
      split; [done|]. split; [done|].
      rewrite slots_replicate, occ_replicate.
      split; [done | apply reach_replicate].
    - intros k _. unfold h0. by rewrite slots_replicate, lookup_empty. }
  destruct (hash_run_holds (2 ^ p) n ops 0 h0 ∅ Hh0 Hops)
    as (h & E & Hwf & Hm & Hsize & Hl); [lia|lia|lia|lia|].
  exists h. split; [done|]. intros k Hk.
  pose proof Hwf as [Hwf0 _].
  rewrite (hash_get_spec h k n Hwf0 (wf_room h Hwf) Hk) by lia.
  by rewrite Hl.
Qed.

End Run.

Lemma hash_is_a_map_witness :
  exists h,
    @hash_run PtrMore.util_c 34
      [HPut 16 100; HPut 32 200; HDelete 16; HPut 48 300]
      (@hash_new PtrMore.util_c 2) = Some h /\
    (forall k, k <> NULL ->
       @hash_get PtrMore.util_c 34 h k
       = Some (default NULL
                 (map_run [HPut 16 100; HPut 32 200; HDelete 16; HPut 48 300]
                    ∅ !! k))).
Proof.
  apply (@hash_is_a_map PtrMore.util_c 2
           [HPut 16 100; HPut 32 200; HDelete 16; HPut 48 300] 34).
  - intros m. reflexivity.
  - lia.
  - repeat (apply Forall_cons_2; [simpl; unfold NULL; lia|]). apply Forall_nil_2.
  - simpl. lia.
  - simpl. lia.
Defined.

End HashRunFacts.
(* --------------------------------------------------------------------- *)
(** ** The string hash is a finite map                                    *)
(* --------------------------------------------------------------------- *)

Module ShashRunFacts.
Import Common Hash Hash.Str Probe ProbeFacts SeqFacts StrSpec StrFacts ShashRun.
Local Open Scope Z_scope.

Section Run.
Context `{Util}.

Lemma shash_delete_loop_spec h p key :
  size h = 2 ^ p -> 0 <= p <= 31 ->
  forall d j fuel,
  first_hit (pos (size h)) (slots h) key (j + d) -> (d < fuel)%nat ->
  exists k v,
    keys h !! pos (size h) key (j + d) = Some k /\
    values h !! pos (size h) key (j + d) = Some v /\
    (k = Some key \/ k = None) /\
    shash_delete_loop fuel h key (Z.of_nat (pos (size h) key j))
    = Some (if k is Some _
            then SHash (size h) (members h)
                   (<[pos (size h) key (j + d) := NULL]> (values h))
                   (keys h)
            else h).
Proof.
  intros Hsz Hp. induction d as [|d IH]; intros j fuel Hf Hfuel;
    (destruct fuel as [|fuel]; [lia|]); cbn [shash_delete_loop].
  - rewrite Nat.add_0_r in *. destruct Hf as [(s & Es & Ss) _].
    destruct (shash_probe_step h key j s Es) as (k & v & Ek & Ev & -> & Hs & _).
    exists k, v. rewrite <- !get_at_nat. rewrite Ek. simpl.
    split; [done|]. split; [done|]. split; [auto|].
    rewrite !set_at_nat.
    destruct (Hs Ss) as [-> | ->]; [|done].
    by rewrite eqb_refl'.
  - pose proof Hf as [_ Hbefore].
    destruct (Hbefore j ltac:(lia)) as (s & Es & Ss).
    destruct (shash_probe_step h key j s Es) as (k & v & Ek & Ev & -> & _ & Hs).
    destruct (Hs Ss) as (k' & -> & Hk').
    rewrite Ek. simpl. rewrite eqb_ne by done.
    rewrite Hsz, shash_next_slot by done. rewrite <- Hsz.
    replace (j + S d)%nat with (S j + d)%nat in * by lia.
    apply IH; [done|lia].
Qed.

(** [shash_delete] clears the value of the key and nothing else. *)
Lemma shash_delete_spec h key fuel :
  wf0 h -> members h < size h ->
  (Z.to_nat (size h) <= fuel)%nat ->
  exists h',
    shash_delete fuel h key = Some h' /\
    wf0 h' /\ size h' = size h /\ members h' = members h /\
    (forall k', lookup (slots h') k'
                = if decide (k' = key) then NULL else lookup (slots h) k').
Proof.
  intros Hwf Hroom Hfuel.
  destruct (shash_wf0_first_hit h key Hwf Hroom) as (j & Hj & Hf).
  pose proof Hwf as ((p & Hp & Hsz) & Hlk & Hlv & Hm & Hr).
  unfold shash_delete. rewrite (shash_first_slot p h key Hp Hsz).
  destruct (shash_delete_loop_spec h p key Hsz Hp j 0%nat fuel)
    as (k & v & Ek & Ev & Hk & E); [done|lia|].
  change (0 + j)%nat with j in *.
  rewrite E. clear E.
  assert (Hs := shash_slots_lookup h _ k v Ek Ev).
  destruct Hk as [-> | ->].
  - eexists. split; [done|].
    assert (Hsl := shash_slots_set_value h _ _ _ NULL Ek Ev).
    split; [|split; [done|split; [done|]]].
    + split; [by exists p|]. simpl. rewrite length_insert.
      split; [done|]. split; [done|]. rewrite Hsl.
      split; [|by apply put_reach].
      by rewrite (occ_insert _ _ _ _ Hs).
    + intros k'. rewrite Hsl. by apply put_lookup.
  - exists h. split; [done|]. split; [done|]. split; [done|]. split; [done|].
    intros k'. destruct (decide (k' = key)) as [->|]; [|done].
    by rewrite (first_hit_lookup _ _ _ _ _ Hr Hf Hs).
Qed.

(** One call of [shash_put], with the growth of the table. *)
Lemma shash_put_step n h key value :
  wf h -> size h < 2 ^ 31 ->
  (2 * Z.to_nat (size h) <= n)%nat ->
  exists h',
    shash_put n h key value = Some h' /\ wf h' /\
    size h' = (if size h / 2 <=? members h then 2 * size h else size h) /\
    members h' <= members h + 1 /\
    (forall k', lookup (slots h') k'
                = if decide (k' = key) then value else lookup (slots h) k').
Proof.
  intros Hwfl Hlim Hn. pose proof Hwfl as [Hwf Hload].
  pose proof Hwf as ((p & Hp & Hsz) & Hlk & Hlv & Hm & Hr).
  pose proof (pow2_bounds p Hp) as Hb.
  pose proof (half_lt (size h)) as Hhalf.
  destruct (Z.leb_spec (size h / 2) (members h)) as [Hfull|Hfree].
  - rewrite shash_put_resize by done.
    destruct (shash_rebuilt_spec n h Hwfl Hlim ltac:(lia))
      as (h1 & E1 & Hwf1 & Hsz1 & Hm1 & Hl1).
    rewrite E1. simpl.
    destruct (shash_insert_spec h1 key value n Hwf1)
      as (h' & E & Hwf' & Hsz' & Hm' & Hl'); [lia|lia|].
    exists h'. split; [done|]. split; [|split; [lia|split; [lia|]]].
    + split; [done|]. rewrite Hsz', Hsz1, Z.mul_comm, Z.div_mul by lia.
      assert (size h / 2 + 1 <= size h); [|lia].
      destruct (Z.eq_dec (size h) 1) as [->|]; [done|].
      pose proof (Z.div_le_upper_bound (size h) 2 (size h - 1)). lia.
    + intros k'. by rewrite Hl', Hl1.
  - rewrite shash_put_noresize by done.
    destruct (shash_insert_spec h key value n Hwf)
      as (h' & E & Hwf' & Hsz' & Hm' & Hl'); [lia|lia|].
    exists h'. split; [done|]. split; [|split; [done|split; [lia|done]]].
    split; [done|]. rewrite Hsz'. lia.
Qed.

Lemma shash_apply_holds s0 c n h m op :
  sholds s0 c h m -> 0 <= c -> 1 <= s0 ->
  Z.max s0 (4 * c) < 2 ^ 31 ->
  (2 * Z.to_nat (Z.max s0 (4 * c)) + 2 <= n)%nat ->
  exists h', shash_apply n h op = Some h' /\
             sholds s0 (c + 1) h' (smap_apply m op).
Proof.
  intros (Hwf & Hm & Hsz & Hl) Hc Hs0 Hlim Hn.
  pose proof Hwf as [Hwf0 Hload].
  pose proof Hwf0 as ((p & Hp & Hp2) & _).
  pose proof (pow2_bounds p Hp) as Hb.
  destruct op as [key value|key]; cbn [shash_apply smap_apply].
  - destruct (shash_put_step n h key value Hwf ltac:(lia) ltac:(lia))
      as (h' & E & Hwf' & Hsz' & Hm' & Hl').
    rewrite E. exists h'. split; [done|].
    split; [done|]. split; [lia|]. split.
    + rewrite Hsz'. destruct (Z.leb_spec (size h / 2) (members h)); [|lia].
      destruct (Z.eq_dec p 0) as [->|Hp0].
      * change (2 ^ 0) with 1 in Hp2. lia.
      * assert (size h = 2 * (size h / 2)); [|lia].
        rewrite Hp2. replace p with (1 + (p - 1)) by lia.
        rewrite Z.pow_add_r by lia. change (2 ^ 1) with 2.
        by rewrite Z.mul_comm, Z.div_mul, Z.mul_comm by lia.
    + intros k. rewrite Hl'.
      destruct (decide (k = key)) as [->|Hne].
      * by rewrite lookup_insert_eq.
      * rewrite lookup_insert_ne by done. by apply Hl.
  - destruct (shash_delete_spec h key n Hwf0 (shash_wf_room h Hwf) ltac:(lia))
      as (h' & E & Hwf' & Hsz' & Hm' & Hl').
    rewrite E. exists h'. split; [done|].
    split; [split; [done|]; rewrite Hsz', Hm'; done|].
    split; [lia|]. split; [lia|].
    intros k. rewrite Hl'.
    destruct (decide (k = key)) as [->|Hne].
    + by rewrite lookup_delete_eq.
    + rewrite lookup_delete_ne by done. by apply Hl.
Qed.

Lemma shash_run_holds s0 n ops : forall c h m,
  sholds s0 c h m -> 0 <= c -> 1 <= s0 ->
  Z.max s0 (4 * (c + Z.of_nat (length ops))) < 2 ^ 31 ->
  (2 * Z.to_nat (Z.max s0 (4 * (c + Z.of_nat (length ops)))) + 2 <= n)%nat ->
  exists h', shash_run n ops h = Some h' /\
             sholds s0 (c + Z.of_nat (length ops)) h' (smap_run ops m).
Proof.
  induction ops as [|op ops IH]; intros c h m Hh Hc Hs0 Hlim Hn.
  - exists h. simpl. rewrite Z.add_0_r. done.
  - cbn [shash_run]. simpl length in *.
    destruct (shash_apply_holds s0 c n h m op Hh Hc Hs0) as (h1 & E & Hh1);
      [lia|lia|].
    rewrite E. cbn [mbind option_bind].
    destruct (IH (c + 1) h1 (smap_apply m op) Hh1) as (h' & E' & Hh');
      [lia|done| | |].
    { replace (c + 1 + Z.of_nat (length ops))
        with (c + Z.of_nat (S (length ops))) by lia. done. }
    { replace (c + 1 + Z.of_nat (length ops))
        with (c + Z.of_nat (S (length ops))) by lia. done. }
    exists h'. split; [done|].
    replace (c + Z.of_nat (S (length ops)))
      with (c + 1 + Z.of_nat (length ops)) by lia.
    done.
Qed.

(** X28: the string hash is a finite map.  With [next_power_of_2] as
    util.c defines it, after any sequence of fewer than 2^29 calls of
    [shash_put] and [shash_delete] on a table made by [shash_new] of a
    size between 1 and 2^30, every call has returned and [shash_get]
    returns for every key what the same sequence of insertions and
    deletions leaves in a map, NULL where the map has nothing. *)
Theorem shash_is_a_map sz ops n :
  (forall m, next_power_of_2 m = UtilNum.next_power_of_2 m) ->
  1 <= sz <= 2 ^ 30 -> Z.of_nat (length ops) < 2 ^ 29 ->
  (2 * Z.to_nat (Z.max (2 * sz) (4 * Z.of_nat (length ops))) + 2 <= n)%nat ->
  exists h,
    shash_run n ops (shash_new sz) = Some h /\
    (forall k, shash_get n h k = Some (default NULL (smap_run ops ∅ !! k))).
Proof.
  intros Hnp Hsz Hlen Hn. unfold shash_new.
  rewrite Hnp, (UtilNumFacts.pow2_round_up sz) by lia.
  set (p := Z.log2_up sz).
  assert (Hp : 0 <= p <= 30).
  { split; [apply Z.log2_up_nonneg|].
    destruct (Z.eq_dec sz 1) as [->|]; [done|].
    apply Z.log2_up_le_pow2; lia. }
  assert (Hb : sz <= 2 ^ p < 2 * sz).
  { destruct (Z.eq_dec sz 1) as [->|]; [done|].
    pose proof (Z.log2_up_spec sz ltac:(lia)) as [Hlo Hhi]. fold p in Hlo, Hhi.
    split; [done|].
    replace p with (Z.succ (Z.pred p)) by lia.
    rewrite Z.pow_succ_r; [lia|].
    assert (0 < p); [|lia]. apply Z.log2_up_pos. lia. }
  set (h0 := SHash _ _ _ _).
  assert (Hh0 : sholds (2 ^ p) 0 h0 ∅).
  { split; [|split; [done|split; [simpl; lia|]]].
    - split; [|simpl; apply Z.div_pos; lia].
      split; [exists p; split; [lia|done]|].
      unfold h0. simpl. rewrite !length_replicate.
      split; [done|]. split; [done|].
      rewrite shash_slots_replicate, occ_replicate.
      split; [done | apply reach_replicate].
    - intros k. unfold h0. by rewrite shash_slots_replicate, lookup_empty. }
  destruct (shash_run_holds (2 ^ p) n ops 0 h0 ∅ Hh0)
    as (h & E & Hwf & Hm & Hsize & Hl); [lia|lia|lia|lia|].
  exists h. split; [done|]. intros k.
  pose proof Hwf as [Hwf0 _].
  rewrite (shash_get_spec h k n Hwf0 (shash_wf_room h Hwf)) by lia.
  by rewrite Hl.
Qed.

End Run.

Lemma shash_is_a_map_witness :
  exists h,
    @shash_run PtrMore.util_c 34
      [SPut "clk" 100; SPut "rst" 200; SDelete "clk"; SPut "q" 300]
      (@shash_new PtrMore.util_c 2) = Some h /\
    (forall k,
       @shash_get PtrMore.util_c 34 h k
       = Some (default NULL
                 (smap_run [SPut "clk" 100; SPut "rst" 200; SDelete "clk";
                            SPut "q" 300] ∅ !! k))).
Proof.
  apply (@shash_is_a_map PtrMore.util_c 2
           [SPut "clk" 100; SPut "rst" 200; SDelete "clk"; SPut "q" 300] 34).
  - intros m. reflexivity.
  - lia.
  - simpl. lia.
  - simpl. lia.
Defined.

End ShashRunFacts.
(* --------------------------------------------------------------------- *)
(** ** The integer hash is a finite map, cache included                   *)
(* --------------------------------------------------------------------- *)

Module IhashRunFacts.
Import Common Hash Hash.Int Probe ProbeFacts SeqFacts IntSpec IntFacts IhashRun.
Local Open Scope Z_scope.

(** One call of [ihash_put], with the growth of the table. *)
Lemma ihash_put_step n h key value :
  wf h -> size h < 2 ^ 31 ->
  (2 * Z.to_nat (size h) + 2 <= n)%nat ->
  exists h',
    ihash_put n h key value = Some h' /\ wf h' /\
    size h' = (if size h / 2 <=? members h then 2 * size h else size h) /\
    members h' <= members h + 1 /\
    (forall k', lookup (slots h') k'
                = if decide (k' = key) then value else lookup (slots h) k').
Proof.
  intros Hwfl Hlim Hn. pose proof Hwfl as (Hwf & Hload & Hcache).
  pose proof Hwf as ((p & Hp & Hsz) & Hlk & Hlv & Hlm & Hm & Hr).
  pose proof (pow2_bounds p Hp) as Hb.
  pose proof (half_lt (size h)) as Hhalf.
  destruct n as [|n]; [lia|].
  destruct (Z.leb_spec (size h / 2) (members h)) as [Hfull|Hfree].
  - rewrite ihash_put_resize by done.
    destruct (ihash_rebuilt_spec n h Hwf Hload Hlim ltac:(lia))
      as (h1 & E1 & Hwf1 & Hc1 & Hsz1 & Hm1 & Hl1).
    rewrite E1, mbind_Some.
    destruct (store_spec h1 key value n Hwf1)
      as (h' & E & Hwf' & Hc' & Hsz' & Hm' & Hl'); [lia|lia|].
    exists h'. split; [done|]. split; [|split; [lia|split; [lia|]]].
    + split; [done|]. split; [|done].
      rewrite Hsz', Hsz1, Z.mul_comm, Z.div_mul by lia.
      assert (size h / 2 + 1 <= size h); [|lia].
      destruct (Z.eq_dec (size h) 1) as [->|]; [done|].
      pose proof (Z.div_le_upper_bound (size h) 2 (size h - 1)). lia.
    + intros k'. by rewrite Hl', Hl1.
  - rewrite ihash_put_noresize by done.
    destruct (store_spec h key value n Hwf)
      as (h' & E & Hwf' & Hc' & Hsz' & Hm' & Hl'); [lia|lia|].
    exists h'. split; [done|]. split; [|split; [done|split; [lia|done]]].
    split; [done|]. split; [|done]. rewrite Hsz'. lia.
Qed.

Lemma ihash_run_holds s0 n ops : forall c h m,
  iholds s0 c h m -> 0 <= c -> 1 <= s0 ->
  Z.max s0 (4 * (c + Z.of_nat (length ops))) < 2 ^ 31 ->
  (2 * Z.to_nat (Z.max s0 (4 * (c + Z.of_nat (length ops)))) + 2 <= n)%nat ->
  exists h', ihash_run n ops h = Some (imap_run ops m, h').
Proof.
  induction ops as [|op ops IH]; intros c h m Hh Hc Hs0 Hlim Hn.
  - by exists h.
  - simpl length in *. destruct Hh as (Hwf & Hm & Hsz & Hl).
    pose proof Hwf as (Hwf0 & Hload & Hcache).
    pose proof Hwf0 as ((p & Hp & Hp2) & _).
    pose proof (pow2_bounds p Hp) as Hb.
    assert (Hc1 : c + 1 + Z.of_nat (length ops)
                  = c + Z.of_nat (S (length ops))) by lia.
    destruct op as [key value|key]; cbn [ihash_run imap_run].
    + destruct (ihash_put_step n h key value Hwf ltac:(lia) ltac:(lia))
        as (h' & E & Hwf' & Hsz' & Hm' & Hl').
      rewrite E. cbn [mbind option_bind].
      apply (IH (c + 1)); [|lia|done|by rewrite Hc1|by rewrite Hc1].
      split; [done|]. split; [lia|]. split.
      * rewrite Hsz'. destruct (Z.leb_spec (size h / 2) (members h)); [|lia].
        destruct (Z.eq_dec p 0) as [->|Hp0].
        -- change (2 ^ 0) with 1 in Hp2. lia.
        -- assert (size h = 2 * (size h / 2)); [|lia].
           rewrite Hp2. replace p with (1 + (p - 1)) by lia.
           rewrite Z.pow_add_r by lia. change (2 ^ 1) with 2.
           by rewrite Z.mul_comm, Z.div_mul, Z.mul_comm by lia.
      * intros k. rewrite Hl'.
        destruct (decide (k = key)) as [->|Hne].
        -- by rewrite lookup_insert_eq.
        -- rewrite lookup_insert_ne by done. by apply Hl.
    + destruct (ihash_get_spec h key n Hwf0 Hcache (ihash_wf_room h Hwf)
                  ltac:(lia))
        as (h' & E & Hwf' & Hcache' & Hsz' & Hm' & Hsl').
      rewrite E. cbn [mbind option_bind fst snd].
      destruct (IH (c + 1) h' m) as (h2 & E2);
        [|lia|done|by rewrite Hc1|by rewrite Hc1|].
      { split; [split; [done|split; [|done]]; rewrite Hsz', Hm'; done|].
        split; [lia|]. split; [lia|]. intros k. rewrite Hsl'. apply Hl. }
      rewrite E2. cbn [mbind option_bind fst snd]. exists h2.
      by rewrite Hl.
Qed.

(** X29: the integer hash with its one-entry cache is a finite map.  With
    [next_power_of_2] as util.c defines it, take a table made by
    [ihash_new] of a size between 1 and 2^30, whatever the cache fields
    that [ihash_new] does not initialise hold, and any sequence of fewer
    than 2^29 calls of [ihash_put] and [ihash_get].  Every call returns,
    and every [ihash_get] returns what a map holds for the key after the
    insertions made before it, NULL where it holds nothing: the cache
    never answers with a stale or an uninitialised value. *)
Theorem ihash_is_a_map `{Util} sz junk_key junk_val ops n :
  (forall m, next_power_of_2 m = UtilNum.next_power_of_2 m) ->
  1 <= sz <= 2 ^ 30 -> Z.of_nat (length ops) < 2 ^ 29 ->
  (2 * Z.to_nat (Z.max (2 * sz) (4 * Z.of_nat (length ops))) + 2 <= n)%nat ->
  exists h,
    ihash_run n ops (ihash_new sz junk_key junk_val)
    = Some (imap_run ops ∅, h).
Proof.
  intros Hnp Hsz Hlen Hn. unfold ihash_new.
  rewrite Hnp, (UtilNumFacts.pow2_round_up sz) by lia.
  set (p := Z.log2_up sz).
  assert (Hp : 0 <= p <= 30).
  { split; [apply Z.log2_up_nonneg|].
    destruct (Z.eq_dec sz 1) as [->|]; [done|].
    apply Z.log2_up_le_pow2; lia. }
  assert (Hb : sz <= 2 ^ p < 2 * sz).
  { destruct (Z.eq_dec sz 1) as [->|]; [done|].
    pose proof (Z.log2_up_spec sz ltac:(lia)) as [Hlo Hhi]. fold p in Hlo, Hhi.
    split; [done|].
    replace p with (Z.succ (Z.pred p)) by lia.
    rewrite Z.pow_succ_r; [lia|].
    assert (0 < p); [|lia]. apply Z.log2_up_pos. lia. }
  set (h0 := IHash _ _ _ _ _ _ _).
  assert (Hsl0 : slots h0 = replicate (Z.to_nat (2 ^ p)) None)
    by apply slots_empty.
  apply (ihash_run_holds (2 ^ p) n ops 0 h0 ∅); [|lia|lia|lia|lia].
  split; [|split; [done|split; [simpl; lia|]]].
  - split; [|split; [simpl; apply Z.div_pos; lia|]].
    + split; [exists p; split; [lia|done]|].
      rewrite Hsl0. unfold h0. simpl. rewrite !length_replicate.
      split; [done|]. split; [done|].
      split; [change (63 / 64) with 0; lia|].
      rewrite occ_replicate. split; [done | apply reach_replicate].
    + intros Hm. simpl in Hm. lia.
  - intros k. by rewrite Hsl0, lookup_empty.
Qed.

Lemma ihash_is_a_map_witness :
  exists h,
    ihash_run 58
      [IGet 5; IPut 5 50; IGet 5; IPut 7 70; IGet 7; IGet 5; IGet 9]
      (@ihash_new PtrMore.util_c 2 5 999)
    = Some (imap_run
              [IGet 5; IPut 5 50; IGet 5; IPut 7 70; IGet 7; IGet 5; IGet 9]
              ∅, h).
Proof.
  apply (@ihash_is_a_map PtrMore.util_c 2 5 999
           [IGet 5; IPut 5 50; IGet 5; IPut 7 70; IGet 7; IGet 5; IGet 9] 58).
  - intros m. reflexivity.
  - lia.
  - simpl. lia.
  - simpl. lia.
Defined.

End IhashRunFacts.
